(** * Range analysis: interval lattice and constraint graph

    A shallow embedding of [trunk/src/RangeAnalysis/RangeAnalysis.cpp]:
    the saturating interval lattice ([Range]), the operations of the
    constraint graph ([BasicOp] and its variants), the graph builder and
    the parts of the solver that walk the use map. *)

From Stdlib Require Import ZArith Lia Bool List Ascii String.
From stdpp Require Import gmap list strings.

Local Open Scope Z_scope.

(** ** Fixed-width integers

    LLVM's [APInt] at one fixed bit width, the analysis width
    [MAX_BIT_INT].  A value is kept as the signed reading of its bit
    pattern, a [Z] in [[-2^(W-1), 2^(W-1) - 1]]; every operation wraps its
    exact result back into that window.  LLVM integer types have at least
    one bit, hence [W : positive]. *)
Module APInt.

(** [sext] to a wider type keeps the signed reading. *)
Definition sext (x : Z) : Z := x.

Section Width.
Variable W : positive.

Definition modulus : Z := 2 ^ Z.pos W.
Definition half : Z := 2 ^ (Z.pos W - 1).

Definition getSignedMinValue : Z := - half.
Definition getSignedMaxValue : Z := half - 1.

(** The unsigned reading of the bit pattern ([getZExtValue]). *)
Definition getZExtValue (x : Z) : Z := x mod modulus.

(** The signed reading of the low [W] bits of [z]. *)
Definition wrap (z : Z) : Z :=
  let r := z mod modulus in if r <? half then r else r - modulus.

Definition eq (x y : Z) : bool := x =? y.
Definition ne (x y : Z) : bool := negb (x =? y).
Definition slt (x y : Z) : bool := x <? y.
Definition sgt (x y : Z) : bool := x >? y.
Definition sle (x y : Z) : bool := x <=? y.
Definition sge (x y : Z) : bool := x >=? y.
Definition isNegative (x : Z) : bool := x <? 0.

Definition smin (x y : Z) : Z := if slt x y then x else y.
Definition smax (x y : Z) : Z := if sgt x y then x else y.

Definition add (x y : Z) : Z := wrap (x + y).
Definition sub (x y : Z) : Z := wrap (x - y).
Definition mul (x y : Z) : Z := wrap (x * y).

(** Division and remainder.  LLVM asserts a non-zero divisor; the
    callers below guard for it. *)
Definition udiv (x y : Z) : Z := wrap (getZExtValue x / getZExtValue y).
Definition sdiv (x y : Z) : Z := wrap (Z.quot x y).
Definition urem (x y : Z) : Z := wrap (getZExtValue x mod getZExtValue y).
Definition srem (x y : Z) : Z := wrap (Z.rem x y).

(** [getLimitedValue(BitWidth)]: the unsigned shift amount, clamped to
    the width. *)
Definition getLimitedValue (x : Z) : Z := Z.min (getZExtValue x) (Z.pos W).

Definition shl (x y : Z) : Z :=
  wrap (Z.shiftl (getZExtValue x) (getLimitedValue y)).
Definition lshr (x y : Z) : Z :=
  wrap (Z.shiftr (getZExtValue x) (getLimitedValue y)).
(** [APInt::ashr] of the LLVM releases this code is written for: when
    every bit is shifted out, a value of one word (a width of at most 64
    bits) gives zero whatever its sign; a wider value gives its sign. *)
Definition ashr (x y : Z) : Z :=
  let shiftAmt := getLimitedValue y in
  if (shiftAmt =? Z.pos W) && (Z.pos W <=? 64) then 0
  else wrap (Z.shiftr x shiftAmt).

Definition And (x y : Z) : Z := wrap (Z.land x y).
Definition Or (x y : Z) : Z := wrap (Z.lor x y).
Definition Xor (x y : Z) : Z := wrap (Z.lxor x y).

(** A well-formed [W]-bit value. *)
Definition valid (x : Z) : Prop :=
  getSignedMinValue <= x <= getSignedMaxValue.
End Width.
End APInt.

(** ** Range *)

Inductive RangeType := Unknown | Regular | Empty.

Definition RangeType_eqb (s t : RangeType) : bool :=
  match s, t with
  | Unknown, Unknown | Regular, Regular | Empty, Empty => true
  | _, _ => false
  end.

(** [Range(lb, ub, rType)]: the members [l], [u] and [type]. *)
Record Range := MkRange { getLower : Z; getUpper : Z; getType : RangeType }.

Section Lattice.
Variable MAX_BIT_INT : positive.

(** The sentinels of [updateMinMax]. *)
Definition Min : Z := APInt.getSignedMinValue MAX_BIT_INT.
Definition Max : Z := APInt.getSignedMaxValue MAX_BIT_INT.
Definition Zero : Z := 0.

(** [Range(lb, ub)], with the default [rType = Regular]. *)
Definition RangeR (lb ub : Z) : Range := MkRange lb ub Regular.

Definition isUnknown (r : Range) : bool := RangeType_eqb (getType r) Unknown.
Definition isRegular (r : Range) : bool := RangeType_eqb (getType r) Regular.
Definition isEmpty (r : Range) : bool := RangeType_eqb (getType r) Empty.

Definition isMaxRange (r : Range) : bool :=
  APInt.eq (getLower r) Min && APInt.eq (getUpper r) Max.

(** [Range::operator==] and [operator!=]. *)
Definition Range_eqb (r other : Range) : bool :=
  RangeType_eqb (getType r) (getType other)
  && APInt.eq (getLower r) (getLower other)
  && APInt.eq (getUpper r) (getUpper other).

Definition Range_neqb (r other : Range) : bool :=
  negb (RangeType_eqb (getType r) (getType other))
  || APInt.ne (getLower r) (getLower other)
  || APInt.ne (getUpper r) (getUpper other).

Definition add (this other : Range) : Range :=
  let l :=
    if APInt.ne (getLower this) Min && APInt.ne (getLower other) Min
    then APInt.add MAX_BIT_INT (getLower this) (getLower other) else Min in
  let u :=
    if APInt.ne (getUpper this) Max && APInt.ne (getUpper other) Max
    then APInt.add MAX_BIT_INT (getUpper this) (getUpper other) else Max in
  RangeR l u.

Definition sub (this other : Range) : Range :=
  let a := getLower this in
  let b := getUpper this in
  let c := getLower other in
  let d := getUpper other in
  let l := if APInt.eq a Min || APInt.eq d Max then Min
           else APInt.sub MAX_BIT_INT a d in
  let u := if APInt.eq b Max || APInt.eq c Min then Max
           else APInt.sub MAX_BIT_INT b c in
  RangeR l u.

(** The macro [MUL_HELPER(x, y)]. *)
Definition MUL_HELPER (x y : Z) : Z :=
  if APInt.eq x Max then
    (if APInt.slt y Zero then Min else if APInt.eq y Zero then Zero else Max)
  else if APInt.eq y Max then
    (if APInt.slt x Zero then Min else if APInt.eq x Zero then Zero else Max)
  else if APInt.eq x Min then
    (if APInt.slt y Zero then Max else if APInt.eq y Zero then Zero else Min)
  else if APInt.eq y Min then
    (if APInt.slt x Zero then Max else if APInt.eq x Zero then Zero else Min)
  else APInt.mul MAX_BIT_INT x y.

(** One round of the selection loop of [Range::mul]: the running
    minimum and maximum against [candidates[i]]. *)
Definition mul_select (mm : Z * Z) (cand : Z) : Z * Z :=
  let '(min, max) := mm in
  if APInt.sgt cand max then (min, cand)
  else if APInt.slt cand min then (cand, max)
  else (min, max).

Definition mul (this other : Range) : Range :=
  if isMaxRange this || isMaxRange other then RangeR Min Max
  else
    let a := getLower this in
    let b := getUpper this in
    let c := getLower other in
    let d := getUpper other in
    let candidates :=
      [MUL_HELPER a c; MUL_HELPER a d; MUL_HELPER b c; MUL_HELPER b d] in
    let '(min, max) :=
      fold_left mul_select (tl candidates) (MUL_HELPER a c, MUL_HELPER a c) in
    RangeR min max.

(** The four guarded corner computations that [udiv], [sdiv], [urem],
    [srem], [shl], [lshr], [ashr], [And], [Or] and [Xor] repeat verbatim:
    a corner is computed only when neither of its operands is the
    matching sentinel (and, for [udiv] and [sdiv], when the divisor bound
    passes [nz]); otherwise it keeps its initial sentinel. *)
Definition corners (f : Z -> Z -> Z) (nz : Z -> bool)
    (this other : Range) : Range :=
  let ll :=
    if APInt.ne (getLower this) Min && APInt.ne (getLower other) Min
       && nz (getLower other)
    then f (getLower this) (getLower other) else Min in
  let lu :=
    if APInt.ne (getLower this) Min && APInt.ne (getUpper other) Max
       && nz (getUpper other)
    then f (getLower this) (getUpper other) else Min in
  let ul :=
    if APInt.ne (getUpper this) Max && APInt.ne (getLower other) Min
       && nz (getLower other)
    then f (getUpper this) (getLower other) else Max in
  let uu :=
    if APInt.ne (getUpper this) Max && APInt.ne (getUpper other) Max
       && nz (getUpper other)
    then f (getUpper this) (getUpper other) else Max in
  let l := if APInt.slt ll lu then ll else lu in
  let u := if APInt.sgt uu ul then uu else ul in
  RangeR l u.

(** [other.getX().ne(APInt::getNullValue(MAX_BIT_INT))] *)
Definition nonNull (d : Z) : bool := APInt.ne d 0.
Definition unguarded (d : Z) : bool := true.

Definition udiv (this other : Range) : Range :=
  corners (APInt.udiv MAX_BIT_INT) nonNull this other.

Definition sdiv (this other : Range) : Range :=
  corners (APInt.sdiv MAX_BIT_INT) nonNull this other.

Definition urem (this other : Range) : Range :=
  if APInt.eq (getLower other) Zero || APInt.eq (getUpper other) Zero
  then RangeR Min Max
  else corners (APInt.urem MAX_BIT_INT) unguarded this other.

Definition srem (this other : Range) : Range :=
  if APInt.eq (getLower other) Zero || APInt.eq (getUpper other) Zero
  then RangeR Min Max
  else if Range_eqb other (RangeR Zero Zero)
          || Range_eqb other (MkRange Min Max Empty)
  then MkRange Min Max Empty
  else if (APInt.slt (getLower other) Zero && APInt.sgt (getUpper other) Zero)
          || APInt.eq (getLower other) Zero
          || APInt.eq (getUpper other) Zero
  then RangeR Min Max
  else corners (APInt.srem MAX_BIT_INT) unguarded this other.

Definition shl (this other : Range) : Range :=
  corners (APInt.shl MAX_BIT_INT) unguarded this other.

Definition lshr (this other : Range) : Range :=
  if APInt.isNegative (getLower this) || APInt.isNegative (getUpper this)
  then RangeR Zero Max
  else corners (APInt.lshr MAX_BIT_INT) unguarded this other.

Definition ashr (this other : Range) : Range :=
  corners (APInt.ashr MAX_BIT_INT) unguarded this other.

Definition And (this other : Range) : Range :=
  corners (APInt.And MAX_BIT_INT) unguarded this other.

Definition Or (this other : Range) : Range :=
  if isUnknown this || isUnknown other then MkRange Min Max Unknown
  else corners (APInt.Or MAX_BIT_INT) unguarded this other.

Definition Xor (this other : Range) : Range :=
  corners (APInt.Xor MAX_BIT_INT) unguarded this other.

(** [APInt::getSignedMaxValue(bitwidth)] and [getSignedMinValue], sign
    extended to the analysis width when [bitwidth < MAX_BIT_INT].  A
    width of zero bits (a [void] sink) has no bounds in LLVM; it is read
    here as the one-value range of zero. *)
Definition maxupper (bitwidth : N) : Z :=
  match bitwidth with
  | N0 => 0
  | Npos w => APInt.getSignedMaxValue w
  end.
Definition maxlower (bitwidth : N) : Z :=
  match bitwidth with
  | N0 => 0
  | Npos w => APInt.getSignedMinValue w
  end.

Definition truncate (this : Range) (bitwidth : N) : Range :=
  if APInt.sge (getLower this) (maxlower bitwidth)
     && APInt.sle (getUpper this) (maxupper bitwidth)
  then this
  else RangeR (maxlower bitwidth) (maxupper bitwidth).

Definition sextOrTrunc (this : Range) (bitwidth : N) : Range :=
  truncate this bitwidth.

Definition zextOrTrunc (this : Range) (bitwidth : N) : Range :=
  RangeR (maxlower bitwidth) (maxupper bitwidth).

Definition intersectWith (this other : Range) : Range :=
  if isEmpty this || isEmpty other then MkRange Min Max Empty
  else if isUnknown this then other
  else if isUnknown other then this
  else
    let l := if APInt.sgt (getLower this) (getLower other)
             then getLower this else getLower other in
    let u := if APInt.slt (getUpper this) (getUpper other)
             then getUpper this else getUpper other in
    RangeR l u.

Definition unionWith (this other : Range) : Range :=
  if isEmpty this then other
  else if isEmpty other then this
  else if isUnknown this then other
  else if isUnknown other then this
  else
    let l := if APInt.slt (getLower this) (getLower other)
             then getLower this else getLower other in
    let u := if APInt.sgt (getUpper this) (getUpper other)
             then getUpper this else getUpper other in
    RangeR l u.

End Lattice.


(** ** The IR, as far as the analysis reads it *)

(** An IR value: a [ConstantInt] with its type's width and its (signed)
    value, or any other value (instruction, argument), identified by [id],
    with its name and the primitive size in bits of its type (zero for
    [void] and pointers). *)
Inductive Value :=
  | ConstantInt (bits : positive) (val : Z)
  | Inst (id : positive) (name : string) (bits : N).

Global Instance Value_eq_dec : EqDecision Value.
Proof. solve_decision. Defined.

Global Instance Value_countable : Countable Value.
Proof.
  apply (inj_countable'
    (fun v => match v with
              | ConstantInt b z => inl (b, z)
              | Inst i n b => inr (i, n, b)
              end)
    (fun e => match e with
              | inl (b, z) => ConstantInt b z
              | inr (i, n, b) => Inst i n b
              end)).
  intros []; reflexivity.
Defined.

Definition getName (v : Value) : string :=
  match v with
  | ConstantInt _ _ => EmptyString
  | Inst _ n _ => n
  end.

Definition getPrimitiveSizeInBits (v : Value) : N :=
  match v with
  | ConstantInt b _ => Npos b
  | Inst _ _ b => b
  end.

(** [dyn_cast<ConstantInt>(V)] *)
Definition isConstantInt (v : Value) : bool :=
  match v with
  | ConstantInt _ _ => true
  | Inst _ _ _ => false
  end.

(** String used to identify sigmas. *)
Definition sigmaString : string := "vSSA_sigma".

Definition BasicBlock := positive.

Module Instruction.
Inductive Opcode :=
  | PHI | Add | Sub | Mul | UDiv | SDiv | URem | SRem
  | Shl | LShr | AShr | And | Or | Xor
  | Trunc | ZExt | SExt | Load | Store
  | Call | Other.
End Instruction.

Inductive TypeKind := IntegerTy | PointerTy | VoidTy | OtherTy.

(** [CmpInst::Predicate], the integer predicates. *)
Inductive Predicate :=
  | ICMP_EQ | ICMP_NE
  | ICMP_UGT | ICMP_UGE | ICMP_ULT | ICMP_ULE
  | ICMP_SGT | ICMP_SGE | ICMP_SLT | ICMP_SLE.

Record Instruction := {
  asValue : Value;
  getOpcode : Instruction.Opcode;
  getOperands : list Value;
  getParent : BasicBlock;
  getTypeKind : TypeKind
}.

Definition ops_isBinaryOp (oc : Instruction.Opcode) : bool :=
  match oc with
  | Instruction.Add | Instruction.Sub | Instruction.Mul
  | Instruction.UDiv | Instruction.SDiv | Instruction.URem
  | Instruction.SRem | Instruction.Shl | Instruction.LShr
  | Instruction.AShr | Instruction.And | Instruction.Or
  | Instruction.Xor => true
  | _ => false
  end.

(** Selects the instructions that we are going to evaluate. *)
Definition isValidInstruction (I : Instruction) : bool :=
  match getOpcode I with
  | Instruction.Call | Instruction.Other => false
  | _ => true
  end.

(** ** Intervals of operations, nodes and operations *)

Inductive BasicInterval :=
  | BasicItv (range : Range)
  | SymbInterval (range : Range) (bound : Value) (pred : Predicate).

Definition BasicInterval_getRange (bi : BasicInterval) : Range :=
  match bi with
  | BasicItv r => r
  | SymbInterval r _ _ => r
  end.

(** A [VarNode]: the value it stands for and its current interval.  (The
    [abstractState] character of the crop phase is left out.) *)
Record VarNode := MkVarNode { getValue : Value; getRange : Range }.

(** The address of an operation object allocated by [new]. *)
Definition OpRef := positive.

(** The variants of [BasicOp].  Sinks and sources are [VarNode] pointers
    in the code; a [VarNode] is owned by the graph's [vars] map under its
    value, which is what the model stores. *)
Inductive BasicOp :=
  | UnaryOp (intersect : BasicInterval) (sink : Value) (source : Value)
      (opcode : Instruction.Opcode)
  | SigmaOp (intersect : BasicInterval) (sink : Value) (source : Value)
      (opcode : Instruction.Opcode) (unresolved : bool)
  | BinaryOp (intersect : BasicInterval) (sink : Value)
      (source1 source2 : Value) (opcode : Instruction.Opcode)
  | PhiOp (intersect : BasicInterval) (sink : Value) (sources : list Value)
      (opcode : Instruction.Opcode)
  | ControlDep (intersect : BasicInterval) (sink : Value) (source : Value).

Definition getIntersect (op : BasicOp) : BasicInterval :=
  match op with
  | UnaryOp i _ _ _ | SigmaOp i _ _ _ _ | BinaryOp i _ _ _ _
  | PhiOp i _ _ _ | ControlDep i _ _ => i
  end.

Definition getSink (op : BasicOp) : Value :=
  match op with
  | UnaryOp _ s _ _ | SigmaOp _ s _ _ _ | BinaryOp _ s _ _ _
  | PhiOp _ s _ _ | ControlDep _ s _ => s
  end.

(** [PhiOp::addSource]: [sources.push_back(newsrc)]. *)
Definition addSource (op : BasicOp) (newsrc : Value) : BasicOp :=
  match op with
  | PhiOp i s srcs oc => PhiOp i s (srcs ++ [newsrc]) oc
  | _ => op
  end.

(** The values an operation reads. *)
Definition getSources (op : BasicOp) : list Value :=
  match op with
  | UnaryOp _ _ src _ | SigmaOp _ _ src _ _ | ControlDep _ _ src => [src]
  | BinaryOp _ _ s1 s2 _ => [s1; s2]
  | PhiOp _ _ srcs _ => srcs
  end.

Definition isUnaryOp (op : BasicOp) : bool :=
  match op with
  | UnaryOp _ _ _ _ | SigmaOp _ _ _ _ _ => true
  | _ => false
  end.

Definition isControlDep (op : BasicOp) : bool :=
  match op with
  | ControlDep _ _ _ => true
  | _ => false
  end.

(** ** Faults

    What the C++ leaves undefined: dereferencing the [end()] iterator of a
    map after an unchecked [find], reading a vector out of range, or
    following a pointer to an object the graph does not hold.  [OutOfFuel]
    belongs to the model alone: loops run on a fuel that the callers size
    so that it is never exhausted. *)
Inductive Fault :=
  | NoUseMapEntry (v : Value)
  | NoCompUseMapEntry (v : Value)
  | NoVarsEntry (v : Value)
  | NoVarNode (v : Value)
  | NoOperation (op : OpRef)
  | NoSource
  | NoOperand
  | ArityMismatch
  | OutOfFuel.

Definition Result (A : Type) : Type := Fault + A.

Definition ret {A} (a : A) : Result A := inr a.
Definition fault {A} (f : Fault) : Result A := inl f.

Definition bind {A B} (m : Result A) (k : A -> Result B) : Result B :=
  match m with
  | inl f => inl f
  | inr a => k a
  end.

Notation "'let*' x ':=' m 'in' k" := (bind m (fun x => k))
  (at level 10, x pattern, m at level 100, k at level 200).

(** [find(k)->second], unchecked. *)
Definition deref {K A} `{Countable K} (m : gmap K A) (k : K) (f : Fault)
    : Result A :=
  match m !! k with
  | Some a => ret a
  | None => fault f
  end.

Fixpoint foldM {A S} (step : S -> A -> Result S) (l : list A) (s : S)
    : Result S :=
  match l with
  | [] => ret s
  | a :: l' => let* s' := step s a in foldM step l' s'
  end.

(** ** Evaluation of operations *)

Section Eval.
Variable MAX_BIT_INT : positive.

Local Abbreviation Min := (Min MAX_BIT_INT).
Local Abbreviation Max := (Max MAX_BIT_INT).

(** [SymbInterval::fixIntersects(bound, sink)], on the two ranges. *)
Definition SymbInterval_fixIntersects (pred : Predicate)
    (bound sink : Range) : Range :=
  let l := getLower bound in
  let u := getUpper bound in
  let lower := getLower sink in
  let upper := getUpper sink in
  match pred with
  | ICMP_EQ => RangeR l u
  | ICMP_SLE => RangeR lower u
  | ICMP_SLT =>
      if APInt.ne u Max then RangeR lower (APInt.sub MAX_BIT_INT u 1)
      else RangeR lower u
  | ICMP_SGE => RangeR l upper
  | ICMP_SGT =>
      if APInt.ne l Min then RangeR (APInt.add MAX_BIT_INT l 1) upper
      else RangeR l upper
  | _ => RangeR Min Max
  end.

(** [UnaryOp::eval], given the range of the source, the width [bw] of the
    sink's type and the range of the intersect. *)
Definition UnaryOp_eval (opcode : Instruction.Opcode) (bw : N)
    (intersect oprnd : Range) : Range :=
  let result :=
    if isRegular oprnd then
      match opcode with
      | Instruction.Trunc => truncate oprnd bw
      | Instruction.ZExt => zextOrTrunc oprnd bw
      | Instruction.SExt => sextOrTrunc oprnd bw
      | _ => oprnd
      end
    else if isEmpty oprnd then MkRange Min Max Empty
    else MkRange Min Max Unknown in
  if negb (isMaxRange MAX_BIT_INT intersect)
  then intersectWith MAX_BIT_INT result intersect
  else result.

(** [SigmaOp::eval] *)
Definition SigmaOp_eval (intersect source : Range) : Range :=
  intersectWith MAX_BIT_INT source intersect.

(** The [switch] of [BinaryOp::eval]. *)
Definition BinaryOp_apply (opcode : Instruction.Opcode) (op1 op2 : Range)
    : Range :=
  match opcode with
  | Instruction.Add => add MAX_BIT_INT op1 op2
  | Instruction.Sub => sub MAX_BIT_INT op1 op2
  | Instruction.Mul => mul MAX_BIT_INT op1 op2
  | Instruction.UDiv => udiv MAX_BIT_INT op1 op2
  | Instruction.SDiv => sdiv MAX_BIT_INT op1 op2
  | Instruction.URem => urem MAX_BIT_INT op1 op2
  | Instruction.SRem => srem MAX_BIT_INT op1 op2
  | Instruction.Shl => shl MAX_BIT_INT op1 op2
  | Instruction.LShr => lshr MAX_BIT_INT op1 op2
  | Instruction.AShr => ashr MAX_BIT_INT op1 op2
  | Instruction.And => And MAX_BIT_INT op1 op2
  | Instruction.Or => Or MAX_BIT_INT op1 op2
  | Instruction.Xor => Xor MAX_BIT_INT op1 op2
  | _ => MkRange Min Max Unknown
  end.

(** [BinaryOp::eval], given the ranges of the two sources and of the
    intersect. *)
Definition BinaryOp_eval (opcode : Instruction.Opcode)
    (intersect op1 op2 : Range) : Range :=
  if isRegular op1 && isRegular op2 then
    let result := BinaryOp_apply opcode op1 op2 in
    let result :=
      if APInt.sgt (getLower result) (getUpper result)
      then RangeR Min Max else result in
    let test := isMaxRange MAX_BIT_INT intersect in
    if negb test then intersectWith MAX_BIT_INT result intersect
    else result
  else if isEmpty op1 || isEmpty op2 then MkRange Min Max Empty
  else MkRange Min Max Unknown.

(** [PhiOp::eval], given the ranges of the sources in order:
    [getSource(0)] is read unchecked, the loop joins the others. *)
Definition PhiOp_eval (sources : list Range) : Result Range :=
  match sources with
  | [] => fault NoSource
  | first :: rest =>
      ret (fold_left (fun result src => unionWith result src) rest first)
  end.

(** [ControlDep::eval] *)
Definition ControlDep_eval : Range := RangeR Min Max.

(** [VarNode::init(outside)] *)
Definition VarNode_init (node : VarNode) (outside : bool) : VarNode :=
  match getValue node with
  | ConstantInt bits val =>
      let tmp := if (Z.pos bits <? Z.pos MAX_BIT_INT)
                 then APInt.sext val else val in
      MkVarNode (getValue node) (RangeR tmp tmp)
  | _ =>
      if negb outside
      then MkVarNode (getValue node) (MkRange Min Max Unknown)
      else MkVarNode (getValue node) (RangeR Min Max)
  end.
End Eval.

(** ** The constraint graph *)

Record ValueBranchMap := {
  getBBTrue : BasicBlock;
  getBBFalse : BasicBlock;
  getItvT : BasicInterval;
  getItvF : BasicInterval
}.

(** [BBsuccs], the (interval, successor) pairs of a switch. *)
Definition ValueSwitchMap := list (BasicInterval * BasicBlock).

(** The members of [ConstraintGraph].  Operations are objects on the heap,
    held by address in [oprs], [defMap], [useMap] and [symbMap]; [heap]
    maps the addresses handed out by [new] to the objects and [nextRef] is
    the next free address. *)
Record ConstraintGraph := MkGraph {
  vars : gmap Value VarNode;
  oprs : gset OpRef;
  defMap : gmap Value OpRef;
  useMap : gmap Value (gset OpRef);
  symbMap : gmap Value (gset OpRef);
  valuesBranchMap : gmap Value ValueBranchMap;
  valuesSwitchMap : gmap Value ValueSwitchMap;
  heap : gmap OpRef BasicOp;
  nextRef : OpRef
}.

Definition emptyGraph : ConstraintGraph :=
  MkGraph ∅ ∅ ∅ ∅ ∅ ∅ ∅ ∅ 1%positive.

Definition set_vars (g : ConstraintGraph) (m : gmap Value VarNode) :=
  MkGraph m (oprs g) (defMap g) (useMap g) (symbMap g) (valuesBranchMap g)
    (valuesSwitchMap g) (heap g) (nextRef g).
Definition set_oprs (g : ConstraintGraph) (m : gset OpRef) :=
  MkGraph (vars g) m (defMap g) (useMap g) (symbMap g) (valuesBranchMap g)
    (valuesSwitchMap g) (heap g) (nextRef g).
Definition set_defMap (g : ConstraintGraph) (m : gmap Value OpRef) :=
  MkGraph (vars g) (oprs g) m (useMap g) (symbMap g) (valuesBranchMap g)
    (valuesSwitchMap g) (heap g) (nextRef g).
Definition set_useMap (g : ConstraintGraph) (m : gmap Value (gset OpRef)) :=
  MkGraph (vars g) (oprs g) (defMap g) m (symbMap g) (valuesBranchMap g)
    (valuesSwitchMap g) (heap g) (nextRef g).
Definition set_symbMap (g : ConstraintGraph) (m : gmap Value (gset OpRef)) :=
  MkGraph (vars g) (oprs g) (defMap g) (useMap g) m (valuesBranchMap g)
    (valuesSwitchMap g) (heap g) (nextRef g).
Definition set_valuesBranchMap (g : ConstraintGraph)
    (m : gmap Value ValueBranchMap) :=
  MkGraph (vars g) (oprs g) (defMap g) (useMap g) (symbMap g) m
    (valuesSwitchMap g) (heap g) (nextRef g).
Definition set_valuesSwitchMap (g : ConstraintGraph)
    (m : gmap Value ValueSwitchMap) :=
  MkGraph (vars g) (oprs g) (defMap g) (useMap g) (symbMap g)
    (valuesBranchMap g) m (heap g) (nextRef g).
Definition set_heap (g : ConstraintGraph) (m : gmap OpRef BasicOp) :=
  MkGraph (vars g) (oprs g) (defMap g) (useMap g) (symbMap g)
    (valuesBranchMap g) (valuesSwitchMap g) m (nextRef g).

(** [new]: the object is stored at the next free address. *)
Definition new (g : ConstraintGraph) (op : BasicOp) : OpRef * ConstraintGraph :=
  (nextRef g,
   MkGraph (vars g) (oprs g) (defMap g) (useMap g) (symbMap g)
     (valuesBranchMap g) (valuesSwitchMap g) (<[nextRef g := op]> (heap g))
     (Pos.succ (nextRef g))).

(** [map.insert(std::make_pair(k, v))]: an existing entry is kept. *)
Definition map_insert_new {K A} `{Countable K} (k : K) (a : A)
    (m : gmap K A) : gmap K A :=
  match m !! k with
  | Some _ => m
  | None => <[k := a]> m
  end.

(** [map[k]], which default-constructs a missing entry. *)
Definition useMap_subscript (m : gmap Value (gset OpRef)) (k : Value)
    : gmap Value (gset OpRef) :=
  map_insert_new k ∅ m.

(** [useMap.find(v)->second.insert(op)] *)
Definition useMap_find_insert (g : ConstraintGraph) (v : Value) (op : OpRef)
    : Result ConstraintGraph :=
  let* uses := deref (useMap g) v (NoUseMapEntry v) in
  ret (set_useMap g (<[v := uses ∪ {[op]}]> (useMap g))).

(** Following an operation pointer. *)
Definition getOp (g : ConstraintGraph) (op : OpRef) : Result BasicOp :=
  deref (heap g) op (NoOperation op).

(** Following a [VarNode] pointer. *)
Definition getVarNode (g : ConstraintGraph) (v : Value) : Result VarNode :=
  deref (vars g) v (NoVarNode v).

(** [node->setRange(r)] *)
Definition setRange (g : ConstraintGraph) (v : Value) (r : Range)
    : Result ConstraintGraph :=
  let* node := getVarNode g v in
  ret (set_vars g (<[v := MkVarNode (getValue node) r]> (vars g))).

Section Graph.
Variable MAX_BIT_INT : positive.

Local Abbreviation Min := (Min MAX_BIT_INT).
Local Abbreviation Max := (Max MAX_BIT_INT).

(** [BasicInterval()], the default intersect [[Min, Max]]. *)
Definition BasicInterval_default : BasicInterval := BasicItv (RangeR Min Max).

(** [ConstraintGraph::getRange]: the lookup in [vars] is commented out
    in the source and only its fall-back [return] is left. *)
Definition ConstraintGraph_getRange (g : ConstraintGraph) (v : Value)
    : Range :=
  MkRange Min Max Unknown.

(** Adds a VarNode to the graph.  The node returned is the one stored
    under [V]. *)
Definition addVarNode (g : ConstraintGraph) (V : Value) : ConstraintGraph :=
  match vars g !! V with
  | Some _ => g
  | None =>
      let g := set_vars g (<[V := MkVarNode V (MkRange Min Max Unknown)]> (vars g)) in
      set_useMap g (map_insert_new V ∅ (useMap g))
  end.

Definition getOperand (I : Instruction) (i : nat) : Result Value :=
  match nth_error (getOperands I) i with
  | Some v => ret v
  | None => fault NoOperand
  end.

(** Adds an UnaryOp in the graph. *)
Definition addUnaryOp (g : ConstraintGraph) (I : Instruction)
    : Result ConstraintGraph :=
  let sink := asValue I in
  let g := addVarNode g sink in
  let finish (g : ConstraintGraph) (source : Value) :=
    let g := addVarNode g source in
    let '(UOp, g) :=
      new g (UnaryOp BasicInterval_default sink source (getOpcode I)) in
    let g := set_oprs g (oprs g ∪ {[UOp]}) in
    let g := set_defMap g (<[sink := UOp]> (defMap g)) in
    useMap_find_insert g source UOp in
  match getOpcode I with
  | Instruction.Store =>
      let* source := getOperand I 1 in finish g source
  | Instruction.Load | Instruction.Trunc | Instruction.ZExt
  | Instruction.SExt =>
      let* source := getOperand I 0 in finish g source
  | _ => ret g
  end.

(** Adds a BinaryOp in the graph. *)
Definition addBinaryOp (g : ConstraintGraph) (I : Instruction)
    : Result ConstraintGraph :=
  let sink := asValue I in
  let g := addVarNode g sink in
  let* source1 := getOperand I 0 in
  let g := addVarNode g source1 in
  let* source2 := getOperand I 1 in
  let g := addVarNode g source2 in
  let '(BOp, g) :=
    new g (BinaryOp BasicInterval_default sink source1 source2 (getOpcode I)) in
  let g := set_oprs g (oprs g ∪ {[BOp]}) in
  let g := set_defMap g (<[sink := BOp]> (defMap g)) in
  let* g := useMap_find_insert g source1 BOp in
  useMap_find_insert g source2 BOp.

(** [phiOp->addSource(source)] on the object at [phiOp], which the code
    holds through a [PhiOp*]. *)
Definition heap_addSource (g : ConstraintGraph) (phiOp : OpRef)
    (source : Value) : Result ConstraintGraph :=
  let* op := getOp g phiOp in
  match op with
  | PhiOp _ _ _ _ =>
      ret (set_heap g (<[phiOp := addSource op source]> (heap g)))
  | _ => fault (NoOperation phiOp)
  end.

(** Add a phi node (actual phi, does not include sigmas). *)
Definition addPhiOp (g : ConstraintGraph) (Phi : Instruction)
    : Result ConstraintGraph :=
  let sink := asValue Phi in
  let g := addVarNode g sink in
  let '(phiOp, g) :=
    new g (PhiOp BasicInterval_default sink [] (getOpcode Phi)) in
  let g := set_oprs g (oprs g ∪ {[phiOp]}) in
  let g := set_defMap g (<[sink := phiOp]> (defMap g)) in
  foldM (fun g operand =>
           let source := operand in
           let g := addVarNode g source in
           let* g := heap_addSource g phiOp source in
           useMap_find_insert g source phiOp)
        (getOperands Phi) g.

(** The body of the loop of [addSigmaOp] for one operand; [BItv] is
    declared outside the loop and keeps its value between rounds.  The
    SigmaOp holds the interval of the map by value here.  In the source it
    holds the map's pointer, so that the sigmas of one operand in one
    block share the interval object and [fixIntersects] on one of them
    also sets the range read through the other; which operations there
    are, what they read and where the maps point does not depend on
    it. *)
Definition addSigmaOp_operand (Sigma : Instruction)
    (st : ConstraintGraph * option BasicInterval) (operand : Value)
    : Result (ConstraintGraph * option BasicInterval) :=
  let '(g, BItv) := st in
  let sink := asValue Sigma in
  let thisbb := getParent Sigma in
  let source := operand in
  let g := addVarNode g source in
  let found :=
    match valuesBranchMap g !! operand with
    | Some VBM =>
        if Pos.eqb thisbb (getBBTrue VBM) then Some (Some (getItvT VBM))
        else if Pos.eqb thisbb (getBBFalse VBM) then Some (Some (getItvF VBM))
        else Some BItv
    | None =>
        match valuesSwitchMap g !! operand with
        | None => None
        | Some VSM =>
            match List.find (fun p => Pos.eqb (snd p) thisbb) VSM with
            | Some p => Some (Some (fst p))
            | None => Some BItv
            end
        end
    end in
  match found with
  | None => ret (g, BItv)
  | Some BItv =>
      let itv := match BItv with
                 | None => BasicInterval_default
                 | Some bi => bi
                 end in
      let '(sigmaOp, g) :=
        new g (SigmaOp itv sink source (getOpcode Sigma) false) in
      let g := set_oprs g (oprs g ∪ {[sigmaOp]}) in
      let g := set_defMap g (<[sink := sigmaOp]> (defMap g)) in
      let* g := useMap_find_insert g source sigmaOp in
      ret (g, BItv)
  end.

Definition addSigmaOp (g : ConstraintGraph) (Sigma : Instruction)
    : Result ConstraintGraph :=
  let g := addVarNode g (asValue Sigma) in
  let* st := foldM (addSigmaOp_operand Sigma) (getOperands Sigma) (g, None) in
  ret (fst st).

Definition buildOperations (g : ConstraintGraph) (I : Instruction)
    : Result ConstraintGraph :=
  if ops_isBinaryOp (getOpcode I) then addBinaryOp g I
  else
    match getOpcode I with
    | Instruction.PHI =>
        if String.prefix sigmaString (getName (asValue I))
        then addSigmaOp g I
        else addPhiOp g I
    | _ => addUnaryOp g I
    end.
End Graph.

(** ** Terminators, functions and call sites *)

(** An [icmp] condition.  [regionT] and [regionF] are the signed minimum
    and maximum of LLVM's [ConstantRange::makeICmpRegion(pred, CR)] and of
    its [inverse()], which the builder reads when the second operand is a
    constant. *)
Record ICmpInst := {
  getPredicate : Predicate;
  getOperand0 : Value;
  getOperand1 : Value;
  operandsAreIntegers : bool;
  castOperand0 : option Value;
  castOperand1 : option Value;
  regionT : Z * Z;
  regionF : Z * Z
}.

Definition getInversePredicate (p : Predicate) : Predicate :=
  match p with
  | ICMP_EQ => ICMP_NE | ICMP_NE => ICMP_EQ
  | ICMP_UGT => ICMP_ULE | ICMP_ULE => ICMP_UGT
  | ICMP_UGE => ICMP_ULT | ICMP_ULT => ICMP_UGE
  | ICMP_SGT => ICMP_SLE | ICMP_SLE => ICMP_SGT
  | ICMP_SGE => ICMP_SLT | ICMP_SLT => ICMP_SGE
  end.

Record BranchInst := {
  isConditional : bool;
  getCondition : option ICmpInst;
  getSuccessor0 : BasicBlock;
  getSuccessor1 : BasicBlock
}.

(** A [switch]: entry [i] of [swCases] holds [getCaseValue(i)] and
    [getSuccessor(i)]. *)
Record SwitchInst := {
  swCondition : Value;
  swConditionIsInteger : bool;
  swCastOperand : option Value;
  getDefaultDest : option BasicBlock;
  swCases : list (Z * BasicBlock)
}.

Inductive Terminator :=
  | TermBranch (br : BranchInst)
  | TermSwitch (sw : SwitchInst)
  | TermReturn (retval : option Value)
  | TermOther.

Record BasicBlockData := {
  bbInstructions : list Instruction;
  getTerminator : Terminator
}.

(** A use of a function: a call or invoke (with the instruction, whether
    the function is its callee, and its arguments), a block address, or
    anything else. *)
Inductive Use :=
  | UseCall (caller : Value) (isCallee : bool) (args : list Value)
  | UseBlockAddress
  | UseOther.

Record Function := {
  fBlocks : list BasicBlockData;
  fArgs : list Value;
  returnsVoid : bool;
  fUses : list Use;
  isDeclaration : bool;
  isVarArg : bool
}.

Section Builder.
Variable MAX_BIT_INT : positive.

Local Abbreviation Min := (Min MAX_BIT_INT).
Local Abbreviation Max := (Max MAX_BIT_INT).

Definition buildValueSwitchMap (g : ConstraintGraph) (sw : SwitchInst)
    : ConstraintGraph :=
  let condition := swCondition sw in
  if negb (swConditionIsInteger sw) then g
  else
    let g := addVarNode MAX_BIT_INT g condition in
    let BBsuccs :=
      match getDefaultDest sw with
      | Some succ => [(BasicItv (RangeR Min Max), succ)]
      | None => []
      end in
    let BBsuccs :=
      BBsuccs ++
      map (fun c : Z * BasicBlock =>
             let sigMin := APInt.sext (fst c) in
             let sigMax := sigMin in
             (BasicItv (RangeR sigMin sigMax), snd c))
          (tl (swCases sw)) in
    let g := set_valuesSwitchMap g
               (map_insert_new condition BBsuccs (valuesSwitchMap g)) in
    match swCastOperand sw with
    | Some Op0_0 =>
        set_valuesSwitchMap g
          (map_insert_new Op0_0 BBsuccs (valuesSwitchMap g))
    | None => g
    end.

Definition insertVBM (g : ConstraintGraph) (V : Value)
    (VBM : ValueBranchMap) : ConstraintGraph :=
  set_valuesBranchMap g (map_insert_new V VBM (valuesBranchMap g)).

Definition buildValueBranchMap (g : ConstraintGraph) (br : BranchInst)
    : ConstraintGraph :=
  if negb (isConditional br) then g
  else
    match getCondition br with
    | None => g
    | Some ici =>
        if negb (operandsAreIntegers ici) then g
        else
          let g := addVarNode MAX_BIT_INT g (getOperand0 ici) in
          let g := addVarNode MAX_BIT_INT g (getOperand1 ici) in
          let TBlock := getSuccessor0 br in
          let FBlock := getSuccessor1 br in
          let Op0 := getOperand0 ici in
          let Op1 := getOperand1 ici in
          match Op1 with
          | ConstantInt _ _ =>
              let values (region : Z * Z) :=
                let sigMin := APInt.sext (fst region) in
                let sigMax := APInt.sext (snd region) in
                let sigMax := if APInt.slt sigMax sigMin then Max else sigMax in
                RangeR sigMin sigMax in
              let TValues := values (regionT ici) in
              let FValues := values (regionF ici) in
              let VBM := Build_ValueBranchMap TBlock FBlock
                           (BasicItv TValues) (BasicItv FValues) in
              let g := insertVBM g Op0 VBM in
              match castOperand0 ici with
              | Some Op0_0 => insertVBM g Op0_0 VBM
              | None => g
              end
          | _ =>
              let pred := getPredicate ici in
              let invPred := getInversePredicate pred in
              let CR := MkRange Min Max Unknown in
              let g := insertVBM g Op0
                         (Build_ValueBranchMap TBlock FBlock
                            (SymbInterval CR Op1 pred)
                            (SymbInterval CR Op1 invPred)) in
              let g :=
                match castOperand0 ici with
                | Some Op0_0 =>
                    insertVBM g Op0_0
                      (Build_ValueBranchMap TBlock FBlock
                         (SymbInterval CR Op1 pred)
                         (SymbInterval CR Op1 invPred))
                | None => g
                end in
              let g := insertVBM g Op1
                         (Build_ValueBranchMap TBlock FBlock
                            (SymbInterval CR Op0 invPred)
                            (SymbInterval CR Op0 pred)) in
              match castOperand1 ici with
              | Some Op0_0 =>
                  insertVBM g Op0_0
                    (Build_ValueBranchMap TBlock FBlock
                       (SymbInterval CR Op1 pred)
                       (SymbInterval CR Op1 invPred))
              | None => g
              end
          end
    end.

Definition buildValueMaps (g : ConstraintGraph) (F : Function)
    : ConstraintGraph :=
  fold_left (fun g bb =>
               match getTerminator bb with
               | TermBranch br => buildValueBranchMap g br
               | TermSwitch sw => buildValueSwitchMap g sw
               | _ => g
               end)
            (fBlocks F) g.

(** Iterates through all instructions in the function and builds the
    graph. *)
Definition buildGraph (g : ConstraintGraph) (F : Function)
    : Result ConstraintGraph :=
  let g := buildValueMaps g F in
  foldM (fun g I =>
           match getTypeKind I with
           | OtherTy => ret g
           | _ =>
               if negb (isValidInstruction I) then ret g
               else buildOperations MAX_BIT_INT g I
           end)
        (flat_map bbInstructions (fBlocks F)) g.

Definition buildVarNodes (g : ConstraintGraph) : ConstraintGraph :=
  set_vars g
    (map_imap (fun V node =>
                 Some (VarNode_init MAX_BIT_INT node
                         (negb (bool_decide (is_Some (defMap g !! V))))))
              (vars g)).

(** ** Inter-procedural matching *)

(** The operands of the return instructions of [F], as a set. *)
Definition ReturnValues (F : Function) : list Value :=
  remove_dups
    (flat_map (fun bb => match getTerminator bb with
                         | TermReturn (Some v) => [v]
                         | _ => []
                         end)
              (fBlocks F)).

(** One matcher per formal parameter: a [PhiOp] without sources. *)
Definition createMatchers (g : ConstraintGraph) (formals : list Value)
    : ConstraintGraph * list OpRef :=
  fold_left (fun (st : ConstraintGraph * list OpRef) formal =>
               let '(g, matchers) := st in
               let sink := formal in
               let g := addVarNode MAX_BIT_INT g sink in
               let '(m, g) :=
                 new g (PhiOp (BasicInterval_default MAX_BIT_INT) sink []
                          Instruction.PHI) in
               let g := set_oprs g (oprs g ∪ {[m]}) in
               let g := set_defMap g (<[sink := m]> (defMap g)) in
               (g, matchers ++ [m]))
            formals (g, []).

Fixpoint matchParameters (g : ConstraintGraph) (matchers : list OpRef)
    (actuals : list Value) : Result ConstraintGraph :=
  match matchers, actuals with
  | [], [] => ret g
  | m :: matchers', a :: actuals' =>
      let from := a in
      let g := addVarNode MAX_BIT_INT g from in
      let* g := heap_addSource g m from in
      let* g := useMap_find_insert g from m in
      matchParameters g matchers' actuals'
  | _, _ => fault ArityMismatch
  end.

Definition matchReturn (g : ConstraintGraph) (caller : Value)
    (returnvars : list Value) : Result ConstraintGraph :=
  let to := caller in
  let g := addVarNode MAX_BIT_INT g to in
  let '(phiOp, g) :=
    new g (PhiOp (BasicInterval_default MAX_BIT_INT) to [] Instruction.PHI) in
  let g := set_oprs g (oprs g ∪ {[phiOp]}) in
  let g := set_defMap g (<[to := phiOp]> (defMap g)) in
  foldM (fun g var =>
           let* g := heap_addSource g phiOp var in
           useMap_find_insert g var phiOp)
        returnvars g.

Definition MatchParametersAndReturnValues (g : ConstraintGraph)
    (F : Function) : Result ConstraintGraph :=
  match fUses F with
  | [] => ret g
  | _ =>
      let noReturn := returnsVoid F in
      let ReturnValues := if noReturn then [] else ReturnValues F in
      let '(g, matchers) := createMatchers g (fArgs F) in
      let returnvars := ReturnValues in
      let g := fold_left (addVarNode MAX_BIT_INT) returnvars g in
      foldM (fun g U =>
               match U with
               | UseCall caller true actuals =>
                   let* g := matchParameters g matchers actuals in
                   if noReturn then ret g
                   else matchReturn g caller returnvars
               | _ => ret g
               end)
            (fUses F) g
  end.

(** The graph construction of [InterProceduralRA::runOnModule]. *)
Definition buildModuleGraph (M : list Function) : Result ConstraintGraph :=
  let* g :=
    foldM (fun g F =>
             if isDeclaration F || isVarArg F then ret g
             else
               let* g := buildGraph g F in
               MatchParametersAndReturnValues g F)
          M emptyGraph in
  ret (buildVarNodes g).

(** The graph construction of [IntraProceduralRA::runOnFunction]. *)
Definition buildFunctionGraph (F : Function) : Result ConstraintGraph :=
  let* g := buildGraph emptyGraph F in
  ret (buildVarNodes g).
End Builder.

(** ** The solver: the parts that walk the maps *)

Definition BasicInterval_setRange (bi : BasicInterval) (r : Range)
    : BasicInterval :=
  match bi with
  | BasicItv _ => BasicItv r
  | SymbInterval _ bound pred => SymbInterval r bound pred
  end.

(** Modelled from the spec: [BasicOp::setIntersect] is declared in
    [RangeAnalysis.h], which is not among the sources.  An operation owns
    its intersect, and resolving a symbolic intersect gives it a concrete
    range: the intersect keeps its kind and stores the new range. *)
Definition setIntersectRange (op : BasicOp) (r : Range) : BasicOp :=
  match op with
  | UnaryOp i s src oc => UnaryOp (BasicInterval_setRange i r) s src oc
  | SigmaOp i s src oc un => SigmaOp (BasicInterval_setRange i r) s src oc un
  | BinaryOp i s s1 s2 oc => BinaryOp (BasicInterval_setRange i r) s s1 s2 oc
  | PhiOp i s srcs oc => PhiOp (BasicInterval_setRange i r) s srcs oc
  | ControlDep i s src => ControlDep (BasicInterval_setRange i r) s src
  end.

(** Modelled from the spec: [markUnresolved] and [markResolved] of
    [SigmaOp], declared in [RangeAnalysis.h], set and clear the
    [unresolved] flag that a SigmaOp carries. *)
Definition setUnresolved (op : BasicOp) (b : bool) : BasicOp :=
  match op with
  | SigmaOp i s src oc _ => SigmaOp i s src oc b
  | _ => op
  end.

(** Insertion into a set that also keeps the order of its insertions. *)
Definition actv_insert (actv : list Value) (v : Value) : list Value :=
  if bool_decide (v ∈ actv) then actv else actv ++ [v].

(** The state of the bounded [update]: the graph, the iterations left, the
    active set, and a count of the calls of [Meet::fixed] made so far (the
    count is not in the code; it is what the bound is stated about). *)
Record UpdateState := MkUpdate {
  uGraph : ConstraintGraph;
  nIterations : N;
  actv : list Value;
  evaluations : nat
}.

Section Solver.
Variable MAX_BIT_INT : positive.

(** The macro [NUMBER_FIXED_ITERATIONS] is defined in [RangeAnalysis.h],
    which is not among the sources: a parameter. *)
Variable NUMBER_FIXED_ITERATIONS : N.

Local Abbreviation Min := (Min MAX_BIT_INT).
Local Abbreviation Max := (Max MAX_BIT_INT).

Fixpoint getRanges (g : ConstraintGraph) (vs : list Value)
    : Result (list Range) :=
  match vs with
  | [] => ret []
  | v :: vs' =>
      let* node := getVarNode g v in
      let* rs := getRanges g vs' in
      ret (getRange node :: rs)
  end.

(** The virtual [eval()] of an operation. *)
Definition BasicOp_eval (g : ConstraintGraph) (op : BasicOp) : Result Range :=
  match op with
  | UnaryOp i sink source opcode =>
      let* node := getVarNode g source in
      ret (UnaryOp_eval MAX_BIT_INT opcode (getPrimitiveSizeInBits sink)
             (BasicInterval_getRange i) (getRange node))
  | SigmaOp i _ source _ _ =>
      let* node := getVarNode g source in
      ret (SigmaOp_eval MAX_BIT_INT (BasicInterval_getRange i) (getRange node))
  | BinaryOp i _ source1 source2 opcode =>
      let* node1 := getVarNode g source1 in
      let* node2 := getVarNode g source2 in
      ret (BinaryOp_eval MAX_BIT_INT opcode (BasicInterval_getRange i)
             (getRange node1) (getRange node2))
  | PhiOp _ _ sources _ =>
      let* ranges := getRanges g sources in
      PhiOp_eval ranges
  | ControlDep _ _ _ => ret (ControlDep_eval MAX_BIT_INT)
  end.

(** [Meet::fixed] *)
Definition Meet_fixed (g : ConstraintGraph) (opref : OpRef)
    : Result (bool * ConstraintGraph) :=
  let* op := getOp g opref in
  let* sink := getVarNode g (getSink op) in
  let oldInterval := getRange sink in
  let* newInterval := BasicOp_eval g op in
  let* g := setRange g (getSink op) newInterval in
  ret (Range_neqb oldInterval newInterval, g).

(** [buildSymbolicIntersectMap] *)
Definition buildSymbolicIntersectMap (g : ConstraintGraph)
    : Result ConstraintGraph :=
  let* m :=
    foldM (fun (symbMap : gmap Value (gset OpRef)) opref =>
             let* op := getOp g opref in
             match isUnaryOp op, getIntersect op with
             | true, SymbInterval _ V _ =>
                 match symbMap !! V with
                 | Some l => ret (<[V := l ∪ {[opref]}]> symbMap)
                 | None => ret (<[V := {[opref]}]> symbMap)
                 end
             | _, _ => ret symbMap
             end)
          (elements (oprs g)) ∅ in
  ret (set_symbMap g m).

(** [Nuutila::addControlDependenceEdges].  The source of the new edge
    is the node found under [bound]. *)
Definition addControlDependenceEdges (g : ConstraintGraph)
    : Result ConstraintGraph :=
  foldM (fun g (entry : Value * gset OpRef) =>
           let '(bound, ops) := entry in
           foldM (fun g opref =>
                    let* source := deref (vars g) bound (NoVarsEntry bound) in
                    let* op := getOp g opref in
                    let '(cdedge, g) :=
                      new g (ControlDep (BasicInterval_default MAX_BIT_INT)
                               (getSink op) bound) in
                    let m := useMap_subscript (useMap g) bound in
                    ret (set_useMap g
                           (<[bound := (m !!! bound) ∪ {[cdedge]}]> m)))
                 (elements ops) g)
        (map_to_list (symbMap g)) g.

(** [dyn_cast<ControlDep>] on the object at [opref]. *)
Definition pointsToControlDep (g : ConstraintGraph) (opref : OpRef) : bool :=
  match heap g !! opref with
  | Some op => isControlDep op
  | None => false
  end.

(** [Nuutila::delControlDependenceEdges] *)
Definition delControlDependenceEdges (g : ConstraintGraph) : ConstraintGraph :=
  set_useMap g
    (fmap (fun uses : gset OpRef =>
             filter (fun opref => pointsToControlDep g opref = false) uses)
          (useMap g)).

(** The subscript [useMap[V]] of [Nuutila::visit], for a node [V]. *)
Definition visit_subscript (g : ConstraintGraph) (V : Value)
    : ConstraintGraph :=
  set_useMap g (useMap_subscript (useMap g) V).

(** [buildUseMap]: the use map restricted to operations whose sink is in
    the component. *)
Definition buildUseMap (g : ConstraintGraph) (component : gset Value)
    : Result (gmap Value (gset OpRef)) :=
  foldM (fun (compUseMap : gmap Value (gset OpRef)) V =>
           let compUseMap := useMap_subscript compUseMap V in
           let* p := deref (useMap g) V (NoUseMapEntry V) in
           let* list :=
             foldM (fun (list : gset OpRef) opref =>
                      let* op := getOp g opref in
                      let sink := getSink op in
                      if bool_decide (sink ∈ component)
                      then ret (list ∪ {[opref]})
                      else ret list)
                   (elements p) (compUseMap !!! V) in
           ret (<[V := list]> compUseMap))
        (elements component) ∅.

(** [generateEntryPoints] *)
Definition generateEntryPoints (g : ConstraintGraph) (component : gset Value)
    : Result (ConstraintGraph * list Value) :=
  foldM (fun (st : ConstraintGraph * list Value) V =>
           let '(g, entryPoints) := st in
           let* g :=
             if String.prefix sigmaString (getName V) then
               match defMap g !! V with
               | Some dit =>
                   let* bop := getOp g dit in
                   match bop with
                   | SigmaOp _ _ _ _ true =>
                       let* r := BasicOp_eval g bop in
                       let* g := setRange g (getSink bop) r in
                       ret (set_heap g
                              (<[dit := setUnresolved bop false]> (heap g)))
                   | _ => ret g
                   end
               | None => ret g
               end
             else ret g in
           let* var := getVarNode g V in
           if negb (isUnknown (getRange var))
           then ret (g, actv_insert entryPoints V)
           else ret (g, entryPoints))
        (elements component) (g, []).

(** [ConstraintGraph::fixIntersects] with [BasicOp::fixIntersects]. *)
Definition fixIntersects (g : ConstraintGraph) (component : gset Value)
    : Result ConstraintGraph :=
  foldM (fun g V =>
           match symbMap g !! V with
           | None => ret g
           | Some ops =>
               foldM (fun g opref =>
                        let* op := getOp g opref in
                        match getIntersect op with
                        | SymbInterval _ _ pred =>
                            let* bound := getVarNode g V in
                            let* sink := getVarNode g (getSink op) in
                            let r := SymbInterval_fixIntersects MAX_BIT_INT
                                       pred (getRange bound) (getRange sink) in
                            ret (set_heap g
                                   (<[opref := setIntersectRange op r]> (heap g)))
                        | BasicItv _ => ret g
                        end)
                     (elements ops) g
           end)
        (elements component) g.

(** The [for] loop of the bounded [update] over the use list [L].  The
    flag tells whether the loop left the function through
    [actv.clear(); return]. *)
Fixpoint update_uses (L : list OpRef) (st : UpdateState)
    : Result (bool * UpdateState) :=
  match L with
  | [] => ret (false, st)
  | opref :: L' =>
      if N.eqb (nIterations st) 0 then
        ret (true, MkUpdate (uGraph st) (nIterations st) [] (evaluations st))
      else
        let n := N.pred (nIterations st) in
        let* r := Meet_fixed (uGraph st) opref in
        let '(changed, g) := r in
        let* op := getOp g opref in
        let actv := if changed then actv_insert (actv st) (getSink op)
                    else actv st in
        update_uses L' (MkUpdate g n actv (S (evaluations st)))
  end.

(** The [while] loop of the bounded [update]. *)
Fixpoint update_loop (fuel : nat) (compUseMap : gmap Value (gset OpRef))
    (st : UpdateState) : Result UpdateState :=
  match fuel with
  | O => fault OutOfFuel
  | S fuel' =>
      match actv st with
      | [] => ret st
      | V :: rest =>
          let st := MkUpdate (uGraph st) (nIterations st) rest
                      (evaluations st) in
          let* L := deref compUseMap V (NoCompUseMapEntry V) in
          let* r := update_uses (elements L) st in
          let '(returned, st) := r in
          if returned then ret st
          else update_loop fuel' compUseMap st
      end
  end.

(** [update(nIterations, compUseMap, actv)] *)
Definition update (n : N) (compUseMap : gmap Value (gset OpRef))
    (entryPoints : list Value) (g : ConstraintGraph) : Result UpdateState :=
  update_loop (2 * N.to_nat n + length entryPoints + 1) compUseMap
    (MkUpdate g n entryPoints 0).

(** The start of the multi-node branch of [findIntervals], up to the
    iterations made before widening. *)
Definition fixedIterations (g : ConstraintGraph) (component : gset Value)
    : Result UpdateState :=
  let* compUseMap := buildUseMap g component in
  let* ge := generateEntryPoints g component in
  let '(g, entryPoints) := ge in
  update (N.lor (N.of_nat (size component) * 2) NUMBER_FIXED_ITERATIONS)
    compUseMap entryPoints g.

(** [propagateToNextSCC] *)
Definition propagateToNextSCC (g : ConstraintGraph) (component : gset Value)
    : Result ConstraintGraph :=
  foldM (fun g V =>
           let* p := deref (useMap g) V (NoUseMapEntry V) in
           foldM (fun g opref =>
                    let* op := getOp g opref in
                    let* r := BasicOp_eval g op in
                    let* g := setRange g (getSink op) r in
                    match op with
                    | SigmaOp i _ _ _ _ =>
                        if isUnknown (BasicInterval_getRange i)
                        then ret (set_heap g
                                    (<[opref := setUnresolved op true]> (heap g)))
                        else ret g
                    | _ => ret g
                    end)
                 (elements p) g)
        (elements component) g.
End Solver.

(** ** The graphs the analysis can reach

    One step is one successful run of an operation that changes the graph:
    the builder, the inter-procedural matcher, the initialisation of the
    nodes, the discovery of the components with its transient edges, and
    the solver.  The meet operators of the widening and narrowing phases
    change the graph through [setRange] alone, which stands for them. *)
Section Reach.
Variable MAX_BIT_INT : positive.

Inductive GraphStep : ConstraintGraph -> ConstraintGraph -> Prop :=
  | step_addVarNode g V :
      GraphStep g (addVarNode MAX_BIT_INT g V)
  | step_buildValueBranchMap g br :
      GraphStep g (buildValueBranchMap MAX_BIT_INT g br)
  | step_buildValueSwitchMap g sw :
      GraphStep g (buildValueSwitchMap MAX_BIT_INT g sw)
  | step_addUnaryOp g I g' :
      addUnaryOp MAX_BIT_INT g I = inr g' -> GraphStep g g'
  | step_addBinaryOp g I g' :
      addBinaryOp MAX_BIT_INT g I = inr g' -> GraphStep g g'
  | step_addPhiOp g I g' :
      addPhiOp MAX_BIT_INT g I = inr g' -> GraphStep g g'
  | step_addSigmaOp g I g' :
      addSigmaOp MAX_BIT_INT g I = inr g' -> GraphStep g g'
  | step_MatchParametersAndReturnValues g F g' :
      MatchParametersAndReturnValues MAX_BIT_INT g F = inr g' ->
      GraphStep g g'
  | step_buildVarNodes g :
      GraphStep g (buildVarNodes MAX_BIT_INT g)
  | step_buildSymbolicIntersectMap g g' :
      buildSymbolicIntersectMap g = inr g' -> GraphStep g g'
  | step_addControlDependenceEdges g g' :
      addControlDependenceEdges MAX_BIT_INT g = inr g' -> GraphStep g g'
  | step_visit g V :
      GraphStep g (visit_subscript g V)
  | step_delControlDependenceEdges g :
      GraphStep g (delControlDependenceEdges g)
  | step_generateEntryPoints g component g' entryPoints :
      generateEntryPoints MAX_BIT_INT g component = inr (g', entryPoints) ->
      GraphStep g g'
  | step_fixIntersects g component g' :
      fixIntersects MAX_BIT_INT g component = inr g' -> GraphStep g g'
  | step_update g n compUseMap entryPoints st :
      update MAX_BIT_INT n compUseMap entryPoints g = inr st ->
      GraphStep g (uGraph st)
  | step_setRange g v r g' :
      setRange g v r = inr g' -> GraphStep g g'
  | step_propagateToNextSCC g component g' :
      propagateToNextSCC MAX_BIT_INT g component = inr g' -> GraphStep g g'.

Inductive Reachable : ConstraintGraph -> Prop :=
  | reach_empty : Reachable emptyGraph
  | reach_step g g' : Reachable g -> GraphStep g g' -> Reachable g'.
End Reach.

(** Every value with a node has a use list. *)
Definition useMapCoversVars (g : ConstraintGraph) : Prop :=
  dom (vars g) ⊆ dom (useMap g).

(** Every operation in the use list of a value is an object of the heap
    that has the value among its sources; and the heap lies below the next
    free address. *)
Definition usesSound (g : ConstraintGraph) : Prop :=
  (forall v uses ref,
     useMap g !! v = Some uses -> ref ∈ uses ->
     exists op, heap g !! ref = Some op /\ v ∈ getSources op)
  /\ (forall ref, is_Some (heap g !! ref) -> (ref < nextRef g)%positive).

(** Every pointer of the graph points to an object: the sink and the
    sources of each operation have nodes in [vars], and [defMap], [oprs]
    and [symbMap] hold addresses of operations of the heap. *)
Definition pointersValid (g : ConstraintGraph) : Prop :=
  (forall ref op,
     heap g !! ref = Some op ->
     getSink op ∈ dom (vars g)
     /\ forall v, v ∈ getSources op -> v ∈ dom (vars g))
  /\ (forall v ref, defMap g !! v = Some ref -> is_Some (heap g !! ref))
  /\ (forall ref, ref ∈ oprs g -> is_Some (heap g !! ref))
  /\ (forall V L ref,
        symbMap g !! V = Some L -> ref ∈ L -> is_Some (heap g !! ref)).

(** A computation whose graph, when it delivers one, satisfies [Q]. *)
Definition keeps (Q : ConstraintGraph -> Prop) (m : Result ConstraintGraph)
    : Prop :=
  forall g', m = inr g' -> Q g'.

(** ** Notions used in the statements *)

Section Notions.
Variable MAX_BIT_INT : positive.

(** The empty and the unknown interval, as the code writes them. *)
Definition EmptyRange : Range :=
  MkRange (Min MAX_BIT_INT) (Max MAX_BIT_INT) Empty.
Definition UnknownRange : Range :=
  MkRange (Min MAX_BIT_INT) (Max MAX_BIT_INT) Unknown.

(** Every [Unknown] or [Empty] range the code constructs carries the
    bounds [Min] and [Max]. *)
Definition canonical (r : Range) : Prop :=
  getType r <> Regular ->
  getLower r = Min MAX_BIT_INT /\ getUpper r = Max MAX_BIT_INT.

(** Interval inclusion on the bounds. *)
Definition contained (a b : Range) : bool :=
  APInt.sle (getLower b) (getLower a) && APInt.sle (getUpper a) (getUpper b).

(** A value that fits the analysis width. *)
Definition fits (z : Z) : Prop := Min MAX_BIT_INT <= z <= Max MAX_BIT_INT.

(** The three opcodes whose interval operation is exact up to
    saturation. *)
Definition isAddSubMul (opcode : Instruction.Opcode) : bool :=
  match opcode with
  | Instruction.Add | Instruction.Sub | Instruction.Mul => true
  | _ => false
  end.

(** A Regular interval as the data model has it: both bounds fit the
    width and the lower bound does not exceed the upper one. *)
Definition wellFormed (r : Range) : Prop :=
  getType r = Regular /\ fits (getLower r) /\ fits (getUpper r)
  /\ getLower r <= getUpper r.

Definition sentinel (z : Z) : Prop :=
  z = Min MAX_BIT_INT \/ z = Max MAX_BIT_INT.

(** No bound that [add], [sub] or [mul] computes from two bounds of its
    operands wraps around: whenever the operation does the arithmetic
    (neither bound is the sentinel that saturates it), the exact result
    fits the width. *)
Definition noWrapAround (opcode : Instruction.Opcode) (x y : Range) : Prop :=
  match opcode with
  | Instruction.Add =>
      (getLower x <> Min MAX_BIT_INT -> getLower y <> Min MAX_BIT_INT ->
       fits (getLower x + getLower y))
      /\ (getUpper x <> Max MAX_BIT_INT -> getUpper y <> Max MAX_BIT_INT ->
          fits (getUpper x + getUpper y))
  | Instruction.Sub =>
      (getLower x <> Min MAX_BIT_INT -> getUpper y <> Max MAX_BIT_INT ->
       fits (getLower x - getUpper y))
      /\ (getUpper x <> Max MAX_BIT_INT -> getLower y <> Min MAX_BIT_INT ->
          fits (getUpper x - getLower y))
  | Instruction.Mul =>
      forall p q,
        p = getLower x \/ p = getUpper x ->
        q = getLower y \/ q = getUpper y ->
        ~ sentinel p -> ~ sentinel q -> fits (p * q)
  | _ => True
  end.

(** The saturating product of [MUL_HELPER] read on the integers: the
    sentinel [Max] stands for [Max + 1 = - Min], so that a product with a
    sentinel leaves the window, and [clamp] brings a product back into the
    window. *)
Definition extend (x : Z) : Z :=
  if x =? Max MAX_BIT_INT then Max MAX_BIT_INT + 1 else x.

Definition clamp (z : Z) : Z :=
  Z.max (Min MAX_BIT_INT) (Z.min (Max MAX_BIT_INT) z).
End Notions.

(** A computation that raises none of the faults in [bad]. *)
Definition avoids {A} (bad : Fault -> Prop) (m : Result A) : Prop :=
  forall f, m = inl f -> ~ bad f.

(** Stopping for lack of fuel. *)
Definition outOfFuel (f : Fault) : Prop := f = OutOfFuel.

(** Reading the first source of a phi that has none. *)
Definition noSource (f : Fault) : Prop := f = NoSource.

(** An unchecked [useMap.find(V)->second] that did not find [V]. *)
Definition missingUseMapEntry (f : Fault) : Prop :=
  exists V, f = NoUseMapEntry V.

(** Whether a computation delivers a result. *)
Definition succeeds {A} (m : Result A) : bool :=
  match m with
  | inr _ => true
  | inl _ => false
  end.

(** ** The meet operators of the solver *)

Section Meet.
Variable MAX_BIT_INT : positive.

Local Abbreviation Min := (Min MAX_BIT_INT).
Local Abbreviation Max := (Max MAX_BIT_INT).

(** The [if] cascade of [Meet::widen]: the range handed to
    [op->getSink()->setRange], if the cascade reaches a call of it, given
    the sink's old interval and the result of [op->eval()]. *)
Definition widen_sets (oldInterval newInterval : Range) : option Range :=
  let oldLower := getLower oldInterval in
  let oldUpper := getUpper oldInterval in
  let newLower := getLower newInterval in
  let newUpper := getUpper newInterval in
  if isUnknown oldInterval then Some newInterval
  else if APInt.slt newLower oldLower && APInt.sgt newUpper oldUpper
  then Some (RangeR Min Max)
  else if APInt.slt newLower oldLower then Some (RangeR Min oldUpper)
  else if APInt.sgt newUpper oldUpper then Some (RangeR oldLower Max)
  else None.


(** The cascade of [Meet::growth]; [Range()] is [[Min, Max]]. *)
Definition growth_sets (oldInterval newInterval : Range) : option Range :=
  if isUnknown oldInterval then Some newInterval
  else
    let oldLower := getLower oldInterval in
    let oldUpper := getUpper oldInterval in
    let newLower := getLower newInterval in
    let newUpper := getUpper newInterval in
    if APInt.slt newLower oldLower then
      if APInt.sgt newUpper oldUpper then Some (RangeR Min Max)
      else Some (RangeR Min oldUpper)
    else if APInt.sgt newUpper oldUpper then Some (RangeR oldLower Max)
    else None.

(** [Meet::widen] and [Meet::growth] around their cascades. *)
Definition Meet_cascade (sets : Range -> Range -> option Range)
    (g : ConstraintGraph) (opref : OpRef) : Result (bool * ConstraintGraph) :=
  let* op := getOp g opref in
  let* sink := getVarNode g (getSink op) in
  let oldInterval := getRange sink in
  let* newInterval := BasicOp_eval MAX_BIT_INT g op in
  let* g :=
    match sets oldInterval newInterval with
    | Some r => setRange g (getSink op) r
    | None => ret g
    end in
  let* sink := getVarNode g (getSink op) in
  let sinkInterval := getRange sink in
  ret (Range_neqb oldInterval sinkInterval, g).

Definition Meet_widen := Meet_cascade widen_sets.
Definition Meet_growth := Meet_cascade growth_sets.

(** The first [if] of [Meet::narrow]: the lower bound it gives the sink,
    if it changes it. *)
Definition narrow_lower (oLower nLower : Z) : option Z :=
  if APInt.eq oLower Min && APInt.ne nLower Min then Some nLower
  else
    let smin := APInt.smin oLower nLower in
    if APInt.ne oLower smin then Some smin else None.

(** The second [if] of [Meet::narrow], for the upper bound. *)
Definition narrow_upper (oUpper nUpper : Z) : option Z :=
  if APInt.eq oUpper Max && APInt.ne nUpper Max then Some nUpper
  else
    let smax := APInt.smax oUpper nUpper in
    if APInt.ne oUpper smax then Some smax else None.

(** [Meet::narrow] *)
Definition Meet_narrow (g : ConstraintGraph) (opref : OpRef)
    : Result (bool * ConstraintGraph) :=
  let* op := getOp g opref in
  let* sink := getVarNode g (getSink op) in
  let oLower := getLower (getRange sink) in
  let oUpper := getUpper (getRange sink) in
  let* newInterval := BasicOp_eval MAX_BIT_INT g op in
  let nLower := getLower newInterval in
  let nUpper := getUpper newInterval in
  let hasChanged := false in
  let* st :=
    match narrow_lower oLower nLower with
    | Some l =>
        let* g := setRange g (getSink op) (RangeR l oUpper) in
        ret (true, g)
    | None => ret (hasChanged, g)
    end in
  let '(hasChanged, g) := st in
  match narrow_upper oUpper nUpper with
  | Some u =>
      let* sink := getVarNode g (getSink op) in
      let* g := setRange g (getSink op)
                  (RangeR (getLower (getRange sink)) u) in
      ret (true, g)
  | None => ret (hasChanged, g)
  end.

(** [VarNode::storeAbstractState], on the interval of the node: the
    character it stores. *)
Definition storeAbstractState (interval : Range) : ascii :=
  if APInt.eq (getLower interval) Min then
    if APInt.eq (getUpper interval) Max then "?"%char else "-"%char
  else if APInt.eq (getUpper interval) Max then "+"%char
  else "0"%char.

(** [Meet::crop], on the abstract state and the old interval of the sink
    and the result of [op->eval()]: the interval the sink is left with and
    the flag returned. *)
Definition crop_range (abstractState : ascii) (oldInterval newInterval : Range)
    : Range * bool :=
  let hasChanged := false in
  let '(sink, hasChanged) :=
    if (Ascii.eqb abstractState "-" || Ascii.eqb abstractState "?")
       && APInt.sgt (getLower newInterval) (getLower oldInterval)
    then (RangeR (getLower newInterval) (getUpper oldInterval), true)
    else (oldInterval, hasChanged) in
  if (Ascii.eqb abstractState "+" || Ascii.eqb abstractState "?")
     && APInt.slt (getUpper newInterval) (getUpper oldInterval)
  then (RangeR (getLower sink) (getUpper newInterval), true)
  else (sink, hasChanged).
End Meet.

(** ** The analysis width *)

Section BitWidth.

(** [getType()->isIntegerTy()] of an operand. *)
Variable isIntegerTy : Value -> bool.

(** The inner loop of [RangeAnalysis::getMaxBitWidth], over the operands
    of one instruction. *)
Definition maxOperandBitWidth (max : N) (operand : Value) : N :=
  let opBitSize := getPrimitiveSizeInBits operand in
  if isIntegerTy operand && (max <? opBitSize)%N then opBitSize else max.

(** The body of its outer loop, for one instruction. *)
Definition maxInstructionBitWidth (max : N) (I : Instruction) : N :=
  let InstBitSize := getPrimitiveSizeInBits (asValue I) in
  let max :=
    match getTypeKind I with
    | IntegerTy => if (max <? InstBitSize)%N then InstBitSize else max
    | _ => max
    end in
  fold_left maxOperandBitWidth (getOperands I) max.

(** [RangeAnalysis::getMaxBitWidth]; [bbInstructions] lists every
    instruction of a block, its terminator included. *)
Definition getMaxBitWidth (F : Function) : N :=
  let max :=
    fold_left maxInstructionBitWidth (flat_map bbInstructions (fBlocks F))
      0%N in
  if (max =? 0)%N then (max + 1)%N else max.

(** [InterProceduralRA::getMaxBitWidth] *)
Definition getMaxBitWidth_Module (M : list Function) : N :=
  fold_left
    (fun (max : N) (F : Function) =>
       if negb (isDeclaration F) then
         let bitwidth := getMaxBitWidth F in
         if (max <? bitwidth)%N then bitwidth else max
       else max)
    M 0%N.
End BitWidth.

(** ** The unit test of [Range] *)

Section UnitTest.
Variable MAX_BIT_INT : positive.

Local Abbreviation Min := (Min MAX_BIT_INT).
Local Abbreviation Max := (Max MAX_BIT_INT).

(** The macro [ASSERT_TRUE(print_op, op, op1, op2, res)] on the counters
    [total] and [failed], given the value of [op1.op(op2)]. *)
Definition ASSERT_TRUE (counters : nat * nat) (test : Range * Range)
    : nat * nat :=
  let '(total, failed) := counters in
  let '(result, res) := test in
  (S total, if Range_neqb result res then S failed else failed).

(** The assertions of [RangeUnitTest::runOnModule], in order: the value
    of [op1.op(op2)] and the expected [res]. *)
Definition RangeUnitTest_assertions : list (Range * Range) :=
  let unknown := MkRange Min Max Unknown in
  let zero := RangeR Zero Zero in
  let infy := RangeR Min Max in
  let pos := RangeR Zero Max in
  let neg := RangeR Min Zero in
  let add := add MAX_BIT_INT in
  let sub := sub MAX_BIT_INT in
  let mul := mul MAX_BIT_INT in
  let Min_50 := APInt.sub MAX_BIT_INT Min 50 in
  [ (add infy infy, infy); (add zero infy, infy); (add zero zero, zero);
    (add neg zero, neg); (add neg infy, infy); (add neg neg, neg);
    (add pos zero, pos); (add pos infy, infy); (add pos neg, infy);
    (add pos pos, pos);
    (add (RangeR Zero Min_50) (RangeR Zero Min_50), unknown);
    (sub infy infy, infy); (sub infy zero, infy); (sub infy pos, infy);
    (sub infy neg, infy); (sub zero zero, zero); (sub zero infy, infy);
    (sub zero pos, neg); (sub zero neg, pos); (sub pos zero, pos);
    (sub pos infy, infy); (sub pos neg, pos); (sub pos pos, infy);
    (sub neg zero, neg); (sub neg infy, infy); (sub neg neg, infy);
    (sub neg pos, neg);
    (mul infy infy, infy); (mul zero infy, infy); (mul zero zero, zero);
    (mul neg zero, zero); (mul neg infy, infy); (mul neg neg, pos);
    (mul pos zero, zero); (mul pos infy, infy); (mul pos neg, neg);
    (mul pos pos, pos) ].

(** The counters [(total, failed)] when [RangeUnitTest::runOnModule]
    reaches [printStats], from their values at entry. *)
Definition RangeUnitTest_runOnModule (counters : nat * nat) : nat * nat :=
  fold_left ASSERT_TRUE RangeUnitTest_assertions counters.
End UnitTest.

(** ** The meaning of a comparison *)

(** What an [icmp] with predicate [pred] decides about two values of the
    analysis width, [x] on the left: the signed predicates compare the
    signed readings, the unsigned ones the unsigned readings. *)
Definition icmp (W : positive) (pred : Predicate) (x b : Z) : bool :=
  match pred with
  | ICMP_EQ => x =? b
  | ICMP_NE => negb (x =? b)
  | ICMP_UGT => APInt.getZExtValue W b <? APInt.getZExtValue W x
  | ICMP_UGE => APInt.getZExtValue W b <=? APInt.getZExtValue W x
  | ICMP_ULT => APInt.getZExtValue W x <? APInt.getZExtValue W b
  | ICMP_ULE => APInt.getZExtValue W x <=? APInt.getZExtValue W b
  | ICMP_SGT => b <? x
  | ICMP_SGE => b <=? x
  | ICMP_SLT => x <? b
  | ICMP_SLE => x <=? b
  end.


(** The operations in the use list of [V] whose sink is in the
    component. *)
Definition usedInComponent (g : ConstraintGraph) (component : gset Value)
    (V : Value) (ref : OpRef) : Prop :=
  exists uses op,
    useMap g !! V = Some uses /\ ref ∈ uses
    /\ heap g !! ref = Some op /\ getSink op ∈ component.

(** The operations of the graph that are UnaryOps (a SigmaOp is one) with
    a symbolic intersect bounded by [V]. *)
Definition boundedBy (g : ConstraintGraph) (V : Value) (ref : OpRef)
    : Prop :=
  ref ∈ oprs g
  /\ exists op r pred,
       heap g !! ref = Some op /\ isUnaryOp op = true
       /\ getIntersect op = SymbInterval r V pred.

(** What holds of a graph [g] on the way from [g0] while
    [addControlDependenceEdges] adds its edges: the objects of [g0] are
    untouched, its use lists have only gained operations, and every
    operation gained is a ControlDep allocated since. *)
Definition edgesAdded (g0 g : ConstraintGraph) : Prop :=
  (nextRef g0 <= nextRef g)%positive
  /\ (forall ref : OpRef, (ref < nextRef g0)%positive ->
                          heap g !! ref = heap g0 !! ref)
  /\ (forall v (ref : OpRef), ref ∈ useMap g0 !!! v -> ref ∈ useMap g !!! v)
  /\ (forall v (ref : OpRef),
        ref ∈ useMap g !!! v ->
        ((ref < nextRef g0)%positive /\ ref ∈ useMap g0 !!! v)
        \/ ((nextRef g0 <= ref)%positive
            /\ exists op, heap g !! ref = Some op
                          /\ isControlDep op = true)).

(** ** Small programs used as concrete inputs *)

Module Examples.

(** The analysis width of the examples. *)
Definition W8 : positive := 8.

Definition c0 : Value := ConstantInt 8 0.
Definition c1 : Value := ConstantInt 8 1.
Definition c5 : Value := ConstantInt 8 5.
Definition x : Value := Inst 1 "x" 8.
Definition y : Value := Inst 2 "y" 8.
Definition p : Value := Inst 3 "p" 8.

Definition instruction (v : Value) (oc : Instruction.Opcode)
    (operands : list Value) : Instruction :=
  {| asValue := v; getOpcode := oc; getOperands := operands;
     getParent := 1%positive; getTypeKind := IntegerTy |}.

Definition function (insts : list Instruction) (formals : list Value)
    (uses : list Use) : Function :=
  {| fBlocks := [ {| bbInstructions := insts; getTerminator := TermOther |} ];
     fArgs := formals; returnsVoid := true; fUses := uses;
     isDeclaration := false; isVarArg := false |}.

(** [y = add x, 5], with [x] an argument. *)
Definition addF : Function :=
  function [instruction y Instruction.Add [x; c5]] [x] [].

(** The graph of [addF] after [buildGraph] and [buildVarNodes]. *)
Definition addGraph : Result ConstraintGraph := buildFunctionGraph W8 addF.

(** The graph after [addBinaryOp] on [y = add x, 5] alone. *)
Definition addBuilt : ConstraintGraph :=
  match addBinaryOp W8 emptyGraph (instruction y Instruction.Add [x; c5]) with
  | inr g => g
  | inl _ => emptyGraph
  end.

(** A counting loop: [x = phi(0, y)], [y = add x, 1]. *)
Definition loopF : Function :=
  function [instruction x Instruction.PHI [c0; y];
            instruction y Instruction.Add [x; c1]] [] [].

(** The graph of [loopF] when the solver reaches the component
    [{x, y}]: built, and the two constants, each a component of its own,
    propagated. *)
Definition loopGraph : Result ConstraintGraph :=
  let* g := buildFunctionGraph W8 loopF in
  let* g := propagateToNextSCC W8 g {[c0]} in
  propagateToNextSCC W8 g {[c1]}.

(** The same graph, taken out of the result. *)
Definition loopReady : ConstraintGraph :=
  match loopGraph with
  | inr g => g
  | inl _ => emptyGraph
  end.

Definition loopComponent : gset Value := {[x; y]}.

(** A function with one formal parameter [p] whose only use is not a
    call (its address is taken). *)
Definition takenF : Function := function [] [p] [UseOther].

Definition takenGraph : Result ConstraintGraph :=
  MatchParametersAndReturnValues W8 emptyGraph takenF.

(** Two nodes with their initial intervals: the constant [5] and the
    input [x]. *)
Definition twoNodes : ConstraintGraph :=
  buildVarNodes W8 (addVarNode W8 (addVarNode W8 emptyGraph x) c5).

End Examples.

(** A branch on [x < y] whose true successor holds a sigma of [x]. *)
Module Branching.

Definition sigma_x : Value := Inst 4 "vSSA_sigma.x" 8.

Definition cmp : ICmpInst :=
  {| getPredicate := ICMP_SLT;
     getOperand0 := Examples.x; getOperand1 := Examples.y;
     operandsAreIntegers := true;
     castOperand0 := None; castOperand1 := None;
     regionT := (0, 0); regionF := (0, 0) |}.

(** The comparison [x == y] of the same operands. *)
Definition cmpEq : ICmpInst :=
  {| getPredicate := ICMP_EQ;
     getOperand0 := Examples.x; getOperand1 := Examples.y;
     operandsAreIntegers := true;
     castOperand0 := None; castOperand1 := None;
     regionT := (0, 0); regionF := (0, 0) |}.

Definition sigma : Instruction :=
  {| asValue := sigma_x; getOpcode := Instruction.PHI;
     getOperands := [Examples.x]; getParent := 2%positive;
     getTypeKind := IntegerTy |}.

Definition branchF : Function :=
  {| fBlocks :=
       [ {| bbInstructions := [];
            getTerminator :=
              TermBranch {| isConditional := true; getCondition := Some cmp;
                            getSuccessor0 := 2%positive;
                            getSuccessor1 := 3%positive |} |};
         {| bbInstructions := [sigma]; getTerminator := TermOther |} ];
     fArgs := [Examples.x; Examples.y]; returnsVoid := true; fUses := [];
     isDeclaration := false; isVarArg := false |}.

(** The graph of [branchF] after [buildGraph] and [buildVarNodes]. *)
Definition unmapped : ConstraintGraph :=
  match buildFunctionGraph Examples.W8 branchF with
  | inr g => g
  | inl _ => emptyGraph
  end.

(** The same graph with its map of symbolic intersects. *)
Definition built : Result ConstraintGraph :=
  buildSymbolicIntersectMap unmapped.

Definition graph : ConstraintGraph :=
  match built with
  | inr g => g
  | inl _ => emptyGraph
  end.

End Branching.

(** A module of two functions: [inc], which returns [y = add x, 1] for
    its argument [x], and [main], which holds the call [p = inc(5)]. *)
Module Calling.

Definition incF : Function :=
  {| fBlocks :=
       [ {| bbInstructions :=
              [Examples.instruction Examples.y Instruction.Add
                 [Examples.x; Examples.c1]];
            getTerminator := TermReturn (Some Examples.y) |} ];
     fArgs := [Examples.x]; returnsVoid := false;
     fUses := [UseCall Examples.p true [Examples.c5]];
     isDeclaration := false; isVarArg := false |}.

Definition mainF : Function :=
  Examples.function
    [Examples.instruction Examples.p Instruction.Call [Examples.c5]] [] [].

Definition module : list Function := [incF; mainF].

End Calling.

(** * Properties *)

Arguments RangeR lb ub : simpl never.

(** ** Facts about the fixed-width integers *)

Section APIntFacts.
Variable W : positive.

Lemma half_pos : 0 < APInt.half W.
Proof. unfold APInt.half. apply Z.pow_pos_nonneg; lia. Qed.

Lemma modulus_half : APInt.modulus W = 2 * APInt.half W.
Proof.
  unfold APInt.modulus, APInt.half.
  replace (Z.pos W) with (Z.succ (Z.pos W - 1)) at 1 by lia.
  rewrite Z.pow_succ_r by lia. reflexivity.
Qed.

Lemma Min_le_Max : Min W <= Max W.
Proof.
  unfold Min, Max, APInt.getSignedMinValue, APInt.getSignedMaxValue.
  pose proof half_pos. lia.
Qed.

Lemma Min_neg : Min W < 0.
Proof. unfold Min, APInt.getSignedMinValue. pose proof half_pos. lia. Qed.

Lemma Max_nonneg : 0 <= Max W.
Proof. unfold Max, APInt.getSignedMaxValue. pose proof half_pos. lia. Qed.

Lemma Max_Min : Max W = - Min W - 1.
Proof.
  unfold Min, Max, APInt.getSignedMinValue, APInt.getSignedMaxValue. lia.
Qed.

(** Every wrapped value is a well-formed [W]-bit value. *)
Lemma wrap_valid z : Min W <= APInt.wrap W z <= Max W.
Proof.
  unfold APInt.wrap, Min, Max, APInt.getSignedMinValue,
    APInt.getSignedMaxValue.
  pose proof half_pos. pose proof modulus_half.
  pose proof (Z.mod_pos_bound z (APInt.modulus W)) as Hb.
  destruct (Z.ltb_spec (z mod APInt.modulus W) (APInt.half W)); lia.
Qed.

(** Wrapping a value that already fits changes nothing. *)
Lemma wrap_small z : Min W <= z <= Max W -> APInt.wrap W z = z.
Proof.
  unfold APInt.wrap, Min, Max, APInt.getSignedMinValue,
    APInt.getSignedMaxValue.
  pose proof half_pos. pose proof modulus_half as Hm. intros Hz.
  destruct (Z.neg_nonneg_cases z) as [Hneg | Hpos].
  - assert (Hq : z mod APInt.modulus W = z + APInt.modulus W).
    { symmetry. apply (Z.mod_unique_pos _ _ (-1)); lia. }
    rewrite Hq.
    destruct (Z.ltb_spec (z + APInt.modulus W) (APInt.half W)); lia.
  - rewrite Z.mod_small by lia.
    destruct (Z.ltb_spec z (APInt.half W)); lia.
Qed.
End APIntFacts.

(** ** Facts about the lattice *)

Section LatticeFacts.
Variable W : positive.

Lemma RangeType_eqb_eq s t : RangeType_eqb s t = true <-> s = t.
Proof. destruct s, t; simpl; split; congruence. Qed.

(** [operator==] decides equality of the three members. *)
Lemma Range_eqb_eq r other : Range_eqb r other = true <-> r = other.
Proof.
  destruct r as [l1 u1 t1], other as [l2 u2 t2].
  unfold Range_eqb, APInt.eq; simpl.
  rewrite !andb_true_iff, !Z.eqb_eq, RangeType_eqb_eq.
  split; [intros [[-> ->] ->]; reflexivity | intros [= -> -> ->]; auto].
Qed.

Lemma select_lower ll lu :
  Min W <= ll -> Min W <= lu -> ll = Min W \/ lu = Min W ->
  (if APInt.slt ll lu then ll else lu) = Min W.
Proof.
  unfold APInt.slt. intros. destruct (Z.ltb_spec ll lu); lia.
Qed.

Lemma select_upper uu ul :
  uu <= Max W -> ul <= Max W -> uu = Max W \/ ul = Max W ->
  (if APInt.sgt uu ul then uu else ul) = Max W.
Proof.
  unfold APInt.sgt. intros. rewrite Z.gtb_ltb.
  destruct (Z.ltb_spec ul uu); lia.
Qed.

Lemma guarded_lower (g : bool) v :
  Min W <= v <= Max W -> Min W <= (if g then v else Min W) <= Max W.
Proof. pose proof (Min_le_Max W). destruct g; lia. Qed.

Lemma guarded_upper (g : bool) v :
  Min W <= v <= Max W -> Min W <= (if g then v else Max W) <= Max W.
Proof. pose proof (Min_le_Max W). destruct g; lia. Qed.

(** [corners] yields the full range as soon as one lower corner and one
    upper corner keep their sentinels. *)
Lemma corners_sentinels f nz this other :
  (forall x y, Min W <= f x y <= Max W) ->
  (APInt.ne (getLower other) (Min W) && nz (getLower other) = false)
  \/ (APInt.ne (getUpper other) (Max W) && nz (getUpper other) = false) ->
  corners W f nz this other = RangeR (Min W) (Max W).
Proof.
  intros Hf Hs. unfold corners.
  rewrite <- !andb_assoc.
  destruct Hs as [-> | ->]; rewrite !andb_false_r.
  - f_equal.
    + apply select_lower; [lia | apply guarded_lower, Hf | auto].
    + apply select_upper; [apply guarded_upper, Hf | lia | auto].
  - f_equal.
    + apply select_lower; [apply guarded_lower, Hf | lia | auto].
    + apply select_upper; [lia | apply guarded_upper, Hf | auto].
Qed.

Lemma nonNull_zero d : d = 0 -> APInt.ne d (Min W) && nonNull d = false.
Proof. intros ->. apply andb_false_r. Qed.

End LatticeFacts.

(** ** Division and remainder by an interval with a zero bound *)

Section ZeroDivisor.
Variable W : positive.

Lemma upper_zero_guard d :
  d = 0 -> APInt.ne d (Max W) && nonNull d = false.
Proof. intros ->. apply andb_false_r. Qed.

Lemma udiv_zero_bound x d :
  getLower d = 0 \/ getUpper d = 0 -> udiv W x d = RangeR (Min W) (Max W).
Proof.
  intros H. apply corners_sentinels.
  - intros; apply wrap_valid.
  - destruct H as [H | H];
      [left; apply nonNull_zero | right; apply upper_zero_guard]; exact H.
Qed.

Lemma sdiv_zero_bound x d :
  getLower d = 0 \/ getUpper d = 0 -> sdiv W x d = RangeR (Min W) (Max W).
Proof.
  intros H. apply corners_sentinels.
  - intros; apply wrap_valid.
  - destruct H as [H | H];
      [left; apply nonNull_zero | right; apply upper_zero_guard]; exact H.
Qed.

Lemma urem_zero_bound x d :
  getLower d = 0 \/ getUpper d = 0 -> urem W x d = RangeR (Min W) (Max W).
Proof.
  intros H. unfold urem, APInt.eq, Zero.
  destruct H as [-> | ->]; simpl; rewrite ?orb_true_r; reflexivity.
Qed.
End ZeroDivisor.

(** C4.  For [udiv], [sdiv] and [urem] and Regular operands: when the
  divisor interval has zero as its lower or as its upper bound, the
  result is the full range [[Min, Max]]. *)
Theorem division_by_zero_bound_is_full_range (W : positive) (x d : Range) :
isRegular x = true -> isRegular d = true ->
getLower d = 0 \/ getUpper d = 0 ->
udiv W x d = RangeR (Min W) (Max W)
/\ sdiv W x d = RangeR (Min W) (Max W)
/\ urem W x d = RangeR (Min W) (Max W).
Proof.
intros _ _ H. split; [|split].
- apply udiv_zero_bound, H.
- apply sdiv_zero_bound, H.
- apply urem_zero_bound, H.
Qed.

Lemma division_by_zero_bound_witness :
udiv 8 (RangeR 1 5) (RangeR 0 3) = RangeR (Min 8) (Max 8)
/\ sdiv 8 (RangeR 1 5) (RangeR 0 3) = RangeR (Min 8) (Max 8)
/\ urem 8 (RangeR 1 5) (RangeR 0 3) = RangeR (Min 8) (Max 8).
Proof.
apply (division_by_zero_bound_is_full_range 8 (RangeR 1 5) (RangeR 0 3));
  [reflexivity | reflexivity | left; reflexivity].
Defined.

(** ** The signed remainder by zero *)

(** C3.  The first test of [Range::srem] already answers a divisor with a
  zero bound, so for the divisor [[0, 0]] the result is the Regular full
  range [[Min, Max]] for every dividend: the later test that would
  return [Empty] for [[0, 0]] is never reached. *)
Theorem srem_zero_divisor_is_full_range (W : positive) (x : Range) :
srem W x (RangeR Zero Zero) = RangeR (Min W) (Max W)
/\ isEmpty (srem W x (RangeR Zero Zero)) = false.
Proof. split; reflexivity. Qed.

(** The other half of the sentence: an [Empty] divisor gives [Empty], at
  every width of two bits or more (at one bit [Max] is zero and the
  first test answers again). *)
Lemma srem_empty_divisor (W : positive) (x : Range) :
W <> 1%positive -> srem W x (EmptyRange W) = EmptyRange W.
Proof.
intros HW.
assert (Hmin : (Min W =? 0) = false).
{ apply Z.eqb_neq. pose proof (Min_neg W). lia. }
assert (Hmax : (Max W =? 0) = false).
{ apply Z.eqb_neq. unfold Max, APInt.getSignedMaxValue, APInt.half.
  assert (2 ^ 1 <= 2 ^ (Z.pos W - 1)) by (apply Z.pow_le_mono_r; lia).
  change (2 ^ 1) with 2 in *. lia. }
unfold srem, EmptyRange, Range_eqb, RangeR, APInt.eq, Zero.
cbn [getLower getUpper getType RangeType_eqb].
rewrite Hmin, Hmax, !Z.eqb_refl. reflexivity.
Qed.

Lemma srem_empty_divisor_one_bit (x : Range) :
srem 1 x (EmptyRange 1) = RangeR (Min 1) (Max 1).
Proof. reflexivity. Qed.

(** ** Units of join and meet *)

Section Units.
Variable W : positive.

Lemma canonical_Empty x :
  canonical W x -> isEmpty x = true -> x = EmptyRange W.
Proof.
  destruct x as [l u t]; unfold canonical, isEmpty, EmptyRange; simpl.
  intros Hc Ht. apply RangeType_eqb_eq in Ht. subst t.
  destruct Hc as [-> ->]; [discriminate | reflexivity].
Qed.

Lemma canonical_Unknown x :
  canonical W x -> isUnknown x = true -> x = UnknownRange W.
Proof.
  destruct x as [l u t]; unfold canonical, isUnknown, UnknownRange; simpl.
  intros Hc Ht. apply RangeType_eqb_eq in Ht. subst t.
  destruct Hc as [-> ->]; [discriminate | reflexivity].
Qed.

Lemma unionWith_Empty x : canonical W x -> unionWith x (EmptyRange W) = x.
Proof.
  intros Hc. unfold unionWith.
  destruct (isEmpty x) eqn:He.
  - symmetry. apply canonical_Empty; assumption.
  - reflexivity.
Qed.

Lemma intersectWith_Empty x : intersectWith W x (EmptyRange W) = EmptyRange W.
Proof.
  unfold intersectWith. change (isEmpty (EmptyRange W)) with true.
  rewrite orb_true_r. reflexivity.
Qed.

Lemma unionWith_Unknown x :
  canonical W x -> isEmpty x = false -> unionWith x (UnknownRange W) = x.
Proof.
  intros Hc He. unfold unionWith. rewrite He.
  change (isEmpty (UnknownRange W)) with false.
  destruct (isUnknown x) eqn:Hu.
  - symmetry. apply canonical_Unknown; assumption.
  - reflexivity.
Qed.

Lemma intersectWith_Unknown x :
  canonical W x -> intersectWith W x (UnknownRange W) = x.
Proof.
  intros Hc. unfold intersectWith.
  change (isEmpty (UnknownRange W)) with false. rewrite orb_false_r.
  destruct (isEmpty x) eqn:He.
  - symmetry. apply canonical_Empty; assumption.
  - destruct (isUnknown x) eqn:Hu.
    + symmetry. apply canonical_Unknown; assumption.
    + reflexivity.
Qed.
End Units.

(** C6, as amended.  For every interval [x] (an [Unknown] or [Empty] one
  with the bounds [Min] and [Max]): [x.unionWith(Empty) = x],
  [x.intersectWith(Empty) = Empty] and [x.intersectWith(Unknown) = x];
  [x.unionWith(Unknown) = x] when [x] is not [Empty], whereas
  [Empty.unionWith(Unknown)] is [Unknown]. *)
Theorem join_meet_units (W : positive) (x : Range) :
canonical W x ->
unionWith x (EmptyRange W) = x
/\ intersectWith W x (EmptyRange W) = EmptyRange W
/\ (isEmpty x = false -> unionWith x (UnknownRange W) = x)
/\ intersectWith W x (UnknownRange W) = x
/\ unionWith (EmptyRange W) (UnknownRange W) = UnknownRange W.
Proof.
intros Hc. repeat split.
- apply unionWith_Empty, Hc.
- apply intersectWith_Empty.
- apply unionWith_Unknown, Hc.
- apply intersectWith_Unknown, Hc.
Qed.

Lemma join_meet_units_witness :
unionWith (RangeR 1 5) (EmptyRange 8) = RangeR 1 5
/\ intersectWith 8 (RangeR 1 5) (EmptyRange 8) = EmptyRange 8
/\ (isEmpty (RangeR 1 5) = false ->
    unionWith (RangeR 1 5) (UnknownRange 8) = RangeR 1 5)
/\ intersectWith 8 (RangeR 1 5) (UnknownRange 8) = RangeR 1 5
/\ unionWith (EmptyRange 8) (UnknownRange 8) = UnknownRange 8.
Proof.
apply (join_meet_units 8 (RangeR 1 5)).
intros H. exfalso. apply H. reflexivity.
Defined.

(** C6 as stated fails at [x = Empty]: the join of [Empty] with [Unknown]
  is [Unknown], which [operator==] tells apart from [x]. *)
Lemma unionWith_Unknown_not_unit :
Range_eqb (unionWith (EmptyRange 8) (UnknownRange 8)) (EmptyRange 8) = false.
Proof. reflexivity. Qed.

(** ** The look-up of a range *)

(** C1.  [ConstraintGraph::getRange] answers [Unknown] whatever the graph
    holds: in the graph of [y = add x, 5] the node of the argument [x]
    holds [[Min, Max]], and [getRange(x)] is [Unknown]. *)
Theorem getRange_ignores_the_graph :
  match Examples.addGraph with
  | inr g =>
      getRange <$> vars g !! Examples.x = Some (RangeR (Min 8) (Max 8))
      /\ ConstraintGraph_getRange 8 g Examples.x = UnknownRange 8
  | inl _ => False
  end.
Proof. vm_compute. split; reflexivity. Qed.

(** The second half of the sentence holds: a value without a node gets
    [Unknown] (as does every other value). *)
Lemma getRange_Unknown (W : positive) (g : ConstraintGraph) (v : Value) :
  ConstraintGraph_getRange W g v = UnknownRange W.
Proof. reflexivity. Qed.

(** ** The guard of [BinaryOp::eval] *)

Section BinaryGuard.
Variable W : positive.

(** The value held after the guard, before the intersection. *)
Lemma guarded_consistent (result : Range) :
  let guarded := if APInt.sgt (getLower result) (getUpper result)
                 then RangeR (Min W) (Max W) else result in
  getLower guarded <= getUpper guarded.
Proof.
  unfold APInt.sgt. rewrite Z.gtb_ltb.
  destruct (Z.ltb_spec (getUpper result) (getLower result)); simpl.
  - apply Min_le_Max.
  - assumption.
Qed.
End BinaryGuard.

Section BinaryIntersect.
Variable W : positive.

Lemma isMaxRange_default :
  isMaxRange W (BasicInterval_getRange (BasicInterval_default W)) = true.
Proof.
  unfold isMaxRange, APInt.eq. cbn. rewrite !Z.eqb_refl. reflexivity.
Qed.

Lemma useMap_find_insert_frame g v op g' :
  useMap_find_insert g v op = inr g' ->
  heap g' = heap g /\ defMap g' = defMap g.
Proof.
  unfold useMap_find_insert, deref.
  destruct (useMap g !! v); cbn [bind]; [|discriminate].
  intros [= <-]. split; reflexivity.
Qed.

(** The operation that [addBinaryOp] registers as the definition of its
    instruction carries the default, full-range intersect. *)
Lemma addBinaryOp_intersect g I g' :
  addBinaryOp W g I = inr g' ->
  exists ref source1 source2,
    defMap g' !! asValue I = Some ref
    /\ heap g' !! ref
       = Some (BinaryOp (BasicInterval_default W) (asValue I) source1 source2
                 (getOpcode I)).
Proof.
  unfold addBinaryOp, new.
  destruct (getOperand I 0) as [f | source1]; cbn [bind]; [discriminate|].
  destruct (getOperand I 1) as [f | source2]; cbn [bind]; [discriminate|].
  cbv beta iota zeta.
  destruct (useMap_find_insert _ source1 _) as [f | g1] eqn:H1; cbn [bind];
    [discriminate|].
  intros H2. apply useMap_find_insert_frame in H1, H2.
  destruct H1 as [Hh1 Hd1], H2 as [Hh2 Hd2].
  eexists _, source1, source2.
  rewrite Hd2, Hd1, Hh2, Hh1. cbn [heap defMap set_defMap set_oprs].
  split; apply lookup_insert_eq.
Qed.
End BinaryIntersect.

(** C2, as amended.  [BinaryOp::eval] promotes an inconsistent result of
    the operation to [[Min, Max]] before it applies [intersectWith], not
    after.  For Regular operands: when the result of the operation has its
    lower bound above its upper bound, [eval] returns [[Min, Max]] if the
    intersect is the full range and the intersection of [[Min, Max]] with
    the intersect otherwise; when the result is consistent, [eval]
    returns it, or its intersection with the intersect, which is not
    checked again.  So with a full-range intersect, which is what
    [addBinaryOp] gives every BinaryOp, [eval] never returns a Regular
    range whose lower bound exceeds its upper bound. *)
Theorem BinaryOp_eval_guard (W : positive) (opcode : Instruction.Opcode)
    (intersect op1 op2 : Range) :
  (isRegular op1 && isRegular op2 = true ->
   getUpper (BinaryOp_apply W opcode op1 op2)
   < getLower (BinaryOp_apply W opcode op1 op2) ->
   BinaryOp_eval W opcode intersect op1 op2
   = if isMaxRange W intersect then RangeR (Min W) (Max W)
     else intersectWith W (RangeR (Min W) (Max W)) intersect)
  /\ (isRegular op1 && isRegular op2 = true ->
      getLower (BinaryOp_apply W opcode op1 op2)
      <= getUpper (BinaryOp_apply W opcode op1 op2) ->
      BinaryOp_eval W opcode intersect op1 op2
      = if isMaxRange W intersect then BinaryOp_apply W opcode op1 op2
        else intersectWith W (BinaryOp_apply W opcode op1 op2) intersect)
  /\ (isMaxRange W intersect = true ->
      isRegular (BinaryOp_eval W opcode intersect op1 op2) = true ->
      getLower (BinaryOp_eval W opcode intersect op1 op2)
      <= getUpper (BinaryOp_eval W opcode intersect op1 op2)).
Proof.
  split; [|split].
  - intros Hreg Hbad. unfold BinaryOp_eval. rewrite Hreg. cbv zeta.
    unfold APInt.sgt. rewrite Z.gtb_ltb.
    destruct (Z.ltb_spec (getUpper (BinaryOp_apply W opcode op1 op2))
                (getLower (BinaryOp_apply W opcode op1 op2))); [|lia].
    destruct (isMaxRange W intersect); reflexivity.
  - intros Hreg Hgood. unfold BinaryOp_eval. rewrite Hreg. cbv zeta.
    unfold APInt.sgt. rewrite Z.gtb_ltb.
    destruct (Z.ltb_spec (getUpper (BinaryOp_apply W opcode op1 op2))
                (getLower (BinaryOp_apply W opcode op1 op2))); [lia|].
    destruct (isMaxRange W intersect); reflexivity.
  - intros Hmax. unfold BinaryOp_eval. rewrite Hmax.
    destruct (isRegular op1 && isRegular op2).
    + intros _. apply (guarded_consistent W).
    + destruct (isEmpty op1 || isEmpty op2); discriminate.
Qed.

(** At eight bits [[100, 100] + [27, 28]] is [[127, -128]], since
    [100 + 28] wraps around; [eval] returns [[Min, Max]]. *)
Lemma BinaryOp_eval_guard_witness :
  BinaryOp_apply 8 Instruction.Add (RangeR 100 100) (RangeR 27 28)
  = RangeR 127 (-128)
  /\ BinaryOp_eval 8 Instruction.Add (RangeR (Min 8) (Max 8))
       (RangeR 100 100) (RangeR 27 28)
     = RangeR (Min 8) (Max 8)
  /\ BinaryOp_eval 8 Instruction.Add (RangeR 5 10)
       (RangeR 100 100) (RangeR 27 28)
     = intersectWith 8 (RangeR (Min 8) (Max 8)) (RangeR 5 10)
  /\ getLower (BinaryOp_eval 8 Instruction.Add (RangeR (Min 8) (Max 8))
                 (RangeR 100 100) (RangeR 27 28))
     <= getUpper (BinaryOp_eval 8 Instruction.Add (RangeR (Min 8) (Max 8))
                    (RangeR 100 100) (RangeR 27 28)).
Proof.
  split; [reflexivity|]. split; [|split].
  - apply (proj1 (BinaryOp_eval_guard 8 Instruction.Add
                    (RangeR (Min 8) (Max 8)) (RangeR 100 100)
                    (RangeR 27 28))); reflexivity.
  - apply (proj1 (BinaryOp_eval_guard 8 Instruction.Add (RangeR 5 10)
                    (RangeR 100 100) (RangeR 27 28))); reflexivity.
  - apply (proj2 (proj2 (BinaryOp_eval_guard 8 Instruction.Add
                           (RangeR (Min 8) (Max 8)) (RangeR 100 100)
                           (RangeR 27 28)))); reflexivity.
Defined.

(** C2 as stated fails: with the intersect [[5, 10]], [[1, 1] + [1, 1]] is
    [[2, 2]], consistent at the guard, and the intersection that follows
    returns the Regular range [[5, 2]]. *)
Lemma BinaryOp_eval_inconsistent :
  BinaryOp_eval 8 Instruction.Add (RangeR 5 10) (RangeR 1 1) (RangeR 1 1)
  = RangeR 5 2
  /\ isRegular (RangeR 5 2) = true
  /\ APInt.sgt (getLower (RangeR 5 2)) (getUpper (RangeR 5 2)) = true.
Proof. repeat split. Qed.

(** ** The initial intervals *)

(** C7, as amended.  After [buildVarNodes] the node of a [ConstantInt]
    holds the one-value interval of that constant; the node of any other
    value holds [[Min, Max]] Regular when the value has no entry in
    [defMap] (an input), and [Unknown] when it has one. *)
Theorem buildVarNodes_initial_interval (W : positive) (g : ConstraintGraph)
    (V : Value) (node : VarNode) :
  vars g !! V = Some node ->
  exists node',
    vars (buildVarNodes W g) !! V = Some node'
    /\ getValue node' = getValue node
    /\ getRange node' =
       match getValue node with
       | ConstantInt _ val => RangeR val val
       | Inst _ _ _ =>
           match defMap g !! V with
           | None => RangeR (Min W) (Max W)
           | Some _ => UnknownRange W
           end
       end.
Proof.
  intros Hnode. unfold buildVarNodes. cbn [vars set_vars].
  rewrite map_lookup_imap, Hnode. cbn [mbind option_bind].
  eexists. split; [reflexivity|].
  unfold VarNode_init. destruct (getValue node) as [bits val | id name bits].
  - split; [reflexivity|]. cbn [getRange]. unfold APInt.sext.
    destruct (Z.pos bits <? Z.pos W); reflexivity.
  - destruct (defMap g !! V) as [op|] eqn:Hdef.
    + rewrite bool_decide_eq_true_2 by eauto. split; reflexivity.
    + rewrite bool_decide_eq_false_2 by (intros [? ?]; discriminate).
      split; reflexivity.
Qed.

Lemma buildVarNodes_initial_interval_witness :
  exists node',
    vars (buildVarNodes 8 (addVarNode 8 emptyGraph Examples.x)) !! Examples.x
    = Some node'
    /\ getValue node' = Examples.x
    /\ getRange node' = RangeR (Min 8) (Max 8).
Proof.
  apply (buildVarNodes_initial_interval 8 (addVarNode 8 emptyGraph Examples.x)
           Examples.x (MkVarNode Examples.x (UnknownRange 8))).
  reflexivity.
Defined.

(** C7 as stated fails at a constant: in the graph of [y = add x, 5] the
    constant [5] has no entry in [defMap], and its node holds [[5, 5]], not
    [[Min, Max]]. *)
Lemma constant_node_is_not_full_range :
  match Examples.addGraph with
  | inr g =>
      defMap g !! Examples.c5 = None
      /\ getRange <$> vars g !! Examples.c5 = Some (RangeR 5 5)
      /\ Range_eqb (RangeR 5 5) (RangeR (Min 8) (Max 8)) = false
  | inl _ => False
  end.
Proof. vm_compute. repeat split. Qed.

(** ** The join of a phi *)

Section Phi.
Variable W : positive.

Lemma unionWith_Empty_l r : unionWith (EmptyRange W) r = r.
Proof. reflexivity. Qed.
End Phi.

(** C9, as amended.  For a PhiOp with at least one source, all of them
    nodes of the graph, [PhiOp::eval] returns the [unionWith] fold of the
    current ranges of all its sources.  For a PhiOp without sources, such
    as the matchers of the inter-procedural pass before a call site adds a
    source, [eval] reads [getSource(0)] out of range and returns nothing. *)
Theorem PhiOp_eval_is_union (W : positive) (g : ConstraintGraph)
    (intersect : BasicInterval) (sink : Value) (sources : list Value)
    (opcode : Instruction.Opcode) (ranges : list Range) :
  getRanges g sources = inr ranges ->
  (sources <> [] ->
   BasicOp_eval W g (PhiOp intersect sink sources opcode)
   = inr (fold_left unionWith ranges (EmptyRange W)))
  /\ (sources = [] ->
      BasicOp_eval W g (PhiOp intersect sink sources opcode) = inl NoSource).
Proof.
  intros Hr. split.
  - intros Hne. cbn [BasicOp_eval]. rewrite Hr. cbn [bind].
    destruct ranges as [|first rest].
    + destruct sources as [|s ss]; [contradiction|].
      cbn [getRanges] in Hr.
      destruct (getVarNode g s); [discriminate|]. cbn [bind] in Hr.
      destruct (getRanges g ss); discriminate.
    + reflexivity.
  - intros ->. reflexivity.
Qed.

(** ** Monotonicity of [add], [sub] and [mul] *)

Section Monotone.
Variable W : positive.

Lemma contained_spec a b :
  contained a b = true
  <-> getLower b <= getLower a /\ getUpper a <= getUpper b.
Proof.
  unfold contained, APInt.sle.
  rewrite andb_true_iff, !Z.leb_le. reflexivity.
Qed.

Lemma ne_spec x y : APInt.ne x y = true <-> x <> y.
Proof.
  unfold APInt.ne. rewrite negb_true_iff. apply Z.eqb_neq.
Qed.

Lemma ne_false x y : APInt.ne x y = false <-> x = y.
Proof.
  unfold APInt.ne. rewrite negb_false_iff. apply Z.eqb_eq.
Qed.

Lemma add_monotone a b c d :
  wellFormed W a -> wellFormed W b -> wellFormed W c -> wellFormed W d ->
  contained a b = true -> contained c d = true ->
  noWrapAround W Instruction.Add a c -> noWrapAround W Instruction.Add b d ->
  contained (add W a c) (add W b d) = true.
Proof.
  intros (_ & Hal & Hau & _) (_ & Hbl & Hbu & _) (_ & Hcl & Hcu & _)
    (_ & Hdl & Hdu & _) Hab Hcd [Hac1 Hac2] [Hbd1 Hbd2].
  apply contained_spec in Hab, Hcd. destruct Hab, Hcd.
  unfold fits in *. apply contained_spec. unfold add, APInt.add.
  unfold RangeR. cbn [getLower getUpper]. split.
  - destruct (APInt.ne (getLower b) (Min W) && APInt.ne (getLower d) (Min W))
      eqn:Eb.
    + apply andb_true_iff in Eb. destruct Eb as [E1 E2].
      apply ne_spec in E1, E2.
      assert (E3 : APInt.ne (getLower a) (Min W) = true) by (apply ne_spec; lia).
      assert (E4 : APInt.ne (getLower c) (Min W) = true) by (apply ne_spec; lia).
      rewrite E3, E4. cbn [andb].
      pose proof (Hbd1 ltac:(lia) ltac:(lia)) as F1.
      pose proof (Hac1 ltac:(lia) ltac:(lia)) as F2.
      rewrite (wrap_small W _ F1), (wrap_small W _ F2). lia.
    + match goal with |- context [if ?g then _ else _] => destruct g end;
        [apply wrap_valid | lia].
  - destruct (APInt.ne (getUpper b) (Max W) && APInt.ne (getUpper d) (Max W))
      eqn:Eb.
    + apply andb_true_iff in Eb. destruct Eb as [E1 E2].
      apply ne_spec in E1, E2.
      assert (E3 : APInt.ne (getUpper a) (Max W) = true) by (apply ne_spec; lia).
      assert (E4 : APInt.ne (getUpper c) (Max W) = true) by (apply ne_spec; lia).
      rewrite E3, E4. cbn [andb].
      pose proof (Hbd2 ltac:(lia) ltac:(lia)) as F1.
      pose proof (Hac2 ltac:(lia) ltac:(lia)) as F2.
      rewrite (wrap_small W _ F1), (wrap_small W _ F2). lia.
    + match goal with |- context [if ?g then _ else _] => destruct g end;
        [apply wrap_valid | lia].
Qed.

Lemma eq_spec x y : APInt.eq x y = true <-> x = y.
Proof. apply Z.eqb_eq. Qed.

Lemma eq_false x y : APInt.eq x y = false <-> x <> y.
Proof. apply Z.eqb_neq. Qed.

Lemma sub_monotone a b c d :
  wellFormed W a -> wellFormed W b -> wellFormed W c -> wellFormed W d ->
  contained a b = true -> contained c d = true ->
  noWrapAround W Instruction.Sub a c -> noWrapAround W Instruction.Sub b d ->
  contained (sub W a c) (sub W b d) = true.
Proof.
  intros (_ & Hal & Hau & _) (_ & Hbl & Hbu & _) (_ & Hcl & Hcu & _)
    (_ & Hdl & Hdu & _) Hab Hcd [Hac1 Hac2] [Hbd1 Hbd2].
  apply contained_spec in Hab, Hcd. destruct Hab, Hcd.
  unfold fits in *. apply contained_spec. unfold sub, APInt.sub.
  unfold RangeR. cbn [getLower getUpper]. split.
  - destruct (APInt.eq (getLower b) (Min W) || APInt.eq (getUpper d) (Max W))
      eqn:Eb.
    + match goal with |- context [if ?g then _ else _] => destruct g end;
        [lia | apply wrap_valid].
    + apply orb_false_iff in Eb. destruct Eb as [E1 E2].
      apply eq_false in E1, E2.
      assert (E3 : APInt.eq (getLower a) (Min W) = false) by (apply eq_false; lia).
      assert (E4 : APInt.eq (getUpper c) (Max W) = false) by (apply eq_false; lia).
      rewrite E3, E4. cbn [orb].
      pose proof (Hbd1 ltac:(lia) ltac:(lia)) as F1.
      pose proof (Hac1 ltac:(lia) ltac:(lia)) as F2.
      rewrite (wrap_small W _ F1), (wrap_small W _ F2). lia.
  - destruct (APInt.eq (getUpper b) (Max W) || APInt.eq (getLower d) (Min W))
      eqn:Eb.
    + match goal with |- context [if ?g then _ else _] => destruct g end;
        [lia | apply wrap_valid].
    + apply orb_false_iff in Eb. destruct Eb as [E1 E2].
      apply eq_false in E1, E2.
      assert (E3 : APInt.eq (getUpper a) (Max W) = false) by (apply eq_false; lia).
      assert (E4 : APInt.eq (getLower c) (Min W) = false) by (apply eq_false; lia).
      rewrite E3, E4. cbn [orb].
      pose proof (Hbd2 ltac:(lia) ltac:(lia)) as F1.
      pose proof (Hac2 ltac:(lia) ltac:(lia)) as F2.
      rewrite (wrap_small W _ F1), (wrap_small W _ F2). lia.
Qed.
(** The selection loop of [Range::mul] finds the least and the greatest
    of the four candidates. *)
Lemma mul_select_fold c0 c1 c2 c3 :
  fold_left mul_select [c1; c2; c3] (c0, c0)
  = (Z.min c0 (Z.min c1 (Z.min c2 c3)), Z.max c0 (Z.max c1 (Z.max c2 c3))).
Proof.
  cbn [fold_left]. unfold mul_select, APInt.sgt, APInt.slt.
  repeat match goal with
         | |- context [?u >? ?v] =>
             rewrite (Z.gtb_ltb u v); destruct (Z.ltb_spec v u); cbv beta iota
         | |- context [?u <? ?v] => destruct (Z.ltb_spec u v); cbv beta iota
         end; f_equal; lia.
Qed.

Lemma MUL_HELPER_extend x y :
  fits W x -> fits W y ->
  (~ sentinel W x -> ~ sentinel W y -> fits W (x * y)) ->
  MUL_HELPER W x y = clamp W (extend W x * extend W y).
Proof.
  unfold fits, sentinel, MUL_HELPER, extend, clamp, Zero, APInt.eq, APInt.slt,
    APInt.mul.
  intros Hx Hy Hxy. pose proof (Min_neg W) as Hn. pose proof (Max_Min W) as Hm.
  destruct (Z.eqb_spec x (Max W)) as [Ex | Ex];
    destruct (Z.eqb_spec y (Max W)) as [Ey | Ey].
  - subst x y. destruct (Z.ltb_spec (Max W) 0); [lia|].
    destruct (Z.eqb_spec (Max W) 0); nia.
  - subst x. destruct (Z.ltb_spec y 0); [nia|].
    destruct (Z.eqb_spec y 0); nia.
  - subst y. destruct (Z.ltb_spec x 0); [nia|].
    destruct (Z.eqb_spec x 0); nia.
  - destruct (Z.eqb_spec x (Min W)) as [Ex' | Ex'].
    + subst x. destruct (Z.ltb_spec y 0); [nia|].
      destruct (Z.eqb_spec y 0); nia.
    + destruct (Z.eqb_spec y (Min W)) as [Ey' | Ey'].
      * subst y. destruct (Z.ltb_spec x 0); [nia|].
        destruct (Z.eqb_spec x 0); nia.
      * rewrite wrap_small by (apply Hxy; lia).
        assert (Min W <= x * y <= Max W) by (apply Hxy; lia). lia.
Qed.

Lemma extend_monotone x y : x <= y -> extend W x <= extend W y.
Proof.
  unfold extend. intros.
  destruct (Z.eqb_spec x (Max W)); destruct (Z.eqb_spec y (Max W)); lia.
Qed.

Lemma clamp_monotone u v : u <= v -> clamp W u <= clamp W v.
Proof. unfold clamp. lia. Qed.

Lemma clamp_fits u : fits W (clamp W u).
Proof. unfold clamp, fits. pose proof (Min_le_Max W). lia. Qed.

Lemma clamp_min u v : clamp W (Z.min u v) = Z.min (clamp W u) (clamp W v).
Proof. unfold clamp. pose proof (Min_le_Max W). lia. Qed.

Lemma clamp_max u v : clamp W (Z.max u v) = Z.max (clamp W u) (clamp W v).
Proof. unfold clamp. pose proof (Min_le_Max W). lia. Qed.

(** The product of two numbers lies between the least and the greatest of
    the products of the corners of any box that holds them. *)
Lemma product_in_corners A B C D p q :
  A <= p <= B -> C <= q <= D ->
  Z.min (A * C) (Z.min (A * D) (Z.min (B * C) (B * D))) <= p * q
  /\ p * q <= Z.max (A * C) (Z.max (A * D) (Z.max (B * C) (B * D))).
Proof.
  intros Hp Hq.
  destruct (Z.le_gt_cases 0 p); destruct (Z.le_gt_cases 0 q);
    destruct (Z.le_gt_cases 0 A); destruct (Z.le_gt_cases 0 C);
    destruct (Z.le_gt_cases 0 B); destruct (Z.le_gt_cases 0 D);
    split; nia.
Qed.

Lemma isMaxRange_spec r :
  isMaxRange W r = true <-> getLower r = Min W /\ getUpper r = Max W.
Proof.
  unfold isMaxRange, APInt.eq. rewrite andb_true_iff, !Z.eqb_eq. reflexivity.
Qed.

(** The bounds of a product that is not cut short by a full-range
    operand. *)
Lemma mul_bounds a c :
  wellFormed W a -> wellFormed W c -> noWrapAround W Instruction.Mul a c ->
  isMaxRange W a || isMaxRange W c = false ->
  mul W a c =
  RangeR
    (clamp W (Z.min (extend W (getLower a) * extend W (getLower c))
                (Z.min (extend W (getLower a) * extend W (getUpper c))
                   (Z.min (extend W (getUpper a) * extend W (getLower c))
                      (extend W (getUpper a) * extend W (getUpper c))))))
    (clamp W (Z.max (extend W (getLower a) * extend W (getLower c))
                (Z.max (extend W (getLower a) * extend W (getUpper c))
                   (Z.max (extend W (getUpper a) * extend W (getLower c))
                      (extend W (getUpper a) * extend W (getUpper c)))))).
Proof.
  intros (_ & Hal & Hau & _) (_ & Hcl & Hcu & _) Hno Hmax.
  unfold mul. rewrite Hmax. cbn [tl]. rewrite mul_select_fold.
  rewrite !MUL_HELPER_extend by (auto; intros; apply Hno; auto).
  rewrite !clamp_min, !clamp_max. reflexivity.
Qed.

Lemma mul_fits a c :
  wellFormed W a -> wellFormed W c -> noWrapAround W Instruction.Mul a c ->
  fits W (getLower (mul W a c)) /\ fits W (getUpper (mul W a c)).
Proof.
  intros Ha Hc Hno.
  destruct (isMaxRange W a || isMaxRange W c) eqn:Hmax.
  - unfold mul. rewrite Hmax. unfold RangeR, fits. cbn [getLower getUpper].
    pose proof (Min_le_Max W). lia.
  - rewrite mul_bounds by assumption. unfold RangeR. cbn [getLower getUpper].
    split; apply clamp_fits.
Qed.

Lemma mul_monotone a b c d :
  wellFormed W a -> wellFormed W b -> wellFormed W c -> wellFormed W d ->
  contained a b = true -> contained c d = true ->
  noWrapAround W Instruction.Mul a c -> noWrapAround W Instruction.Mul b d ->
  contained (mul W a c) (mul W b d) = true.
Proof.
  intros Ha Hb Hc Hd Hab Hcd Hac Hbd.
  pose proof (mul_fits a c Ha Hc Hac) as [Fl Fu].
  apply contained_spec in Hab, Hcd. apply contained_spec.
  destruct (isMaxRange W b || isMaxRange W d) eqn:Hmax.
  - assert (Hfull : mul W b d = RangeR (Min W) (Max W))
      by (unfold mul; rewrite Hmax; reflexivity).
    rewrite Hfull. unfold RangeR. cbn [getLower getUpper].
    unfold fits in *. lia.
  - assert (Hmax' : isMaxRange W a || isMaxRange W c = false).
    { apply orb_false_iff in Hmax. destruct Hmax as [Hb' Hd'].
      destruct Ha as (_ & Hal & Hau & _), Hb as (_ & Hbl & Hbu & _),
        Hc as (_ & Hcl & Hcu & _), Hd as (_ & Hdl & Hdu & _).
      unfold fits in *. apply orb_false_iff. split.
      - destruct (isMaxRange W a) eqn:E; [|reflexivity].
        apply isMaxRange_spec in E.
        assert (isMaxRange W b = true) by (apply isMaxRange_spec; lia).
        congruence.
      - destruct (isMaxRange W c) eqn:E; [|reflexivity].
        apply isMaxRange_spec in E.
        assert (isMaxRange W d = true) by (apply isMaxRange_spec; lia).
        congruence. }
    rewrite (mul_bounds a c), (mul_bounds b d) by assumption.
    unfold RangeR. cbn [getLower getUpper].
    destruct Ha as (_ & _ & _ & Hale), Hc as (_ & _ & _ & Hcle).
    assert (Ea : extend W (getLower b) <= extend W (getLower a)
                 /\ extend W (getLower a) <= extend W (getUpper a)
                 /\ extend W (getUpper a) <= extend W (getUpper b))
      by (repeat split; apply extend_monotone; lia).
    assert (Ec : extend W (getLower d) <= extend W (getLower c)
                 /\ extend W (getLower c) <= extend W (getUpper c)
                 /\ extend W (getUpper c) <= extend W (getUpper d))
      by (repeat split; apply extend_monotone; lia).
    set (A := extend W (getLower b)) in *. set (B := extend W (getUpper b)) in *.
    set (C := extend W (getLower d)) in *. set (D := extend W (getUpper d)) in *.
    set (p1 := extend W (getLower a)) in *. set (p2 := extend W (getUpper a)) in *.
    set (q1 := extend W (getLower c)) in *. set (q2 := extend W (getUpper c)) in *.
    pose proof (product_in_corners A B C D p1 q1 ltac:(lia) ltac:(lia)).
    pose proof (product_in_corners A B C D p1 q2 ltac:(lia) ltac:(lia)).
    pose proof (product_in_corners A B C D p2 q1 ltac:(lia) ltac:(lia)).
    pose proof (product_in_corners A B C D p2 q2 ltac:(lia) ltac:(lia)).
    split; apply clamp_monotone; lia.
Qed.
End Monotone.

(** C5, as amended.  For [add], [sub] and [mul], and Regular intervals
    [a ⊆ b] and [c ⊆ d] whose bounds fit the width, with lower bounds not
    above upper bounds: [a.op(c) ⊆ b.op(d)], provided that for both
    [a.op(c)] and [b.op(d)] every bound that the operation computes by
    arithmetic fits the width ([noWrapAround]): for [x.add(y)] the sum of
    the lower bounds unless one of them is [Min], and the sum of the upper
    bounds unless one of them is [Max]; for [x.sub(y)] the difference of
    the lower bound of [x] and the upper bound of [y] unless the first is
    [Min] or the second [Max], and that of the upper bound of [x] and the
    lower bound of [y] unless the first is [Max] or the second [Min]; for
    [x.mul(y)] the product of a bound of [x] and a bound of [y] unless one
    of the two is [Min] or [Max]. *)
Theorem add_sub_mul_monotone (W : positive) (opcode : Instruction.Opcode)
    (a b c d : Range) :
  isAddSubMul opcode = true ->
  wellFormed W a -> wellFormed W b -> wellFormed W c -> wellFormed W d ->
  contained a b = true -> contained c d = true ->
  noWrapAround W opcode a c -> noWrapAround W opcode b d ->
  contained (BinaryOp_apply W opcode a c) (BinaryOp_apply W opcode b d) = true.
Proof.
  intros Hop Ha Hb Hc Hd Hab Hcd Hac Hbd.
  destruct opcode; try discriminate Hop; cbn [BinaryOp_apply].
  - apply add_monotone; assumption.
  - apply sub_monotone; assumption.
  - apply mul_monotone; assumption.
Qed.

Lemma add_sub_mul_monotone_witness :
  contained (BinaryOp_apply 8 Instruction.Mul (RangeR 2 3) (RangeR (-2) 2))
    (BinaryOp_apply 8 Instruction.Mul (RangeR 1 4) (RangeR (-3) 5)) = true.
Proof.
  apply (add_sub_mul_monotone 8 Instruction.Mul
           (RangeR 2 3) (RangeR 1 4) (RangeR (-2) 2) (RangeR (-3) 5)).
  - reflexivity.
  - repeat split; vm_compute; congruence.
  - repeat split; vm_compute; congruence.
  - repeat split; vm_compute; congruence.
  - repeat split; vm_compute; congruence.
  - reflexivity.
  - reflexivity.
  - intros p q [-> | ->] [-> | ->] _ _; split; vm_compute; congruence.
  - intros p q [-> | ->] [-> | ->] _ _; split; vm_compute; congruence.
Defined.

(** C5 as stated fails, and without any wrap-around: the corner-wise
    [Xor] of [[1, 1]] and [[1, 1]] is [[0, 0]], that of the larger
    intervals [[0, 2]] and [[1, 3]] is [[1, 3]]. *)
Lemma Xor_not_monotone :
  contained (RangeR 1 1) (RangeR 0 2) = true
  /\ contained (RangeR 1 1) (RangeR 1 3) = true
  /\ BinaryOp_apply 8 Instruction.Xor (RangeR 1 1) (RangeR 1 1) = RangeR 0 0
  /\ BinaryOp_apply 8 Instruction.Xor (RangeR 0 2) (RangeR 1 3) = RangeR 1 3
  /\ contained (RangeR 0 0) (RangeR 1 3) = false.
Proof. repeat split. Qed.

(** The other corner-wise operations fail in the same way on small
    non-negative intervals. *)
Lemma And_not_monotone :
  contained (RangeR 0 1) (RangeR 0 1) = true
  /\ contained (RangeR 0 1) (RangeR 0 2) = true
  /\ contained (And 8 (RangeR 0 1) (RangeR 0 1))
       (And 8 (RangeR 0 1) (RangeR 0 2)) = false.
Proof. repeat split. Qed.

Lemma Or_not_monotone :
  contained (RangeR 0 1) (RangeR 0 2) = true
  /\ contained (RangeR 0 2) (RangeR 0 2) = true
  /\ contained (Or 8 (RangeR 0 1) (RangeR 0 2))
       (Or 8 (RangeR 0 2) (RangeR 0 2)) = false.
Proof. repeat split. Qed.

Lemma urem_not_monotone :
  contained (RangeR 0 1) (RangeR 0 2) = true
  /\ contained (RangeR 1 2) (RangeR 1 2) = true
  /\ contained (urem 8 (RangeR 0 1) (RangeR 1 2))
       (urem 8 (RangeR 0 2) (RangeR 1 2)) = false.
Proof. repeat split. Qed.

Lemma srem_not_monotone :
  contained (RangeR 0 1) (RangeR 0 2) = true
  /\ contained (RangeR 1 2) (RangeR 1 2) = true
  /\ contained (srem 8 (RangeR 0 1) (RangeR 1 2))
       (srem 8 (RangeR 0 2) (RangeR 1 2)) = false.
Proof. repeat split. Qed.

(** So do the divisions, on a divisor interval that reaches below zero,
    and the shifts: [shl] where a corner leaves the width, [lshr] and
    [ashr] on a shift amount interval that reaches below zero (a negative
    amount is read unsigned and shifts every bit out). *)
Lemma udiv_not_monotone :
  contained (RangeR 100 100) (RangeR 100 100) = true
  /\ contained (RangeR 1 1) (RangeR (-1) 2) = true
  /\ udiv 8 (RangeR 100 100) (RangeR 1 1) = RangeR 100 100
  /\ udiv 8 (RangeR 100 100) (RangeR (-1) 2) = RangeR 0 50
  /\ contained (RangeR 100 100) (RangeR 0 50) = false.
Proof. repeat split. Qed.

Lemma sdiv_not_monotone :
  contained (RangeR 4 4) (RangeR 4 4) = true
  /\ contained (RangeR 1 1) (RangeR (-1) 2) = true
  /\ sdiv 8 (RangeR 4 4) (RangeR 1 1) = RangeR 4 4
  /\ sdiv 8 (RangeR 4 4) (RangeR (-1) 2) = RangeR (-4) 2
  /\ contained (RangeR 4 4) (RangeR (-4) 2) = false.
Proof. repeat split. Qed.

Lemma shl_not_monotone :
  contained (RangeR 1 1) (RangeR 1 1) = true
  /\ contained (RangeR 1 1) (RangeR 0 7) = true
  /\ shl 8 (RangeR 1 1) (RangeR 1 1) = RangeR 2 2
  /\ shl 8 (RangeR 1 1) (RangeR 0 7) = RangeR (-128) 1
  /\ contained (RangeR 2 2) (RangeR (-128) 1) = false.
Proof. repeat split. Qed.

Lemma lshr_not_monotone :
  contained (RangeR 4 4) (RangeR 4 4) = true
  /\ contained (RangeR 0 0) (RangeR (-1) 1) = true
  /\ lshr 8 (RangeR 4 4) (RangeR 0 0) = RangeR 4 4
  /\ lshr 8 (RangeR 4 4) (RangeR (-1) 1) = RangeR 0 2
  /\ contained (RangeR 4 4) (RangeR 0 2) = false.
Proof. repeat split. Qed.

Lemma ashr_not_monotone :
  contained (RangeR 4 4) (RangeR 4 4) = true
  /\ contained (RangeR 0 0) (RangeR (-1) 1) = true
  /\ ashr 8 (RangeR 4 4) (RangeR 0 0) = RangeR 4 4
  /\ ashr 8 (RangeR 4 4) (RangeR (-1) 1) = RangeR 0 2
  /\ contained (RangeR 4 4) (RangeR 0 2) = false.
Proof. repeat split. Qed.

(** With wrap-around [add] itself is not monotone: [[1, 126] + [1, 2]]
    has the upper bound [126 + 2], which wraps to [Min]. *)
Lemma add_wraps_around :
  contained (RangeR 1 1) (RangeR 1 126) = true
  /\ contained (RangeR 1 1) (RangeR 1 2) = true
  /\ add 8 (RangeR 1 126) (RangeR 1 2) = RangeR 2 (-128)
  /\ contained (add 8 (RangeR 1 1) (RangeR 1 1))
       (add 8 (RangeR 1 126) (RangeR 1 2)) = false.
Proof. repeat split. Qed.

(** Nor is it when a lower bound is [Max], which [add] does not treat as
    a sentinel of lower bounds: the lower bound of [[127, 127] + [1, 1]]
    is [127 + 1], which wraps to [Min], while that of
    [[0, 127] + [1, 1]] is [1].  The sum [127 + 1] does not fit the width,
    so these intervals are not among those of the amended claim. *)
Lemma add_wraps_at_Max :
  contained (RangeR 127 127) (RangeR 0 127) = true
  /\ contained (RangeR 1 1) (RangeR 1 1) = true
  /\ add 8 (RangeR 127 127) (RangeR 1 1) = RangeR (-128) 127
  /\ add 8 (RangeR 0 127) (RangeR 1 1) = RangeR 1 127
  /\ contained (RangeR (-128) 127) (RangeR 1 127) = false
  /\ ~ noWrapAround 8 Instruction.Add (RangeR 127 127) (RangeR 1 1).
Proof.
  repeat split. intros [Hl _].
  assert (H : fits 8 (127 + 1)) by (apply Hl; vm_compute; discriminate).
  destruct H as [_ H]. vm_compute in H. apply H. reflexivity.
Qed.

Lemma PhiOp_eval_is_union_witness :
  BasicOp_eval 8 Examples.twoNodes
    (PhiOp (BasicInterval_default 8) Examples.y [Examples.c5; Examples.x]
       Instruction.PHI)
  = inr (fold_left unionWith [RangeR 5 5; RangeR (Min 8) (Max 8)]
           (EmptyRange 8)).
Proof.
  apply (PhiOp_eval_is_union 8 Examples.twoNodes (BasicInterval_default 8)
           Examples.y [Examples.c5; Examples.x] Instruction.PHI
           [RangeR 5 5; RangeR (Min 8) (Max 8)]).
  - vm_compute. reflexivity.
  - discriminate.
Defined.

(** C9 as stated fails for a matcher that never gets a source: for a
    function whose only use is not a call, the inter-procedural pass
    registers in [defMap] a PhiOp without sources for the formal parameter,
    and [eval] on it reads a source that is not there. *)
Lemma matcher_without_sources :
  match Examples.takenGraph with
  | inr g =>
      match defMap g !! Examples.p with
      | Some ref =>
          match heap g !! ref with
          | Some op =>
              op = PhiOp (BasicInterval_default 8) Examples.p []
                     Instruction.PHI
              /\ BasicOp_eval 8 g op = inl NoSource
          | None => False
          end
      | None => False
      end
  | inl _ => False
  end.
Proof. vm_compute. split; reflexivity. Qed.

(** ** Faults that a computation cannot raise *)

Section Avoid.
Variable W : positive.
Variable bad : Fault -> Prop.

Lemma avoids_ret {A} (a : A) : avoids bad (ret a).
Proof. intros f. discriminate. Qed.

Lemma avoids_fault {A} f : ~ bad f -> avoids bad (@fault A f).
Proof. intros Hf f' [= <-]. exact Hf. Qed.

Lemma avoids_bind {A B} (m : Result A) (k : A -> Result B) :
  avoids bad m -> (forall a, m = inr a -> avoids bad (k a)) ->
  avoids bad (bind m k).
Proof.
  intros Hm Hk. destruct m as [f | a]; cbn [bind].
  - intros f' [= <-]. apply Hm. reflexivity.
  - apply Hk. reflexivity.
Qed.

Lemma avoids_deref {K A} `{Countable K} (m : gmap K A) k f :
  ~ bad f -> avoids bad (deref m k f).
Proof.
  intros Hf. unfold deref. destruct (m !! k);
    [apply avoids_ret | apply avoids_fault, Hf].
Qed.

Lemma avoids_foldM {A S} (step : S -> A -> Result S) l s :
  (forall s a, avoids bad (step s a)) -> avoids bad (foldM step l s).
Proof.
  intros Hstep. revert s. induction l as [|a l IH]; intros s; cbn [foldM].
  - apply avoids_ret.
  - apply avoids_bind; [apply Hstep | intros ? _; apply IH].
Qed.

(** The faults of following node and operation pointers and of reading
    the first source of a phi. *)
Hypothesis bad_NoVarNode : forall v, ~ bad (NoVarNode v).
Hypothesis bad_NoOperation : forall op, ~ bad (NoOperation op).
Hypothesis bad_NoSource : ~ bad NoSource.

Lemma avoids_getVarNode g v : avoids bad (getVarNode g v).
Proof. apply avoids_deref, bad_NoVarNode. Qed.

Lemma avoids_getOp g op : avoids bad (getOp g op).
Proof. apply avoids_deref, bad_NoOperation. Qed.

Lemma avoids_getRanges g vs : avoids bad (getRanges g vs).
Proof.
  induction vs as [|v vs IH]; cbn [getRanges].
  - apply avoids_ret.
  - apply avoids_bind; [apply avoids_getVarNode | intros node _].
    apply avoids_bind; [exact IH | intros rs _; apply avoids_ret].
Qed.

Lemma avoids_eval g op : avoids bad (BasicOp_eval W g op).
Proof.
  destruct op; cbn [BasicOp_eval];
    repeat (apply avoids_bind;
            [first [apply avoids_getVarNode | apply avoids_getRanges]
            | intros ? _]);
    try apply avoids_ret.
  unfold PhiOp_eval. destruct a; [apply avoids_fault, bad_NoSource|].
  apply avoids_ret.
Qed.

Lemma avoids_setRange g v r : avoids bad (setRange g v r).
Proof.
  unfold setRange.
  apply avoids_bind; [apply avoids_getVarNode | intros ? _; apply avoids_ret].
Qed.

Lemma avoids_Meet_fixed g opref : avoids bad (Meet_fixed W g opref).
Proof.
  unfold Meet_fixed.
  apply avoids_bind; [apply avoids_getOp | intros op _].
  apply avoids_bind; [apply avoids_getVarNode | intros sink _].
  apply avoids_bind; [apply avoids_eval | intros r _].
  apply avoids_bind; [apply avoids_setRange | intros ? _; apply avoids_ret].
Qed.

Lemma avoids_update_uses L st : avoids bad (update_uses W L st).
Proof.
  revert st. induction L as [|opref L IH]; intros st; cbn [update_uses].
  - apply avoids_ret.
  - destruct (N.eqb (nIterations st) 0); [apply avoids_ret|].
    apply avoids_bind; [apply avoids_Meet_fixed | intros [changed g] _].
    apply avoids_bind; [apply avoids_getOp | intros op _].
    apply IH.
Qed.

Lemma avoids_generateEntryPoints g component :
  avoids bad (generateEntryPoints W g component).
Proof.
  unfold generateEntryPoints. apply avoids_foldM. intros [g' eps] V.
  apply avoids_bind.
  - destruct (String.prefix _ _); [|apply avoids_ret].
    destruct (defMap g' !! V); [|apply avoids_ret].
    apply avoids_bind; [apply avoids_getOp | intros bop _].
    destruct bop; try apply avoids_ret.
    destruct unresolved; [|apply avoids_ret].
    apply avoids_bind; [apply avoids_eval | intros r _].
    apply avoids_bind; [apply avoids_setRange | intros ? _].
    apply avoids_ret.
  - intros g'' _.
    apply avoids_bind; [apply avoids_getVarNode | intros var _].
    destruct (negb _); apply avoids_ret.
Qed.
End Avoid.

(** ** The iterations before widening *)

Section FixedIterations.
Variable W : positive.

Lemma outOfFuel_only f : f <> OutOfFuel -> ~ outOfFuel f.
Proof. intros Hf H. apply Hf, H. Qed.

Lemma fuelled_update_uses L st : avoids outOfFuel (update_uses W L st).
Proof. apply avoids_update_uses; intros; apply outOfFuel_only; discriminate. Qed.

Lemma fuelled_generateEntryPoints g component :
  avoids outOfFuel (generateEntryPoints W g component).
Proof.
  apply avoids_generateEntryPoints; intros; apply outOfFuel_only; discriminate.
Qed.

Lemma fuelled_buildUseMap g component :
  avoids outOfFuel (buildUseMap g component).
Proof.
  unfold buildUseMap. apply avoids_foldM. intros m V.
  apply avoids_bind;
    [apply avoids_deref, outOfFuel_only; discriminate | intros uses _].
  apply avoids_bind; [|intros ? _; apply avoids_ret].
  apply avoids_foldM. intros l opref.
  apply avoids_bind;
    [apply avoids_deref, outOfFuel_only; discriminate | intros op _].
  destruct (bool_decide _); apply avoids_ret.
Qed.

Lemma actv_insert_length actv v :
  (length (actv_insert actv v) <= S (length actv))%nat.
Proof.
  unfold actv_insert. destruct (bool_decide (v ∈ actv)).
  - lia.
  - rewrite length_app. cbn [length]. lia.
Qed.

(** Every round of the inner loop that evaluates an operation takes one
    iteration from the budget and adds at most one value to the active
    set; leaving through the budget test clears the active set. *)
Lemma update_uses_spec L st returned st' :
  update_uses W L st = inr (returned, st') ->
  (evaluations st <= evaluations st')%nat
  /\ (evaluations st' + N.to_nat (nIterations st')
      = evaluations st + N.to_nat (nIterations st))%nat
  /\ (length (actv st') + evaluations st
      <= length (actv st) + evaluations st')%nat
  /\ (returned = true -> actv st' = []).
Proof.
  revert st. induction L as [|opref L IH]; intros st; cbn [update_uses].
  - intros [= <- <-]. repeat split; try lia; try discriminate.
  - destruct (N.eqb_spec (nIterations st) 0) as [Hz | Hnz].
    + intros [= <- <-]. cbn. repeat split; lia.
    + destruct (Meet_fixed W (uGraph st) opref) as [f | [changed g]];
        cbn [bind]; [discriminate|].
      destruct (getOp g opref) as [f | op]; cbn [bind]; [discriminate|].
      intros Hrec. apply IH in Hrec. cbn in Hrec.
      destruct Hrec as (H1 & H2 & H3 & H4).
      assert (Hlen : (length (if changed
                              then actv_insert (actv st) (getSink op)
                              else actv st) <= S (length (actv st)))%nat).
      { destruct changed; [apply actv_insert_length | lia]. }
      repeat split; try lia. exact H4.
Qed.

Lemma update_loop_spec fuel compUseMap st st' :
  update_loop W fuel compUseMap st = inr st' ->
  (evaluations st' + N.to_nat (nIterations st')
   = evaluations st + N.to_nat (nIterations st))%nat
  /\ actv st' = [].
Proof.
  revert st. induction fuel as [|fuel IH]; intros st; cbn [update_loop].
  - discriminate.
  - destruct (actv st) as [|V rest] eqn:Hactv.
    + intros [= <-]. split; [reflexivity | exact Hactv].
    + destruct (deref compUseMap V (NoCompUseMapEntry V)) as [f | L];
        cbn [bind]; [discriminate|].
      destruct (update_uses W (elements L) _) as [f | [returned st1]] eqn:Hu;
        cbn [bind]; [discriminate|].
      apply update_uses_spec in Hu. cbn in Hu.
      destruct Hu as (H1 & H2 & H3 & H4).
      destruct returned.
      * intros [= <-]. split; [lia | auto].
      * intros Hrec. apply IH in Hrec. destruct Hrec as [H5 H6].
        split; [lia | exact H6].
Qed.

(** The [while] loop ends: the fuel that [update] passes is enough. *)
Lemma update_loop_fuelled fuel compUseMap st :
  (2 * N.to_nat (nIterations st) + length (actv st) < fuel)%nat ->
  avoids outOfFuel (update_loop W fuel compUseMap st).
Proof.
  revert st. induction fuel as [|fuel IH]; intros st Hfuel; [lia|].
  cbn [update_loop]. destruct (actv st) as [|V rest] eqn:Hactv.
  - apply avoids_ret.
  - apply avoids_bind;
      [apply avoids_deref, outOfFuel_only; discriminate | intros L _].
    apply avoids_bind; [apply fuelled_update_uses|].
    intros [returned st1] Hu. apply update_uses_spec in Hu. cbn in Hu.
    destruct Hu as (H1 & H2 & H3 & H4). cbn [length] in Hfuel.
    destruct returned; [apply avoids_ret|].
    apply IH. lia.
Qed.

Lemma update_spec n compUseMap entryPoints g :
  avoids outOfFuel (update W n compUseMap entryPoints g)
  /\ forall st, update W n compUseMap entryPoints g = inr st ->
       (evaluations st <= N.to_nat n)%nat /\ actv st = [].
Proof.
  unfold update. split.
  - apply update_loop_fuelled. cbn. lia.
  - intros st Hst. apply update_loop_spec in Hst. cbn in Hst.
    destruct Hst as [H1 H2]. split; [lia | exact H2].
Qed.

(** The budget is never below twice the size of the component. *)
Lemma lor_lower_bound (a b : N) : (a <= N.lor a b)%N.
Proof.
  assert (Hl : N.lor a b = N.lxor a (N.ldiff b a)).
  { apply N.bits_inj. intros i.
    rewrite N.lor_spec, N.lxor_spec, N.ldiff_spec.
    destruct (N.testbit a i), (N.testbit b i); reflexivity. }
  assert (Hd : N.land a (N.ldiff b a) = 0%N).
  { apply N.bits_inj. intros i.
    rewrite N.land_spec, N.ldiff_spec, N.bits_0.
    destruct (N.testbit a i), (N.testbit b i); reflexivity. }
  rewrite Hl, <- (N.add_nocarry_lxor _ _ Hd). lia.
Qed.
(** Whatever non-zero value the constant has, there is a component size
    (a power of two above the constant) whose budget exceeds twice the
    size. *)
Lemma budget_exceeds_twice_size (c : N) :
  c <> 0%N ->
  (2 <= 2 ^ (N.log2 c + 1)
   /\ 2 ^ (N.log2 c + 1) * 2 < N.lor (2 ^ (N.log2 c + 1) * 2) c)%N.
Proof.
  intros Hc. split.
  - change 2%N with (2 ^ 1)%N at 1. apply N.pow_le_mono_r; lia.
  - replace (2 ^ (N.log2 c + 1) * 2)%N with (2 ^ (N.log2 c + 2))%N
      by (replace (N.log2 c + 2)%N with (N.succ (N.log2 c + 1)) by lia;
          rewrite N.pow_succ_r'; lia).
    assert (Hd : N.land (2 ^ (N.log2 c + 2)) c = 0%N).
    { apply N.bits_inj. intros i.
      rewrite N.land_spec, N.bits_0, N.pow2_bits_eqb.
      destruct (N.eqb_spec (N.log2 c + 2) i) as [<- | Hne]; [|reflexivity].
      rewrite N.bits_above_log2 by lia. reflexivity. }
    rewrite <- (N.lxor_lor _ _ Hd), <- (N.add_nocarry_lxor _ _ Hd). lia.
Qed.
End FixedIterations.

(** C8, as amended.  For every component the iterations that
    [findIntervals] makes before widening end, after at most
    [(2·|SCC|) | NUMBER_FIXED_ITERATIONS] evaluations under [Meet::fixed]
    -- the budget is the bitwise or of twice the size with the constant
    of the header, never below [2·|SCC|] -- and they leave the active set
    empty, by a fixpoint or by the budget running out. *)
Theorem fixed_iterations_bounded (W : positive) (NUMBER_FIXED_ITERATIONS : N)
    (g : ConstraintGraph) (component : gset Value) :
  fixedIterations W NUMBER_FIXED_ITERATIONS g component <> inl OutOfFuel
  /\ (forall st,
        fixedIterations W NUMBER_FIXED_ITERATIONS g component = inr st ->
        (evaluations st
         <= N.to_nat (N.lor (N.of_nat (size component) * 2)
                        NUMBER_FIXED_ITERATIONS))%nat
        /\ actv st = [])
  /\ (2 * size component
      <= N.to_nat (N.lor (N.of_nat (size component) * 2)
                     NUMBER_FIXED_ITERATIONS))%nat.
Proof.
  split; [|split].
  - intros Hout.
    assert (Hav : avoids outOfFuel
                    (fixedIterations W NUMBER_FIXED_ITERATIONS g component)).
    { unfold fixedIterations.
      apply avoids_bind; [apply fuelled_buildUseMap | intros compUseMap _].
      apply avoids_bind; [apply fuelled_generateEntryPoints|].
      intros [g' entryPoints] _. apply update_spec. }
    apply (Hav OutOfFuel Hout). reflexivity.
  - intros st. unfold fixedIterations.
    destruct (buildUseMap g component) as [f | compUseMap]; cbn [bind];
      [discriminate|].
    destruct (generateEntryPoints W g component) as [f | [g' entryPoints]];
      cbn [bind]; [discriminate|].
    apply update_spec.
  - pose proof (lor_lower_bound (N.of_nat (size component) * 2)
                  NUMBER_FIXED_ITERATIONS). lia.
Qed.

Lemma fixed_iterations_bounded_witness :
  match fixedIterations 8 20 Examples.loopReady Examples.loopComponent with
  | inr st =>
      (evaluations st
       <= N.to_nat (N.lor (N.of_nat (size Examples.loopComponent) * 2) 20))%nat
      /\ actv st = []
  | inl f => f <> OutOfFuel
  end.
Proof.
  pose proof (fixed_iterations_bounded 8 20 Examples.loopReady
                Examples.loopComponent) as (Hfuel & Hbound & _).
  destruct (fixedIterations 8 20 Examples.loopReady Examples.loopComponent)
    as [f | st].
  - intros ->. apply Hfuel. reflexivity.
  - apply Hbound. reflexivity.
Defined.

(** C8 as stated fails once the constant of the header has a bit that
    [2·|SCC|] lacks.  With the constant at 20 the counting loop
    [x = phi(0, y)], [y = x + 1], a component of two nodes, is evaluated
    20 times before widening, not 4 times: its intervals keep growing, so
    only the budget [4 | 20 = 20] stops the iterations. *)
Lemma fixed_iterations_exceed_twice_size :
  match fixedIterations 8 20 Examples.loopReady Examples.loopComponent with
  | inr st =>
      size Examples.loopComponent = 2%nat
      /\ evaluations st = 20%nat
      /\ (2 * size Examples.loopComponent < evaluations st)%nat
  | inl _ => False
  end.
Proof. vm_compute. repeat split; lia. Qed.

(** With the constant at zero the budget is [2·|SCC|] itself. *)
Lemma fixed_iterations_without_constant :
  match fixedIterations 8 0 Examples.loopReady Examples.loopComponent with
  | inr st => evaluations st = 4%nat /\ actv st = []
  | inl _ => False
  end.
Proof. vm_compute. repeat split. Qed.

(** ** Every node has a use list *)

Section Covers.
Variable W : positive.

Ltac covers_simpl :=
  unfold useMapCoversVars, set_vars, set_oprs, set_defMap, set_useMap,
    set_symbMap, set_valuesBranchMap, set_valuesSwitchMap, set_heap in *;
  cbn [vars useMap] in *.

Lemma dom_map_insert_new {A} (k : Value) (a : A) (m : gmap Value A) :
  dom (map_insert_new k a m) = {[k]} ∪ dom m.
Proof.
  unfold map_insert_new. destruct (m !! k) eqn:Hk.
  - assert (Hin : k ∈ dom m) by (apply elem_of_dom; eauto).
    symmetry. apply subseteq_union_1_L, singleton_subseteq_l, Hin.
  - apply dom_insert_L.
Qed.

Lemma keeps_ret Q g : Q g -> keeps Q (ret g).
Proof. intros Hg g' [= <-]. exact Hg. Qed.

Lemma keeps_bind_val {A} Q (m : Result A) (k : A -> Result ConstraintGraph) :
  (forall a, m = inr a -> keeps Q (k a)) -> keeps Q (bind m k).
Proof.
  intros Hk. destruct m as [f | a]; cbn [bind]; [discriminate|].
  apply Hk. reflexivity.
Qed.

Lemma keeps_bind Q (m : Result ConstraintGraph) k :
  keeps Q m -> (forall g, Q g -> keeps Q (k g)) -> keeps Q (bind m k).
Proof.
  intros Hm Hk. apply keeps_bind_val. intros g Hg. apply Hk, Hm, Hg.
Qed.

Lemma foldM_invariant {A S} (Q : S -> Prop) (step : S -> A -> Result S)
    l s s' :
  (forall s a s', Q s -> step s a = inr s' -> Q s') ->
  Q s -> foldM step l s = inr s' -> Q s'.
Proof.
  intros Hstep. revert s. induction l as [|a l IH]; intros s Hs; cbn [foldM].
  - intros [= <-]. exact Hs.
  - destruct (step s a) as [f | s1] eqn:H1; cbn [bind]; [discriminate|].
    apply IH. eapply Hstep; eauto.
Qed.

Lemma foldM_invariant_in {A S} (Q : S -> Prop) (step : S -> A -> Result S)
    (l : list A) s s' :
  (forall s a s', a ∈ l -> Q s -> step s a = inr s' -> Q s') ->
  Q s -> foldM step l s = inr s' -> Q s'.
Proof.
  revert s. induction l as [|a l IH]; intros s Hstep Hs; cbn [foldM].
  - intros [= <-]. exact Hs.
  - destruct (step s a) as [f | s1] eqn:H1; cbn [bind]; [discriminate|].
    apply IH.
    + intros s2 a2 s3 Ha2. apply Hstep. right. exact Ha2.
    + apply (Hstep s a s1); [left | exact Hs | exact H1].
Qed.

Lemma keeps_foldM {A} Q
    (step : ConstraintGraph -> A -> Result ConstraintGraph) l g :
  (forall g a, Q g -> keeps Q (step g a)) -> Q g -> keeps Q (foldM step l g).
Proof.
  intros Hstep Hg g' Hfold.
  apply (foldM_invariant Q step l g g'); auto.
  intros s a s' Hs Hsa. apply (Hstep s a Hs s' Hsa).
Qed.

Lemma fold_left_invariant {A S} (Q : S -> Prop) (step : S -> A -> S) l s :
  (forall s a, Q s -> Q (step s a)) -> Q s -> Q (fold_left step l s).
Proof.
  intros Hstep. revert s. induction l as [|a l IH]; intros s Hs; cbn.
  - exact Hs.
  - apply IH, Hstep, Hs.
Qed.

Lemma covers_addVarNode g V :
  useMapCoversVars g -> useMapCoversVars (addVarNode W g V).
Proof.
  unfold addVarNode. destruct (vars g !! V); [auto|].
  covers_simpl. rewrite dom_insert_L, dom_map_insert_new.
  intros Hg. apply union_mono_l, Hg.
Qed.

Lemma covers_new g op :
  useMapCoversVars g -> useMapCoversVars (snd (new g op)).
Proof. auto. Qed.

Lemma keeps_useMap_find_insert g v op :
  useMapCoversVars g -> keeps useMapCoversVars (useMap_find_insert g v op).
Proof.
  intros Hg g'. unfold useMap_find_insert, deref.
  destruct (useMap g !! v); cbn [bind]; [|discriminate].
  intros [= <-]. covers_simpl. rewrite dom_insert_L. set_solver.
Qed.

Lemma keeps_setRange g v r : useMapCoversVars g -> keeps useMapCoversVars (setRange g v r).
Proof.
  intros Hg g'. unfold setRange, getVarNode, deref.
  destruct (vars g !! v) eqn:Hv; cbn [bind]; [|discriminate].
  intros [= <-]. covers_simpl. rewrite dom_insert_L.
  assert (Hin : v ∈ dom (vars g)) by (apply elem_of_dom; eauto).
  apply union_least; [apply singleton_subseteq_l, Hg, Hin | exact Hg].
Qed.

Lemma keeps_heap_addSource g phiOp source :
  useMapCoversVars g -> keeps useMapCoversVars (heap_addSource g phiOp source).
Proof.
  intros Hg g'. unfold heap_addSource, getOp, deref.
  destruct (heap g !! phiOp) as [op|]; cbn [bind]; [|discriminate].
  destruct op; try discriminate. intros [= <-]. exact Hg.
Qed.

Lemma keeps_addUnaryOp g I :
  useMapCoversVars g -> keeps useMapCoversVars (addUnaryOp W g I).
Proof.
  intros Hg. unfold addUnaryOp, new. cbv beta zeta.
  destruct (getOpcode I);
    try (apply keeps_ret, covers_addVarNode, Hg);
    (apply keeps_bind_val; intros source _;
     apply keeps_useMap_find_insert; covers_simpl;
     apply covers_addVarNode, covers_addVarNode, Hg).
Qed.

Lemma keeps_addBinaryOp g I :
  useMapCoversVars g -> keeps useMapCoversVars (addBinaryOp W g I).
Proof.
  intros Hg. unfold addBinaryOp, new. cbv beta zeta.
  apply keeps_bind_val; intros source1 _.
  apply keeps_bind_val; intros source2 _. cbv beta iota zeta.
  apply keeps_bind; [|intros; apply keeps_useMap_find_insert; assumption].
  apply keeps_useMap_find_insert. covers_simpl.
  apply covers_addVarNode, covers_addVarNode, covers_addVarNode, Hg.
Qed.

Lemma keeps_addPhiOp g Phi :
  useMapCoversVars g -> keeps useMapCoversVars (addPhiOp W g Phi).
Proof.
  intros Hg. unfold addPhiOp, new. cbv beta iota zeta.
  apply keeps_foldM.
  - intros g1 operand Hg1.
    apply keeps_bind;
      [apply keeps_heap_addSource, covers_addVarNode, Hg1|].
    intros; apply keeps_useMap_find_insert; assumption.
  - covers_simpl. apply covers_addVarNode, Hg.
Qed.

Lemma keeps_addSigmaOp g Sigma :
  useMapCoversVars g -> keeps useMapCoversVars (addSigmaOp W g Sigma).
Proof.
  intros Hg g'. unfold addSigmaOp.
  destruct (foldM _ _ _) as [f | st] eqn:Hfold; cbn [bind]; [discriminate|].
  intros [= <-]. revert Hfold.
  apply (foldM_invariant (fun st => useMapCoversVars (fst st)));
    [|apply covers_addVarNode, Hg].
  intros [g1 BItv] operand [g2 BItv'] Hg1. cbn [fst] in *.
  unfold addSigmaOp_operand, new.
  pose proof (covers_addVarNode g1 operand Hg1) as Hadd.
  set (ga := addVarNode W g1 operand) in *.
  destruct (match valuesBranchMap ga !! operand with
            | Some _ => _ | None => _ end) as [found|].
  - cbv beta iota zeta.
    destruct (useMap_find_insert _ _ _) as [f | g3] eqn:Hins; cbn [bind];
      [discriminate|].
    intros [= <- _]. revert Hins. apply keeps_useMap_find_insert.
    covers_simpl. exact Hadd.
  - intros [= <- _]. exact Hadd.
Qed.

Lemma keeps_buildOperations g I :
  useMapCoversVars g -> keeps useMapCoversVars (buildOperations W g I).
Proof.
  intros Hg. unfold buildOperations.
  destruct (ops_isBinaryOp _); [apply keeps_addBinaryOp, Hg|].
  destruct (getOpcode I); try (apply keeps_addUnaryOp, Hg).
  destruct (String.prefix _ _);
    [apply keeps_addSigmaOp, Hg | apply keeps_addPhiOp, Hg].
Qed.
Lemma covers_buildValueSwitchMap g sw :
  useMapCoversVars g -> useMapCoversVars (buildValueSwitchMap W g sw).
Proof.
  intros Hg. unfold buildValueSwitchMap.
  destruct (negb _); [exact Hg|].
  destruct (swCastOperand sw); covers_simpl; apply covers_addVarNode, Hg.
Qed.

Lemma covers_insertVBM g V VBM :
  useMapCoversVars g -> useMapCoversVars (insertVBM g V VBM).
Proof. auto. Qed.

Lemma covers_buildValueBranchMap g br :
  useMapCoversVars g -> useMapCoversVars (buildValueBranchMap W g br).
Proof.
  intros Hg. unfold buildValueBranchMap.
  destruct (negb _); [exact Hg|].
  destruct (getCondition br) as [ici|]; [|exact Hg].
  destruct (negb _); [exact Hg|].
  pose proof (covers_addVarNode _ (getOperand1 ici)
                (covers_addVarNode g (getOperand0 ici) Hg)) as Hadd.
  destruct (getOperand1 ici); cbv beta zeta;
    destruct (castOperand0 ici); try destruct (castOperand1 ici);
    repeat apply covers_insertVBM; exact Hadd.
Qed.

Lemma covers_buildValueMaps g F :
  useMapCoversVars g -> useMapCoversVars (buildValueMaps W g F).
Proof.
  intros Hg. unfold buildValueMaps. apply fold_left_invariant; [|exact Hg].
  intros g1 bb Hg1.
  destruct (getTerminator bb);
    [apply covers_buildValueBranchMap | apply covers_buildValueSwitchMap | |];
    exact Hg1.
Qed.

Lemma keeps_buildGraph g F : useMapCoversVars g -> keeps useMapCoversVars (buildGraph W g F).
Proof.
  intros Hg. unfold buildGraph. apply keeps_foldM.
  - intros g1 I Hg1.
    destruct (getTypeKind I); try (apply keeps_ret, Hg1);
      (destruct (negb _); [apply keeps_ret | apply keeps_buildOperations]);
      exact Hg1.
  - apply covers_buildValueMaps, Hg.
Qed.

Lemma covers_buildVarNodes g :
  useMapCoversVars g -> useMapCoversVars (buildVarNodes W g).
Proof.
  unfold buildVarNodes. covers_simpl. intros Hg V HV. apply Hg.
  apply elem_of_dom in HV. destruct HV as [node HV].
  rewrite map_lookup_imap in HV. apply elem_of_dom.
  destruct (vars g !! V); [eauto | discriminate].
Qed.

Lemma covers_createMatchers g formals :
  useMapCoversVars g -> useMapCoversVars (fst (createMatchers W g formals)).
Proof.
  intros Hg. unfold createMatchers.
  apply (fold_left_invariant (fun st => useMapCoversVars (fst st)));
    [|exact Hg].
  intros [g1 matchers] formal Hg1. cbn [fst] in *. unfold new.
  cbv beta iota zeta. cbn [fst]. covers_simpl. apply covers_addVarNode, Hg1.
Qed.

Lemma keeps_matchParameters g matchers actuals :
  useMapCoversVars g -> keeps useMapCoversVars (matchParameters W g matchers actuals).
Proof.
  revert g actuals. induction matchers as [|m matchers IH];
    intros g [|a actuals] Hg; cbn [matchParameters];
    try (intros g'; discriminate).
  - apply keeps_ret, Hg.
  - apply keeps_bind;
      [apply keeps_heap_addSource, covers_addVarNode, Hg|].
    intros g1 Hg1.
    apply keeps_bind; [apply keeps_useMap_find_insert, Hg1|].
    intros g2 Hg2. apply IH, Hg2.
Qed.

Lemma keeps_matchReturn g caller returnvars :
  useMapCoversVars g -> keeps useMapCoversVars (matchReturn W g caller returnvars).
Proof.
  intros Hg. unfold matchReturn, new. cbv beta iota zeta.
  apply keeps_foldM.
  - intros g1 var Hg1.
    apply keeps_bind; [apply keeps_heap_addSource, Hg1|].
    intros; apply keeps_useMap_find_insert; assumption.
  - covers_simpl. apply covers_addVarNode, Hg.
Qed.

Lemma keeps_MatchParametersAndReturnValues g F :
  useMapCoversVars g -> keeps useMapCoversVars (MatchParametersAndReturnValues W g F).
Proof.
  intros Hg. unfold MatchParametersAndReturnValues.
  destruct (fUses F) as [|U uses] eqn:HU; [apply keeps_ret, Hg|].
  pose proof (covers_createMatchers g (fArgs F) Hg) as Hm.
  destruct (createMatchers W g (fArgs F)) as [g1 matchers]. cbn [fst] in Hm.
  apply keeps_foldM.
  - intros g2 U' Hg2. destruct U' as [caller [|] actuals | |];
      try (apply keeps_ret, Hg2).
    apply keeps_bind; [apply keeps_matchParameters, Hg2|].
    intros g3 Hg3.
    destruct (returnsVoid F);
      [apply keeps_ret | apply keeps_matchReturn]; exact Hg3.
  - apply fold_left_invariant; [|exact Hm].
    intros; apply covers_addVarNode; assumption.
Qed.

Lemma keeps_buildSymbolicIntersectMap g :
  useMapCoversVars g -> keeps useMapCoversVars (buildSymbolicIntersectMap g).
Proof.
  intros Hg. unfold buildSymbolicIntersectMap.
  apply keeps_bind_val. intros m _. apply keeps_ret. exact Hg.
Qed.

Lemma keeps_addControlDependenceEdges g :
  useMapCoversVars g -> keeps useMapCoversVars (addControlDependenceEdges W g).
Proof.
  intros Hg. unfold addControlDependenceEdges. apply keeps_foldM; [|exact Hg].
  intros g1 [bound ops] Hg1. apply keeps_foldM; [|exact Hg1].
  intros g2 opref Hg2.
  apply keeps_bind_val; intros source _.
  apply keeps_bind_val; intros op _. unfold new. cbv beta iota zeta.
  apply keeps_ret. covers_simpl. unfold useMap_subscript.
  rewrite dom_insert_L, dom_map_insert_new. set_solver.
Qed.

Lemma covers_visit_subscript g V :
  useMapCoversVars g -> useMapCoversVars (visit_subscript g V).
Proof.
  unfold visit_subscript, useMap_subscript. covers_simpl.
  rewrite dom_map_insert_new. set_solver.
Qed.

Lemma covers_delControlDependenceEdges g :
  useMapCoversVars g -> useMapCoversVars (delControlDependenceEdges g).
Proof.
  unfold delControlDependenceEdges. covers_simpl. rewrite dom_fmap_L. auto.
Qed.

Lemma keeps_evalAndSet g op :
  useMapCoversVars g ->
  keeps useMapCoversVars (let* r := BasicOp_eval W g op in setRange g (getSink op) r).
Proof.
  intros Hg. apply keeps_bind_val. intros r _. apply keeps_setRange, Hg.
Qed.

Lemma covers_generateEntryPoints g component g' entryPoints :
  useMapCoversVars g ->
  generateEntryPoints W g component = inr (g', entryPoints) ->
  useMapCoversVars g'.
Proof.
  intros Hg. unfold generateEntryPoints.
  apply (foldM_invariant (fun st => useMapCoversVars (fst st))); [|exact Hg].
  intros [g1 eps] V [g2 eps'] Hg1. cbn [fst] in *.
  match goal with
  | |- bind ?m _ = _ -> _ =>
      assert (Hk : keeps useMapCoversVars m); [|destruct m as [f | g3] eqn:Hm]
  end.
  - destruct (String.prefix _ _); [|apply keeps_ret, Hg1].
    destruct (defMap g1 !! V); [|apply keeps_ret, Hg1].
    apply keeps_bind_val. intros bop _.
    destruct bop; try (apply keeps_ret, Hg1).
    destruct unresolved; [|apply keeps_ret, Hg1].
    apply keeps_bind_val. intros r _.
    apply keeps_bind; [apply keeps_setRange, Hg1|].
    intros g3 Hg3. apply keeps_ret. exact Hg3.
  - discriminate.
  - cbn [bind]. destruct (getVarNode g3 V); cbn [bind]; [discriminate|].
    destruct (negb _); intros [= <- _]; apply Hk; reflexivity.
Qed.

Lemma keeps_fixIntersects g component :
  useMapCoversVars g -> keeps useMapCoversVars (fixIntersects W g component).
Proof.
  intros Hg. unfold fixIntersects. apply keeps_foldM; [|exact Hg].
  intros g1 V Hg1. destruct (symbMap g1 !! V); [|apply keeps_ret, Hg1].
  apply keeps_foldM; [|exact Hg1].
  intros g2 opref Hg2. apply keeps_bind_val. intros op _.
  destruct (getIntersect op); [apply keeps_ret, Hg2|].
  apply keeps_bind_val. intros b _. apply keeps_bind_val. intros sk _.
  apply keeps_ret. exact Hg2.
Qed.

Lemma covers_Meet_fixed g opref changed g' :
  useMapCoversVars g -> Meet_fixed W g opref = inr (changed, g') ->
  useMapCoversVars g'.
Proof.
  intros Hg. unfold Meet_fixed.
  destruct (getOp g opref) as [f | op]; cbn [bind]; [discriminate|].
  destruct (getVarNode g (getSink op)); cbn [bind]; [discriminate|].
  destruct (BasicOp_eval W g op) as [f | r]; cbn [bind]; [discriminate|].
  destruct (setRange g (getSink op) r) as [f | g1] eqn:Hset; cbn [bind];
    [discriminate|].
  intros [= _ <-]. revert Hset. apply keeps_setRange, Hg.
Qed.

Lemma covers_update_uses L st returned st' :
  useMapCoversVars (uGraph st) ->
  update_uses W L st = inr (returned, st') -> useMapCoversVars (uGraph st').
Proof.
  revert st. induction L as [|opref L IH]; intros st Hst; cbn [update_uses].
  - intros [= _ <-]. exact Hst.
  - destruct (N.eqb _ _); [intros [= _ <-]; exact Hst|].
    destruct (Meet_fixed W (uGraph st) opref) as [f | [changed g]] eqn:Hm;
      cbn [bind]; [discriminate|].
    destruct (getOp g opref); cbn [bind]; [discriminate|].
    apply IH. cbn [uGraph]. eapply covers_Meet_fixed; eauto.
Qed.

Lemma covers_update_loop fuel compUseMap st st' :
  useMapCoversVars (uGraph st) ->
  update_loop W fuel compUseMap st = inr st' -> useMapCoversVars (uGraph st').
Proof.
  revert st. induction fuel as [|fuel IH]; intros st Hst; cbn [update_loop].
  - discriminate.
  - destruct (actv st) as [|V rest]; [intros [= <-]; exact Hst|].
    destruct (deref compUseMap V _); cbn [bind]; [discriminate|].
    destruct (update_uses W _ _) as [f | [returned st1]] eqn:Hu; cbn [bind];
      [discriminate|].
    apply covers_update_uses in Hu; [|exact Hst].
    destruct returned; [intros [= <-]; exact Hu | apply IH, Hu].
Qed.

Lemma keeps_propagateToNextSCC g component :
  useMapCoversVars g -> keeps useMapCoversVars (propagateToNextSCC W g component).
Proof.
  intros Hg. unfold propagateToNextSCC. apply keeps_foldM; [|exact Hg].
  intros g1 V Hg1. apply keeps_bind_val. intros uses _.
  apply keeps_foldM; [|exact Hg1].
  intros g2 opref Hg2. apply keeps_bind_val. intros op _.
  apply keeps_bind_val. intros r _.
  apply keeps_bind; [apply keeps_setRange, Hg2|].
  intros g3 Hg3. destruct op; try (apply keeps_ret, Hg3).
  destruct (isUnknown _); apply keeps_ret; exact Hg3.
Qed.

(** One step of the analysis keeps a use list for every node. *)
Lemma covers_step g g' :
  GraphStep W g g' -> useMapCoversVars g -> useMapCoversVars g'.
Proof.
  intros Hstep Hg. destruct Hstep.
  - apply covers_addVarNode, Hg.
  - apply covers_buildValueBranchMap, Hg.
  - apply covers_buildValueSwitchMap, Hg.
  - eapply keeps_addUnaryOp; eauto.
  - eapply keeps_addBinaryOp; eauto.
  - eapply keeps_addPhiOp; eauto.
  - eapply keeps_addSigmaOp; eauto.
  - eapply keeps_MatchParametersAndReturnValues; eauto.
  - apply covers_buildVarNodes, Hg.
  - eapply keeps_buildSymbolicIntersectMap; eauto.
  - eapply keeps_addControlDependenceEdges; eauto.
  - apply covers_visit_subscript, Hg.
  - apply covers_delControlDependenceEdges, Hg.
  - eapply covers_generateEntryPoints; eauto.
  - eapply keeps_fixIntersects; eauto.
  - eapply covers_update_loop; [|eassumption]. exact Hg.
  - eapply keeps_setRange; eauto.
  - eapply keeps_propagateToNextSCC; eauto.
Qed.

Lemma covers_reachable g : Reachable W g -> useMapCoversVars g.
Proof.
  induction 1 as [|g g' _ IH Hstep].
  - unfold useMapCoversVars. cbn. set_solver.
  - eapply covers_step; eauto.
Qed.
(** A fold raises no fault of [bad] when no round does, as long as an
    invariant of the state holds. *)
Lemma avoids_foldM_invariant {A S} (bad : Fault -> Prop) (Q : S -> Prop)
    (step : S -> A -> Result S) (l : list A) s :
  (forall s a, a ∈ l -> Q s ->
     avoids bad (step s a) /\ forall s', step s a = inr s' -> Q s') ->
  Q s -> avoids bad (foldM step l s).
Proof.
  revert s. induction l as [|a l IH]; intros s Hstep Hs; cbn [foldM].
  - apply avoids_ret.
  - destruct (Hstep s a ltac:(left) Hs) as [Hav Hnext].
    apply avoids_bind; [exact Hav|]. intros s1 Hs1. apply IH.
    + intros s2 a2 Ha2. apply Hstep. right. exact Ha2.
    + apply Hnext, Hs1.
Qed.

Lemma missing_only f :
  (forall V, f <> NoUseMapEntry V) -> ~ missingUseMapEntry f.
Proof. intros Hf [V HV]. apply (Hf V HV). Qed.

Lemma deref_useMap_found g V :
  useMapCoversVars g -> V ∈ dom (vars g) ->
  exists uses, deref (useMap g) V (NoUseMapEntry V) = inr uses.
Proof.
  intros Hg HV. apply Hg, elem_of_dom in HV. destruct HV as [uses HV].
  exists uses. unfold deref. rewrite HV. reflexivity.
Qed.

(** [buildUseMap] finds the use list of every node of the component. *)
Lemma buildUseMap_finds g (component : gset Value) :
  useMapCoversVars g -> component ⊆ dom (vars g) ->
  avoids missingUseMapEntry (buildUseMap g component).
Proof.
  intros Hg Hc. unfold buildUseMap.
  apply (avoids_foldM_invariant _ (fun _ => True)); [|exact I].
  intros m V HV _. split; [|auto].
  apply elem_of_elements in HV.
  destruct (deref_useMap_found g V Hg (Hc V HV)) as [uses ->]. cbn [bind].
  apply avoids_bind; [|intros ? _; apply avoids_ret].
  apply avoids_foldM. intros l opref.
  apply avoids_bind;
    [apply avoids_deref, missing_only; discriminate | intros op _].
  destruct (bool_decide _); apply avoids_ret.
Qed.

(** The solver writes ranges and flags; it leaves the keys of [vars] and
    the whole of [useMap] as they are. *)
Lemma setRange_keys g v r g' :
  setRange g v r = inr g' ->
  dom (vars g') = dom (vars g) /\ useMap g' = useMap g.
Proof.
  unfold setRange, getVarNode, deref.
  destruct (vars g !! v) eqn:Hv; cbn [bind]; [|discriminate].
  intros [= <-]. cbn. split; [|reflexivity].
  rewrite dom_insert_L.
  assert (Hin : v ∈ dom (vars g)) by (apply elem_of_dom; eauto).
  apply subseteq_union_1_L, singleton_subseteq_l, Hin.
Qed.

Lemma propagate_round_keys g0 g opref g' :
  (dom (vars g) = dom (vars g0) /\ useMap g = useMap g0) ->
  (let* op := getOp g opref in
   let* r := BasicOp_eval W g op in
   let* g := setRange g (getSink op) r in
   match op with
   | SigmaOp i _ _ _ _ =>
       if isUnknown (BasicInterval_getRange i)
       then ret (set_heap g (<[opref := setUnresolved op true]> (heap g)))
       else ret g
   | _ => ret g
   end) = inr g' ->
  dom (vars g') = dom (vars g0) /\ useMap g' = useMap g0.
Proof.
  intros [Hd Hu].
  destruct (getOp g opref) as [f | op]; cbn [bind]; [discriminate|].
  destruct (BasicOp_eval W g op) as [f | r]; cbn [bind]; [discriminate|].
  destruct (setRange g (getSink op) r) as [f | g1] eqn:Hset; cbn [bind];
    [discriminate|].
  apply setRange_keys in Hset. destruct Hset as [Hd1 Hu1].
  assert (Hkeep : dom (vars g1) = dom (vars g0) /\ useMap g1 = useMap g0)
    by (split; congruence).
  destruct op; try (intros [= <-]; exact Hkeep).
  destruct (isUnknown _); intros [= <-]; exact Hkeep.
Qed.

(** [propagateToNextSCC] finds the use list of every node of the
    component. *)
Lemma propagateToNextSCC_finds g (component : gset Value) :
  useMapCoversVars g -> component ⊆ dom (vars g) ->
  avoids missingUseMapEntry (propagateToNextSCC W g component).
Proof.
  intros Hg Hc. unfold propagateToNextSCC.
  apply (avoids_foldM_invariant _
           (fun g1 => dom (vars g1) = dom (vars g) /\ useMap g1 = useMap g));
    [|split; reflexivity].
  intros g1 V HV [Hd Hu]. apply elem_of_elements in HV.
  assert (Hg1 : useMapCoversVars g1)
    by (unfold useMapCoversVars; rewrite Hd, Hu; exact Hg).
  assert (HV1 : V ∈ dom (vars g1)) by (rewrite Hd; apply Hc, HV).
  destruct (deref_useMap_found g1 V Hg1 HV1) as [uses ->]. cbn [bind].
  split.
  - apply avoids_foldM. intros g2 opref.
    apply avoids_bind;
      [apply avoids_deref, missing_only; discriminate | intros op _].
    apply avoids_bind;
      [apply avoids_eval; intros; apply missing_only; discriminate
      | intros r _].
    apply avoids_bind;
      [apply avoids_setRange; intros; apply missing_only; discriminate
      | intros g3 _].
    destruct op; try apply avoids_ret.
    destruct (isUnknown _); apply avoids_ret.
  - intros g2.
    apply (foldM_invariant
             (fun g2 => dom (vars g2) = dom (vars g) /\ useMap g2 = useMap g));
      [|split; assumption].
    intros g3 opref g4 H3 H4.
    exact (propagate_round_keys g g3 opref g4 H3 H4).
Qed.

Lemma addVarNode_adds g V :
  V ∈ dom (vars (addVarNode W g V)).
Proof.
  unfold addVarNode. destruct (vars g !! V) eqn:HV.
  - apply elem_of_dom. eauto.
  - cbn. rewrite dom_insert_L. set_solver.
Qed.
End Covers.

(** ** Every use list holds operations that read its value *)

Section Sound.
Variable W : positive.

Ltac graph_simpl :=
  unfold set_vars, set_oprs, set_defMap, set_useMap, set_symbMap,
    set_valuesBranchMap, set_valuesSwitchMap, set_heap;
  cbn [vars oprs defMap useMap symbMap valuesBranchMap valuesSwitchMap heap
       nextRef].

Lemma sound_frame g g' :
  useMap g' = useMap g -> heap g' = heap g -> nextRef g' = nextRef g ->
  usesSound g -> usesSound g'.
Proof.
  unfold usesSound. intros -> -> ->. auto.
Qed.

(** Allocation: the object goes to the next free address, which no use
    list holds yet. *)
Lemma sound_alloc g g' op :
  useMap g' = useMap g -> heap g' = <[nextRef g := op]> (heap g) ->
  nextRef g' = Pos.succ (nextRef g) ->
  usesSound g -> usesSound g'.
Proof.
  unfold usesSound. intros -> -> -> [Huses Hheap]. split.
  - intros v uses ref Hv Hin.
    destruct (Huses v uses ref Hv Hin) as (op0 & Hop0 & Hsrc).
    exists op0. split; [|exact Hsrc].
    rewrite lookup_insert_ne; [exact Hop0|].
    intros <-. assert (nextRef g < nextRef g)%positive by (apply Hheap; eauto).
    lia.
  - intros ref [op0 Hop0].
    destruct (decide (nextRef g = ref)) as [<- | Hne]; [lia|].
    rewrite lookup_insert_ne in Hop0 by exact Hne.
    assert (ref < nextRef g)%positive by (apply Hheap; eauto). lia.
Qed.

(** The graph of the goal is [g0] with one more object on its heap. *)
Ltac sound_after_new :=
  match goal with
  | |- usesSound ?g' =>
      match g' with
      | context [<[nextRef ?g0 := ?op]> (heap ?g0)] =>
          apply (sound_alloc g0 g' op);
          [reflexivity | reflexivity | reflexivity |]
      end
  end.

(** Replacing an object by one with the same sources, or with more. *)
Lemma sound_heap_update g ref op op' :
  heap g !! ref = Some op ->
  (forall v, v ∈ getSources op -> v ∈ getSources op') ->
  usesSound g -> usesSound (set_heap g (<[ref := op']> (heap g))).
Proof.
  unfold usesSound. cbn [useMap heap nextRef set_heap].
  intros Hop Hsrc [Huses Hheap]. split.
  - intros v uses ref' Hv Hin.
    destruct (Huses v uses ref' Hv Hin) as (op0 & Hop0 & Hsrc0).
    destruct (decide (ref = ref')) as [<- | Hne].
    + rewrite lookup_insert_eq. exists op'. split; [reflexivity|].
      apply Hsrc. congruence.
    + rewrite lookup_insert_ne by exact Hne. eauto.
  - intros ref' [op0 Hop0].
    destruct (decide (ref = ref')) as [<- | Hne]; [apply Hheap; eauto|].
    rewrite lookup_insert_ne in Hop0 by exact Hne. apply Hheap; eauto.
Qed.

Lemma sound_map_insert_new g g' V :
  useMap g' = map_insert_new V ∅ (useMap g) -> heap g' = heap g ->
  nextRef g' = nextRef g -> usesSound g -> usesSound g'.
Proof.
  unfold usesSound, map_insert_new. intros -> -> -> [Huses Hheap].
  split; [|exact Hheap].
  intros v uses ref. destruct (useMap g !! V) eqn:HV; [apply Huses|].
  destruct (decide (V = v)) as [<- | Hne].
  - rewrite lookup_insert_eq. intros [= <-] Hin.
    apply elem_of_empty in Hin. contradiction.
  - rewrite lookup_insert_ne by exact Hne. apply Huses.
Qed.

Lemma sound_addVarNode g V : usesSound g -> usesSound (addVarNode W g V).
Proof.
  unfold addVarNode. destruct (vars g !! V); [auto|].
  apply (sound_map_insert_new _ _ V); reflexivity.
Qed.

Lemma keeps_sound_useMap_find_insert g v ref op :
  heap g !! ref = Some op -> v ∈ getSources op ->
  usesSound g -> keeps usesSound (useMap_find_insert g v ref).
Proof.
  intros Hop Hsrc [Huses Hheap] g'. unfold useMap_find_insert, deref.
  destruct (useMap g !! v) as [uses0|] eqn:Hv; cbn [bind]; [|discriminate].
  intros [= <-]. unfold usesSound. cbn [useMap heap nextRef set_useMap].
  split; [|exact Hheap].
  intros v' uses ref'. destruct (decide (v = v')) as [<- | Hne].
  - rewrite lookup_insert_eq. intros [= <-] Hin.
    apply elem_of_union in Hin. destruct Hin as [Hin | Hin].
    + apply (Huses v uses0 ref' Hv Hin).
    + apply elem_of_singleton in Hin. subst ref'. eauto.
  - rewrite lookup_insert_ne by exact Hne. apply Huses.
Qed.

Lemma keeps_sound_setRange g v r : usesSound g -> keeps usesSound (setRange g v r).
Proof.
  intros Hg g'. unfold setRange, getVarNode, deref.
  destruct (vars g !! v); cbn [bind]; [|discriminate].
  intros [= <-]. exact Hg.
Qed.

(** [addSource] on a phi and the registration of the phi under the new
    source: the step shared by [addPhiOp] and the matchers. *)
Lemma keeps_sound_addSource g phiOp source :
  usesSound g ->
  keeps usesSound (let* g := heap_addSource g phiOp source in
                   useMap_find_insert g source phiOp).
Proof.
  intros Hg. unfold heap_addSource, getOp, deref.
  destruct (heap g !! phiOp) as [op|] eqn:Hop; cbn [bind];
    [|intros g'; discriminate].
  destruct op as [| | | i sk srcs oc |]; try (intros g'; discriminate).
  cbn [bind addSource].
  apply (keeps_sound_useMap_find_insert _ _ _ (PhiOp i sk (srcs ++ [source]) oc)).
  - cbn [heap set_heap]. apply lookup_insert_eq.
  - cbn [getSources]. apply elem_of_app. right. apply list_elem_of_singleton.
    reflexivity.
  - apply (sound_heap_update g phiOp (PhiOp i sk srcs oc)); [exact Hop | | exact Hg].
    intros v. cbn [getSources]. intros Hv. apply elem_of_app. left. exact Hv.
Qed.

Lemma keeps_sound_addUnaryOp g I :
  usesSound g -> keeps usesSound (addUnaryOp W g I).
Proof.
  intros Hg. unfold addUnaryOp, new. cbv beta zeta.
  destruct (getOpcode I);
    try (apply keeps_ret, sound_addVarNode, Hg);
    (apply keeps_bind_val; intros source _;
     eapply keeps_sound_useMap_find_insert;
     [graph_simpl; apply lookup_insert_eq
     |cbn [getSources]; apply list_elem_of_singleton; reflexivity
     |sound_after_new; apply sound_addVarNode, sound_addVarNode, Hg]).
Qed.
Lemma keeps_sound_addBinaryOp g I :
  usesSound g -> keeps usesSound (addBinaryOp W g I).
Proof.
  intros Hg. unfold addBinaryOp, new. cbv beta zeta.
  apply keeps_bind_val; intros source1 _.
  apply keeps_bind_val; intros source2 _. cbv beta iota zeta.
  set (BOp := BinaryOp (BasicInterval_default W) (asValue I) source1 source2
                (getOpcode I)).
  intros g'.
  destruct (useMap_find_insert _ source1 _) as [f | g1] eqn:H1; cbn [bind];
    [discriminate|].
  pose proof (useMap_find_insert_frame _ _ _ _ H1) as [Hheap _].
  revert H1.
  match goal with
  | |- useMap_find_insert ?g0 _ ?ref = _ -> _ =>
      intros H1;
      assert (Hg1 : usesSound g1);
      [revert H1; apply (keeps_sound_useMap_find_insert g0 source1 ref BOp)|]
  end.
  - graph_simpl. apply lookup_insert_eq.
  - subst BOp. cbn [getSources]. apply list_elem_of_here.
  - sound_after_new.
    apply sound_addVarNode, sound_addVarNode, sound_addVarNode, Hg.
  - apply (keeps_sound_useMap_find_insert g1 source2 _ BOp); [| |exact Hg1].
    + rewrite Hheap. graph_simpl. apply lookup_insert_eq.
    + subst BOp. cbn [getSources]. apply list_elem_of_further, list_elem_of_here.
Qed.

Lemma keeps_sound_addPhiOp g Phi :
  usesSound g -> keeps usesSound (addPhiOp W g Phi).
Proof.
  intros Hg. unfold addPhiOp, new. cbv beta iota zeta.
  apply keeps_foldM.
  - intros g1 operand Hg1.
    apply keeps_sound_addSource, sound_addVarNode, Hg1.
  - graph_simpl. sound_after_new. apply sound_addVarNode, Hg.
Qed.

Lemma keeps_sound_addSigmaOp g Sigma :
  usesSound g -> keeps usesSound (addSigmaOp W g Sigma).
Proof.
  intros Hg g'. unfold addSigmaOp.
  destruct (foldM _ _ _) as [f | st] eqn:Hfold; cbn [bind]; [discriminate|].
  intros [= <-]. revert Hfold.
  apply (foldM_invariant (fun st => usesSound (fst st)));
    [|apply sound_addVarNode, Hg].
  intros [g1 BItv] operand [g2 BItv'] Hg1. cbn [fst] in *.
  unfold addSigmaOp_operand, new.
  pose proof (sound_addVarNode g1 operand Hg1) as Hadd.
  set (ga := addVarNode W g1 operand) in *.
  destruct (match valuesBranchMap ga !! operand with
            | Some _ => _ | None => _ end) as [found|].
  - cbv beta iota zeta.
    destruct (useMap_find_insert _ _ _) as [f | g3] eqn:Hins; cbn [bind];
      [discriminate|].
    intros [= <- _]. revert Hins.
    eapply keeps_sound_useMap_find_insert.
    + graph_simpl. apply lookup_insert_eq.
    + cbn [getSources]. apply list_elem_of_here.
    + sound_after_new. exact Hadd.
  - intros [= <- _]. exact Hadd.
Qed.

Lemma keeps_sound_buildOperations g I :
  usesSound g -> keeps usesSound (buildOperations W g I).
Proof.
  intros Hg. unfold buildOperations.
  destruct (ops_isBinaryOp _); [apply keeps_sound_addBinaryOp, Hg|].
  destruct (getOpcode I); try (apply keeps_sound_addUnaryOp, Hg).
  destruct (String.prefix _ _);
    [apply keeps_sound_addSigmaOp, Hg | apply keeps_sound_addPhiOp, Hg].
Qed.

Lemma sound_buildValueSwitchMap g sw :
  usesSound g -> usesSound (buildValueSwitchMap W g sw).
Proof.
  intros Hg. unfold buildValueSwitchMap.
  destruct (negb _); [exact Hg|].
  pose proof (sound_addVarNode g (swCondition sw) Hg) as Hadd.
  destruct (swCastOperand sw); exact Hadd.
Qed.

Lemma sound_buildValueBranchMap g br :
  usesSound g -> usesSound (buildValueBranchMap W g br).
Proof.
  intros Hg. unfold buildValueBranchMap.
  destruct (negb _); [exact Hg|].
  destruct (getCondition br) as [ici|]; [|exact Hg].
  destruct (negb _); [exact Hg|].
  pose proof (sound_addVarNode _ (getOperand1 ici)
                (sound_addVarNode g (getOperand0 ici) Hg)) as Hadd.
  destruct (getOperand1 ici); cbv beta zeta;
    destruct (castOperand0 ici); try destruct (castOperand1 ici);
    exact Hadd.
Qed.

Lemma keeps_sound_buildGraph g F :
  usesSound g -> keeps usesSound (buildGraph W g F).
Proof.
  intros Hg. unfold buildGraph. apply keeps_foldM.
  - intros g1 I Hg1.
    destruct (getTypeKind I); try (apply keeps_ret, Hg1);
      (destruct (negb _);
       [apply keeps_ret | apply keeps_sound_buildOperations]);
      exact Hg1.
  - unfold buildValueMaps. apply fold_left_invariant; [|exact Hg].
    intros g1 bb Hg1.
    destruct (getTerminator bb);
      [apply sound_buildValueBranchMap | apply sound_buildValueSwitchMap | |];
      exact Hg1.
Qed.

Lemma sound_createMatchers g formals :
  usesSound g -> usesSound (fst (createMatchers W g formals)).
Proof.
  intros Hg. unfold createMatchers.
  apply (fold_left_invariant (fun st => usesSound (fst st))); [|exact Hg].
  intros [g1 matchers] formal Hg1. cbn [fst] in *. unfold new.
  cbv beta iota zeta. cbn [fst]. sound_after_new.
  apply sound_addVarNode, Hg1.
Qed.

Lemma keeps_sound_matchParameters g matchers actuals :
  usesSound g -> keeps usesSound (matchParameters W g matchers actuals).
Proof.
  revert g actuals. induction matchers as [|m matchers IH];
    intros g [|a actuals] Hg; cbn [matchParameters];
    try (intros g'; discriminate).
  - apply keeps_ret, Hg.
  - pose proof (keeps_sound_addSource (addVarNode W g a) m a
                  (sound_addVarNode g a Hg)) as Hstep.
    intros g'. cbn [bind] in *.
    destruct (heap_addSource (addVarNode W g a) m a) as [f | g1]; cbn [bind] in *;
      [discriminate|].
    destruct (useMap_find_insert g1 a m) as [f | g2]; cbn [bind];
      [discriminate|].
    apply IH, Hstep. reflexivity.
Qed.

Lemma keeps_sound_matchReturn g caller returnvars :
  usesSound g -> keeps usesSound (matchReturn W g caller returnvars).
Proof.
  intros Hg. unfold matchReturn, new. cbv beta iota zeta.
  apply keeps_foldM.
  - intros g1 var Hg1. apply keeps_sound_addSource, Hg1.
  - graph_simpl. sound_after_new. apply sound_addVarNode, Hg.
Qed.

Lemma keeps_sound_MatchParametersAndReturnValues g F :
  usesSound g -> keeps usesSound (MatchParametersAndReturnValues W g F).
Proof.
  intros Hg. unfold MatchParametersAndReturnValues.
  destruct (fUses F) as [|U uses] eqn:HU; [apply keeps_ret, Hg|].
  pose proof (sound_createMatchers g (fArgs F) Hg) as Hm.
  destruct (createMatchers W g (fArgs F)) as [g1 matchers]. cbn [fst] in Hm.
  apply keeps_foldM.
  - intros g2 U' Hg2. destruct U' as [caller [|] actuals | |];
      try (apply keeps_ret, Hg2).
    apply keeps_bind; [apply keeps_sound_matchParameters, Hg2|].
    intros g3 Hg3.
    destruct (returnsVoid F);
      [apply keeps_ret | apply keeps_sound_matchReturn]; exact Hg3.
  - apply fold_left_invariant; [|exact Hm].
    intros; apply sound_addVarNode; assumption.
Qed.
Lemma getSources_setUnresolved op b v :
  v ∈ getSources op -> v ∈ getSources (setUnresolved op b).
Proof. destruct op; auto. Qed.

Lemma getSources_setIntersectRange op r v :
  v ∈ getSources op -> v ∈ getSources (setIntersectRange op r).
Proof. destruct op; auto. Qed.

Lemma setRange_heap g v r g' :
  setRange g v r = inr g' -> heap g' = heap g.
Proof.
  unfold setRange, getVarNode, deref.
  destruct (vars g !! v); cbn [bind]; [|discriminate].
  intros [= <-]. reflexivity.
Qed.

Lemma keeps_sound_addControlDependenceEdges g :
  usesSound g -> keeps usesSound (addControlDependenceEdges W g).
Proof.
  intros Hg. unfold addControlDependenceEdges. apply keeps_foldM; [|exact Hg].
  intros g1 [bound ops] Hg1. apply keeps_foldM; [|exact Hg1].
  intros g2 opref Hg2.
  apply keeps_bind_val; intros source _.
  apply keeps_bind_val; intros op _. unfold new. cbv beta iota zeta.
  apply keeps_ret.
  set (cd := ControlDep (BasicInterval_default W) (getSink op) bound).
  assert (Hnew : usesSound (snd (new g2 cd)))
    by (unfold new; cbn [snd]; sound_after_new; exact Hg2).
  destruct Hnew as [Huses Hheap]. unfold new in Huses, Hheap.
  cbn [snd useMap heap nextRef] in Huses, Hheap.
  unfold usesSound. graph_simpl. split; [|exact Hheap].
  intros v uses ref. unfold useMap_subscript, map_insert_new.
  destruct (decide (bound = v)) as [<- | Hne].
  - rewrite lookup_insert_eq. intros [= <-] Hin.
    apply elem_of_union in Hin. destruct Hin as [Hin | Hin].
    + destruct (useMap g2 !! bound) as [uses0|] eqn:Hb.
      * unfold lookup_total, map_lookup_total in Hin. rewrite Hb in Hin.
        apply (Huses bound uses0 ref Hb Hin).
      * unfold lookup_total, map_lookup_total in Hin.
        rewrite lookup_insert_eq in Hin. apply elem_of_empty in Hin.
        contradiction.
    + apply elem_of_singleton in Hin. subst ref. exists cd.
      split; [apply lookup_insert_eq|]. cbn [getSources].
      apply list_elem_of_here.
  - rewrite lookup_insert_ne by exact Hne.
    destruct (useMap g2 !! bound) as [uses0|] eqn:Hb.
    + apply Huses.
    + rewrite lookup_insert_ne by exact Hne. apply Huses.
Qed.

Lemma sound_visit_subscript g V : usesSound g -> usesSound (visit_subscript g V).
Proof.
  apply (sound_map_insert_new _ _ V); reflexivity.
Qed.

Lemma sound_delControlDependenceEdges g :
  usesSound g -> usesSound (delControlDependenceEdges g).
Proof.
  intros [Huses Hheap]. unfold delControlDependenceEdges, usesSound.
  graph_simpl. split; [|exact Hheap].
  intros v uses ref. rewrite lookup_fmap.
  destruct (useMap g !! v) as [uses0|] eqn:Hv; cbn; [|discriminate].
  intros [= <-] Hin. apply elem_of_filter in Hin. destruct Hin as [_ Hin].
  apply (Huses v uses0 ref Hv Hin).
Qed.

Lemma sound_generateEntryPoints g component g' entryPoints :
  usesSound g ->
  generateEntryPoints W g component = inr (g', entryPoints) -> usesSound g'.
Proof.
  intros Hg. unfold generateEntryPoints.
  apply (foldM_invariant (fun st => usesSound (fst st))); [|exact Hg].
  intros [g1 eps] V [g2 eps'] Hg1. cbn [fst] in *.
  match goal with
  | |- bind ?m _ = _ -> _ =>
      assert (Hk : keeps usesSound m); [|destruct m as [f | g3] eqn:Hm]
  end.
  - destruct (String.prefix _ _); [|apply keeps_ret, Hg1].
    destruct (defMap g1 !! V) as [dit|]; [|apply keeps_ret, Hg1].
    unfold getOp, deref.
    destruct (heap g1 !! dit) as [bop|] eqn:Hbop; cbn [bind ret fault];
      [|intros ?; discriminate].
    destruct bop; try (apply keeps_ret, Hg1).
    destruct unresolved; [|apply keeps_ret, Hg1].
    apply keeps_bind_val. intros r _. intros g4.
    destruct (setRange g1 _ r) as [f | g5] eqn:Hset; cbn [bind];
      [discriminate|].
    intros [= <-].
    eapply sound_heap_update.
    + rewrite (setRange_heap _ _ _ _ Hset). exact Hbop.
    + intros v Hv. exact Hv.
    + revert Hset. apply keeps_sound_setRange, Hg1.
  - discriminate.
  - cbn [bind]. destruct (getVarNode g3 V); cbn [bind]; [discriminate|].
    destruct (negb _); intros [= <- _]; apply Hk; reflexivity.
Qed.

Lemma keeps_sound_fixIntersects g component :
  usesSound g -> keeps usesSound (fixIntersects W g component).
Proof.
  intros Hg. unfold fixIntersects. apply keeps_foldM; [|exact Hg].
  intros g1 V Hg1. destruct (symbMap g1 !! V); [|apply keeps_ret, Hg1].
  apply keeps_foldM; [|exact Hg1].
  intros g2 opref Hg2. unfold getOp at 1, deref.
  destruct (heap g2 !! opref) as [op|] eqn:Hop; cbn [bind ret fault];
    [|intros ?; discriminate].
  destruct (getIntersect op); [apply keeps_ret, Hg2|].
  apply keeps_bind_val. intros b _. apply keeps_bind_val. intros sk _.
  apply keeps_ret. eapply sound_heap_update; [exact Hop | | exact Hg2].
  intros v. apply getSources_setIntersectRange.
Qed.

Lemma sound_Meet_fixed g opref changed g' :
  usesSound g -> Meet_fixed W g opref = inr (changed, g') -> usesSound g'.
Proof.
  intros Hg. unfold Meet_fixed.
  destruct (getOp g opref) as [f | op]; cbn [bind]; [discriminate|].
  destruct (getVarNode g (getSink op)); cbn [bind]; [discriminate|].
  destruct (BasicOp_eval W g op) as [f | r]; cbn [bind]; [discriminate|].
  destruct (setRange g (getSink op) r) as [f | g1] eqn:Hset; cbn [bind];
    [discriminate|].
  intros [= _ <-]. revert Hset. apply keeps_sound_setRange, Hg.
Qed.

Lemma sound_update_uses L st returned st' :
  usesSound (uGraph st) ->
  update_uses W L st = inr (returned, st') -> usesSound (uGraph st').
Proof.
  revert st. induction L as [|opref L IH]; intros st Hst; cbn [update_uses].
  - intros [= _ <-]. exact Hst.
  - destruct (N.eqb _ _); [intros [= _ <-]; exact Hst|].
    destruct (Meet_fixed W (uGraph st) opref) as [f | [changed g]] eqn:Hm;
      cbn [bind]; [discriminate|].
    destruct (getOp g opref); cbn [bind]; [discriminate|].
    apply IH. cbn [uGraph]. eapply sound_Meet_fixed; eauto.
Qed.

Lemma sound_update_loop fuel compUseMap st st' :
  usesSound (uGraph st) ->
  update_loop W fuel compUseMap st = inr st' -> usesSound (uGraph st').
Proof.
  revert st. induction fuel as [|fuel IH]; intros st Hst; cbn [update_loop].
  - discriminate.
  - destruct (actv st) as [|V rest]; [intros [= <-]; exact Hst|].
    destruct (deref compUseMap V _); cbn [bind]; [discriminate|].
    destruct (update_uses W _ _) as [f | [returned st1]] eqn:Hu; cbn [bind];
      [discriminate|].
    apply sound_update_uses in Hu; [|exact Hst].
    destruct returned; [intros [= <-]; exact Hu | apply IH, Hu].
Qed.

(** One round of [propagateToNextSCC] on an operation. *)
Lemma sound_propagate_round g opref g' :
  usesSound g ->
  (let* op := getOp g opref in
   let* r := BasicOp_eval W g op in
   let* g := setRange g (getSink op) r in
   match op with
   | SigmaOp i _ _ _ _ =>
       if isUnknown (BasicInterval_getRange i)
       then ret (set_heap g (<[opref := setUnresolved op true]> (heap g)))
       else ret g
   | _ => ret g
   end) = inr g' ->
  usesSound g'.
Proof.
  intros Hg. unfold getOp, deref.
  destruct (heap g !! opref) as [op|] eqn:Hop; cbn [bind ret fault];
    [|discriminate].
  destruct (BasicOp_eval W g op) as [f | r]; cbn [bind]; [discriminate|].
  destruct (setRange g (getSink op) r) as [f | g1] eqn:Hset; cbn [bind];
    [discriminate|].
  pose proof (keeps_sound_setRange g _ r Hg g1 Hset) as Hg1.
  pose proof (setRange_heap _ _ _ _ Hset) as Hheap.
  destruct op; try (intros [= <-]; exact Hg1).
  destruct (isUnknown _); intros [= <-]; [|exact Hg1].
  eapply sound_heap_update; [rewrite Hheap; exact Hop | | exact Hg1].
  intros v Hv. exact Hv.
Qed.

Lemma keeps_sound_propagateToNextSCC g component :
  usesSound g -> keeps usesSound (propagateToNextSCC W g component).
Proof.
  intros Hg. unfold propagateToNextSCC. apply keeps_foldM; [|exact Hg].
  intros g1 V Hg1. apply keeps_bind_val. intros uses _.
  apply keeps_foldM; [|exact Hg1].
  intros g2 opref Hg2 g3. apply sound_propagate_round, Hg2.
Qed.

(** One step of the analysis keeps the use lists sound. *)
Lemma sound_step g g' : GraphStep W g g' -> usesSound g -> usesSound g'.
Proof.
  intros Hstep Hg. destruct Hstep.
  - apply sound_addVarNode, Hg.
  - apply sound_buildValueBranchMap, Hg.
  - apply sound_buildValueSwitchMap, Hg.
  - eapply keeps_sound_addUnaryOp; eauto.
  - eapply keeps_sound_addBinaryOp; eauto.
  - eapply keeps_sound_addPhiOp; eauto.
  - eapply keeps_sound_addSigmaOp; eauto.
  - eapply keeps_sound_MatchParametersAndReturnValues; eauto.
  - exact Hg.
  - unfold buildSymbolicIntersectMap in *.
    destruct (foldM _ _ _); cbn [bind] in *; [discriminate|].
    match goal with H : ret _ = inr _ |- _ => injection H as <- end. exact Hg.
  - eapply keeps_sound_addControlDependenceEdges; eauto.
  - apply sound_visit_subscript, Hg.
  - apply sound_delControlDependenceEdges, Hg.
  - eapply sound_generateEntryPoints; eauto.
  - eapply keeps_sound_fixIntersects; eauto.
  - eapply sound_update_loop; [|eassumption]. exact Hg.
  - eapply keeps_sound_setRange; eauto.
  - eapply keeps_sound_propagateToNextSCC; eauto.
Qed.

Lemma sound_reachable g : Reachable W g -> usesSound g.
Proof.
  induction 1 as [|g g' _ IH Hstep].
  - split.
    + intros v uses ref Hv. cbn in Hv. rewrite lookup_empty in Hv.
      discriminate.
    + intros ref [op Hop]. cbn in Hop. rewrite lookup_empty in Hop.
      discriminate.
  - eapply sound_step; eauto.
Qed.
End Sound.

(** ** The solver evaluates operations that have a source *)

Section Sourced.
Variable W : positive.

Lemma noSource_only f : f <> NoSource -> ~ noSource f.
Proof. intros Hf H. apply Hf, H. Qed.

Lemma getRanges_length g vs rs :
  getRanges g vs = inr rs -> length rs = length vs.
Proof.
  revert rs. induction vs as [|v vs IH]; intros rs; cbn [getRanges].
  - intros [= <-]. reflexivity.
  - destruct (getVarNode g v); cbn [bind]; [discriminate|].
    destruct (getRanges g vs) as [f | rs']; cbn [bind]; [discriminate|].
    intros [= <-]. cbn [length]. f_equal. apply IH. reflexivity.
Qed.

(** An operation with a source evaluates without reading a source that
    is not there. *)
Lemma eval_with_source g op v :
  v ∈ getSources op -> avoids noSource (BasicOp_eval W g op).
Proof.
  intros Hv.
  destruct op as [| | | i sk srcs oc |]; cbn [BasicOp_eval];
    try (repeat (apply avoids_bind;
                 [apply avoids_deref, noSource_only; discriminate
                 | intros ? _]);
         apply avoids_ret).
  apply avoids_bind.
  - apply avoids_getRanges. intros; apply noSource_only; discriminate.
  - intros ranges Hr. apply getRanges_length in Hr.
    cbn [getSources] in Hv. destruct srcs as [|s ss].
    + apply elem_of_nil in Hv. contradiction.
    + destruct ranges as [|r rs]; [discriminate|]. apply avoids_ret.
Qed.

Lemma avoids_noSource_setRange g v r : avoids noSource (setRange g v r).
Proof. apply avoids_setRange. intros; apply noSource_only; discriminate. Qed.

(** [propagateToNextSCC] evaluates the operations of use lists. *)
Lemma propagateToNextSCC_sourced g (component : gset Value) :
  usesSound g -> avoids noSource (propagateToNextSCC W g component).
Proof.
  intros Hg. unfold propagateToNextSCC.
  apply (avoids_foldM_invariant _ usesSound); [|exact Hg].
  intros g1 V _ Hg1. unfold deref.
  destruct (useMap g1 !! V) as [p|] eqn:Hp; cbn [bind ret fault];
    [|split; [apply avoids_fault, noSource_only; discriminate
             | intros s' Hs'; discriminate Hs']].
  split.
  - apply (avoids_foldM_invariant _
             (fun g2 => usesSound g2 /\ useMap g2 !! V = Some p));
      [|split; assumption].
    intros g2 opref Hin [Hg2 Hp2]. apply elem_of_elements in Hin.
    destruct Hg2 as [Huses Hheap].
    destruct (Huses V p opref Hp2 Hin) as (op & Hop & Hsrc).
    split.
    + unfold getOp, deref. rewrite Hop. cbn [bind ret].
      apply avoids_bind; [apply (eval_with_source g2 op V Hsrc) | intros r _].
      apply avoids_bind; [apply avoids_noSource_setRange | intros g3 _].
      destruct op; try apply avoids_ret.
      destruct (isUnknown _); apply avoids_ret.
    + intros g3 H3. split.
      * apply (sound_propagate_round W g2 opref g3); [split; assumption|].
        exact H3.
      * destruct (propagate_round_keys W g2 g2 opref g3) as [_ Hu];
          [split; reflexivity | exact H3 |]. rewrite Hu. exact Hp2.
  - intros g2.
    apply (foldM_invariant usesSound); [|exact Hg1].
    intros g3 opref g4 H3 H4. exact (sound_propagate_round W g3 opref g4 H3 H4).
Qed.

(** The lists of [buildUseMap] are parts of the use lists of the graph. *)
Lemma buildUseMap_sublists g (component : gset Value) compUseMap :
  buildUseMap g component = inr compUseMap ->
  forall V L ref,
    compUseMap !! V = Some L -> ref ∈ L ->
    exists uses, useMap g !! V = Some uses /\ ref ∈ uses.
Proof.
  unfold buildUseMap.
  apply (foldM_invariant
           (fun m : gmap Value (gset OpRef) =>
              forall V L ref, m !! V = Some L -> ref ∈ L ->
                exists uses, useMap g !! V = Some uses /\ ref ∈ uses)).
  - intros m V m' Hm. unfold deref.
    destruct (useMap g !! V) as [p|] eqn:Hp; cbn [bind ret fault];
      [|discriminate].
    destruct (foldM _ (elements p) _) as [f | list] eqn:Hfold; cbn [bind];
      [discriminate|].
    intros [= <-] V' L ref.
    assert (Hlist : forall ref, ref ∈ list -> ref ∈ p).
    { revert Hfold.
      apply (foldM_invariant_in
               (fun l : gset OpRef => forall ref, ref ∈ l -> ref ∈ p)).
      - intros l opref l' Hopref Hl. apply elem_of_elements in Hopref.
        destruct (getOp g opref); cbn [bind]; [discriminate|].
        destruct (bool_decide _); intros [= <-]; [|exact Hl].
        intros ref0 Hin. apply elem_of_union in Hin.
        destruct Hin as [Hin | Hin]; [apply Hl, Hin|].
        apply elem_of_singleton in Hin. subst ref0. exact Hopref.
      - intros ref0. unfold useMap_subscript, map_insert_new.
        unfold lookup_total, map_lookup_total.
        destruct (m !! V) as [L0|] eqn:HmV.
        + rewrite HmV. cbn. intros Hin.
          destruct (Hm V L0 ref0 HmV Hin) as (uses & Hu & Hin').
          congruence.
        + rewrite lookup_insert_eq. cbn. intros Hin.
          apply elem_of_empty in Hin. contradiction. }
    destruct (decide (V = V')) as [<- | Hne].
    + rewrite lookup_insert_eq. intros [= <-] Hin. eauto.
    + rewrite lookup_insert_ne by exact Hne.
      unfold useMap_subscript, map_insert_new.
      destruct (m !! V); [apply Hm|].
      rewrite lookup_insert_ne by exact Hne. apply Hm.
  - intros V L ref HV. rewrite lookup_empty in HV. discriminate.
Qed.

Lemma generateEntryPoints_useMap g component g' entryPoints :
  generateEntryPoints W g component = inr (g', entryPoints) ->
  useMap g' = useMap g.
Proof.
  unfold generateEntryPoints.
  apply (foldM_invariant (fun st => useMap (fst st) = useMap g));
    [|reflexivity].
  intros [g1 eps] V [g2 eps'] Hg1. cbn [fst] in *.
  match goal with
  | |- bind ?m _ = _ -> _ =>
      assert (Hk : keeps (fun g3 => useMap g3 = useMap g) m);
      [|destruct m as [f | g3] eqn:Hm]
  end.
  - destruct (String.prefix _ _); [|apply keeps_ret, Hg1].
    destruct (defMap g1 !! V) as [dit|]; [|apply keeps_ret, Hg1].
    apply keeps_bind_val. intros bop _.
    destruct bop; try (apply keeps_ret, Hg1).
    destruct unresolved; [|apply keeps_ret, Hg1].
    apply keeps_bind_val. intros r _. intros g4.
    destruct (setRange g1 _ r) as [f | g5] eqn:Hset; cbn [bind];
      [discriminate|].
    intros [= <-]. apply setRange_keys in Hset. destruct Hset as [_ Hu].
    cbn [useMap set_heap]. congruence.
  - discriminate.
  - cbn [bind]. destruct (getVarNode g3 V); cbn [bind]; [discriminate|].
    destruct (negb _); intros [= <- _]; apply Hk; reflexivity.
Qed.

Lemma generateEntryPoints_sourced g component :
  avoids noSource (generateEntryPoints W g component).
Proof.
  unfold generateEntryPoints. apply avoids_foldM. intros [g' eps] V.
  apply avoids_bind.
  - destruct (String.prefix _ _); [|apply avoids_ret].
    destruct (defMap g' !! V); [|apply avoids_ret].
    apply avoids_bind;
      [apply avoids_deref, noSource_only; discriminate | intros bop _].
    destruct bop; try apply avoids_ret.
    destruct unresolved; [|apply avoids_ret].
    apply avoids_bind.
    + apply (eval_with_source _ _ source). cbn [getSources].
      apply list_elem_of_here.
    + intros r _.
      apply avoids_bind; [apply avoids_noSource_setRange | intros ? _].
      apply avoids_ret.
  - intros g'' _.
    apply avoids_bind;
      [apply avoids_deref, noSource_only; discriminate | intros var _].
    destruct (negb _); apply avoids_ret.
Qed.

Lemma Meet_fixed_heap g opref changed g' :
  Meet_fixed W g opref = inr (changed, g') -> heap g' = heap g.
Proof.
  unfold Meet_fixed.
  destruct (getOp g opref) as [f | op]; cbn [bind]; [discriminate|].
  destruct (getVarNode g (getSink op)); cbn [bind]; [discriminate|].
  destruct (BasicOp_eval W g op) as [f | r]; cbn [bind]; [discriminate|].
  destruct (setRange g (getSink op) r) as [f | g1] eqn:Hset; cbn [bind];
    [discriminate|].
  intros [= _ <-]. apply (setRange_heap _ _ _ _ Hset).
Qed.

Lemma update_uses_heap L st returned st' :
  update_uses W L st = inr (returned, st') ->
  heap (uGraph st') = heap (uGraph st).
Proof.
  revert st. induction L as [|opref L IH]; intros st; cbn [update_uses].
  - intros [= _ <-]. reflexivity.
  - destruct (N.eqb _ _); [intros [= _ <-]; reflexivity|].
    destruct (Meet_fixed W (uGraph st) opref) as [f | [changed g]] eqn:Hm;
      cbn [bind]; [discriminate|].
    destruct (getOp g opref); cbn [bind]; [discriminate|].
    intros Hrec. apply IH in Hrec. cbn [uGraph] in Hrec.
    rewrite Hrec. apply (Meet_fixed_heap _ _ _ _ Hm).
Qed.

Lemma Meet_fixed_sourced g opref op v :
  heap g !! opref = Some op -> v ∈ getSources op ->
  avoids noSource (Meet_fixed W g opref).
Proof.
  intros Hop Hv. unfold Meet_fixed, getOp, deref. rewrite Hop.
  cbn [bind ret].
  apply avoids_bind;
    [apply avoids_deref, noSource_only; discriminate | intros sk _].
  apply avoids_bind; [apply (eval_with_source g op v Hv) | intros r _].
  apply avoids_bind; [apply avoids_noSource_setRange | intros ? _].
  apply avoids_ret.
Qed.

Lemma update_uses_sourced (h : gmap OpRef BasicOp) L st :
  heap (uGraph st) = h ->
  (forall ref, ref ∈ L ->
     exists op v, h !! ref = Some op /\ v ∈ getSources op) ->
  avoids noSource (update_uses W L st).
Proof.
  revert st. induction L as [|opref L IH]; intros st Hh HL; cbn [update_uses].
  - apply avoids_ret.
  - destruct (N.eqb _ _); [apply avoids_ret|].
    destruct (HL opref ltac:(left)) as (op & v & Hop & Hv).
    apply avoids_bind.
    + apply (Meet_fixed_sourced _ _ op v); [rewrite Hh; exact Hop | exact Hv].
    + intros [changed g] Hm.
      apply avoids_bind;
        [apply avoids_deref, noSource_only; discriminate | intros op' _].
      apply IH.
      * cbn [uGraph]. rewrite (Meet_fixed_heap _ _ _ _ Hm). exact Hh.
      * intros ref Href. apply HL. right. exact Href.
Qed.

Lemma update_loop_sourced (h : gmap OpRef BasicOp) fuel compUseMap st :
  heap (uGraph st) = h ->
  (forall V (L : gset OpRef) ref,
     compUseMap !! V = Some L -> ref ∈ L ->
     exists op v, h !! ref = Some op /\ v ∈ getSources op) ->
  avoids noSource (update_loop W fuel compUseMap st).
Proof.
  intros Hh Hc. revert st Hh.
  induction fuel as [|fuel IH]; intros st Hh; cbn [update_loop].
  - apply avoids_fault, noSource_only. discriminate.
  - destruct (actv st) as [|V rest]; [apply avoids_ret|].
    unfold deref. destruct (compUseMap !! V) as [L|] eqn:HL;
      cbn [bind ret fault]; [|apply avoids_fault, noSource_only; discriminate].
    apply avoids_bind.
    + apply (update_uses_sourced h); [exact Hh|].
      intros ref Href. apply elem_of_elements in Href.
      apply (Hc V L ref HL Href).
    + intros [returned st1] Hu. destruct returned; [apply avoids_ret|].
      apply IH. rewrite (update_uses_heap _ _ _ _ Hu). exact Hh.
Qed.

(** The iterations before widening evaluate operations of use lists. *)
Lemma fixedIterations_sourced (c : N) g (component : gset Value) :
  usesSound g -> avoids noSource (fixedIterations W c g component).
Proof.
  intros Hg. unfold fixedIterations.
  apply avoids_bind.
  { unfold buildUseMap. apply avoids_foldM. intros m V.
    apply avoids_bind;
      [apply avoids_deref, noSource_only; discriminate | intros uses _].
    apply avoids_bind; [|intros ? _; apply avoids_ret].
    apply avoids_foldM. intros l opref.
    apply avoids_bind;
      [apply avoids_deref, noSource_only; discriminate | intros op _].
    destruct (bool_decide _); apply avoids_ret. }
  intros compUseMap Hbuild.
  apply avoids_bind; [apply generateEntryPoints_sourced|].
  intros [g' entryPoints] Hgen. unfold update.
  pose proof (sound_generateEntryPoints W g component g' entryPoints Hg Hgen)
    as [Huses _].
  pose proof (generateEntryPoints_useMap g component g' entryPoints Hgen)
    as Hu.
  apply (update_loop_sourced (heap g')); [reflexivity|].
  intros V L ref HL Href.
  destruct (buildUseMap_sublists g component compUseMap Hbuild V L ref HL Href)
    as (uses & Huses' & Hin).
  rewrite <- Hu in Huses'.
  destruct (Huses V uses ref Huses' Hin) as (op & Hop & Hv). eauto.
Qed.
End Sourced.

(** In a graph the analysis reaches, neither the iterations before
    widening nor the propagation to the next component evaluates an
    operation without sources: both take their operations from use lists,
    and an operation is in the use list of one of its sources only. *)
Lemma solver_evaluates_sourced_operations (W : positive) (c : N)
    (g : ConstraintGraph) (component : gset Value) :
  Reachable W g ->
  fixedIterations W c g component <> inl NoSource
  /\ propagateToNextSCC W g component <> inl NoSource.
Proof.
  intros Hreach. pose proof (sound_reachable W g Hreach) as Hg.
  split; intros Hfault.
  - apply (fixedIterations_sourced W c g component Hg _ Hfault). reflexivity.
  - apply (propagateToNextSCC_sourced W g component Hg _ Hfault). reflexivity.
Qed.

(** C10.  In every graph the analysis reaches, each value with a VarNode
    in [vars] has an entry in [useMap]: [addVarNode] makes both, and every
    later step keeps them.  So the unchecked [useMap.find(V)->second] of
    [buildUseMap] and of [propagateToNextSCC] finds its key for every
    component made of nodes of the graph. *)
Theorem every_VarNode_has_a_use_list (W : positive) (g : ConstraintGraph) :
  Reachable W g ->
  (forall V, is_Some (vars g !! V) -> is_Some (useMap g !! V))
  /\ (forall V,
        is_Some (vars (addVarNode W g V) !! V)
        /\ is_Some (useMap (addVarNode W g V) !! V))
  /\ (forall component : gset Value,
        (forall V, V ∈ component -> is_Some (vars g !! V)) ->
        (forall V, buildUseMap g component <> inl (NoUseMapEntry V))
        /\ (forall V,
              propagateToNextSCC W g component <> inl (NoUseMapEntry V))).
Proof.
  intros Hreach. pose proof (covers_reachable W g Hreach) as Hg.
  split; [|split].
  - intros V HV. apply elem_of_dom, Hg, elem_of_dom, HV.
  - intros V. pose proof (addVarNode_adds W g V) as Hadd.
    split; [apply elem_of_dom, Hadd|].
    apply elem_of_dom. apply (covers_addVarNode W g V Hg), Hadd.
  - intros component Hc.
    assert (Hsub : component ⊆ dom (vars g))
      by (intros V HV; apply elem_of_dom, Hc, HV).
    split; intros V Hfault.
    + apply (buildUseMap_finds g component Hg Hsub _ Hfault).
      exists V. reflexivity.
    + apply (propagateToNextSCC_finds W g component Hg Hsub _ Hfault).
      exists V. reflexivity.
Qed.

Lemma every_VarNode_has_a_use_list_witness :
  (forall V, is_Some (vars Examples.addBuilt !! V) ->
             is_Some (useMap Examples.addBuilt !! V))
  /\ (forall V,
        is_Some (vars (addVarNode 8 Examples.addBuilt V) !! V)
        /\ is_Some (useMap (addVarNode 8 Examples.addBuilt V) !! V))
  /\ (forall component : gset Value,
        (forall V, V ∈ component -> is_Some (vars Examples.addBuilt !! V)) ->
        (forall V, buildUseMap Examples.addBuilt component
                   <> inl (NoUseMapEntry V))
        /\ (forall V,
              propagateToNextSCC 8 Examples.addBuilt component
              <> inl (NoUseMapEntry V))).
Proof.
  apply (every_VarNode_has_a_use_list 8 Examples.addBuilt).
  apply (reach_step 8 emptyGraph); [apply reach_empty|].
  apply (step_addBinaryOp 8 emptyGraph
           (Examples.instruction Examples.y Instruction.Add
              [Examples.x; Examples.c5])).
  vm_compute. reflexivity.
Defined.

(** * Further properties of the code *)

(** ** The interval operations *)

Section MoreLattice.
Variable W : positive.

Lemma sgt_irrefl x : APInt.sgt x x = false.
Proof. unfold APInt.sgt, Z.gtb. rewrite Z.compare_refl. reflexivity. Qed.

Lemma slt_irrefl x : APInt.slt x x = false.
Proof. apply Z.ltb_irrefl. Qed.

Lemma ne_refl x : APInt.ne x x = false.
Proof. unfold APInt.ne. rewrite Z.eqb_refl. reflexivity. Qed.

Lemma eq_refl' x : APInt.eq x x = true.
Proof. apply Z.eqb_refl. Qed.

Lemma sgt_spec x y : APInt.sgt x y = true <-> y < x.
Proof. unfold APInt.sgt. rewrite Z.gtb_ltb. apply Z.ltb_lt. Qed.

Lemma sgt_false x y : APInt.sgt x y = false <-> x <= y.
Proof. unfold APInt.sgt. rewrite Z.gtb_ltb. apply Z.ltb_ge. Qed.

Lemma slt_spec x y : APInt.slt x y = true <-> x < y.
Proof. apply Z.ltb_lt. Qed.

Lemma slt_false x y : APInt.slt x y = false <-> y <= x.
Proof. apply Z.ltb_ge. Qed.

Lemma corners_full_l f nz c :
  corners W f nz (RangeR (Min W) (Max W)) c = RangeR (Min W) (Max W).
Proof.
  unfold corners, RangeR. cbn [getLower getUpper].
  rewrite !ne_refl. cbn [andb]. rewrite slt_irrefl, sgt_irrefl. reflexivity.
Qed.

Lemma corners_full_r f nz a :
  corners W f nz a (RangeR (Min W) (Max W)) = RangeR (Min W) (Max W).
Proof.
  unfold corners, RangeR. cbn [getLower getUpper].
  rewrite !ne_refl, !andb_false_r. cbn [andb].
  rewrite slt_irrefl, sgt_irrefl. reflexivity.
Qed.

Lemma isMaxRange_full : isMaxRange W (RangeR (Min W) (Max W)) = true.
Proof.
  unfold isMaxRange, RangeR. cbn [getLower getUpper].
  rewrite !eq_refl'. reflexivity.
Qed.

Lemma Range_eqb_zero_guard c :
  APInt.eq (getLower c) Zero = false -> Range_eqb c (RangeR Zero Zero) = false.
Proof.
  intros H. unfold Range_eqb, RangeR. cbn [getLower getUpper getType].
  rewrite H, andb_false_r. reflexivity.
Qed.

Lemma Range_eqb_Regular_Empty c l u :
  getType c = Regular -> Range_eqb c (MkRange l u Empty) = false.
Proof.
  intros H. unfold Range_eqb. cbn [getType]. rewrite H. reflexivity.
Qed.

Lemma srem_full_l c :
  getType c = Regular ->
  srem W (RangeR (Min W) (Max W)) c = RangeR (Min W) (Max W).
Proof.
  intros Hc. unfold srem.
  destruct (APInt.eq (getLower c) Zero) eqn:Hl; [reflexivity|].
  destruct (APInt.eq (getUpper c) Zero) eqn:Hu; [reflexivity|].
  cbn [orb]. rewrite (Range_eqb_zero_guard c Hl).
  rewrite (Range_eqb_Regular_Empty c _ _ Hc). cbn [orb].
  rewrite !orb_false_r.
  destruct (_ && _); [reflexivity | apply corners_full_l].
Qed.

Lemma srem_full_r a :
  srem W a (RangeR (Min W) (Max W)) = RangeR (Min W) (Max W).
Proof.
  unfold srem.
  match goal with |- (if ?g then _ else _) = _ => destruct g eqn:Hg end;
    [reflexivity|].
  apply orb_false_elim in Hg. destruct Hg as [Hl Hu].
  rewrite (Range_eqb_zero_guard _ Hl).
  rewrite Range_eqb_Regular_Empty by reflexivity. cbn [orb].
  match goal with |- (if ?g then _ else _) = _ => destruct g end;
    [reflexivity | apply corners_full_r].
Qed.
End MoreLattice.

(** X1.  An unbounded operand makes the result unbounded: for every binary
    operation but [lshr], the result is [[Min, Max]] as soon as one
    operand is [[Min, Max]] and the other is Regular.  [lshr] of the full
    range is [[0, Max]], since its bounds are negative. *)
Theorem full_range_operand_absorbs (W : positive)
    (opcode : Instruction.Opcode) (c : Range) :
  ops_isBinaryOp opcode = true -> opcode <> Instruction.LShr ->
  getType c = Regular ->
  BinaryOp_apply W opcode (RangeR (Min W) (Max W)) c = RangeR (Min W) (Max W)
  /\ BinaryOp_apply W opcode c (RangeR (Min W) (Max W))
     = RangeR (Min W) (Max W)
  /\ lshr W (RangeR (Min W) (Max W)) c = RangeR Zero (Max W).
Proof.
  intros Hop Hne Hc.
  assert (Hu : isUnknown c = false)
    by (unfold isUnknown; rewrite Hc; reflexivity).
  split; [|split].
  - destruct opcode; try discriminate Hop; try contradiction;
      cbn [BinaryOp_apply].
    + unfold add, RangeR. cbn [getLower getUpper]. rewrite !ne_refl.
      reflexivity.
    + unfold sub, RangeR. cbn [getLower getUpper]. rewrite !eq_refl'.
      reflexivity.
    + unfold mul. rewrite isMaxRange_full. reflexivity.
    + apply corners_full_l.
    + apply corners_full_l.
    + unfold urem. destruct (_ || _); [reflexivity | apply corners_full_l].
    + apply srem_full_l, Hc.
    + apply corners_full_l.
    + apply corners_full_l.
    + apply corners_full_l.
    + unfold Or. rewrite Hu. cbn [isUnknown RangeR getType RangeType_eqb orb].
      apply corners_full_l.
    + apply corners_full_l.
  - destruct opcode; try discriminate Hop; try contradiction;
      cbn [BinaryOp_apply].
    + unfold add, RangeR. cbn [getLower getUpper].
      rewrite !ne_refl, !andb_false_r. reflexivity.
    + unfold sub, RangeR. cbn [getLower getUpper].
      rewrite !eq_refl', !orb_true_r. reflexivity.
    + unfold mul. rewrite isMaxRange_full, orb_true_r. reflexivity.
    + apply corners_full_r.
    + apply corners_full_r.
    + unfold urem. destruct (_ || _); [reflexivity | apply corners_full_r].
    + apply srem_full_r.
    + apply corners_full_r.
    + apply corners_full_r.
    + apply corners_full_r.
    + unfold Or. rewrite Hu. cbn [isUnknown RangeR getType RangeType_eqb orb].
      apply corners_full_r.
    + apply corners_full_r.
  - unfold lshr, RangeR. cbn [getLower getUpper].
    unfold APInt.isNegative. pose proof (Min_neg W) as Hm.
    apply Z.ltb_lt in Hm. rewrite Hm. reflexivity.
Qed.

Lemma full_range_operand_absorbs_witness :
  BinaryOp_apply 8 Instruction.SRem (RangeR (Min 8) (Max 8)) (RangeR 3 7)
  = RangeR (Min 8) (Max 8)
  /\ BinaryOp_apply 8 Instruction.SRem (RangeR 3 7) (RangeR (Min 8) (Max 8))
     = RangeR (Min 8) (Max 8)
  /\ lshr 8 (RangeR (Min 8) (Max 8)) (RangeR 3 7) = RangeR Zero (Max 8).
Proof.
  apply (full_range_operand_absorbs 8 Instruction.SRem (RangeR 3 7)).
  - reflexivity.
  - discriminate.
  - reflexivity.
Defined.

Lemma truncate_bounds (r : Range) (bitwidth : N) :
  maxlower bitwidth <= getLower (truncate r bitwidth)
  /\ getUpper (truncate r bitwidth) <= maxupper bitwidth.
Proof.
  unfold truncate, APInt.sge, APInt.sle. rewrite Z.geb_leb.
  destruct (Z.leb_spec (maxlower bitwidth) (getLower r));
    destruct (Z.leb_spec (getUpper r) (maxupper bitwidth));
    cbn [andb]; unfold RangeR; cbn [getLower getUpper]; lia.
Qed.

(** X2.  [Range::truncate] (and [sextOrTrunc], which calls it)
    returns a range whose bounds lie within the signed bounds of the
    target width; it keeps a range that already lies within them, so that
    truncating twice is truncating once. *)
Theorem truncate_within_width (r : Range) (bitwidth : N) :
  maxlower bitwidth <= getLower (truncate r bitwidth)
  /\ getUpper (truncate r bitwidth) <= maxupper bitwidth
  /\ (maxlower bitwidth <= getLower r -> getUpper r <= maxupper bitwidth ->
      truncate r bitwidth = r)
  /\ truncate (truncate r bitwidth) bitwidth = truncate r bitwidth
  /\ sextOrTrunc r bitwidth = truncate r bitwidth.
Proof.
  assert (Hin : forall t,
            maxlower bitwidth <= getLower t -> getUpper t <= maxupper bitwidth ->
            truncate t bitwidth = t).
  { intros t Hl Hu. unfold truncate, APInt.sge, APInt.sle.
    rewrite Z.geb_leb.
    apply Z.leb_le in Hl, Hu. rewrite Hl, Hu. reflexivity. }
  pose proof (truncate_bounds r bitwidth) as Hb.
  destruct Hb as [Hl Hu].
  split; [exact Hl|]. split; [exact Hu|]. split; [apply Hin|].
  split; [apply Hin; assumption | reflexivity].
Qed.

Section Bounds.
Variable W : positive.

Lemma Regular_not_Empty a : getType a = Regular -> isEmpty a = false.
Proof. unfold isEmpty. intros ->. reflexivity. Qed.

Lemma Regular_not_Unknown a : getType a = Regular -> isUnknown a = false.
Proof. unfold isUnknown. intros ->. reflexivity. Qed.

Lemma unionWith_Regular a b :
  getType a = Regular -> getType b = Regular ->
  unionWith a b
  = RangeR (Z.min (getLower a) (getLower b)) (Z.max (getUpper a) (getUpper b)).
Proof.
  intros Ha Hb. unfold unionWith.
  rewrite (Regular_not_Empty a Ha), (Regular_not_Empty b Hb),
    (Regular_not_Unknown a Ha), (Regular_not_Unknown b Hb).
  f_equal.
  - destruct (APInt.slt _ _) eqn:H;
      [apply slt_spec in H | apply slt_false in H]; lia.
  - destruct (APInt.sgt _ _) eqn:H;
      [apply sgt_spec in H | apply sgt_false in H]; lia.
Qed.

Lemma intersectWith_Regular a b :
  getType a = Regular -> getType b = Regular ->
  intersectWith W a b
  = RangeR (Z.max (getLower a) (getLower b)) (Z.min (getUpper a) (getUpper b)).
Proof.
  intros Ha Hb. unfold intersectWith.
  rewrite (Regular_not_Empty a Ha), (Regular_not_Empty b Hb),
    (Regular_not_Unknown a Ha), (Regular_not_Unknown b Hb).
  cbn [orb]. f_equal.
  - destruct (APInt.sgt _ _) eqn:H;
      [apply sgt_spec in H | apply sgt_false in H]; lia.
  - destruct (APInt.slt _ _) eqn:H;
      [apply slt_spec in H | apply slt_false in H]; lia.
Qed.
End Bounds.

(** X3.  On Regular intervals [unionWith] is the least upper
    bound and [intersectWith] the greatest lower bound of inclusion: the
    union contains both operands and lies within every interval that
    contains both; the intersection lies within both and contains every
    interval that lies within both. *)
Theorem unionWith_intersectWith_bounds (W : positive) (a b c : Range) :
  getType a = Regular -> getType b = Regular ->
  contained a (unionWith a b) = true
  /\ contained b (unionWith a b) = true
  /\ (contained a c = true -> contained b c = true ->
      contained (unionWith a b) c = true)
  /\ contained (intersectWith W a b) a = true
  /\ contained (intersectWith W a b) b = true
  /\ (contained c a = true -> contained c b = true ->
      contained c (intersectWith W a b) = true).
Proof.
  intros Ha Hb.
  rewrite (unionWith_Regular a b Ha Hb), (intersectWith_Regular W a b Ha Hb).
  rewrite !contained_spec. unfold RangeR. cbn [getLower getUpper].
  repeat split; try lia; intros H1 H2; lia.
Qed.

Lemma unionWith_intersectWith_bounds_witness :
  contained (RangeR 1 5) (unionWith (RangeR 1 5) (RangeR 3 9)) = true
  /\ contained (RangeR 3 9) (unionWith (RangeR 1 5) (RangeR 3 9)) = true
  /\ (contained (RangeR 1 5) (RangeR 0 10) = true ->
      contained (RangeR 3 9) (RangeR 0 10) = true ->
      contained (unionWith (RangeR 1 5) (RangeR 3 9)) (RangeR 0 10) = true)
  /\ contained (intersectWith 8 (RangeR 1 5) (RangeR 3 9)) (RangeR 1 5) = true
  /\ contained (intersectWith 8 (RangeR 1 5) (RangeR 3 9)) (RangeR 3 9) = true
  /\ (contained (RangeR 0 10) (RangeR 1 5) = true ->
      contained (RangeR 0 10) (RangeR 3 9) = true ->
      contained (RangeR 0 10) (intersectWith 8 (RangeR 1 5) (RangeR 3 9))
      = true).
Proof.
  apply (unionWith_intersectWith_bounds 8 (RangeR 1 5) (RangeR 3 9)
           (RangeR 0 10)); reflexivity.
Defined.

(** Case analysis on the innermost comparisons of a goal. *)
Ltac no_if t :=
  lazymatch t with
  | context [if _ then _ else _] => fail
  | _ => idtac
  end.

Ltac split_comparisons :=
  unfold APInt.slt, APInt.sgt, APInt.sle, APInt.sge, APInt.eq, APInt.ne;
  rewrite ?Z.gtb_ltb, ?Z.geb_leb;
  repeat (cbn [andb orb negb default from_option id getLower getUpper];
          match goal with
          | |- context [?x <? ?y] =>
              no_if x; no_if y; destruct (Z.ltb_spec x y)
          | |- context [?x <=? ?y] =>
              no_if x; no_if y; destruct (Z.leb_spec x y)
          | |- context [?x =? ?y] =>
              no_if x; no_if y; destruct (Z.eqb_spec x y)
          end);
  cbn [andb orb negb default from_option id getLower getUpper].

Ltac canonical_bounds H :=
  let Hl := fresh "Hl" in
  let Hu := fresh "Hu" in
  destruct (H ltac:(discriminate)) as [Hl Hu];
  cbn [getLower getUpper] in Hl, Hu; subst.

(** X4.  On the intervals the code constructs (an Unknown or Empty
    one carries the bounds [Min] and [Max]) [unionWith] and
    [intersectWith] are commutative, associative and idempotent. *)
Theorem unionWith_intersectWith_laws (W : positive) (a b c : Range) :
  canonical W a -> canonical W b -> canonical W c ->
  unionWith a b = unionWith b a
  /\ intersectWith W a b = intersectWith W b a
  /\ unionWith (unionWith a b) c = unionWith a (unionWith b c)
  /\ intersectWith W (intersectWith W a b) c
     = intersectWith W a (intersectWith W b c)
  /\ unionWith a a = a
  /\ intersectWith W a a = a.
Proof.
  unfold canonical.
  destruct a as [la ua ta], b as [lb ub tb], c as [lc uc tc].
  cbn [getType getLower getUpper]. intros Ha Hb Hc.
  destruct ta; try canonical_bounds Ha;
    destruct tb; try canonical_bounds Hb;
    destruct tc; try canonical_bounds Hc;
    repeat split; try reflexivity;
    unfold unionWith, intersectWith, RangeR;
    cbn [isEmpty isUnknown getType RangeType_eqb orb getLower getUpper];
    split_comparisons; cbn [getLower getUpper];
    try reflexivity; f_equal; lia.
Qed.

Lemma unionWith_intersectWith_laws_witness :
  unionWith (RangeR 1 5) (UnknownRange 8) = unionWith (UnknownRange 8) (RangeR 1 5)
  /\ intersectWith 8 (RangeR 1 5) (UnknownRange 8)
     = intersectWith 8 (UnknownRange 8) (RangeR 1 5)
  /\ unionWith (unionWith (RangeR 1 5) (UnknownRange 8)) (EmptyRange 8)
     = unionWith (RangeR 1 5) (unionWith (UnknownRange 8) (EmptyRange 8))
  /\ intersectWith 8 (intersectWith 8 (RangeR 1 5) (UnknownRange 8))
       (EmptyRange 8)
     = intersectWith 8 (RangeR 1 5)
         (intersectWith 8 (UnknownRange 8) (EmptyRange 8))
  /\ unionWith (RangeR 1 5) (RangeR 1 5) = RangeR 1 5
  /\ intersectWith 8 (RangeR 1 5) (RangeR 1 5) = RangeR 1 5.
Proof.
  apply (unionWith_intersectWith_laws 8 (RangeR 1 5) (UnknownRange 8)
           (EmptyRange 8)).
  - intros H. contradiction H. reflexivity.
  - intros _. split; reflexivity.
  - intros _. split; reflexivity.
Defined.

(** X5.  [Range::operator!=] is the negation of [operator==], and
    [operator==] holds exactly of two ranges with the same kind and the
    same bounds. *)
Theorem Range_neqb_negates_eqb (r other : Range) :
  Range_neqb r other = negb (Range_eqb r other)
  /\ (Range_eqb r other = true <-> r = other).
Proof.
  split.
  - unfold Range_neqb, Range_eqb, APInt.ne.
    rewrite !negb_andb. reflexivity.
  - destruct r as [l1 u1 t1], other as [l2 u2 t2].
    unfold Range_eqb, APInt.eq. cbn [getLower getUpper getType].
    rewrite !andb_true_iff, !Z.eqb_eq.
    split.
    + intros [[Ht ->] ->]. destruct t1, t2; try discriminate; reflexivity.
    + intros [= -> -> ->]. destruct t2; auto.
Qed.

Section Commutative.
Variable W : positive.

Lemma MUL_HELPER_comm x y : MUL_HELPER W x y = MUL_HELPER W y x.
Proof.
  unfold MUL_HELPER, APInt.mul, Zero, APInt.eq, APInt.slt.
  rewrite (Z.mul_comm y x).
  pose proof (Min_neg W). pose proof (Max_nonneg W).
  repeat match goal with
    | |- context [?u =? ?v] => destruct (Z.eqb_spec u v); subst
    | |- context [?u <? ?v] => destruct (Z.ltb_spec u v)
    end; try reflexivity; try lia.
Qed.
End Commutative.

(** X6.  Add and Mul are commutative, as the source says of
    them: [a.add(b) = b.add(a)] and [a.mul(b) = b.mul(a)] for all
    ranges. *)
Theorem add_mul_commutative (W : positive) (a b : Range) :
  add W a b = add W b a /\ mul W a b = mul W b a.
Proof.
  split.
  - unfold add, APInt.add.
    rewrite (Z.add_comm (getLower b)), (Z.add_comm (getUpper b)).
    rewrite (andb_comm (APInt.ne (getLower b) _)),
      (andb_comm (APInt.ne (getUpper b) _)).
    reflexivity.
  - unfold mul. rewrite (orb_comm (isMaxRange W b)).
    destruct (_ || _); [reflexivity|].
    cbn [tl]. rewrite !mul_select_fold.
    rewrite (MUL_HELPER_comm W (getLower b) (getLower a)),
      (MUL_HELPER_comm W (getLower b) (getUpper a)),
      (MUL_HELPER_comm W (getUpper b) (getLower a)),
      (MUL_HELPER_comm W (getUpper b) (getUpper a)).
    f_equal; lia.
Qed.

(** The interval that [fixIntersects] returns for a predicate holds the
    values of the sink that compare as the predicate says. *)
Lemma fixIntersects_holds (W : positive) (pred : Predicate)
    (bound sink : Range) (x b : Z) :
  fits W x -> fits W (getLower bound) -> fits W (getUpper bound) ->
  getLower bound <= b <= getUpper bound ->
  getLower sink <= x <= getUpper sink ->
  icmp W pred x b = true ->
  getLower (SymbInterval_fixIntersects W pred bound sink) <= x
  /\ x <= getUpper (SymbInterval_fixIntersects W pred bound sink).
Proof.
  unfold fits. intros Hx Hl Hu Hbound Hsink Hcmp.
  destruct pred; cbn [icmp SymbInterval_fixIntersects] in *;
    unfold RangeR; cbn [getLower getUpper]; try lia;
    destruct (APInt.ne _ _) eqn:Hne; cbn [getLower getUpper]; try lia;
    unfold APInt.add, APInt.sub; rewrite wrap_small by lia; lia.
Qed.

(** X7.  [SymbInterval::fixIntersects] is sound for the
    comparison it stands for: a value [x] of the sink's interval that
    compares as [pred] with some value [b] of the bound's interval lies in
    the interval returned. *)
Theorem fixIntersects_sound (W : positive) (pred : Predicate)
    (bound sink : Range) (x b : Z) :
  fits W x -> fits W (getLower bound) -> fits W (getUpper bound) ->
  getLower bound <= b <= getUpper bound ->
  getLower sink <= x <= getUpper sink ->
  icmp W pred x b = true ->
  getLower (SymbInterval_fixIntersects W pred bound sink) <= x
  /\ x <= getUpper (SymbInterval_fixIntersects W pred bound sink).
Proof.
  intros Hx Hl Hu Hbound Hsink Hcmp.
  apply (fixIntersects_holds W pred bound sink x b); assumption.
Qed.

Lemma fixIntersects_sound_witness :
  getLower (SymbInterval_fixIntersects 8 ICMP_SLT (RangeR 0 10) (RangeR (-5) 50))
  <= 9
  /\ 9 <= getUpper (SymbInterval_fixIntersects 8 ICMP_SLT (RangeR 0 10)
                      (RangeR (-5) 50)).
Proof.
  apply (fixIntersects_sound 8 ICMP_SLT (RangeR 0 10) (RangeR (-5) 50) 9 10).
  - vm_compute. split; discriminate.
  - vm_compute. split; discriminate.
  - vm_compute. split; discriminate.
  - vm_compute. split; discriminate.
  - vm_compute. split; discriminate.
  - reflexivity.
Defined.

(** X8.  [UnaryOp::eval] with the default intersect [[Min, Max]]
    (the one [addUnaryOp] gives every UnaryOp): a [Trunc], [ZExt] or
    [SExt] of a Regular interval is a Regular interval within the signed
    bounds of the sink's width; a [Load] or [Store] hands the Regular
    interval of its source on unchanged; an Empty source gives Empty and
    an Unknown one Unknown. *)
Theorem UnaryOp_eval_default_intersect (W : positive)
    (opcode : Instruction.Opcode) (bw : N) (oprnd : Range) :
  (getType oprnd = Regular ->
   match opcode with
   | Instruction.Trunc | Instruction.ZExt | Instruction.SExt =>
       getType (UnaryOp_eval W opcode bw (RangeR (Min W) (Max W)) oprnd)
       = Regular
       /\ maxlower bw
          <= getLower (UnaryOp_eval W opcode bw (RangeR (Min W) (Max W)) oprnd)
       /\ getUpper (UnaryOp_eval W opcode bw (RangeR (Min W) (Max W)) oprnd)
          <= maxupper bw
   | _ => UnaryOp_eval W opcode bw (RangeR (Min W) (Max W)) oprnd = oprnd
   end)
  /\ (getType oprnd = Empty ->
      UnaryOp_eval W opcode bw (RangeR (Min W) (Max W)) oprnd = EmptyRange W)
  /\ (getType oprnd = Unknown ->
      UnaryOp_eval W opcode bw (RangeR (Min W) (Max W)) oprnd
      = UnknownRange W).
Proof.
  unfold UnaryOp_eval. rewrite isMaxRange_full. cbn [negb].
  split; [|split]; intros Ht.
  - unfold isRegular. rewrite Ht. cbn [RangeType_eqb].
    pose proof (truncate_bounds oprnd bw) as [Hl Hu].
    destruct opcode; try reflexivity.
    + split; [|split; assumption].
      unfold truncate. destruct (_ && _); [exact Ht | reflexivity].
    + unfold zextOrTrunc, RangeR. cbn [getType getLower getUpper].
      split; [reflexivity | lia].
    + split; [|split; assumption].
      unfold sextOrTrunc, truncate.
      destruct (_ && _); [exact Ht | reflexivity].
  - unfold isRegular, isEmpty. rewrite Ht. reflexivity.
  - unfold isRegular, isEmpty. rewrite Ht. reflexivity.
Qed.

(** X9.  [SigmaOp::eval] never widens: for a Regular source and a
    Regular intersect the result lies within the interval of the source
    and within the intersect.  With an Unknown source the result is the
    intersect itself, whatever the source was to become. *)
Theorem SigmaOp_eval_within (W : positive) (intersect source : Range) :
  (getType source = Regular -> getType intersect = Regular ->
   contained (SigmaOp_eval W intersect source) source = true
   /\ contained (SigmaOp_eval W intersect source) intersect = true)
  /\ (getType source = Unknown -> getType intersect = Regular ->
      SigmaOp_eval W intersect source = intersect).
Proof.
  unfold SigmaOp_eval. split.
  - intros Hs Hi.
    rewrite (intersectWith_Regular W source intersect Hs Hi).
    rewrite !contained_spec. unfold RangeR. cbn [getLower getUpper]. lia.
  - intros Hs Hi. unfold intersectWith, isEmpty, isUnknown.
    rewrite Hs, Hi. reflexivity.
Qed.

Lemma UnaryOp_eval_default_intersect_witness :
  getType (UnaryOp_eval 8 Instruction.Trunc 4 (RangeR (Min 8) (Max 8))
             (RangeR 1 100)) = Regular
  /\ maxlower 4
     <= getLower (UnaryOp_eval 8 Instruction.Trunc 4 (RangeR (Min 8) (Max 8))
                    (RangeR 1 100))
  /\ getUpper (UnaryOp_eval 8 Instruction.Trunc 4 (RangeR (Min 8) (Max 8))
                 (RangeR 1 100))
     <= maxupper 4.
Proof.
  destruct (UnaryOp_eval_default_intersect 8 Instruction.Trunc 4
              (RangeR 1 100)) as [H _].
  apply H. reflexivity.
Defined.

Lemma SigmaOp_eval_within_witness :
  contained (SigmaOp_eval 8 (RangeR 0 10) (RangeR 5 20)) (RangeR 5 20) = true
  /\ contained (SigmaOp_eval 8 (RangeR 0 10) (RangeR 5 20)) (RangeR 0 10)
     = true.
Proof.
  destruct (SigmaOp_eval_within 8 (RangeR 0 10) (RangeR 5 20)) as [H _].
  apply H; reflexivity.
Defined.

(** ** The meet operators *)

Section MeetFacts.
Variable W : positive.

Lemma VarNode_eta node : MkVarNode (getValue node) (getRange node) = node.
Proof. destruct node. reflexivity. Qed.

Lemma setRange_spec g v r g' :
  setRange g v r = inr g' ->
  exists node,
    vars g !! v = Some node
    /\ g' = set_vars g (<[v := MkVarNode (getValue node) r]> (vars g)).
Proof.
  unfold setRange, getVarNode, deref.
  destruct (vars g !! v) as [node|]; cbn [bind ret fault]; [|discriminate].
  intros [= <-]. eauto.
Qed.

(** What a run of [Meet::widen] or [Meet::growth] does to the graph. *)
Lemma Meet_cascade_spec sets g opref changed g' :
  Meet_cascade W sets g opref = inr (changed, g') ->
  exists op sink newInterval,
    heap g !! opref = Some op
    /\ vars g !! getSink op = Some sink
    /\ BasicOp_eval W g op = inr newInterval
    /\ g' = set_vars g
              (<[getSink op :=
                   MkVarNode (getValue sink)
                     (default (getRange sink)
                        (sets (getRange sink) newInterval))]> (vars g))
    /\ changed = Range_neqb (getRange sink)
                   (default (getRange sink) (sets (getRange sink) newInterval)).
Proof.
  unfold Meet_cascade, getOp, getVarNode, deref.
  destruct (heap g !! opref) as [op|]; cbn [bind ret fault]; [|discriminate].
  destruct (vars g !! getSink op) as [sink|] eqn:Hsink; cbn [bind ret fault];
    [|discriminate].
  destruct (BasicOp_eval W g op) as [f | newInterval] eqn:Heval; cbn [bind];
    [discriminate|].
  destruct (sets (getRange sink) newInterval) as [r|] eqn:Hsets.
  - unfold setRange, getVarNode, deref. rewrite Hsink. cbn [bind ret fault].
    cbn [vars set_vars]. rewrite lookup_insert_eq. cbn [bind ret getRange].
    intros [= <- <-]. exists op, sink, newInterval.
    rewrite Hsets. cbn [default]. auto.
  - cbn [bind ret]. rewrite Hsink. cbn [bind ret].
    intros [= <- <-]. exists op, sink, newInterval.
    rewrite Hsets. cbn [default].
    repeat split; try reflexivity; try assumption.
    rewrite VarNode_eta, insert_id by exact Hsink.
    destruct g; reflexivity.
Qed.

Lemma growth_sets_widen_sets old new :
  growth_sets W old new = widen_sets W old new.
Proof.
  unfold growth_sets, widen_sets.
  destruct (isUnknown old); [reflexivity|].
  destruct (APInt.slt _ _), (APInt.sgt _ _); reflexivity.
Qed.


Lemma Range_neqb_refl r : Range_neqb r r = false.
Proof.
  unfold Range_neqb, APInt.ne. rewrite !Z.eqb_refl.
  destruct (getType r); reflexivity.
Qed.

End MeetFacts.



(** X11.  [Meet::growth], the meet of [CropDFS::preUpdate], is
    the same operator as [Meet::widen], the meet of [Cousot::preUpdate]:
    on every graph and operation both fail alike or leave the same graph
    and return the same flag. *)
Theorem Meet_growth_is_widen (W : positive) (g : ConstraintGraph)
    (opref : OpRef) :
  Meet_growth W g opref = Meet_widen W g opref.
Proof.
  unfold Meet_growth, Meet_widen, Meet_cascade.
  destruct (getOp g opref) as [f | op]; [reflexivity|]. cbn [bind].
  destruct (getVarNode g (getSink op)) as [f | sink]; [reflexivity|].
  cbn [bind].
  destruct (BasicOp_eval W g op) as [f | newInterval]; [reflexivity|].
  cbn [bind]. rewrite growth_sets_widen_sets. reflexivity.
Qed.

Section NarrowFacts.
Variable W : positive.


End NarrowFacts.



(** X13.  [Meet::crop] only shrinks: the interval it leaves in the
    sink lies within the old one, and equals it when the flag returned is
    false.  With the abstract state that [storeAbstractState] records for
    the old interval, it moves only bounds that were the sentinels [Min]
    or [Max]: a finite bound stays, and an interval with two finite bounds
    (state ['0']) is left alone. *)
Theorem crop_only_shrinks (W : positive) (abstractState : ascii)
    (oldInterval newInterval : Range) :
  contained (fst (crop_range abstractState oldInterval newInterval))
    oldInterval = true
  /\ (snd (crop_range abstractState oldInterval newInterval) = false ->
      fst (crop_range abstractState oldInterval newInterval) = oldInterval)
  /\ (abstractState = storeAbstractState W oldInterval ->
      (getLower oldInterval <> Min W ->
       getLower (fst (crop_range abstractState oldInterval newInterval))
       = getLower oldInterval)
      /\ (getUpper oldInterval <> Max W ->
          getUpper (fst (crop_range abstractState oldInterval newInterval))
          = getUpper oldInterval)
      /\ (getLower oldInterval <> Min W -> getUpper oldInterval <> Max W ->
          crop_range abstractState oldInterval newInterval
          = (oldInterval, false))).
Proof.
  split; [|split].
  - rewrite contained_spec. unfold crop_range, RangeR.
    destruct (_ && APInt.sgt _ _) eqn:H1; destruct (_ && APInt.slt _ _) eqn:H2;
      cbn [fst getLower getUpper];
      try (apply andb_true_iff in H1; destruct H1 as [_ H1];
           apply sgt_spec in H1);
      try (apply andb_true_iff in H2; destruct H2 as [_ H2];
           apply slt_spec in H2);
      lia.
  - unfold crop_range.
    destruct (_ && APInt.sgt _ _); destruct (_ && APInt.slt _ _);
      cbn [fst snd]; intros H; try discriminate H; reflexivity.
  - intros ->. unfold crop_range, storeAbstractState, APInt.eq, RangeR.
    destruct (Z.eqb_spec (getLower oldInterval) (Min W));
      destruct (Z.eqb_spec (getUpper oldInterval) (Max W));
      cbn [Ascii.eqb Bool.eqb orb andb fst snd getLower getUpper];
      repeat split; intros; try contradiction;
      repeat match goal with
        | |- context [if ?c then _ else _] => destruct c
        end; reflexivity.
Qed.

Lemma crop_only_shrinks_witness :
  (getLower (RangeR 0 (Max 8)) <> Min 8 ->
   getLower (fst (crop_range (storeAbstractState 8 (RangeR 0 (Max 8)))
                    (RangeR 0 (Max 8)) (RangeR 5 9)))
   = getLower (RangeR 0 (Max 8)))
  /\ (getUpper (RangeR 0 (Max 8)) <> Max 8 ->
      getUpper (fst (crop_range (storeAbstractState 8 (RangeR 0 (Max 8)))
                       (RangeR 0 (Max 8)) (RangeR 5 9)))
      = getUpper (RangeR 0 (Max 8)))
  /\ (getLower (RangeR 0 (Max 8)) <> Min 8 ->
      getUpper (RangeR 0 (Max 8)) <> Max 8 ->
      crop_range (storeAbstractState 8 (RangeR 0 (Max 8)))
        (RangeR 0 (Max 8)) (RangeR 5 9)
      = (RangeR 0 (Max 8), false)).
Proof.
  destruct (crop_only_shrinks 8 (storeAbstractState 8 (RangeR 0 (Max 8)))
              (RangeR 0 (Max 8)) (RangeR 5 9)) as (_ & _ & H).
  apply H. reflexivity.
Defined.

(** ** The analysis width *)

Section FoldMax.
Context {A : Type}.
Variable step : N -> A -> N.
Hypothesis step_ge : forall m x, (m <= step m x)%N.

Lemma fold_left_ge l m : (m <= fold_left step l m)%N.
Proof.
  revert m. induction l as [|x l IH]; intros m; cbn [fold_left]; [lia|].
  pose proof (step_ge m x). pose proof (IH (step m x)). lia.
Qed.

Lemma fold_left_reaches l m x c :
  In x l -> (forall m', (c <= step m' x)%N) -> (c <= fold_left step l m)%N.
Proof.
  revert m. induction l as [|y l IH]; intros m; cbn [fold_left In];
    [contradiction|].
  intros [-> | Hin] Hc.
  - pose proof (Hc m). pose proof (fold_left_ge l (step m x)). lia.
  - apply IH; assumption.
Qed.
End FoldMax.

Section BitWidthFacts.
Variable isIntegerTy : Value -> bool.

Lemma maxOperandBitWidth_ge m operand :
  (m <= maxOperandBitWidth isIntegerTy m operand)%N.
Proof.
  unfold maxOperandBitWidth.
  destruct (isIntegerTy operand); cbn [andb]; [|lia].
  destruct (N.ltb_spec m (getPrimitiveSizeInBits operand)); lia.
Qed.

Lemma maxOperandBitWidth_reaches m operand :
  isIntegerTy operand = true ->
  (getPrimitiveSizeInBits operand
   <= maxOperandBitWidth isIntegerTy m operand)%N.
Proof.
  unfold maxOperandBitWidth. intros ->. cbn [andb].
  destruct (N.ltb_spec m (getPrimitiveSizeInBits operand)); lia.
Qed.

Lemma maxInstructionBitWidth_ge m I :
  (m <= maxInstructionBitWidth isIntegerTy m I)%N.
Proof.
  unfold maxInstructionBitWidth.
  match goal with
  | |- (_ <= fold_left _ _ ?m0)%N =>
      pose proof (fold_left_ge _ maxOperandBitWidth_ge (getOperands I) m0);
      assert (m <= m0)%N
  end; [|lia].
  destruct (getTypeKind I); try lia.
  destruct (N.ltb_spec m (getPrimitiveSizeInBits (asValue I))); lia.
Qed.

Lemma maxInstructionBitWidth_type m I :
  getTypeKind I = IntegerTy ->
  (getPrimitiveSizeInBits (asValue I)
   <= maxInstructionBitWidth isIntegerTy m I)%N.
Proof.
  unfold maxInstructionBitWidth. intros ->.
  match goal with
  | |- (_ <= fold_left _ _ ?m0)%N =>
      pose proof (fold_left_ge _ maxOperandBitWidth_ge (getOperands I) m0)
  end.
  destruct (N.ltb_spec m (getPrimitiveSizeInBits (asValue I))); lia.
Qed.

Lemma maxInstructionBitWidth_operand m I operand :
  In operand (getOperands I) -> isIntegerTy operand = true ->
  (getPrimitiveSizeInBits operand
   <= maxInstructionBitWidth isIntegerTy m I)%N.
Proof.
  intros Hin Hint. unfold maxInstructionBitWidth.
  apply (fold_left_reaches _ maxOperandBitWidth_ge _ _ operand); [exact Hin|].
  intros m'. apply maxOperandBitWidth_reaches, Hint.
Qed.

Lemma getMaxBitWidth_fold F :
  (fold_left (maxInstructionBitWidth isIntegerTy)
     (flat_map bbInstructions (fBlocks F)) 0%N
   <= getMaxBitWidth isIntegerTy F)%N
  /\ (1 <= getMaxBitWidth isIntegerTy F)%N.
Proof.
  unfold getMaxBitWidth.
  destruct (N.eqb_spec (fold_left (maxInstructionBitWidth isIntegerTy)
                          (flat_map bbInstructions (fBlocks F)) 0%N) 0%N); lia.
Qed.
End BitWidthFacts.

(** X14.  [RangeAnalysis::getMaxBitWidth] returns a width of at
    least one bit that is not below the width of any instruction of
    integer type of the function, nor of any operand of integer type of
    one of its instructions. *)
Theorem getMaxBitWidth_covers (isIntegerTy : Value -> bool) (F : Function) :
  (1 <= getMaxBitWidth isIntegerTy F)%N
  /\ (forall I,
        In I (flat_map bbInstructions (fBlocks F)) ->
        (getTypeKind I = IntegerTy ->
         (getPrimitiveSizeInBits (asValue I)
          <= getMaxBitWidth isIntegerTy F)%N)
        /\ (forall operand,
              In operand (getOperands I) -> isIntegerTy operand = true ->
              (getPrimitiveSizeInBits operand
               <= getMaxBitWidth isIntegerTy F)%N)).
Proof.
  destruct (getMaxBitWidth_fold isIntegerTy F) as [Hfold Hone].
  split; [exact Hone|]. intros I HI. split.
  - intros Hty.
    pose proof (fold_left_reaches _ (maxInstructionBitWidth_ge isIntegerTy)
                  _ 0%N I _ HI
                  (fun m => maxInstructionBitWidth_type isIntegerTy m I Hty)).
    lia.
  - intros operand Hin Hint.
    pose proof (fold_left_reaches _ (maxInstructionBitWidth_ge isIntegerTy)
                  _ 0%N I _ HI
                  (fun m => maxInstructionBitWidth_operand isIntegerTy m I
                              operand Hin Hint)).
    lia.
Qed.

(** X15.  [InterProceduralRA::getMaxBitWidth] is not
    below the width [RangeAnalysis::getMaxBitWidth] finds for any function
    of the module that is not a declaration; it is zero, which is no bit
    width, exactly when every function of the module is a declaration. *)
Theorem getMaxBitWidth_Module_covers (isIntegerTy : Value -> bool)
    (M : list Function) :
  (forall F, In F M -> isDeclaration F = false ->
             (getMaxBitWidth isIntegerTy F
              <= getMaxBitWidth_Module isIntegerTy M)%N)
  /\ (getMaxBitWidth_Module isIntegerTy M = 0%N
      <-> forall F, In F M -> isDeclaration F = true).
Proof.
  set (step := fun (max : N) (F : Function) =>
                 if negb (isDeclaration F)
                 then if (max <? getMaxBitWidth isIntegerTy F)%N
                      then getMaxBitWidth isIntegerTy F else max
                 else max).
  assert (Hge : forall m F, (m <= step m F)%N).
  { intros m F. unfold step. destruct (isDeclaration F); cbn [negb]; [lia|].
    destruct (N.ltb_spec m (getMaxBitWidth isIntegerTy F)); lia. }
  assert (Hreach : forall F, In F M -> isDeclaration F = false ->
            (getMaxBitWidth isIntegerTy F
             <= getMaxBitWidth_Module isIntegerTy M)%N).
  { intros F HF Hdecl. unfold getMaxBitWidth_Module. fold step.
    apply (fold_left_reaches step Hge M 0%N F); [exact HF|].
    intros m. unfold step. rewrite Hdecl. cbn [negb].
    destruct (N.ltb_spec m (getMaxBitWidth isIntegerTy F)); lia. }
  split; [exact Hreach|]. split.
  - intros Hzero F HF. destruct (isDeclaration F) eqn:Hdecl; [reflexivity|].
    pose proof (Hreach F HF Hdecl).
    destruct (getMaxBitWidth_fold isIntegerTy F) as [_ Hone]. lia.
  - intros Hall. unfold getMaxBitWidth_Module. fold step.
    clear Hreach. induction M as [|F M IH]; [reflexivity|].
    cbn [fold_left]. unfold step at 2.
    rewrite (Hall F (or_introl eq_refl)). cbn [negb].
    apply IH. intros F' HF'. apply Hall. right. exact HF'.
Qed.

(** ** The unit test of [Range] *)

Section UnitTestFacts.
Variable W : positive.
Hypothesis two_bits : (1 < W)%positive.

Lemma Max_pos : 0 < Max W.
Proof.
  unfold Max, APInt.getSignedMaxValue, APInt.half.
  assert (2 ^ 1 <= 2 ^ (Z.pos W - 1)) by (apply Z.pow_le_mono_r; lia).
  change (2 ^ 1) with 2 in *. lia.
Qed.

Lemma Range_neqb_same a b : a = b -> Range_neqb a b = false.
Proof. intros ->. apply Range_neqb_refl. Qed.

Ltac sentinel_facts :=
  pose proof Max_pos; pose proof (Min_neg W); pose proof (Max_Min W).

Ltac evaluate_range :=
  apply Range_neqb_same;
  unfold add, sub, mul, isMaxRange, RangeR, Zero, APInt.add, APInt.sub;
  cbn [getLower getUpper tl];
  rewrite ?mul_select_fold; unfold MUL_HELPER, Zero, APInt.mul;
  split_comparisons; try lia;
  rewrite ?Z.add_0_r, ?Z.sub_0_r, ?Z.mul_0_r, ?Z.mul_0_l;
  rewrite ?(wrap_small W 0) by lia;
  try reflexivity; f_equal; lia.

Lemma unit_test_verdicts :
  map (fun t : Range * Range => Range_neqb (fst t) (snd t))
    (RangeUnitTest_assertions W)
  = repeat false 10 ++ [true] ++ repeat false 26.
Proof.
  sentinel_facts.
  unfold RangeUnitTest_assertions. cbv zeta. cbn [map fst snd repeat app].
  repeat (apply f_equal2; [first [evaluate_range | reflexivity] |]).
  reflexivity.
Qed.

End UnitTestFacts.

Lemma ASSERT_TRUE_counts l total failed :
  fold_left ASSERT_TRUE l (total, failed)
  = ((total + length l)%nat,
     (failed
      + length (List.filter
                  (fun t : Range * Range => Range_neqb (fst t) (snd t)) l))%nat).
Proof.
  revert total failed. induction l as [|[result res] l IH]; intros total failed.
  - cbn. f_equal; lia.
  - cbn [fold_left ASSERT_TRUE]. rewrite IH. cbn [List.filter length fst snd].
    destruct (Range_neqb result res); cbn [length]; f_equal; lia.
Qed.

Lemma filter_map_length {A} (p : A -> bool) l :
  length (List.filter p l) = length (List.filter (fun b : bool => b) (map p l)).
Proof.
  induction l as [|a l IH]; [reflexivity|].
  cbn [List.filter map]. destruct (p a); cbn [length]; congruence.
Qed.

(** X16.  At every analysis width of two bits or more the unit
    test of [Range], [RangeUnitTest::runOnModule], makes 37 assertions and
    exactly one of them fails: the eleventh, which expects the sum of two
    Regular ranges to be Unknown. *)
Theorem RangeUnitTest_fails_once (W : positive) (total failed : nat) :
  (1 < W)%positive ->
  RangeUnitTest_runOnModule W (total, failed)
  = ((total + 37)%nat, (failed + 1)%nat)
  /\ (forall i t,
        nth_error (RangeUnitTest_assertions W) i = Some t ->
        (Range_neqb (fst t) (snd t) = true <-> i = 10%nat)).
Proof.
  intros HW. pose proof (unit_test_verdicts W HW) as Hv. split.
  - unfold RangeUnitTest_runOnModule. rewrite ASSERT_TRUE_counts.
    rewrite filter_map_length, Hv. reflexivity.
  - intros i t Hi.
    assert (Hn : nth_error (repeat false 10 ++ [true] ++ repeat false 26) i
                 = Some (Range_neqb (fst t) (snd t))).
    { rewrite <- Hv. rewrite nth_error_map, Hi. reflexivity. }
    clear Hi Hv. revert Hn. generalize (Range_neqb (fst t) (snd t)). intros b.
    do 37 (destruct i as [|i];
           [cbn; intros [= <-]; split; [discriminate || reflexivity
                                       | discriminate || reflexivity]|]).
    cbn. destruct i; discriminate.
Qed.

Lemma RangeUnitTest_fails_once_witness :
  RangeUnitTest_runOnModule 32 (0%nat, 0%nat) = (37%nat, 1%nat)
  /\ (forall i t,
        nth_error (RangeUnitTest_assertions 32) i = Some t ->
        (Range_neqb (fst t) (snd t) = true <-> i = 10%nat)).
Proof.
  apply (RangeUnitTest_fails_once 32 0 0). reflexivity.
Defined.

(** ** The maps of the solver *)

Section ComponentUseMap.
Variable g : ConstraintGraph.
Variable component : gset Value.

(** The inner loop of [buildUseMap]. *)
Lemma buildUseMap_list (l : list OpRef) (init list : gset OpRef) :
  foldM (fun (list : gset OpRef) opref =>
           let* op := getOp g opref in
           let sink := getSink op in
           if bool_decide (sink ∈ component)
           then ret (list ∪ {[opref]})
           else ret list)
        l init = inr list ->
  forall ref,
    ref ∈ list
    <-> ref ∈ init
        \/ (ref ∈ l /\ exists op, heap g !! ref = Some op
                                  /\ getSink op ∈ component).
Proof.
  revert init. induction l as [|opref l IH]; intros init; cbn [foldM].
  - intros [= <-] ref. split; [auto|].
    intros [H | [H _]]; [exact H|]. apply elem_of_nil in H. contradiction.
  - destruct (getOp g opref) as [f | op] eqn:Hop; cbn [bind]; [discriminate|].
    unfold getOp, deref in Hop.
    destruct (heap g !! opref) as [op'|] eqn:Hheap; [|discriminate].
    injection Hop as ->.
    destruct (bool_decide (getSink op ∈ component)) eqn:Hsink;
      cbn [bind ret]; intros Hfold ref; rewrite (IH _ Hfold ref);
      clear IH Hfold; rewrite elem_of_cons.
    + apply bool_decide_eq_true in Hsink.
      rewrite elem_of_union, elem_of_singleton. split.
      * intros [[H | ->] | [H Hex]]; eauto 7.
      * intros [H | [[-> | H] Hex]]; eauto.
    + apply bool_decide_eq_false in Hsink. split.
      * intros [H | [H Hex]]; eauto.
      * intros [H | [[-> | H] Hex]]; eauto.
        destruct Hex as (op' & Hop' & Hin). congruence.
Qed.

(** The outer loop of [buildUseMap], from any map. *)
Lemma buildUseMap_loop (l : list Value) (m m' : gmap Value (gset OpRef)) :
  foldM (fun (compUseMap : gmap Value (gset OpRef)) V =>
           let compUseMap := useMap_subscript compUseMap V in
           let* p := deref (useMap g) V (NoUseMapEntry V) in
           let* list :=
             foldM (fun (list : gset OpRef) opref =>
                      let* op := getOp g opref in
                      let sink := getSink op in
                      if bool_decide (sink ∈ component)
                      then ret (list ∪ {[opref]})
                      else ret list)
                   (elements p) (compUseMap !!! V) in
           ret (<[V := list]> compUseMap))
        l m = inr m' ->
  (forall V L, m !! V = Some L ->
     forall ref, ref ∈ L <-> usedInComponent g component V ref) ->
  dom m' = dom m ∪ list_to_set l
  /\ (forall V L, m' !! V = Some L ->
        forall ref, ref ∈ L <-> usedInComponent g component V ref).
Proof.
  revert m. induction l as [|V l IH]; intros m; cbn [foldM].
  - intros [= <-] Hm. split; [|exact Hm].
    rewrite list_to_set_nil. symmetry. apply union_empty_r_L.
  - unfold deref at 1.
    destruct (useMap g !! V) as [p|] eqn:Hp; cbn [bind ret fault];
      [|discriminate].
    destruct (foldM _ (elements p) _) as [f | list] eqn:Hlist; cbn [bind];
      [discriminate|].
    intros Hfold Hm.
    pose proof (buildUseMap_list _ _ _ Hlist) as Hin.
    destruct (IH _ Hfold) as [Hdom Hall].
    + intros V' L. destruct (decide (V = V')) as [<- | Hne].
      * rewrite lookup_insert_eq. intros [= <-] ref. rewrite Hin.
        assert (Hinit : ref ∈ useMap_subscript m V !!! V
                        -> usedInComponent g component V ref).
        { unfold useMap_subscript, map_insert_new, lookup_total,
            map_lookup_total.
          destruct (m !! V) as [L0|] eqn:HmV.
          - rewrite HmV. cbn. apply Hm, HmV.
          - rewrite lookup_insert_eq. cbn. intros H.
            apply elem_of_empty in H. contradiction. }
        split.
        -- intros [H | [H (op & Hop & Hsink)]]; [apply Hinit, H|].
           apply elem_of_elements in H. exists p, op. auto.
        -- intros (uses & op & Hu & Href & Hop & Hsink). right.
           assert (uses = p) by congruence. subst uses.
           split; [apply elem_of_elements, Href | eauto].
      * rewrite lookup_insert_ne by exact Hne.
        unfold useMap_subscript, map_insert_new.
        destruct (m !! V); [apply Hm|].
        rewrite lookup_insert_ne by exact Hne. apply Hm.
    + split; [|exact Hall]. rewrite Hdom, dom_insert_L.
      unfold useMap_subscript. rewrite dom_map_insert_new.
      rewrite list_to_set_cons. apply set_eq. intros x.
      rewrite !elem_of_union. tauto.
Qed.
End ComponentUseMap.

(** X17.  [buildUseMap] returns the use map restricted to
    the component: its keys are the values of the component, and the list
    of [V] holds exactly the operations of [V]'s use list in the graph
    whose sink is in the component. *)
Theorem buildUseMap_restricts (g : ConstraintGraph) (component : gset Value)
    (compUseMap : gmap Value (gset OpRef)) :
  buildUseMap g component = inr compUseMap ->
  dom compUseMap = component
  /\ (forall V L, compUseMap !! V = Some L ->
        forall ref, ref ∈ L <-> usedInComponent g component V ref).
Proof.
  unfold buildUseMap. intros Hbuild.
  destruct (buildUseMap_loop g component _ _ _ Hbuild) as [Hdom Hall].
  - intros V L HV. rewrite lookup_empty in HV. discriminate.
  - split; [|exact Hall].
    rewrite Hdom, dom_empty_L, list_to_set_elements_L.
    apply union_empty_l_L.
Qed.

Lemma buildUseMap_restricts_witness :
  match buildUseMap Examples.loopReady Examples.loopComponent with
  | inr compUseMap =>
      dom compUseMap = Examples.loopComponent
      /\ (forall V L, compUseMap !! V = Some L ->
            forall ref,
              ref ∈ L
              <-> usedInComponent Examples.loopReady Examples.loopComponent
                    V ref)
  | inl _ => False
  end.
Proof.
  destruct (buildUseMap Examples.loopReady Examples.loopComponent)
    as [f | compUseMap] eqn:Hbuild.
  - assert (Hs : succeeds (buildUseMap Examples.loopReady Examples.loopComponent)
                   = true) by (vm_compute; reflexivity).
    rewrite Hbuild in Hs. discriminate Hs.
  - apply (buildUseMap_restricts Examples.loopReady Examples.loopComponent
             compUseMap Hbuild).
Defined.

Section SymbolicMap.
Variable g : ConstraintGraph.

(** The loop of [buildSymbolicIntersectMap], from any map. *)
Lemma buildSymbolicIntersectMap_loop (l : list OpRef)
    (m m' : gmap Value (gset OpRef)) :
  foldM (fun (symbMap : gmap Value (gset OpRef)) opref =>
           let* op := getOp g opref in
           match isUnaryOp op, getIntersect op with
           | true, SymbInterval _ V _ =>
               match symbMap !! V with
               | Some l => ret (<[V := l ∪ {[opref]}]> symbMap)
               | None => ret (<[V := {[opref]}]> symbMap)
               end
           | _, _ => ret symbMap
           end)
        l m = inr m' ->
  forall V ref,
    (exists L, m' !! V = Some L /\ ref ∈ L)
    <-> (exists L, m !! V = Some L /\ ref ∈ L)
        \/ (ref ∈ l
            /\ exists op r pred,
                 heap g !! ref = Some op /\ isUnaryOp op = true
                 /\ getIntersect op = SymbInterval r V pred).
Proof.
  match goal with |- context [foldM ?s _ _] => set (step := s) end.
  revert m. induction l as [|opref l IH]; intros m; cbn [foldM].
  - intros [= <-] V ref. split; [auto|].
    intros [H | [H _]]; [exact H|]. apply elem_of_nil in H. contradiction.
  - unfold step at 1.
    destruct (getOp g opref) as [f | op] eqn:Hop; cbn [bind]; [discriminate|].
    unfold getOp, deref in Hop.
    destruct (heap g !! opref) as [op'|] eqn:Hheap; [|discriminate].
    injection Hop as ->.
    assert (Hskip : forall m1,
              (forall V ref,
                 (exists L, m1 !! V = Some L /\ ref ∈ L)
                 <-> (exists L, m !! V = Some L /\ ref ∈ L)
                     \/ (ref = opref
                         /\ exists r pred,
                              isUnaryOp op = true
                              /\ getIntersect op = SymbInterval r V pred)) ->
              foldM step l m1 = inr m' ->
              forall V ref,
                (exists L, m' !! V = Some L /\ ref ∈ L)
                <-> (exists L, m !! V = Some L /\ ref ∈ L)
                    \/ (ref ∈ opref :: l
                        /\ exists op0 r pred,
                             heap g !! ref = Some op0 /\ isUnaryOp op0 = true
                             /\ getIntersect op0 = SymbInterval r V pred)).
    { intros m1 Hm1 Hfold V ref. rewrite (IH _ Hfold V ref), (Hm1 V ref).
      rewrite elem_of_cons. split.
      - intros [[H | [-> (r & pred & Hu & Hi)]] | [H Hex]]; eauto 9.
      - intros [H | [[-> | H] (op0 & r & pred & Hop0 & Hu & Hi)]]; eauto 9.
        left. right. split; [reflexivity|].
        assert (op0 = op) by congruence. subst op0. eauto. }
    destruct (isUnaryOp op) eqn:Hunary.
    + destruct (getIntersect op) as [r0 | r0 V0 pred0] eqn:Hitv.
      * cbn [bind ret]. apply Hskip. intros V ref. split; [auto|].
        intros [H | [_ (r & pred & _ & Hi)]]; [exact H | discriminate].
      * destruct (m !! V0) as [L0|] eqn:HV0; cbn [bind ret]; apply Hskip;
          intros V ref; destruct (decide (V0 = V)) as [<- | Hne];
          rewrite ?lookup_insert_eq, ?lookup_insert_ne by exact Hne.
        -- split.
           ++ intros (L & [= <-] & Hin). apply elem_of_union in Hin.
              destruct Hin as [Hin | Hin]; [eauto|].
              apply elem_of_singleton in Hin. eauto 7.
           ++ intros [(L & HL & Hin) | [-> _]]; eexists; split;
                try reflexivity; apply elem_of_union;
                [left; congruence | right; apply elem_of_singleton;
                                    reflexivity].
        -- split; [auto|].
           intros [H | [_ (r & pred & _ & [= _ HV _])]];
             [exact H | contradiction].
        -- split.
           ++ intros (L & [= <-] & Hin). apply elem_of_singleton in Hin.
              eauto 7.
           ++ intros [(L & HL & Hin) | [-> _]]; [congruence|].
              eexists. split; [reflexivity|]. apply elem_of_singleton.
              reflexivity.
        -- split; [auto|].
           intros [H | [_ (r & pred & _ & [= _ HV _])]];
             [exact H | contradiction].
    + cbn [bind ret]. apply Hskip. intros V ref. split; [auto|].
      intros [H | [_ (r & pred & Hu & _)]]; [exact H | discriminate].
Qed.
End SymbolicMap.

(** X18.  [buildSymbolicIntersectMap] rebuilds [symbMap] from
    the operations alone, whatever it held before: it lists under [V]
    exactly the UnaryOps (SigmaOps among them) of the graph whose intersect
    is symbolic with bound [V], and leaves the rest of the graph as it
    was. *)
Theorem buildSymbolicIntersectMap_collects (g g' : ConstraintGraph) :
  buildSymbolicIntersectMap g = inr g' ->
  (forall V ref,
     (exists L, symbMap g' !! V = Some L /\ ref ∈ L) <-> boundedBy g V ref)
  /\ g' = set_symbMap g (symbMap g').
Proof.
  unfold buildSymbolicIntersectMap.
  destruct (foldM _ (elements (oprs g)) ∅) as [f | m] eqn:Hfold; cbn [bind];
    [discriminate|].
  intros [= <-]. split; [|reflexivity].
  intros V ref. cbn [symbMap set_symbMap].
  rewrite (buildSymbolicIntersectMap_loop g _ _ _ Hfold V ref).
  unfold boundedBy. rewrite elem_of_elements. split.
  - intros [(L & HL & _) | H]; [|exact H].
    rewrite lookup_empty in HL. discriminate.
  - auto.
Qed.

(** ** The builder *)

Section BuilderFacts.
Variable W : positive.

Lemma addVarNode_keeps_nodes g V V' :
  V' ∈ dom (vars g) -> V' ∈ dom (vars (addVarNode W g V)).
Proof.
  unfold addVarNode. destruct (vars g !! V); [auto|].
  cbn [vars set_vars set_useMap]. rewrite dom_insert_L.
  intros H. apply elem_of_union. right. exact H.
Qed.

Lemma addVarNode_frame g V :
  heap (addVarNode W g V) = heap g
  /\ defMap (addVarNode W g V) = defMap g
  /\ oprs (addVarNode W g V) = oprs g
  /\ nextRef (addVarNode W g V) = nextRef g
  /\ valuesBranchMap (addVarNode W g V) = valuesBranchMap g
  /\ valuesSwitchMap (addVarNode W g V) = valuesSwitchMap g.
Proof.
  unfold addVarNode. destruct (vars g !! V); repeat split; reflexivity.
Qed.

Lemma useMap_find_insert_spec g v ref uses :
  useMap g !! v = Some uses ->
  useMap_find_insert g v ref
  = inr (set_useMap g (<[v := uses ∪ {[ref]}]> (useMap g))).
Proof.
  intros H. unfold useMap_find_insert, deref. rewrite H. reflexivity.
Qed.

Lemma covered_lookup g v :
  useMapCoversVars g -> v ∈ dom (vars g) ->
  exists uses, useMap g !! v = Some uses.
Proof.
  intros Hg Hv. apply Hg, elem_of_dom in Hv. exact Hv.
Qed.

(** The registration that ends [addUnaryOp], [addBinaryOp] and the
    rounds of [addSigmaOp]: the new object is allocated, entered in
    [oprs] and [defMap], and added to the use list of each source. *)
Lemma register_one g op sink source :
  useMapCoversVars g -> source ∈ dom (vars g) ->
  exists uses,
    useMap g !! source = Some uses
    /\ (let '(ref, g) := new g op in
        let g := set_oprs g (oprs g ∪ {[ref]}) in
        let g := set_defMap g (<[sink := ref]> (defMap g)) in
        useMap_find_insert g source ref)
       = inr (MkGraph (vars g) (oprs g ∪ {[nextRef g]})
                (<[sink := nextRef g]> (defMap g))
                (<[source := uses ∪ {[nextRef g]}]> (useMap g))
                (symbMap g) (valuesBranchMap g) (valuesSwitchMap g)
                (<[nextRef g := op]> (heap g)) (Pos.succ (nextRef g))).
Proof.
  intros Hg Hs. destruct (covered_lookup g source Hg Hs) as [uses Hu].
  exists uses. split; [exact Hu|]. unfold new.
  rewrite (useMap_find_insert_spec _ source _ uses) by exact Hu.
  reflexivity.
Qed.
End BuilderFacts.

Section Registration.
Variable W : positive.

Lemma addBinaryOp_spec g I source1 source2 :
  useMapCoversVars g ->
  nth_error (getOperands I) 0 = Some source1 ->
  nth_error (getOperands I) 1 = Some source2 ->
  exists g',
    addBinaryOp W g I = inr g'
    /\ defMap g' !! asValue I = Some (nextRef g)
    /\ heap g'
       = <[nextRef g := BinaryOp (BasicInterval_default W) (asValue I)
                          source1 source2 (getOpcode I)]> (heap g)
    /\ (exists uses, useMap g' !! source1 = Some uses /\ nextRef g ∈ uses)
    /\ (exists uses, useMap g' !! source2 = Some uses /\ nextRef g ∈ uses).
Proof.
  intros Hg H1 H2. unfold addBinaryOp, getOperand. rewrite H1, H2.
  cbn [bind ret].
  set (g2 := addVarNode W (addVarNode W (addVarNode W g (asValue I)) source1)
               source2).
  assert (Hg2 : useMapCoversVars g2)
    by (repeat apply covers_addVarNode; exact Hg).
  assert (Hs1 : source1 ∈ dom (vars g2))
    by (apply addVarNode_keeps_nodes, addVarNode_adds).
  assert (Hs2 : source2 ∈ dom (vars g2)) by apply addVarNode_adds.
  destruct (covered_lookup g2 source1 Hg2 Hs1) as [uses1 Hu1].
  destruct (covered_lookup g2 source2 Hg2 Hs2) as [uses2 Hu2].
  assert (Hframe : heap g2 = heap g /\ defMap g2 = defMap g
                   /\ nextRef g2 = nextRef g).
  { unfold g2.
    destruct (addVarNode_frame W (addVarNode W (addVarNode W g (asValue I))
                                    source1) source2)
      as (-> & -> & _ & -> & _).
    destruct (addVarNode_frame W (addVarNode W g (asValue I)) source1)
      as (-> & -> & _ & -> & _).
    destruct (addVarNode_frame W g (asValue I)) as (-> & -> & _ & -> & _).
    auto. }
  destruct Hframe as (Hheap & Hdef & Hnext).
  unfold new. cbn [bind ret].
  rewrite (useMap_find_insert_spec _ source1 _ uses1) by exact Hu1.
  cbn [bind ret].
  destruct (decide (source1 = source2)) as [<- | Hne].
  - rewrite (useMap_find_insert_spec _ source1 _ (uses1 ∪ {[nextRef g2]}))
      by (cbn [useMap set_useMap]; apply lookup_insert_eq).
    eexists. split; [reflexivity|].
    cbn [defMap heap useMap set_useMap set_defMap set_oprs].
    rewrite Hheap, Hnext.
    split; [apply lookup_insert_eq|]. split; [reflexivity|].
    split; (eexists; split; [apply lookup_insert_eq|]);
      apply elem_of_union; right; apply elem_of_singleton; reflexivity.
  - rewrite (useMap_find_insert_spec _ source2 _ uses2)
      by (cbn [useMap set_useMap]; rewrite lookup_insert_ne by exact Hne;
          exact Hu2).
    eexists. split; [reflexivity|].
    cbn [defMap heap useMap set_useMap set_defMap set_oprs].
    rewrite Hheap, Hnext.
    split; [apply lookup_insert_eq|]. split; [reflexivity|]. split.
    + eexists. split.
      * rewrite lookup_insert_ne by congruence. apply lookup_insert_eq.
      * apply elem_of_union; right; apply elem_of_singleton; reflexivity.
    + eexists. split; [apply lookup_insert_eq|].
      apply elem_of_union; right; apply elem_of_singleton; reflexivity.
Qed.

Lemma addUnaryOp_finish g I source :
  useMapCoversVars g ->
  exists g',
    (let g := addVarNode W (addVarNode W g (asValue I)) source in
     let '(UOp, g) :=
       new g (UnaryOp (BasicInterval_default W) (asValue I) source
                (getOpcode I)) in
     let g := set_oprs g (oprs g ∪ {[UOp]}) in
     let g := set_defMap g (<[asValue I := UOp]> (defMap g)) in
     useMap_find_insert g source UOp) = inr g'
    /\ defMap g' !! asValue I = Some (nextRef g)
    /\ heap g'
       = <[nextRef g := UnaryOp (BasicInterval_default W) (asValue I)
                          source (getOpcode I)]> (heap g)
    /\ (exists uses, useMap g' !! source = Some uses /\ nextRef g ∈ uses).
Proof.
  intros Hg. cbv zeta.
  set (g1 := addVarNode W (addVarNode W g (asValue I)) source).
  assert (Hg1 : useMapCoversVars g1)
    by (repeat apply covers_addVarNode; exact Hg).
  assert (Hs : source ∈ dom (vars g1)) by apply addVarNode_adds.
  destruct (register_one g1
              (UnaryOp (BasicInterval_default W) (asValue I) source
                 (getOpcode I)) (asValue I) source Hg1 Hs)
    as (uses & Hu & Hreg).
  assert (Hframe : heap g1 = heap g /\ nextRef g1 = nextRef g).
  { unfold g1.
    destruct (addVarNode_frame W (addVarNode W g (asValue I)) source)
      as (-> & _ & _ & -> & _).
    destruct (addVarNode_frame W g (asValue I)) as (-> & _ & _ & -> & _).
    auto. }
  destruct Hframe as [Hheap Hnext].
  eexists. split; [exact Hreg|].
  cbn [defMap heap useMap]. rewrite Hheap, Hnext.
  split; [apply lookup_insert_eq|]. split; [reflexivity|].
  eexists. split; [apply lookup_insert_eq|].
  apply elem_of_union; right; apply elem_of_singleton; reflexivity.
Qed.
End Registration.

(** X19.  On a graph in which every node has a use list,
    [buildOperations] turns every instruction that [isValidInstruction]
    selects, other than a phi, into one new operation, provided the
    instruction has the operands its opcode reads (two; one for a load or
    a cast): the operation is stored at the next free address and entered
    in [defMap] for the instruction; its sink is the instruction, its
    intersect the default [[Min, Max]]; it reads operands of the
    instruction, and it is in the use list of each value it reads. *)
Theorem buildOperations_registers (W : positive) (g : ConstraintGraph)
    (I : Instruction) :
  useMapCoversVars g ->
  isValidInstruction I = true ->
  getOpcode I <> Instruction.PHI ->
  (match getOpcode I with
   | Instruction.Load | Instruction.Trunc | Instruction.ZExt
   | Instruction.SExt => 1
   | _ => 2
   end <= length (getOperands I))%nat ->
  exists g' op,
    buildOperations W g I = inr g'
    /\ defMap g' !! asValue I = Some (nextRef g)
    /\ heap g' = <[nextRef g := op]> (heap g)
    /\ getSink op = asValue I
    /\ getIntersect op = BasicInterval_default W
    /\ getSources op <> []
    /\ (forall v, v ∈ getSources op ->
          v ∈ getOperands I
          /\ exists uses, useMap g' !! v = Some uses /\ nextRef g ∈ uses).
Proof.
  intros Hg Hvalid Hphi Hlen.
  assert (H0 : exists s, nth_error (getOperands I) 0 = Some s).
  { destruct (getOperands I) as [|s l]; [|eauto].
    destruct (getOpcode I); cbn in Hlen; lia. }
  destruct H0 as [s0 H0].
  assert (Hin0 : s0 ∈ getOperands I)
    by (apply list_elem_of_In; eapply nth_error_In; exact H0).
  unfold buildOperations, isValidInstruction in *.
  destruct (getOpcode I) eqn:Hop; try discriminate Hvalid;
    try contradiction; cbn [ops_isBinaryOp].
  all: try (
    assert (H1 : exists s, nth_error (getOperands I) 1 = Some s)
      by (destruct (getOperands I) as [|a [|b l]]; cbn in Hlen;
          [lia | lia | cbn; eauto]);
    destruct H1 as [s1 H1];
    assert (Hin1 : s1 ∈ getOperands I)
      by (apply list_elem_of_In; eapply nth_error_In; exact H1)).
  all: try (
    destruct (addBinaryOp_spec W g I s0 s1 Hg H0 H1)
      as (g' & Hrun & Hdef & Hheap & Hu0 & Hu1);
    rewrite Hop in Hheap;
    eexists g', _; split; [exact Hrun|]; split; [exact Hdef|];
    split; [exact Hheap|]; cbn [getSink getIntersect getSources];
    split; [reflexivity|]; split; [reflexivity|]; split; [discriminate|];
    intros v Hv; apply elem_of_cons in Hv; destruct Hv as [-> | Hv];
    [auto|]; apply list_elem_of_singleton in Hv; subst v; auto).
  all: unfold addUnaryOp, getOperand; rewrite Hop, ?H0, ?H1; cbn [bind ret].
  all: match goal with
       | |- context [UnaryOp _ _ ?src _] =>
           destruct (addUnaryOp_finish W g I src Hg)
             as (g' & Hrun & Hdef & Hheap & Hu)
       end;
    cbv zeta in Hrun; rewrite Hop in Hrun, Hheap;
    eexists g', _; split; [exact Hrun|]; split; [exact Hdef|];
    split; [exact Hheap|]; cbn [getSink getIntersect getSources];
    split; [reflexivity|]; split; [reflexivity|]; split; [discriminate|];
    intros v Hv; apply list_elem_of_singleton in Hv; subst v; auto.
Qed.

Section PhiSources.
Variable W : positive.

(** The loop of [addPhiOp] over the operands, from a graph that holds
    the phi at [ref]. *)
Lemma addPhiOp_loop (ref : OpRef) (l : list Value) g i s srcs oc :
  useMapCoversVars g ->
  heap g !! ref = Some (PhiOp i s srcs oc) ->
  exists g',
    foldM (fun g operand =>
             let source := operand in
             let g := addVarNode W g source in
             let* g := heap_addSource g ref source in
             useMap_find_insert g source ref)
          l g = inr g'
    /\ useMapCoversVars g'
    /\ heap g' = <[ref := PhiOp i s (srcs ++ l) oc]> (heap g)
    /\ defMap g' = defMap g
    /\ nextRef g' = nextRef g
    /\ (forall v,
          (exists uses, useMap g !! v = Some uses /\ ref ∈ uses) \/ v ∈ l ->
          exists uses, useMap g' !! v = Some uses /\ ref ∈ uses).
Proof.
  revert g srcs. induction l as [|operand l IH]; intros g srcs Hg Href;
    cbn [foldM].
  - exists g. split; [reflexivity|]. split; [exact Hg|].
    rewrite app_nil_r, insert_id by exact Href.
    repeat split; try reflexivity.
    intros v [H | H]; [exact H|]. apply elem_of_nil in H. contradiction.
  - cbv zeta.
    set (g1 := addVarNode W g operand).
    assert (Hg1 : useMapCoversVars g1) by (apply covers_addVarNode, Hg).
    destruct (addVarNode_frame W g operand) as (Hh & Hd & _ & Hn & _).
    fold g1 in Hh, Hd, Hn.
    unfold heap_addSource, getOp, deref. rewrite Hh, Href.
    cbn [bind ret addSource].
    destruct (covered_lookup g1 operand Hg1 (addVarNode_adds W g operand))
      as [uses Hu].
    rewrite (useMap_find_insert_spec _ operand _ uses) by exact Hu.
    cbn [bind ret].
    match goal with
    | |- context [foldM _ l ?x] => set (g2 := x)
    end.
    destruct (IH g2 (srcs ++ [operand]))
      as (g' & Hrun & Hc & Hheap & Hdef & Hnext & Huses).
    + unfold g2, useMapCoversVars. cbn [vars useMap set_useMap set_heap].
      rewrite dom_insert_L. intros x Hx. apply elem_of_union. right.
      apply Hg1, Hx.
    + unfold g2. cbn [heap set_useMap set_heap]. apply lookup_insert_eq.
    + exists g'. split; [exact Hrun|]. split; [exact Hc|].
      split; [|split; [|split]].
      * rewrite Hheap. unfold g2. cbn [heap set_useMap set_heap].
        rewrite insert_insert_eq, <- app_assoc. reflexivity.
      * rewrite Hdef. unfold g2. cbn [defMap set_useMap set_heap]. exact Hd.
      * rewrite Hnext. unfold g2. cbn [nextRef set_useMap set_heap]. exact Hn.
      * intros v Hv. apply Huses. unfold g2. cbn [useMap set_useMap set_heap].
        destruct (decide (v = operand)) as [-> | Hne].
        -- left. eexists. split; [apply lookup_insert_eq|].
           apply elem_of_union. right. apply elem_of_singleton. reflexivity.
        -- destruct Hv as [(uses0 & Hu0 & Hin0) | Hv].
           ++ left. exists uses0. split; [|exact Hin0].
              rewrite lookup_insert_ne by congruence.
              unfold g1, addVarNode. destruct (vars g !! operand);
                [exact Hu0|].
              cbn [useMap set_useMap set_vars]. unfold map_insert_new.
              destruct (useMap g !! operand); [exact Hu0|].
              rewrite lookup_insert_ne by congruence. exact Hu0.
           ++ apply elem_of_cons in Hv. destruct Hv as [-> | Hv];
                [contradiction | right; exact Hv].
Qed.
End PhiSources.

(** X20.  On a graph in which every node has a use list,
    [addPhiOp] always succeeds: it stores one new PhiOp at the next free
    address and enters it in [defMap] for the phi; the sources of the
    PhiOp are the operands of the phi, in their order (none for a phi
    without operands); and the PhiOp is in the use list of every
    operand. *)
Theorem addPhiOp_collects_operands (W : positive) (g : ConstraintGraph)
    (Phi : Instruction) :
  useMapCoversVars g ->
  exists g',
    addPhiOp W g Phi = inr g'
    /\ defMap g' !! asValue Phi = Some (nextRef g)
    /\ heap g'
       = <[nextRef g := PhiOp (BasicInterval_default W) (asValue Phi)
                          (getOperands Phi) (getOpcode Phi)]> (heap g)
    /\ nextRef g' = Pos.succ (nextRef g)
    /\ (forall v, v ∈ getOperands Phi ->
          exists uses, useMap g' !! v = Some uses /\ nextRef g ∈ uses).
Proof.
  intros Hg. unfold addPhiOp, new. cbv zeta.
  destruct (addVarNode_frame W g (asValue Phi)) as (Hh & Hd & _ & Hn & _).
  rewrite Hn.
  match goal with
  | |- context [foldM _ _ ?x] => set (g1 := x)
  end.
  destruct (addPhiOp_loop W (nextRef g) (getOperands Phi) g1
              (BasicInterval_default W) (asValue Phi) [] (getOpcode Phi))
    as (g' & Hrun & _ & Hheap & Hdef & Hnext & Huses).
  - unfold g1, useMapCoversVars. cbn [vars useMap set_defMap set_oprs].
    apply (covers_addVarNode W g (asValue Phi) Hg).
  - unfold g1. cbn [heap set_defMap set_oprs]. apply lookup_insert_eq.
  - exists g'. split; [exact Hrun|].
    split; [|split; [|split]].
    + rewrite Hdef. unfold g1. cbn [defMap set_defMap set_oprs].
      apply lookup_insert_eq.
    + rewrite Hheap. unfold g1. cbn [heap set_defMap set_oprs].
      rewrite insert_insert_eq, Hh. reflexivity.
    + rewrite Hnext. reflexivity.
    + intros v Hv. apply Huses. right. exact Hv.
Qed.

Lemma addPhiOp_collects_operands_witness :
  exists g',
    addPhiOp 8 emptyGraph
      (Examples.instruction Examples.x Instruction.PHI
         [Examples.c0; Examples.y]) = inr g'
    /\ defMap g' !! Examples.x = Some (nextRef emptyGraph)
    /\ heap g'
       = <[nextRef emptyGraph :=
             PhiOp (BasicInterval_default 8) Examples.x
               [Examples.c0; Examples.y] Instruction.PHI]> (heap emptyGraph)
    /\ nextRef g' = Pos.succ (nextRef emptyGraph)
    /\ (forall v, v ∈ [Examples.c0; Examples.y] ->
          exists uses, useMap g' !! v = Some uses /\ nextRef emptyGraph ∈ uses).
Proof.
  apply (addPhiOp_collects_operands 8 emptyGraph
           (Examples.instruction Examples.x Instruction.PHI
              [Examples.c0; Examples.y])).
  intros v Hv. exact Hv.
Defined.

(** ** Invariants of the graphs the analysis reaches *)

(** X21.  In every graph the analysis reaches, the use lists
    are consistent with the operations: an operation listed under a value
    is an object of the graph and reads that value; and every object lies
    below the next free address, so an allocation never overwrites
    one. *)
Theorem use_lists_hold_users (W : positive) (g : ConstraintGraph) :
  Reachable W g ->
  (forall v uses ref,
     useMap g !! v = Some uses -> ref ∈ uses ->
     exists op, heap g !! ref = Some op /\ v ∈ getSources op)
  /\ (forall ref op, heap g !! ref = Some op -> (ref < nextRef g)%positive).
Proof.
  intros Hreach. destruct (sound_reachable W g Hreach) as [Huses Hheap].
  split; [exact Huses|]. intros ref op Hop. apply Hheap. eauto.
Qed.

Lemma addBuilt_reachable : Reachable 8 Examples.addBuilt.
Proof.
  apply (reach_step 8 emptyGraph); [apply reach_empty|].
  apply (step_addBinaryOp 8 emptyGraph
           (Examples.instruction Examples.y Instruction.Add
              [Examples.x; Examples.c5])).
  vm_compute. reflexivity.
Qed.

Lemma use_lists_hold_users_witness :
  (forall v uses ref,
     useMap Examples.addBuilt !! v = Some uses -> ref ∈ uses ->
     exists op, heap Examples.addBuilt !! ref = Some op /\ v ∈ getSources op)
  /\ (forall ref op, heap Examples.addBuilt !! ref = Some op ->
                     (ref < nextRef Examples.addBuilt)%positive).
Proof.
  apply (use_lists_hold_users 8 Examples.addBuilt).
  exact addBuilt_reachable.
Defined.

Section MeetReach.
Variable W : positive.

Lemma Meet_cascade_reachable sets g opref changed g' :
  Reachable W g -> Meet_cascade W sets g opref = inr (changed, g') ->
  Reachable W g'.
Proof.
  intros Hreach Hrun. apply Meet_cascade_spec in Hrun.
  destruct Hrun as (op & sink & newInterval & Hop & Hsink & Heval & -> & _).
  apply (reach_step W g); [exact Hreach|].
  apply (step_setRange W g (getSink op)
           (default (getRange sink) (sets (getRange sink) newInterval))).
  unfold setRange, getVarNode, deref. rewrite Hsink. reflexivity.
Qed.

Lemma Meet_fixed_reachable g opref changed g' :
  Reachable W g -> Meet_fixed W g opref = inr (changed, g') -> Reachable W g'.
Proof.
  intros Hreach. unfold Meet_fixed.
  destruct (getOp g opref) as [f | op]; cbn [bind]; [discriminate|].
  destruct (getVarNode g (getSink op)); cbn [bind]; [discriminate|].
  destruct (BasicOp_eval W g op) as [f | r]; cbn [bind]; [discriminate|].
  destruct (setRange g (getSink op) r) as [f | g1] eqn:Hset; cbn [bind];
    [discriminate|].
  intros [= _ <-]. apply (reach_step W g); [exact Hreach|].
  apply (step_setRange W g _ _ _ Hset).
Qed.

Lemma Meet_narrow_reachable g opref changed g' :
  Reachable W g -> Meet_narrow W g opref = inr (changed, g') -> Reachable W g'.
Proof.
  intros Hreach. unfold Meet_narrow.
  destruct (getOp g opref) as [f | op]; cbn [bind]; [discriminate|].
  destruct (getVarNode g (getSink op)) as [f | sink]; cbn [bind];
    [discriminate|].
  destruct (BasicOp_eval W g op) as [f | r]; cbn [bind]; [discriminate|].
  assert (Hstep1 : forall g1 b,
            match narrow_upper W (getUpper (getRange sink)) (getUpper r) with
            | Some u =>
                let* sink0 := getVarNode g1 (getSink op) in
                let* g2 := setRange g1 (getSink op)
                             (RangeR (getLower (getRange sink0)) u) in
                ret (true, g2)
            | None => ret (b, g1)
            end = inr (changed, g') ->
            Reachable W g1 -> Reachable W g').
  { intros g1 b. destruct (narrow_upper W _ _) as [u|].
    - destruct (getVarNode g1 (getSink op)) as [f | sink0]; cbn [bind];
        [discriminate|].
      destruct (setRange g1 _ _) as [f | g2] eqn:Hset; cbn [bind];
        [discriminate|].
      intros [= _ <-] Hr. apply (reach_step W g1); [exact Hr|].
      apply (step_setRange W g1 _ _ _ Hset).
    - intros [= _ <-] Hr. exact Hr. }
  destruct (narrow_lower W _ _) as [l|].
  - destruct (setRange g (getSink op) _) as [f | g1] eqn:Hset; cbn [bind];
      [discriminate|].
    intros Hrun. apply (Hstep1 g1 true Hrun).
    apply (reach_step W g); [exact Hreach|].
    apply (step_setRange W g _ _ _ Hset).
  - cbn [bind ret]. intros Hrun. apply (Hstep1 g false Hrun Hreach).
Qed.
End MeetReach.

(** X22.  The four meet operators change the graph through
    [setRange] alone: from a graph the analysis reaches, a run of
    [Meet::fixed], [Meet::widen], [Meet::growth] or [Meet::narrow] leads to
    a graph the analysis reaches, in which again every node has a use list
    and every use list holds readers of its value. *)
Theorem meet_operators_keep_the_graph (W : positive) (g : ConstraintGraph)
    (opref : OpRef) (changed : bool) (g' : ConstraintGraph) :
  Reachable W g ->
  Meet_fixed W g opref = inr (changed, g')
  \/ Meet_widen W g opref = inr (changed, g')
  \/ Meet_growth W g opref = inr (changed, g')
  \/ Meet_narrow W g opref = inr (changed, g') ->
  Reachable W g' /\ useMapCoversVars g' /\ usesSound g'.
Proof.
  intros Hreach Hrun.
  assert (Hr : Reachable W g').
  { destruct Hrun as [H | [H | [H | H]]].
    - apply (Meet_fixed_reachable W g opref changed g' Hreach H).
    - apply (Meet_cascade_reachable W _ g opref changed g' Hreach H).
    - apply (Meet_cascade_reachable W _ g opref changed g' Hreach H).
    - apply (Meet_narrow_reachable W g opref changed g' Hreach H). }
  split; [exact Hr|]. split.
  - apply (covers_reachable W g' Hr).
  - apply (sound_reachable W g' Hr).
Qed.

(** ** The transient control-dependence edges *)

Section ControlEdges.
Variable W : positive.

Lemma useMap_subscript_total (m : gmap Value (gset OpRef)) k v :
  useMap_subscript m k !!! v = m !!! v.
Proof.
  unfold useMap_subscript, map_insert_new, lookup_total, map_lookup_total.
  destruct (m !! k) eqn:Hk; [reflexivity|].
  destruct (decide (k = v)) as [<- | Hne].
  - rewrite lookup_insert_eq, Hk. reflexivity.
  - rewrite lookup_insert_ne by exact Hne. reflexivity.
Qed.

Lemma useMap_total_insert_eq (m : gmap Value (gset OpRef)) k x :
  <[k := x]> m !!! k = x.
Proof.
  unfold lookup_total, map_lookup_total. rewrite lookup_insert_eq.
  reflexivity.
Qed.

Lemma useMap_total_insert_ne (m : gmap Value (gset OpRef)) k v x :
  k <> v -> <[k := x]> m !!! v = m !!! v.
Proof.
  intros Hne. unfold lookup_total, map_lookup_total.
  rewrite lookup_insert_ne by exact Hne. reflexivity.
Qed.

(** One round of the inner loop of [addControlDependenceEdges]. *)
Lemma edgesAdded_round g0 g bound opref g' :
  edgesAdded g0 g ->
  (let* source := deref (vars g) bound (NoVarsEntry bound) in
   let* op := getOp g opref in
   let '(cdedge, g) :=
     new g (ControlDep (BasicInterval_default W) (getSink op) bound) in
   let m := useMap_subscript (useMap g) bound in
   ret (set_useMap g (<[bound := (m !!! bound) ∪ {[cdedge]}]> m))) = inr g' ->
  edgesAdded g0 g'
  /\ (forall v, is_Some (useMap g !! v) -> is_Some (useMap g' !! v)).
Proof.
  intros (Hnext & Hheap & Hfwd & Hback).
  destruct (deref (vars g) bound _) as [f | source]; cbn [bind];
    [discriminate|].
  destruct (getOp g opref) as [f | op]; cbn [bind]; [discriminate|].
  unfold new. cbv zeta. intros [= <-]. unfold edgesAdded.
  cbn [nextRef heap useMap set_useMap]. split; [split; [|split; [|split]]|].
  - lia.
  - intros ref Href. rewrite lookup_insert_ne by lia. apply Hheap, Href.
  - intros v ref Hin. apply Hfwd in Hin.
    destruct (decide (bound = v)) as [<- | Hne].
    + rewrite useMap_total_insert_eq, useMap_subscript_total.
      apply elem_of_union. left. exact Hin.
    + rewrite useMap_total_insert_ne, useMap_subscript_total by exact Hne.
      exact Hin.
  - intros v ref Hin.
    assert (Hold : ref ∈ useMap g !!! v ->
              ((ref < nextRef g0)%positive /\ ref ∈ useMap g0 !!! v)
              \/ ((nextRef g0 <= ref)%positive
                  /\ exists op0,
                       <[nextRef g := ControlDep (BasicInterval_default W)
                                        (getSink op) bound]> (heap g) !! ref
                       = Some op0 /\ isControlDep op0 = true)).
    { intros H. destruct (Hback v ref H) as [Hl | (Hr & op0 & Hop0 & Hcd)];
        [left; exact Hl | right]. split; [exact Hr|].
      destruct (decide (nextRef g = ref)) as [<- | Hne].
      - rewrite lookup_insert_eq. eauto.
      - rewrite lookup_insert_ne by exact Hne. eauto. }
    destruct (decide (bound = v)) as [<- | Hne].
    + rewrite useMap_total_insert_eq, useMap_subscript_total in Hin.
      apply elem_of_union in Hin. destruct Hin as [Hin | Hin];
        [apply Hold, Hin|].
      apply elem_of_singleton in Hin. subst ref. right.
      split; [exact Hnext|]. rewrite lookup_insert_eq. eauto.
    + rewrite useMap_total_insert_ne, useMap_subscript_total in Hin
        by exact Hne.
      apply Hold, Hin.
  - intros v [u Hu]. destruct (decide (bound = v)) as [<- | Hne].
    + rewrite lookup_insert_eq. eauto.
    + rewrite lookup_insert_ne by exact Hne.
      unfold useMap_subscript, map_insert_new.
      destruct (useMap g !! bound); [eauto|].
      rewrite lookup_insert_ne by exact Hne. eauto.
Qed.

Lemma edgesAdded_all g0 g' :
  edgesAdded g0 g0 ->
  addControlDependenceEdges W g0 = inr g' ->
  edgesAdded g0 g'
  /\ (forall v, is_Some (useMap g0 !! v) -> is_Some (useMap g' !! v)).
Proof.
  intros H0. unfold addControlDependenceEdges.
  apply (foldM_invariant
           (fun g => edgesAdded g0 g
                     /\ (forall v, is_Some (useMap g0 !! v) ->
                                   is_Some (useMap g !! v)))); [|auto].
  intros g1 [bound ops] g2 Hg1.
  apply (foldM_invariant
           (fun g => edgesAdded g0 g
                     /\ (forall v, is_Some (useMap g0 !! v) ->
                                   is_Some (useMap g !! v)))); [|exact Hg1].
  intros g3 opref g4 [Hg3 Hdom] Hround.
  destruct (edgesAdded_round g0 g3 bound opref g4 Hg3 Hround) as [H1 H2].
  split; [exact H1|]. intros v Hv. apply H2, Hdom, Hv.
Qed.
End ControlEdges.

Lemma delControlDependenceEdges_total g v :
  useMap (delControlDependenceEdges g) !!! v
  = filter (fun opref => pointsToControlDep g opref = false) (useMap g !!! v).
Proof.
  unfold delControlDependenceEdges. cbn [useMap set_useMap].
  unfold lookup_total, map_lookup_total. rewrite lookup_fmap.
  destruct (useMap g !! v); cbn; [reflexivity|].
  apply set_eq. intros x. rewrite elem_of_filter. split.
  - intros H. apply elem_of_empty in H. contradiction.
  - intros [_ H]. exact H.
Qed.

(** X23.  Removing the control-dependence edges undoes
    adding them: when no use list of the graph holds a ControlDep (and the
    operations of the use lists lie below the next free address),
    [delControlDependenceEdges] after [addControlDependenceEdges] leaves
    every use list as it was before.  Only a bound without a use list is
    left with a new, empty one. *)
Theorem control_edges_round_trip (W : positive) (g g' : ConstraintGraph) :
  (forall v (ref : OpRef), ref ∈ useMap g !!! v ->
     (ref < nextRef g)%positive /\ pointsToControlDep g ref = false) ->
  addControlDependenceEdges W g = inr g' ->
  (forall v, useMap (delControlDependenceEdges g') !!! v = useMap g !!! v)
  /\ (forall v, is_Some (useMap g !! v) ->
                useMap (delControlDependenceEdges g') !! v = useMap g !! v).
Proof.
  intros Hclean Hadd.
  assert (H0 : edgesAdded g g).
  { unfold edgesAdded. split; [lia|].
    split; [intros ref _; reflexivity|].
    split; [intros v ref Hin; exact Hin|].
    intros v ref Hin. left. destruct (Hclean v ref Hin) as [Hlt _].
    split; [exact Hlt | exact Hin]. }
  destruct (edgesAdded_all W g g' H0 Hadd)
    as [(Hnext & Hheap & Hfwd & Hback) Hdom].
  assert (Htotal : forall v,
            useMap (delControlDependenceEdges g') !!! v = useMap g !!! v).
  { intros v.
    rewrite delControlDependenceEdges_total. apply set_eq. intros ref.
    rewrite elem_of_filter. split.
    - intros [Hcd Hin].
      destruct (Hback v ref Hin) as [[_ H] | (_ & op & Hop & Hop')];
        [exact H|].
      unfold pointsToControlDep in Hcd. rewrite Hop in Hcd. congruence.
    - intros Hin. destruct (Hclean v ref Hin) as [Hlt Hcd].
      split; [|apply Hfwd, Hin].
      unfold pointsToControlDep in *. rewrite (Hheap ref Hlt). exact Hcd. }
  split; [exact Htotal|].
  intros v [u Hu]. specialize (Htotal v).
  destruct (Hdom v (ex_intro _ u Hu)) as [u' Hu'].
  unfold delControlDependenceEdges in *. cbn [useMap set_useMap] in *.
  unfold lookup_total, map_lookup_total in Htotal.
  rewrite lookup_fmap, Hu' in *. rewrite Hu in *. cbn in *.
  congruence.
Qed.

Lemma use_lists_checked (g : ConstraintGraph) (P : OpRef -> Prop)
    `{forall ref, Decision (P ref)} :
  bool_decide (map_Forall (fun _ (uses : gset OpRef) => set_Forall P uses)
                 (useMap g)) = true ->
  forall v (ref : OpRef), ref ∈ useMap g !!! v -> P ref.
Proof.
  intros Hall v ref. apply bool_decide_eq_true in Hall.
  unfold lookup_total, map_lookup_total.
  destruct (useMap g !! v) as [uses|] eqn:Hv; cbn.
  - apply (Hall v uses Hv).
  - intros H0. apply elem_of_empty in H0. contradiction.
Qed.

Lemma control_edges_round_trip_witness :
  match addControlDependenceEdges 8 Branching.graph with
  | inr g' =>
      (forall v, useMap (delControlDependenceEdges g') !!! v
                 = useMap Branching.graph !!! v)
      /\ (forall v, is_Some (useMap Branching.graph !! v) ->
                    useMap (delControlDependenceEdges g') !! v
                    = useMap Branching.graph !! v)
  | inl _ => False
  end.
Proof.
  destruct (addControlDependenceEdges 8 Branching.graph) as [f | g'] eqn:Hadd.
  - assert (Hs : succeeds (addControlDependenceEdges 8 Branching.graph) = true)
      by (vm_compute; reflexivity).
    rewrite Hadd in Hs. discriminate Hs.
  - apply (control_edges_round_trip 8 Branching.graph g'); [|exact Hadd].
    apply (use_lists_checked Branching.graph
             (fun ref => (ref < nextRef Branching.graph)%positive
                         /\ pointsToControlDep Branching.graph ref = false)).
    vm_compute. reflexivity.
Defined.

Lemma buildSymbolicIntersectMap_collects_witness :
  match buildSymbolicIntersectMap Branching.unmapped with
  | inr g' =>
      (forall V ref,
         (exists L, symbMap g' !! V = Some L /\ ref ∈ L)
         <-> boundedBy Branching.unmapped V ref)
      /\ g' = set_symbMap Branching.unmapped (symbMap g')
  | inl _ => False
  end.
Proof.
  destruct (buildSymbolicIntersectMap Branching.unmapped) as [f | g']
    eqn:Hsymb.
  - assert (Hs : succeeds (buildSymbolicIntersectMap Branching.unmapped)
                 = true) by (vm_compute; reflexivity).
    rewrite Hsymb in Hs. discriminate Hs.
  - apply (buildSymbolicIntersectMap_collects Branching.unmapped g' Hsymb).
Defined.

Lemma buildOperations_registers_witness :
  exists g' op,
    buildOperations 8 emptyGraph
      (Examples.instruction Examples.y Instruction.Add
         [Examples.x; Examples.c5]) = inr g'
    /\ defMap g' !! Examples.y = Some (nextRef emptyGraph)
    /\ heap g' = <[nextRef emptyGraph := op]> (heap emptyGraph)
    /\ getSink op = Examples.y
    /\ getIntersect op = BasicInterval_default 8
    /\ getSources op <> []
    /\ (forall v, v ∈ getSources op ->
          v ∈ [Examples.x; Examples.c5]
          /\ exists uses, useMap g' !! v = Some uses
                          /\ nextRef emptyGraph ∈ uses).
Proof.
  apply (buildOperations_registers 8 emptyGraph
           (Examples.instruction Examples.y Instruction.Add
              [Examples.x; Examples.c5])).
  - intros v Hv. exact Hv.
  - reflexivity.
  - discriminate.
  - cbn. lia.
Defined.

Lemma meet_operators_keep_the_graph_witness :
  match Meet_fixed 8 Examples.addBuilt 1%positive with
  | inr (changed, g') =>
      Reachable 8 g' /\ useMapCoversVars g' /\ usesSound g'
  | inl _ => False
  end.
Proof.
  destruct (Meet_fixed 8 Examples.addBuilt 1%positive)
    as [f | [changed g']] eqn:Hrun.
  - assert (Hs : succeeds (Meet_fixed 8 Examples.addBuilt 1%positive) = true)
      by (vm_compute; reflexivity).
    rewrite Hrun in Hs. discriminate Hs.
  - apply (meet_operators_keep_the_graph 8 Examples.addBuilt 1%positive
             changed g'); [|left; exact Hrun].
    exact addBuilt_reachable.
Defined.

Lemma getMaxBitWidth_covers_witness :
  (getPrimitiveSizeInBits Examples.y
   <= getMaxBitWidth (fun _ => true) Examples.addF)%N
  /\ (forall operand,
        In operand [Examples.x; Examples.c5] ->
        (fun _ : Value => true) operand = true ->
        (getPrimitiveSizeInBits operand
         <= getMaxBitWidth (fun _ => true) Examples.addF)%N).
Proof.
  destruct (getMaxBitWidth_covers (fun _ => true) Examples.addF) as [_ H].
  destruct (H (Examples.instruction Examples.y Instruction.Add
                 [Examples.x; Examples.c5])) as [H1 H2].
  - left. reflexivity.
  - split; [apply H1; reflexivity | exact H2].
Defined.

Lemma getMaxBitWidth_Module_covers_witness :
  (getMaxBitWidth (fun _ => true) Examples.addF
   <= getMaxBitWidth_Module (fun _ => true) [Examples.addF])%N.
Proof.
  destruct (getMaxBitWidth_Module_covers (fun _ => true) [Examples.addF])
    as [H _].
  apply H; [left|]; reflexivity.
Defined.



(** ** The arithmetic of intervals against the arithmetic of values *)

Section Soundness.
Variable W : positive.

Lemma add_sound a c x y :
  noWrapAround W Instruction.Add a c ->
  getLower a <= x <= getUpper a -> getLower c <= y <= getUpper c ->
  fits W (x + y) ->
  getLower (add W a c) <= x + y <= getUpper (add W a c).
Proof.
  intros [Hl Hu] Hx Hy Hz. unfold fits in *.
  unfold add, APInt.add, RangeR. cbn [getLower getUpper]. split.
  - destruct (APInt.ne (getLower a) (Min W) && APInt.ne (getLower c) (Min W))
      eqn:E; [|lia].
    apply andb_true_iff in E. destruct E as [E1 E2].
    apply ne_spec in E1, E2. rewrite wrap_small by (apply Hl; assumption).
    lia.
  - destruct (APInt.ne (getUpper a) (Max W) && APInt.ne (getUpper c) (Max W))
      eqn:E; [|lia].
    apply andb_true_iff in E. destruct E as [E1 E2].
    apply ne_spec in E1, E2. rewrite wrap_small by (apply Hu; assumption).
    lia.
Qed.

Lemma sub_sound a c x y :
  noWrapAround W Instruction.Sub a c ->
  getLower a <= x <= getUpper a -> getLower c <= y <= getUpper c ->
  fits W (x - y) ->
  getLower (sub W a c) <= x - y <= getUpper (sub W a c).
Proof.
  intros [Hl Hu] Hx Hy Hz. unfold fits in *.
  unfold sub, APInt.sub, RangeR. cbn [getLower getUpper]. split.
  - destruct (APInt.eq (getLower a) (Min W) || APInt.eq (getUpper c) (Max W))
      eqn:E; [lia|].
    apply orb_false_iff in E. destruct E as [E1 E2].
    apply eq_false in E1, E2. rewrite wrap_small by (apply Hl; assumption).
    lia.
  - destruct (APInt.eq (getUpper a) (Max W) || APInt.eq (getLower c) (Min W))
      eqn:E; [lia|].
    apply orb_false_iff in E. destruct E as [E1 E2].
    apply eq_false in E1, E2. rewrite wrap_small by (apply Hu; assumption).
    lia.
Qed.

(** A bound other than a lower bound [Max] is not above its reading by
    [extend]; no bound is above it. *)
Lemma extend_lower z : z <> Max W -> extend W z = z.
Proof. unfold extend. intros Hz. destruct (Z.eqb_spec z (Max W)); lia. Qed.

Lemma extend_upper z : z <= extend W z.
Proof. unfold extend. destruct (Z.eqb_spec z (Max W)); lia. Qed.

Lemma clamp_small z : fits W z -> clamp W z = z.
Proof. unfold clamp, fits. lia. Qed.

Lemma mul_sound a c x y :
  wellFormed W a -> wellFormed W c ->
  noWrapAround W Instruction.Mul a c ->
  getLower a <> Max W -> getLower c <> Max W ->
  getLower a <= x <= getUpper a -> getLower c <= y <= getUpper c ->
  fits W (x * y) ->
  getLower (mul W a c) <= x * y <= getUpper (mul W a c).
Proof.
  intros Ha Hc Hno Hal Hcl Hx Hy Hz.
  destruct (isMaxRange W a || isMaxRange W c) eqn:Hmax.
  - unfold mul. rewrite Hmax. unfold RangeR, fits in *.
    cbn [getLower getUpper]. lia.
  - rewrite mul_bounds by assumption. unfold RangeR. cbn [getLower getUpper].
    rewrite (extend_lower _ Hal), (extend_lower _ Hcl).
    pose proof (extend_upper (getUpper a)) as Hb.
    pose proof (extend_upper (getUpper c)) as Hd.
    destruct (product_in_corners (getLower a) (extend W (getUpper a))
                (getLower c) (extend W (getUpper c)) x y) as [Hlo Hhi];
      [lia | lia |].
    rewrite <- (clamp_small (x * y) Hz).
    split; apply clamp_monotone; assumption.
Qed.

(** The interval product of the one-value intervals of [Max] and [-1]. *)
Lemma mul_Max_minus_one :
  mul W (RangeR (Max W) (Max W)) (RangeR (-1) (-1)) = RangeR (Min W) (Min W).
Proof.
  pose proof (Min_neg W) as Hn. pose proof (Max_nonneg W) as Hp.
  pose proof (Max_Min W) as Hm.
  unfold mul, isMaxRange, RangeR. cbn [getLower getUpper].
  assert (E1 : APInt.eq (Max W) (Min W) = false) by (apply eq_false; lia).
  rewrite E1. cbn [andb orb].
  assert (E2 : APInt.eq (-1) (Max W) = false) by (apply eq_false; lia).
  rewrite E2, andb_false_r.
  assert (Hh : MUL_HELPER W (Max W) (-1) = Min W).
  { unfold MUL_HELPER, APInt.eq, APInt.slt, Zero.
    rewrite Z.eqb_refl. reflexivity. }
  cbn [tl]. rewrite Hh, mul_select_fold. f_equal; lia.
Qed.
End Soundness.

(** X24.  [add], [sub] and [mul] are sound for the values they
    stand for: when no bound computation wraps around, the sum, the
    difference and the product of a value of the first interval and a
    value of the second, if it fits the width, lies in the interval
    computed.  For [mul] the lower bounds must not be the sentinel [Max],
    which [MUL_HELPER] reads as unbounded: the product of the one-value
    intervals of [Max] and [-1] is the one-value interval of [Min], which
    does not hold [- Max]. *)
Theorem add_sub_mul_sound (W : positive) (opcode : Instruction.Opcode)
    (a c : Range) (x y : Z) :
  isAddSubMul opcode = true ->
  wellFormed W a -> wellFormed W c -> noWrapAround W opcode a c ->
  (opcode = Instruction.Mul -> getLower a <> Max W /\ getLower c <> Max W) ->
  getLower a <= x <= getUpper a -> getLower c <= y <= getUpper c ->
  let z := match opcode with
           | Instruction.Add => x + y
           | Instruction.Sub => x - y
           | _ => x * y
           end in
  fits W z ->
  (getLower (BinaryOp_apply W opcode a c) <= z
   /\ z <= getUpper (BinaryOp_apply W opcode a c))
  /\ mul W (RangeR (Max W) (Max W)) (RangeR (-1) (-1))
     = RangeR (Min W) (Min W)
  /\ Max W * -1 <> Min W.
Proof.
  intros Hop Ha Hc Hno Hmul Hx Hy z Hz.
  split; [|split; [apply mul_Max_minus_one | pose proof (Max_Min W); lia]].
  destruct opcode; try discriminate Hop; subst z; cbn [BinaryOp_apply].
  - apply add_sound; assumption.
  - apply sub_sound; assumption.
  - destruct (Hmul eq_refl) as [Hal Hcl]. apply mul_sound; assumption.
Qed.

Lemma add_sub_mul_sound_witness :
  (getLower (BinaryOp_apply 8 Instruction.Mul (RangeR 2 5) (RangeR (-6) (-1)))
   <= 3 * -4
   /\ 3 * -4
      <= getUpper (BinaryOp_apply 8 Instruction.Mul (RangeR 2 5)
                     (RangeR (-6) (-1))))
  /\ mul 8 (RangeR (Max 8) (Max 8)) (RangeR (-1) (-1))
     = RangeR (Min 8) (Min 8)
  /\ Max 8 * -1 <> Min 8.
Proof.
  apply (add_sub_mul_sound 8 Instruction.Mul (RangeR 2 5) (RangeR (-6) (-1))
           3 (-4)).
  - reflexivity.
  - repeat split; try reflexivity; vm_compute; discriminate.
  - repeat split; try reflexivity; vm_compute; discriminate.
  - intros p q [-> | ->] [-> | ->] _ _; split; vm_compute; discriminate.
  - intros _. split; vm_compute; discriminate.
  - split; vm_compute; discriminate.
  - split; vm_compute; discriminate.
  - split; vm_compute; discriminate.
Defined.

Section Division.
Variable W : positive.

(** A quotient by a positive divisor is no further from zero than the
    dividend. *)
Lemma quot_between x y :
  0 < y -> (0 <= x -> 0 <= Z.quot x y <= x) /\ (x <= 0 -> x <= Z.quot x y <= 0).
Proof.
  intros Hy. split; intros Hx.
  - split; [apply Z.quot_pos; lia|].
    destruct (Z.eq_dec y 1) as [-> | Hne]; [rewrite Z.quot_1_r; lia|].
    destruct (Z.eq_dec x 0) as [-> | Hx0]; [rewrite Z.quot_0_l; lia|].
    assert (Z.quot x y < x) by (apply Z.quot_lt; lia). lia.
  - assert (Hq : Z.quot x y = - Z.quot (- x) y).
    { rewrite Z.quot_opp_l by lia. lia. }
    rewrite Hq.
    assert (0 <= Z.quot (- x) y) by (apply Z.quot_pos; lia).
    destruct (Z.eq_dec y 1) as [-> | Hne]; [rewrite Z.quot_1_r; lia|].
    destruct (Z.eq_dec x 0) as [-> | Hx0];
      [rewrite Z.opp_0, Z.quot_0_l by lia; lia|].
    assert (Z.quot (- x) y < - x) by (apply Z.quot_lt; lia). lia.
Qed.

Lemma quot_fits x y : fits W x -> 0 < y -> fits W (Z.quot x y).
Proof.
  unfold fits. intros Hx Hy. destruct (quot_between x y Hy) as [Hp Hn].
  pose proof (Min_neg W). pose proof (Max_nonneg W).
  destruct (Z.le_gt_cases 0 x); [specialize (Hp ltac:(lia)) |
                                  specialize (Hn ltac:(lia))]; lia.
Qed.

(** Truncating division is monotone in the dividend; in a positive
    divisor it falls for a dividend that is not negative and rises for one
    that is not positive. *)
Lemma quot_divisor_nonneg p q r :
  0 <= p -> 0 < q <= r -> Z.quot p r <= Z.quot p q.
Proof. intros. apply Z.quot_le_compat_l; lia. Qed.

Lemma quot_divisor_nonpos p q r :
  p <= 0 -> 0 < q <= r -> Z.quot p q <= Z.quot p r.
Proof.
  intros Hp Hq.
  assert (E1 : Z.quot p q = - Z.quot (- p) q)
    by (rewrite Z.quot_opp_l by lia; lia).
  assert (E2 : Z.quot p r = - Z.quot (- p) r)
    by (rewrite Z.quot_opp_l by lia; lia).
  rewrite E1, E2.
  assert (Z.quot (- p) r <= Z.quot (- p) q)
    by (apply Z.quot_le_compat_l; lia).
  lia.
Qed.

Lemma sdiv_small x y : fits W x -> 0 < y -> APInt.sdiv W x y = Z.quot x y.
Proof.
  intros Hx Hy. unfold APInt.sdiv. apply wrap_small.
  apply quot_fits; assumption.
Qed.

Lemma sdiv_sound_lemma a c x y :
  wellFormed W a -> wellFormed W c -> 0 < getLower c ->
  getLower a <= x <= getUpper a -> getLower c <= y <= getUpper c ->
  getLower (sdiv W a c) <= Z.quot x y <= getUpper (sdiv W a c).
Proof.
  intros (_ & Hal & Hau & _) (_ & Hcl & Hcu & _) Hpos Hx Hy.
  assert (Hfx : fits W x) by (unfold fits in *; lia).
  assert (Hq : fits W (Z.quot x y)) by (apply quot_fits; [assumption | lia]).
  assert (Hmono1 : Z.quot (getLower a) y <= Z.quot x y)
    by (apply Z.quot_le_mono; lia).
  assert (Hmono2 : Z.quot x y <= Z.quot (getUpper a) y)
    by (apply Z.quot_le_mono; lia).
  pose proof (Min_neg W) as Hn. pose proof (Max_nonneg W) as Hp.
  unfold sdiv, corners, nonNull, RangeR, APInt.slt, APInt.sgt, APInt.ne.
  cbn [getLower getUpper].
  rewrite !sdiv_small by (assumption || lia).
  unfold fits in *.
  assert (Hcl0 : (getLower c =? 0) = false) by (apply Z.eqb_neq; lia).
  assert (Hcu0 : (getUpper c =? 0) = false) by (apply Z.eqb_neq; lia).
  assert (HclM : (getLower c =? Min W) = false) by (apply Z.eqb_neq; lia).
  rewrite Hcl0, Hcu0, HclM. cbn [negb andb]. rewrite !andb_true_r.
  split.
  - destruct (Z.eqb_spec (getLower a) (Min W)) as [Ea | Ea]; cbn [negb andb].
    + rewrite Z.ltb_irrefl. lia.
    + assert (Hll : Z.min (Z.quot (getLower a) (getLower c))
                      (Z.quot (getLower a) (getUpper c))
                    <= Z.quot (getLower a) y).
      { destruct (Z.le_gt_cases 0 (getLower a)).
        - pose proof (quot_divisor_nonneg (getLower a) y (getUpper c)
                        ltac:(lia) ltac:(lia)). lia.
        - pose proof (quot_divisor_nonpos (getLower a) (getLower c) y
                        ltac:(lia) ltac:(lia)). lia. }
      destruct (Z.eqb_spec (getUpper c) (Max W)) as [Ec | Ec];
        cbn [negb];
        match goal with
        | |- (if ?u <? ?v then _ else _) <= _ => destruct (Z.ltb_spec u v)
        end; lia.
  - destruct (Z.eqb_spec (getUpper a) (Max W)) as [Ea | Ea]; cbn [negb andb].
    + rewrite Z.gtb_ltb, Z.ltb_irrefl. lia.
    + assert (Huu : Z.quot (getUpper a) y
                    <= Z.max (Z.quot (getUpper a) (getLower c))
                         (Z.quot (getUpper a) (getUpper c))).
      { destruct (Z.le_gt_cases 0 (getUpper a)).
        - pose proof (quot_divisor_nonneg (getUpper a) (getLower c) y
                        ltac:(lia) ltac:(lia)). lia.
        - pose proof (quot_divisor_nonpos (getUpper a) y (getUpper c)
                        ltac:(lia) ltac:(lia)). lia. }
      destruct (Z.eqb_spec (getUpper c) (Max W)) as [Ec | Ec];
        cbn [negb];
        match goal with
        | |- _ <= (if ?u >? ?v then _ else _) =>
            rewrite (Z.gtb_ltb u v); destruct (Z.ltb_spec v u)
        end; lia.
Qed.

(** On values that are not negative the unsigned quotient is the signed
    one. *)
Lemma udiv_sdiv x y :
  0 <= x -> 0 < y -> fits W x -> fits W y ->
  APInt.udiv W x y = APInt.sdiv W x y.
Proof.
  unfold fits, APInt.udiv, APInt.sdiv, APInt.getZExtValue.
  intros Hx Hy Fx Fy.
  pose proof (half_pos W). pose proof (modulus_half W) as Hm.
  unfold Max, APInt.getSignedMaxValue in *.
  rewrite !Z.mod_small by lia.
  rewrite Z.quot_div_nonneg by lia. reflexivity.
Qed.

Lemma udiv_is_sdiv a c :
  wellFormed W a -> wellFormed W c -> 0 <= getLower a -> 0 < getLower c ->
  udiv W a c = sdiv W a c.
Proof.
  intros (_ & Hal & Hau & Ha) (_ & Hcl & Hcu & Hc) Hnn Hpos.
  unfold udiv, sdiv, corners.
  rewrite !udiv_sdiv by (assumption || lia). reflexivity.
Qed.

(** Three is the least width at which [2] is not the sentinel [Max]. *)
Lemma Max_above_two : (2 < W)%positive -> 2 < Max W.
Proof.
  intros HW. unfold Max, APInt.getSignedMaxValue, APInt.half.
  assert (2 ^ 2 <= 2 ^ (Z.pos W - 1)) by (apply Z.pow_le_mono_r; lia).
  lia.
Qed.

Lemma sdiv_negative_divisor :
  (2 < W)%positive ->
  sdiv W (RangeR 1 2) (RangeR (-1) (-1)) = RangeR (-1) (-2).
Proof.
  intros HW. pose proof (Max_above_two HW) as HM.
  pose proof (Max_Min W) as Hm.
  assert (F1 : fits W (-1)) by (unfold fits; lia).
  assert (F2 : fits W (-2)) by (unfold fits; lia).
  unfold sdiv, corners, nonNull, RangeR, APInt.slt, APInt.sgt, APInt.ne,
    APInt.sdiv.
  cbn [getLower getUpper].
  change (Z.quot 1 (-1)) with (-1). change (Z.quot 2 (-1)) with (-2).
  rewrite !wrap_small by assumption.
  repeat match goal with
         | |- context [?u =? ?v] =>
             destruct (Z.eqb_spec u v); [lia|]; cbn [negb andb]
         end.
  reflexivity.
Qed.
End Division.

(** X25.  [sdiv] is sound when the divisor is positive: for
    intervals with bounds within the width and a divisor interval above
    zero, the quotient of a value of the first interval by a value of the
    second lies in the interval computed; so it does for [udiv] when the
    dividend is not negative.  The divisor must be positive: at every
    width of three bits or more the quotient of [[1, 2]] by [[-1, -1]] is
    computed as [[-1, -2]], which holds no value. *)
Theorem sdiv_udiv_sound_positive (W : positive) (a c : Range) (x y : Z) :
  wellFormed W a -> wellFormed W c -> 0 < getLower c ->
  getLower a <= x <= getUpper a -> getLower c <= y <= getUpper c ->
  (getLower (sdiv W a c) <= Z.quot x y
   /\ Z.quot x y <= getUpper (sdiv W a c))
  /\ (0 <= getLower a ->
      getLower (udiv W a c) <= x / y /\ x / y <= getUpper (udiv W a c))
  /\ ((2 < W)%positive ->
      sdiv W (RangeR 1 2) (RangeR (-1) (-1)) = RangeR (-1) (-2)).
Proof.
  intros Ha Hc Hpos Hx Hy. split; [|split].
  - apply sdiv_sound_lemma; assumption.
  - intros Hnn. rewrite udiv_is_sdiv by assumption.
    rewrite <- Z.quot_div_nonneg by lia.
    apply sdiv_sound_lemma; assumption.
  - apply sdiv_negative_divisor.
Qed.

Lemma sdiv_udiv_sound_positive_witness :
  (getLower (sdiv 8 (RangeR 0 20) (RangeR 2 3)) <= Z.quot 5 2
   /\ Z.quot 5 2 <= getUpper (sdiv 8 (RangeR 0 20) (RangeR 2 3)))
  /\ (0 <= getLower (RangeR 0 20) ->
      getLower (udiv 8 (RangeR 0 20) (RangeR 2 3)) <= 5 / 2
      /\ 5 / 2 <= getUpper (udiv 8 (RangeR 0 20) (RangeR 2 3)))
  /\ ((2 < 8)%positive ->
      sdiv 8 (RangeR 1 2) (RangeR (-1) (-1)) = RangeR (-1) (-2)).
Proof.
  apply (sdiv_udiv_sound_positive 8 (RangeR 0 20) (RangeR 2 3) 5 2).
  - repeat split; try reflexivity; vm_compute; discriminate.
  - repeat split; try reflexivity; vm_compute; discriminate.
  - reflexivity.
  - split; vm_compute; discriminate.
  - split; vm_compute; discriminate.
Defined.

(** ** The builder runs to its end *)

Lemma foldM_succeeds {A S} (Q : S -> Prop) (step : S -> A -> Result S)
    (l : list A) (s : S) :
  (forall s a, a ∈ l -> Q s -> exists s', step s a = inr s' /\ Q s') ->
  Q s -> exists s', foldM step l s = inr s' /\ Q s'.
Proof.
  revert s. induction l as [|a l IH]; intros s Hstep Hs; cbn [foldM].
  - exists s. split; [reflexivity | exact Hs].
  - destruct (Hstep s a) as (s1 & Hrun & Hs1); [left | exact Hs |].
    rewrite Hrun. cbn [bind]. apply IH; [|exact Hs1].
    intros s2 b Hb. apply Hstep. right. exact Hb.
Qed.

Section BuilderSucceeds.
Variable W : positive.

Lemma Reachable_covers_sound g :
  Reachable W g -> useMapCoversVars g /\ usesSound g.
Proof.
  intros H.
  split; [apply (covers_reachable W), H | apply (sound_reachable W), H].
Qed.

Lemma addSigmaOp_operand_succeeds Sigma g BItv operand :
  useMapCoversVars g ->
  exists st',
    addSigmaOp_operand W Sigma (g, BItv) operand = inr st'
    /\ useMapCoversVars (fst st').
Proof.
  intros Hg. unfold addSigmaOp_operand.
  set (g1 := addVarNode W g operand).
  assert (Hg1 : useMapCoversVars g1) by (apply covers_addVarNode, Hg).
  assert (Hs : operand ∈ dom (vars g1)) by apply addVarNode_adds.
  match goal with
  | |- context [match ?f with Some _ => _ | None => ret (g1, BItv) end] =>
      destruct f as [B|]
  end.
  - match goal with
    | |- context [new g1 ?o] =>
        destruct (register_one g1 o (asValue Sigma) operand Hg1 Hs)
          as (uses & Hu & Hreg)
    end.
    unfold new in *. cbv zeta beta iota in Hreg |- *. rewrite Hreg.
    cbn [bind ret]. eexists. split; [reflexivity|]. cbn [fst].
    unfold useMapCoversVars in *. cbn [vars useMap].
    rewrite dom_insert_L. intros x Hx. apply elem_of_union. right.
    apply Hg1, Hx.
  - eexists. split; [reflexivity | exact Hg1].
Qed.

Lemma addSigmaOp_succeeds g Sigma :
  useMapCoversVars g -> exists g', addSigmaOp W g Sigma = inr g'.
Proof.
  intros Hg. unfold addSigmaOp.
  destruct (foldM_succeeds (fun st => useMapCoversVars (fst st))
              (addSigmaOp_operand W Sigma) (getOperands Sigma)
              (addVarNode W g (asValue Sigma), None))
    as (st' & Hrun & _).
  - intros [g1 B] operand _ Hg1. cbn [fst] in Hg1.
    apply addSigmaOp_operand_succeeds, Hg1.
  - cbn [fst]. apply covers_addVarNode, Hg.
  - rewrite Hrun. cbn [bind ret]. eauto.
Qed.

Lemma buildOperations_succeeds g I :
  useMapCoversVars g ->
  (match getOpcode I with
   | Instruction.PHI | Instruction.Call | Instruction.Other => 0
   | Instruction.Load | Instruction.Trunc | Instruction.ZExt
   | Instruction.SExt => 1
   | _ => 2
   end <= length (getOperands I))%nat ->
  exists g', buildOperations W g I = inr g'.
Proof.
  intros Hg Hlen. unfold buildOperations.
  destruct (getOpcode I) eqn:Hop; cbn [ops_isBinaryOp].
  all: try (
    destruct (getOperands I) as [|s0 [|s1 l]] eqn:Hops;
      cbn [length] in Hlen; try lia;
    destruct (addBinaryOp_spec W g I s0 s1 Hg) as (g' & Hrun & _);
      [rewrite Hops; reflexivity | rewrite Hops; reflexivity |];
    exists g'; exact Hrun).
  - destruct (String.prefix _ _).
    + apply addSigmaOp_succeeds, Hg.
    + destruct (addPhiOp_loop W (nextRef (addVarNode W g (asValue I)))
                  (getOperands I)
                  (let g1 := snd (new (addVarNode W g (asValue I))
                                    (PhiOp (BasicInterval_default W)
                                       (asValue I) [] (getOpcode I))) in
                   let g1 := set_oprs g1
                               (oprs g1 ∪ {[nextRef (addVarNode W g (asValue I))]}) in
                   set_defMap g1
                     (<[asValue I := nextRef (addVarNode W g (asValue I))]>
                        (defMap g1)))
                  (BasicInterval_default W) (asValue I) [] (getOpcode I))
        as (g' & Hrun & _).
      * unfold useMapCoversVars. cbn [vars useMap set_defMap set_oprs new snd].
        apply (covers_addVarNode W g (asValue I) Hg).
      * cbn [heap set_defMap set_oprs new snd]. apply lookup_insert_eq.
      * exists g'. unfold addPhiOp, new. cbv zeta beta iota.
        unfold new in Hrun. cbn [snd] in Hrun. cbv zeta in Hrun. exact Hrun.
  - destruct (getOperands I) as [|s0 l] eqn:Hops; cbn [length] in Hlen;
      try lia.
    unfold addUnaryOp, getOperand. rewrite Hop, Hops. cbn [nth_error bind ret].
    destruct (addUnaryOp_finish W g I s0 Hg) as (g' & Hrun & _).
    cbv zeta in Hrun. rewrite Hop in Hrun. exists g'. exact Hrun.
  - destruct (getOperands I) as [|s0 l] eqn:Hops; cbn [length] in Hlen;
      try lia.
    unfold addUnaryOp, getOperand. rewrite Hop, Hops. cbn [nth_error bind ret].
    destruct (addUnaryOp_finish W g I s0 Hg) as (g' & Hrun & _).
    cbv zeta in Hrun. rewrite Hop in Hrun. exists g'. exact Hrun.
  - destruct (getOperands I) as [|s0 l] eqn:Hops; cbn [length] in Hlen;
      try lia.
    unfold addUnaryOp, getOperand. rewrite Hop, Hops. cbn [nth_error bind ret].
    destruct (addUnaryOp_finish W g I s0 Hg) as (g' & Hrun & _).
    cbv zeta in Hrun. rewrite Hop in Hrun. exists g'. exact Hrun.
  - destruct (getOperands I) as [|s0 l] eqn:Hops; cbn [length] in Hlen;
      try lia.
    unfold addUnaryOp, getOperand. rewrite Hop, Hops. cbn [nth_error bind ret].
    destruct (addUnaryOp_finish W g I s0 Hg) as (g' & Hrun & _).
    cbv zeta in Hrun. rewrite Hop in Hrun. exists g'. exact Hrun.
  - destruct (getOperands I) as [|s0 [|s1 l]] eqn:Hops; cbn [length] in Hlen;
      try lia.
    unfold addUnaryOp, getOperand. rewrite Hop, Hops. cbn [nth_error bind ret].
    destruct (addUnaryOp_finish W g I s1 Hg) as (g' & Hrun & _).
    cbv zeta in Hrun. rewrite Hop in Hrun. exists g'. exact Hrun.
  - unfold addUnaryOp. rewrite Hop. eexists. reflexivity.
  - unfold addUnaryOp. rewrite Hop. eexists. reflexivity.
Qed.

Lemma buildOperations_step g I g' :
  buildOperations W g I = inr g' -> GraphStep W g g'.
Proof.
  unfold buildOperations. intros Hrun.
  destruct (ops_isBinaryOp (getOpcode I));
    [exact (step_addBinaryOp W g I g' Hrun)|].
  destruct (getOpcode I) eqn:Hop;
    try exact (step_addUnaryOp W g I g' Hrun).
  destruct (String.prefix _ _);
    [exact (step_addSigmaOp W g I g' Hrun)
    | exact (step_addPhiOp W g I g' Hrun)].
Qed.

Lemma buildValueMaps_reachable g F :
  Reachable W g -> Reachable W (buildValueMaps W g F).
Proof.
  intros Hg. unfold buildValueMaps.
  apply fold_left_invariant; [|exact Hg].
  intros g1 bb Hg1. destruct (getTerminator bb); try exact Hg1.
  - apply (reach_step W g1); [exact Hg1 | apply step_buildValueBranchMap].
  - apply (reach_step W g1); [exact Hg1 | apply step_buildValueSwitchMap].
Qed.

Lemma buildGraph_succeeds g F :
  Reachable W g ->
  (forall I, In I (flat_map bbInstructions (fBlocks F)) ->
     (match getOpcode I with
      | Instruction.PHI | Instruction.Call | Instruction.Other => 0
      | Instruction.Load | Instruction.Trunc | Instruction.ZExt
      | Instruction.SExt => 1
      | _ => 2
      end <= length (getOperands I))%nat) ->
  exists g', buildGraph W g F = inr g' /\ Reachable W g'.
Proof.
  intros Hg Hops. unfold buildGraph.
  apply (foldM_succeeds (Reachable W)); [|apply buildValueMaps_reachable, Hg].
  intros g1 I HI Hg1.
  destruct (getTypeKind I); try (exists g1; split; [reflexivity | exact Hg1]).
  all: destruct (negb (isValidInstruction I));
    [exists g1; split; [reflexivity | exact Hg1]|].
  all: destruct (buildOperations_succeeds g1 I) as [g2 Hrun];
    [apply (covers_reachable W), Hg1
    | apply Hops, list_elem_of_In, HI
    | exists g2; split; [exact Hrun|];
      apply (reach_step W g1); [exact Hg1 | eapply buildOperations_step, Hrun]].
Qed.
End BuilderSucceeds.

(** The graph of the goal is a graph with one more object on its heap. *)
Ltac sound_after_alloc :=
  match goal with
  | |- usesSound ?g' =>
      match g' with
      | context [<[nextRef ?g0 := ?op]> (heap ?g0)] =>
          apply (sound_alloc g0 g' op);
          [reflexivity | reflexivity | reflexivity |]
      end
  end.

Section MatchersSucceed.
Variable W : positive.

(** The object at [m] is a PhiOp. *)
Local Abbreviation PhiAt g m :=
  (exists i s srcs oc, heap g !! m = Some (PhiOp i s srcs oc)).

(** What the matching keeps from one call site to the next: every node
    has a use list, the use lists are sound, the matchers [M0] are PhiOps
    of the heap and the return values [R] have nodes. *)
Local Abbreviation Linked M0 R g :=
  (useMapCoversVars g /\ usesSound g
   /\ (forall m : OpRef, m ∈ (M0 : list OpRef) -> PhiAt g m)
   /\ (forall v : Value, v ∈ (R : list Value) -> v ∈ dom (vars g))).

Lemma Linked_addVarNode (M0 : list OpRef) (R : list Value) g V :
  Linked M0 R g -> Linked M0 R (addVarNode W g V).
Proof.
  intros (Hc & Hs & Hm & Hr).
  destruct (addVarNode_frame W g V) as (Hh & _).
  split; [apply covers_addVarNode, Hc|].
  split; [apply sound_addVarNode, Hs|].
  split.
  - intros m Hin. rewrite Hh. apply Hm, Hin.
  - intros v Hv. apply addVarNode_keeps_nodes, Hr, Hv.
Qed.

(** [m->addSource(v)] followed by the entry of [m] in the use list of
    [v], for a PhiOp [m] and a value [v] that has a node. *)
Lemma connect_succeeds (M0 : list OpRef) (R : list Value) g (m : OpRef) v :
  Linked M0 R g -> PhiAt g m -> v ∈ dom (vars g) ->
  exists g',
    (let* g1 := heap_addSource g m v in useMap_find_insert g1 v m) = inr g'
    /\ Linked M0 R g' /\ PhiAt g' m.
Proof.
  intros (Hc & Hs & Hm & Hr) (i & s & srcs & oc & Hphi) Hv.
  pose proof (keeps_sound_addSource g m v Hs) as Hkeep.
  unfold heap_addSource, getOp, deref in *. rewrite Hphi in *.
  cbn [bind ret addSource] in *.
  destruct (covered_lookup g v Hc Hv) as [uses Hu].
  rewrite (useMap_find_insert_spec _ v _ uses) in * by exact Hu.
  eexists. split; [reflexivity|]. split; [split; [|split; [|split]]|].
  - unfold useMapCoversVars in *. cbn [vars useMap set_useMap set_heap].
    rewrite dom_insert_L. intros x Hx. apply elem_of_union. right.
    apply Hc, Hx.
  - apply Hkeep. reflexivity.
  - intros m' Hin. cbn [heap set_useMap set_heap].
    destruct (decide (m' = m)) as [-> | Hne].
    + rewrite lookup_insert_eq. eauto.
    + rewrite lookup_insert_ne by congruence. apply Hm, Hin.
  - intros x Hx. cbn [vars set_useMap set_heap]. apply Hr, Hx.
  - cbn [heap set_useMap set_heap]. rewrite lookup_insert_eq. eauto.
Qed.

Lemma matchParameters_succeeds (M0 : list OpRef) (R : list Value)
    (matchers : list OpRef) (actuals : list Value) g :
  length matchers = length actuals ->
  (forall m, m ∈ matchers -> m ∈ M0) ->
  Linked M0 R g ->
  exists g', matchParameters W g matchers actuals = inr g' /\ Linked M0 R g'.
Proof.
  revert actuals g. induction matchers as [|m matchers IH];
    intros [|a actuals] g Hlen Hsub Hg; cbn [length] in Hlen;
    try discriminate Hlen; cbn [matchParameters].
  - exists g. split; [reflexivity | exact Hg].
  - pose proof (Linked_addVarNode M0 R g a Hg) as Hg1.
    destruct (connect_succeeds M0 R (addVarNode W g a) m a Hg1)
      as (g2 & Hrun & Hg2 & _).
    + destruct Hg1 as (_ & _ & Hm & _). apply Hm, Hsub. left.
    + apply addVarNode_adds.
    + cbv zeta.
      destruct (heap_addSource (addVarNode W g a) m a) as [f | g1];
        cbn [bind] in Hrun |- *; [discriminate Hrun|].
      rewrite Hrun. cbn [bind]. apply IH; [lia | | exact Hg2].
      intros m' Hm'. apply Hsub. right. exact Hm'.
Qed.

Lemma matchReturn_succeeds (M0 : list OpRef) (R : list Value) g caller :
  Linked M0 R g ->
  exists g', matchReturn W g caller R = inr g' /\ Linked M0 R g'.
Proof.
  intros Hg. unfold matchReturn, new. cbv zeta beta iota.
  pose proof (Linked_addVarNode M0 R g caller Hg) as (Hc & Hs & Hm & Hr).
  set (g1 := addVarNode W g caller) in *.
  match goal with
  | |- context [foldM ?f _ ?x] => set (step := f); set (g2 := x)
  end.
  assert (Hg2 : Linked M0 R g2).
  { split; [exact Hc|]. split; [|split].
    - unfold g2. sound_after_alloc. exact Hs.
    - intros m Hin. unfold g2. cbn [heap set_defMap set_oprs].
      destruct (Hm m Hin) as (i & s & srcs & oc & Hphi).
      destruct Hs as [_ Hbound].
      assert (m < nextRef g1)%positive by (apply Hbound; eauto).
      rewrite lookup_insert_ne by lia. eauto.
    - exact Hr. }
  assert (Hphi : PhiAt g2 (nextRef g1)).
  { unfold g2. cbn [heap set_defMap set_oprs]. rewrite lookup_insert_eq.
    eauto. }
  destruct (foldM_succeeds
              (fun g3 => Linked M0 R g3 /\ PhiAt g3 (nextRef g1))
              step R g2) as (g' & Hrun & Hg' & _).
  - intros g3 var Hvar [Hg3 Hphi3]. unfold step.
    destruct (connect_succeeds M0 R g3 (nextRef g1) var Hg3 Hphi3)
      as (g4 & Hrun & Hg4 & Hphi4).
    + destruct Hg3 as (_ & _ & _ & Hr3). apply Hr3, Hvar.
    + exists g4. split; [exact Hrun|]. split; assumption.
  - split; assumption.
  - exists g'. split; assumption.
Qed.

Lemma createMatchers_length formals g acc :
  length (snd (fold_left
                 (fun (st : ConstraintGraph * list OpRef) formal =>
                    let '(g, matchers) := st in
                    let sink := formal in
                    let g := addVarNode W g sink in
                    let '(m, g) :=
                      new g (PhiOp (BasicInterval_default W) sink []
                               Instruction.PHI) in
                    let g := set_oprs g (oprs g ∪ {[m]}) in
                    let g := set_defMap g (<[sink := m]> (defMap g)) in
                    (g, matchers ++ [m]))
                 formals (g, acc)))
  = (length acc + length formals)%nat.
Proof.
  revert g acc. induction formals as [|a formals IH]; intros g acc;
    cbn [fold_left length].
  - cbn [snd]. lia.
  - unfold new at 2. cbv zeta beta iota. rewrite IH, length_app.
    cbn [length]. lia.
Qed.

Lemma createMatchers_linked formals g :
  useMapCoversVars g -> usesSound g ->
  Linked (snd (createMatchers W g formals)) (@nil Value)
    (fst (createMatchers W g formals)).
Proof.
  intros Hc Hs.
  pose proof (covers_createMatchers W g formals Hc) as Hc'.
  pose proof (sound_createMatchers W g formals Hs) as Hs'.
  split; [exact Hc'|]. split; [exact Hs'|]. split.
  - clear Hc' Hs'. unfold createMatchers.
    apply (fold_left_invariant
             (fun st : ConstraintGraph * list OpRef =>
                usesSound (fst st)
                /\ forall m, m ∈ snd st -> PhiAt (fst st) m)).
    + intros [g1 ms] formal [Hs1 Hm1]. cbn [fst snd] in *. unfold new.
      cbv zeta beta iota. cbn [fst snd].
      pose proof (sound_addVarNode W g1 formal Hs1) as Hs2.
      destruct (addVarNode_frame W g1 formal) as (Hh & _).
      split.
      * sound_after_alloc. exact Hs2.
      * intros m Hin. cbn [heap set_defMap set_oprs].
        apply elem_of_app in Hin. destruct Hin as [Hin | Hin].
        -- destruct (Hm1 m Hin) as (i & s & srcs & oc & Hphi).
           destruct Hs2 as [_ Hbound].
           assert (m < nextRef (addVarNode W g1 formal))%positive
             by (apply Hbound; rewrite Hh; eauto).
           rewrite lookup_insert_ne by lia. rewrite Hh. eauto.
        -- apply list_elem_of_singleton in Hin. subst m.
           rewrite lookup_insert_eq. eauto.
    + cbn [fst snd]. split; [exact Hs|].
      intros m Hin. apply elem_of_nil in Hin. contradiction.
  - intros v Hv. apply elem_of_nil in Hv. contradiction.
Qed.

Lemma returnvars_linked (M0 : list OpRef) (R : list Value) g :
  Linked M0 (@nil Value) g ->
  Linked M0 R (fold_left (addVarNode W) R g).
Proof.
  intros Hg.
  assert (Hgen : forall l g1,
             Linked M0 (@nil Value) g1 ->
             Linked M0 (@nil Value) (fold_left (addVarNode W) l g1)
             /\ forall v, v ∈ l \/ v ∈ dom (vars g1) ->
                          v ∈ dom (vars (fold_left (addVarNode W) l g1))).
  { induction l as [|a l IH]; intros g1 Hg1; cbn [fold_left].
    - split; [exact Hg1|]. intros v [Hv | Hv]; [|exact Hv].
      apply elem_of_nil in Hv. contradiction.
    - destruct (IH (addVarNode W g1 a) (Linked_addVarNode M0 [] g1 a Hg1))
        as [Hl Hdom].
      split; [exact Hl|]. intros v [Hv | Hv].
      + apply elem_of_cons in Hv. destruct Hv as [-> | Hv].
        * apply Hdom. right. apply addVarNode_adds.
        * apply Hdom. left. exact Hv.
      + apply Hdom. right. apply addVarNode_keeps_nodes, Hv. }
  destruct (Hgen R g Hg) as [(Hc & Hs & Hm & _) Hdom].
  split; [exact Hc|]. split; [exact Hs|]. split; [exact Hm|].
  intros v Hv. apply Hdom. left. exact Hv.
Qed.

Lemma MatchParametersAndReturnValues_succeeds g F :
  Reachable W g ->
  (forall caller actuals,
     In (UseCall caller true actuals) (fUses F) ->
     length actuals = length (fArgs F)) ->
  exists g',
    MatchParametersAndReturnValues W g F = inr g' /\ Reachable W g'.
Proof.
  intros Hg Harity.
  assert (Hrun : exists g', MatchParametersAndReturnValues W g F = inr g').
  { destruct (Reachable_covers_sound W g Hg) as [Hc Hs].
    unfold MatchParametersAndReturnValues.
    destruct (fUses F) as [|U uses] eqn:HU; [exists g; reflexivity|].
    pose proof (createMatchers_linked (fArgs F) g Hc Hs) as Hlinked.
    assert (Hlen : length (snd (createMatchers W g (fArgs F)))
                   = length (fArgs F))
      by (unfold createMatchers; rewrite createMatchers_length; reflexivity).
    destruct (createMatchers W g (fArgs F)) as [g1 matchers].
    cbn [fst snd] in Hlinked, Hlen.
    set (R := if returnsVoid F then [] else ReturnValues F).
    pose proof (returnvars_linked matchers R g1 Hlinked) as Hg2.
    destruct (foldM_succeeds (fun g3 => Linked matchers R g3)
                (fun g U =>
                   match U with
                   | UseCall caller true actuals =>
                       let* g := matchParameters W g matchers actuals in
                       if returnsVoid F then ret g
                       else matchReturn W g caller R
                   | _ => ret g
                   end)
                (U :: uses) (fold_left (addVarNode W) R g1))
      as (g' & Hrun & _); [| exact Hg2 | exists g'; exact Hrun].
    intros g3 U' HU' Hg3.
    destruct U' as [caller [|] actuals | |];
      try (exists g3; split; [reflexivity | exact Hg3]).
    destruct (matchParameters_succeeds matchers R matchers actuals g3)
      as (g4 & Hrun4 & Hg4); [| auto | exact Hg3 |].
    { rewrite Hlen. symmetry. apply (Harity caller).
      apply list_elem_of_In. exact HU'. }
    rewrite Hrun4. cbn [bind].
    destruct (returnsVoid F) eqn:Hvoid.
    - exists g4. split; [reflexivity | exact Hg4].
    - apply matchReturn_succeeds, Hg4. }
  destruct Hrun as [g' Hrun]. exists g'. split; [exact Hrun|].
  apply (reach_step W g); [exact Hg|].
  apply (step_MatchParametersAndReturnValues W g F g' Hrun).
Qed.
End MatchersSucceed.

(** X26.  The builder runs to its end on every module in
    which each instruction has the operands its opcode reads (two for a
    binary operation and a store, one for a load and a cast) and each
    direct call passes as many arguments as its callee has formal
    parameters: [buildGraph] with [MatchParametersAndReturnValues] over
    the functions of the module, and [buildGraph] on each function alone,
    deliver a graph, and it is a graph the analysis reaches.  No unchecked
    [useMap.find] of the builder misses, and every matcher is a PhiOp. *)
Theorem builder_runs_to_its_end (W : positive) (M : list Function) :
  (forall F, In F M -> isDeclaration F || isVarArg F = false ->
     (forall I, In I (flat_map bbInstructions (fBlocks F)) ->
        (match getOpcode I with
         | Instruction.PHI | Instruction.Call | Instruction.Other => 0
         | Instruction.Load | Instruction.Trunc | Instruction.ZExt
         | Instruction.SExt => 1
         | _ => 2
         end <= length (getOperands I))%nat)
     /\ (forall caller actuals,
           In (UseCall caller true actuals) (fUses F) ->
           length actuals = length (fArgs F))) ->
  (exists g, buildModuleGraph W M = inr g /\ Reachable W g)
  /\ (forall F, In F M -> isDeclaration F || isVarArg F = false ->
        exists g, buildFunctionGraph W F = inr g /\ Reachable W g).
Proof.
  intros Hwf. split.
  - unfold buildModuleGraph.
    destruct (foldM_succeeds (Reachable W)
                (fun g F =>
                   if isDeclaration F || isVarArg F then ret g
                   else
                     let* g := buildGraph W g F in
                     MatchParametersAndReturnValues W g F)
                M emptyGraph) as (g & Hrun & Hg); [| apply reach_empty |].
    + intros g F HF Hg. apply list_elem_of_In in HF.
      destruct (isDeclaration F || isVarArg F) eqn:Hskip;
        [exists g; split; [reflexivity | exact Hg]|].
      destruct (Hwf F HF Hskip) as [Hops Harity].
      destruct (buildGraph_succeeds W g F Hg Hops) as (g1 & Hrun1 & Hg1).
      rewrite Hrun1. cbn [bind].
      apply MatchParametersAndReturnValues_succeeds; assumption.
    + rewrite Hrun. cbn [bind ret]. eexists. split; [reflexivity|].
      apply (reach_step W g); [exact Hg | apply step_buildVarNodes].
  - intros F HF Hskip. destruct (Hwf F HF Hskip) as [Hops _].
    unfold buildFunctionGraph.
    destruct (buildGraph_succeeds W emptyGraph F (reach_empty W) Hops)
      as (g1 & Hrun1 & Hg1).
    rewrite Hrun1. cbn [bind ret]. eexists. split; [reflexivity|].
    apply (reach_step W g1); [exact Hg1 | apply step_buildVarNodes].
Qed.

Lemma builder_runs_to_its_end_witness :
  (exists g, buildModuleGraph 8 Calling.module = inr g /\ Reachable 8 g)
  /\ (forall F, In F Calling.module ->
        isDeclaration F || isVarArg F = false ->
        exists g, buildFunctionGraph 8 F = inr g /\ Reachable 8 g).
Proof.
  apply (builder_runs_to_its_end 8 Calling.module).
  intros F [<- | [<- | []]] _; split.
  - intros I [<- | []]. cbn. lia.
  - intros caller actuals [Heq | []]. injection Heq as <- <-. reflexivity.
  - intros I [<- | []]. cbn. lia.
  - intros caller actuals [].
Defined.

(** ** Every pointer of the graph points to an object *)

(** From [g] to [g']: nodes are only added; an object of [g'] is new, with
    nodes for its sink and sources, or stands where an object of [g]
    stood, with the same sink and no source without a node; objects are
    never removed; and the maps hold their old addresses or addresses of
    objects. *)
Lemma valid_extend g g' :
  dom (vars g) ⊆ dom (vars g') ->
  (forall ref op',
     heap g' !! ref = Some op' ->
     (exists op, heap g !! ref = Some op /\ getSink op' = getSink op
                 /\ forall v, v ∈ getSources op' ->
                              v ∈ getSources op \/ v ∈ dom (vars g'))
     \/ (getSink op' ∈ dom (vars g')
         /\ forall v, v ∈ getSources op' -> v ∈ dom (vars g'))) ->
  (forall ref, is_Some (heap g !! ref) -> is_Some (heap g' !! ref)) ->
  (forall v ref, defMap g' !! v = Some ref ->
                 defMap g !! v = Some ref \/ is_Some (heap g' !! ref)) ->
  (forall ref, ref ∈ oprs g' -> ref ∈ oprs g \/ is_Some (heap g' !! ref)) ->
  (forall V L ref,
     symbMap g' !! V = Some L -> ref ∈ L ->
     (exists L0, symbMap g !! V = Some L0 /\ ref ∈ L0)
     \/ is_Some (heap g' !! ref)) ->
  pointersValid g -> pointersValid g'.
Proof.
  intros Hvars Hheap Hkeep Hdef Hoprs Hsymb (Hn & Hd & Ho & Hs).
  split; [|split; [|split]].
  - intros ref op' Hop'.
    destruct (Hheap ref op' Hop') as [(op & Hop & Hsink & Hsrc) | Hnew];
      [|exact Hnew].
    destruct (Hn ref op Hop) as [Hsk Hsr]. split.
    + rewrite Hsink. apply Hvars, Hsk.
    + intros v Hv. destruct (Hsrc v Hv) as [Hold | Hnode]; [|exact Hnode].
      apply Hvars, Hsr, Hold.
  - intros v ref Hv. destruct (Hdef v ref Hv) as [Hold | Hnew]; [|exact Hnew].
    apply Hkeep, (Hd v ref Hold).
  - intros ref Hin. destruct (Hoprs ref Hin) as [Hold | Hnew]; [|exact Hnew].
    apply Hkeep, Ho, Hold.
  - intros V L ref HV Hin.
    destruct (Hsymb V L ref HV Hin) as [(L0 & HL0 & Hin0) | Hnew];
      [|exact Hnew].
    apply Hkeep, (Hs V L0 ref HL0 Hin0).
Qed.

(** A step that leaves the heap and the maps of addresses alone. *)
Lemma valid_frame g g' :
  dom (vars g) ⊆ dom (vars g') -> heap g' = heap g ->
  defMap g' = defMap g -> oprs g' = oprs g -> symbMap g' = symbMap g ->
  pointersValid g -> pointersValid g'.
Proof.
  intros Hvars Hh Hd Ho Hs. apply valid_extend; try exact Hvars.
  - intros ref op' Hop'. left. exists op'. rewrite <- Hh.
    split; [exact Hop'|]. split; [reflexivity|]. intros v Hv. left. exact Hv.
  - intros ref. rewrite Hh. auto.
  - intros v ref. rewrite Hd. auto.
  - intros ref. rewrite Ho. auto.
  - intros V L ref HV Hin. left. exists L. rewrite <- Hs. auto.
Qed.

(** An allocation, with or without the entries of the new object in
    [oprs] and [defMap]. *)
Lemma valid_alloc g g' op :
  vars g' = vars g -> heap g' = <[nextRef g := op]> (heap g) ->
  (defMap g' = defMap g
   \/ exists s, defMap g' = <[s := nextRef g]> (defMap g)) ->
  (oprs g' = oprs g \/ oprs g' = oprs g ∪ {[nextRef g]}) ->
  symbMap g' = symbMap g ->
  getSink op ∈ dom (vars g) ->
  (forall v, v ∈ getSources op -> v ∈ dom (vars g)) ->
  pointersValid g -> pointersValid g'.
Proof.
  intros Hv Hh Hd Ho Hs Hsink Hsrc.
  assert (Hnew : is_Some (heap g' !! nextRef g))
    by (rewrite Hh, lookup_insert_eq; eauto).
  apply valid_extend.
  - rewrite Hv. reflexivity.
  - intros ref op'. rewrite Hh, Hv.
    destruct (decide (nextRef g = ref)) as [<- | Hne].
    + rewrite lookup_insert_eq. intros [= <-]. right. auto.
    + rewrite lookup_insert_ne by exact Hne. intros Hop'. left. exists op'.
      split; [exact Hop'|]. split; [reflexivity|]. auto.
  - intros ref Hin. rewrite Hh.
    destruct (decide (nextRef g = ref)) as [<- | Hne].
    + rewrite lookup_insert_eq. eauto.
    + rewrite lookup_insert_ne by exact Hne. exact Hin.
  - intros v ref. destruct Hd as [-> | [s ->]]; [auto|].
    destruct (decide (s = v)) as [<- | Hne].
    + rewrite lookup_insert_eq. intros [= <-]. right. exact Hnew.
    + rewrite lookup_insert_ne by exact Hne. auto.
  - intros ref. destruct Ho as [-> | ->]; [auto|].
    intros Hin. apply elem_of_union in Hin. destruct Hin as [Hin | Hin].
    + left. exact Hin.
    + apply elem_of_singleton in Hin. subst ref. right. exact Hnew.
  - intros V L ref HV Hin. left. exists L. rewrite <- Hs. auto.
Qed.

(** The graph of the goal is a graph with one more object on its heap. *)
Ltac valid_after_alloc :=
  match goal with
  | |- pointersValid ?g' =>
      match g' with
      | context [<[nextRef ?g0 := ?op]> (heap ?g0)] =>
          apply (valid_alloc g0 g' op);
          [reflexivity | reflexivity
          | first [left; reflexivity | right; eexists; reflexivity]
          | first [left; reflexivity | right; reflexivity]
          | reflexivity | | | ]
      end
  end.

(** Replacing an object by one with the same sink and no source without
    a node. *)
Lemma valid_heap_update g ref op op' :
  heap g !! ref = Some op -> getSink op' = getSink op ->
  (forall v, v ∈ getSources op' ->
             v ∈ getSources op \/ v ∈ dom (vars g)) ->
  pointersValid g -> pointersValid (set_heap g (<[ref := op']> (heap g))).
Proof.
  intros Hop Hsink Hsrc.
  apply valid_extend; cbn [vars heap defMap oprs symbMap set_heap].
  - reflexivity.
  - intros ref' op0. destruct (decide (ref = ref')) as [<- | Hne].
    + rewrite lookup_insert_eq. intros [= <-]. left. exists op. auto.
    + rewrite lookup_insert_ne by exact Hne. intros Hop0. left. exists op0.
      split; [exact Hop0|]. split; [reflexivity|]. auto.
  - intros ref' Hin. destruct (decide (ref = ref')) as [<- | Hne].
    + rewrite lookup_insert_eq. eauto.
    + rewrite lookup_insert_ne by exact Hne. exact Hin.
  - auto.
  - auto.
  - intros V L ref' HV Hin. left. eauto.
Qed.

Section Valid.
Variable W : positive.

Lemma vars_addVarNode g V : dom (vars g) ⊆ dom (vars (addVarNode W g V)).
Proof. intros x Hx. apply addVarNode_keeps_nodes, Hx. Qed.

Lemma valid_addVarNode g V :
  pointersValid g -> pointersValid (addVarNode W g V).
Proof.
  destruct (addVarNode_frame W g V) as (Hh & Hd & Ho & _).
  apply valid_frame; try assumption; [apply vars_addVarNode|].
  unfold addVarNode. destruct (vars g !! V); reflexivity.
Qed.

Lemma keeps_valid_useMap_find_insert g v ref :
  pointersValid g -> keeps pointersValid (useMap_find_insert g v ref).
Proof.
  intros Hg g'. unfold useMap_find_insert, deref.
  destruct (useMap g !! v); cbn [bind]; [|discriminate].
  intros [= <-]. revert Hg. apply valid_frame; reflexivity.
Qed.

Lemma keeps_valid_setRange g v r :
  pointersValid g -> keeps pointersValid (setRange g v r).
Proof.
  intros Hg g' Hrun. destruct (setRange_keys g v r g' Hrun) as [Hdom _].
  unfold setRange, getVarNode, deref in Hrun.
  destruct (vars g !! v); cbn [bind] in Hrun; [|discriminate].
  injection Hrun as <-. revert Hg. apply valid_frame; try reflexivity.
  rewrite Hdom. reflexivity.
Qed.

(** [addSource] on a phi and the registration of the phi under the new
    source, for a source that has a node. *)
Lemma keeps_valid_addSource g phiOp source :
  source ∈ dom (vars g) -> pointersValid g ->
  keeps pointersValid (let* g := heap_addSource g phiOp source in
                       useMap_find_insert g source phiOp).
Proof.
  intros Hs Hg. unfold heap_addSource, getOp, deref.
  destruct (heap g !! phiOp) as [op|] eqn:Hop; cbn [bind];
    [|intros g'; discriminate].
  destruct op as [| | | i sk srcs oc |]; try (intros g'; discriminate).
  cbn [bind addSource ret].
  apply keeps_valid_useMap_find_insert.
  apply (valid_heap_update g phiOp (PhiOp i sk srcs oc)); try assumption.
  - reflexivity.
  - cbn [getSources]. intros v Hv. apply elem_of_app in Hv.
    destruct Hv as [Hv | Hv]; [left; exact Hv|].
    apply list_elem_of_singleton in Hv. subst v. right. exact Hs.
Qed.
End Valid.

Section ValidBuilder.
Variable W : positive.

Lemma node_after_two g a b : a ∈ dom (vars (addVarNode W (addVarNode W g a) b)).
Proof. apply addVarNode_keeps_nodes, addVarNode_adds. Qed.

Lemma keeps_valid_addUnaryOp g I :
  pointersValid g -> keeps pointersValid (addUnaryOp W g I).
Proof.
  intros Hg. unfold addUnaryOp, new. cbv beta zeta.
  destruct (getOpcode I);
    try (apply keeps_ret, valid_addVarNode, Hg);
    (apply keeps_bind_val; intros source _;
     apply keeps_valid_useMap_find_insert;
     valid_after_alloc;
     [cbn [getSink]; apply node_after_two
     |cbn [getSources]; intros v Hv; apply list_elem_of_singleton in Hv;
      subst v; apply addVarNode_adds
     |apply valid_addVarNode, valid_addVarNode, Hg]).
Qed.

Lemma keeps_valid_addBinaryOp g I :
  pointersValid g -> keeps pointersValid (addBinaryOp W g I).
Proof.
  intros Hg. unfold addBinaryOp, new. cbv beta zeta.
  apply keeps_bind_val; intros source1 _.
  apply keeps_bind_val; intros source2 _. cbv beta iota zeta.
  apply keeps_bind.
  - apply keeps_valid_useMap_find_insert. valid_after_alloc.
    + cbn [getSink]. apply addVarNode_keeps_nodes, node_after_two.
    + cbn [getSources]. intros v Hv. apply elem_of_cons in Hv.
      destruct Hv as [-> | Hv]; [apply node_after_two|].
      apply list_elem_of_singleton in Hv. subst v. apply addVarNode_adds.
    + apply valid_addVarNode, valid_addVarNode, valid_addVarNode, Hg.
  - intros g1 Hg1. apply keeps_valid_useMap_find_insert, Hg1.
Qed.

Lemma keeps_valid_addPhiOp g Phi :
  pointersValid g -> keeps pointersValid (addPhiOp W g Phi).
Proof.
  intros Hg. unfold addPhiOp, new. cbv beta iota zeta.
  apply keeps_foldM.
  - intros g1 operand Hg1.
    apply keeps_valid_addSource;
      [apply addVarNode_adds | apply valid_addVarNode, Hg1].
  - valid_after_alloc.
    + cbn [getSink]. apply addVarNode_adds.
    + cbn [getSources]. intros v Hv. apply elem_of_nil in Hv. contradiction.
    + apply valid_addVarNode, Hg.
Qed.

Lemma keeps_valid_addSigmaOp g Sigma :
  pointersValid g -> keeps pointersValid (addSigmaOp W g Sigma).
Proof.
  intros Hg g'. unfold addSigmaOp.
  destruct (foldM _ _ _) as [f | st] eqn:Hfold; cbn [bind]; [discriminate|].
  intros [= <-]. revert Hfold.
  apply (foldM_invariant
           (fun st => pointersValid (fst st)
                      /\ asValue Sigma ∈ dom (vars (fst st)))).
  2:{ cbn [fst]. split; [apply valid_addVarNode, Hg | apply addVarNode_adds]. }
  intros [g1 BItv] operand [g2 BItv'] [Hg1 Hsink]. cbn [fst] in *.
  unfold addSigmaOp_operand, new.
  pose proof (valid_addVarNode W g1 operand Hg1) as Hadd.
  pose proof (addVarNode_keeps_nodes W g1 operand _ Hsink) as Hsink'.
  pose proof (addVarNode_adds W g1 operand) as Hsrc.
  set (ga := addVarNode W g1 operand) in *.
  destruct (match valuesBranchMap ga !! operand with
            | Some _ => _ | None => _ end) as [found|].
  - cbv beta iota zeta.
    destruct (useMap_find_insert _ _ _) as [f | g3] eqn:Hins; cbn [bind];
      [discriminate|].
    intros [= <- _].
    assert (Hvars : vars g3 = vars ga).
    { unfold useMap_find_insert, deref in Hins.
      destruct (useMap _ !! operand); cbn [bind] in Hins; [|discriminate].
      injection Hins as <-. reflexivity. }
    split; [|rewrite Hvars; exact Hsink'].
    revert Hins. apply keeps_valid_useMap_find_insert.
    valid_after_alloc.
    + cbn [getSink]. exact Hsink'.
    + cbn [getSources]. intros v Hv. apply list_elem_of_singleton in Hv.
      subst v. exact Hsrc.
    + exact Hadd.
  - intros [= <- _]. split; assumption.
Qed.

Lemma valid_buildValueSwitchMap g sw :
  pointersValid g -> pointersValid (buildValueSwitchMap W g sw).
Proof.
  intros Hg. unfold buildValueSwitchMap.
  destruct (negb _); [exact Hg|].
  pose proof (valid_addVarNode W g (swCondition sw) Hg) as Hadd.
  destruct (swCastOperand sw); revert Hadd; apply valid_frame; reflexivity.
Qed.

Lemma valid_insertVBM g V VBM :
  pointersValid g -> pointersValid (insertVBM g V VBM).
Proof. apply valid_frame; reflexivity. Qed.

Lemma valid_buildValueBranchMap g br :
  pointersValid g -> pointersValid (buildValueBranchMap W g br).
Proof.
  intros Hg. unfold buildValueBranchMap.
  destruct (negb _); [exact Hg|].
  destruct (getCondition br) as [ici|]; [|exact Hg].
  destruct (negb _); [exact Hg|].
  pose proof (valid_addVarNode W _ (getOperand1 ici)
                (valid_addVarNode W g (getOperand0 ici) Hg)) as Hadd.
  destruct (getOperand1 ici); cbv beta zeta;
    destruct (castOperand0 ici); try destruct (castOperand1 ici);
    repeat apply valid_insertVBM; exact Hadd.
Qed.

Lemma valid_buildVarNodes g :
  pointersValid g -> pointersValid (buildVarNodes W g).
Proof.
  apply valid_frame; try reflexivity.
  unfold buildVarNodes. cbn [vars set_vars]. intros v Hv.
  apply elem_of_dom in Hv. destruct Hv as [node Hnode].
  apply elem_of_dom. rewrite map_lookup_imap, Hnode. cbn. eauto.
Qed.
End ValidBuilder.

Section ValidMatchers.
Variable W : positive.

(** The pointers are valid and the return values [R] have nodes. *)
Local Abbreviation ValidWith R g :=
  (pointersValid g /\ forall v : Value, v ∈ (R : list Value) -> v ∈ dom (vars g)).

Lemma connect_vars g (m : OpRef) v g' :
  (let* g1 := heap_addSource g m v in useMap_find_insert g1 v m) = inr g' ->
  vars g' = vars g.
Proof.
  unfold heap_addSource, getOp, deref, useMap_find_insert.
  destruct (heap g !! m) as [op|]; cbn [bind ret fault];
    [|discriminate].
  destruct op; cbn [bind ret fault]; try discriminate.
  unfold deref. cbn [useMap set_heap].
  destruct (useMap g !! v); cbn [bind ret fault]; [|discriminate].
  intros [= <-]. reflexivity.
Qed.

Lemma connect_valid (R : list Value) g (m : OpRef) v g' :
  v ∈ dom (vars g) -> ValidWith R g ->
  (let* g1 := heap_addSource g m v in useMap_find_insert g1 v m) = inr g' ->
  ValidWith R g'.
Proof.
  intros Hv [Hg HR] Hrun. split.
  - revert Hrun. apply keeps_valid_addSource; assumption.
  - rewrite (connect_vars g m v g' Hrun). exact HR.
Qed.

Lemma ValidWith_addVarNode (R : list Value) g V :
  ValidWith R g -> ValidWith R (addVarNode W g V).
Proof.
  intros [Hg HR]. split; [apply valid_addVarNode, Hg|].
  intros v Hv. apply addVarNode_keeps_nodes, HR, Hv.
Qed.

Lemma valid_matchParameters (R : list Value) matchers actuals g g' :
  ValidWith R g -> matchParameters W g matchers actuals = inr g' ->
  ValidWith R g'.
Proof.
  revert actuals g. induction matchers as [|m matchers IH];
    intros [|a actuals] g Hg; cbn [matchParameters]; try discriminate.
  - intros [= <-]. exact Hg.
  - cbv zeta. intros Hrun.
    destruct (heap_addSource (addVarNode W g a) m a) as [f | g1] eqn:H1;
      cbn [bind] in Hrun; [discriminate|].
    destruct (useMap_find_insert g1 a m) as [f | g2] eqn:H2;
      cbn [bind] in Hrun; [discriminate|].
    apply (IH actuals g2); [|exact Hrun].
    apply (connect_valid R (addVarNode W g a) m a);
      [apply addVarNode_adds | apply ValidWith_addVarNode, Hg|].
    rewrite H1. cbn [bind]. exact H2.
Qed.

Lemma valid_matchReturn (R : list Value) g caller g' :
  ValidWith R g -> matchReturn W g caller R = inr g' -> ValidWith R g'.
Proof.
  intros Hg. unfold matchReturn, new. cbv beta iota zeta.
  apply (foldM_invariant_in (fun g1 => ValidWith R g1)).
  - intros g1 var g2 Hvar Hg1 Hrun.
    apply (connect_valid R g1 (nextRef (addVarNode W g caller)) var);
      [|exact Hg1 | exact Hrun].
    destruct Hg1 as [_ HR]. apply HR, Hvar.
  - destruct (ValidWith_addVarNode R g caller Hg) as [Hg1 HR]. split.
    + valid_after_alloc.
      * cbn [getSink]. apply addVarNode_adds.
      * cbn [getSources]. intros v Hv. apply elem_of_nil in Hv.
        contradiction.
      * exact Hg1.
    + exact HR.
Qed.

Lemma valid_createMatchers g formals :
  pointersValid g -> pointersValid (fst (createMatchers W g formals)).
Proof.
  intros Hg. unfold createMatchers.
  apply (fold_left_invariant (fun st => pointersValid (fst st))); [|exact Hg].
  intros [g1 matchers] formal Hg1. cbn [fst] in *. unfold new.
  cbv beta iota zeta. cbn [fst]. valid_after_alloc.
  - cbn [getSink]. apply addVarNode_adds.
  - cbn [getSources]. intros v Hv. apply elem_of_nil in Hv. contradiction.
  - apply valid_addVarNode, Hg1.
Qed.

Lemma valid_returnvars (R : list Value) g :
  pointersValid g -> ValidWith R (fold_left (addVarNode W) R g).
Proof.
  intros Hg.
  assert (Hgen : forall l g1,
             pointersValid g1 ->
             pointersValid (fold_left (addVarNode W) l g1)
             /\ forall v, v ∈ l \/ v ∈ dom (vars g1) ->
                          v ∈ dom (vars (fold_left (addVarNode W) l g1))).
  { induction l as [|a l IH]; intros g1 Hg1; cbn [fold_left].
    - split; [exact Hg1|]. intros v [Hv | Hv]; [|exact Hv].
      apply elem_of_nil in Hv. contradiction.
    - destruct (IH (addVarNode W g1 a) (valid_addVarNode W g1 a Hg1))
        as [Hl Hdom].
      split; [exact Hl|]. intros v [Hv | Hv].
      + apply elem_of_cons in Hv. destruct Hv as [-> | Hv].
        * apply Hdom. right. apply addVarNode_adds.
        * apply Hdom. left. exact Hv.
      + apply Hdom. right. apply addVarNode_keeps_nodes, Hv. }
  destruct (Hgen R g Hg) as [Hv Hdom]. split; [exact Hv|].
  intros v Hin. apply Hdom. left. exact Hin.
Qed.

Lemma keeps_valid_MatchParametersAndReturnValues g F :
  pointersValid g ->
  keeps pointersValid (MatchParametersAndReturnValues W g F).
Proof.
  intros Hg g'. unfold MatchParametersAndReturnValues.
  destruct (fUses F) as [|U uses] eqn:HU; [intros [= <-]; exact Hg|].
  pose proof (valid_createMatchers g (fArgs F) Hg) as Hm.
  destruct (createMatchers W g (fArgs F)) as [g1 matchers]. cbn [fst] in Hm.
  set (R := if returnsVoid F then [] else ReturnValues F).
  intros Hrun.
  apply (foldM_invariant (fun g2 => ValidWith R g2) _ _ _ g') in Hrun;
    [exact (proj1 Hrun) | | apply valid_returnvars, Hm].
  intros g2 U' g3 Hg2.
  destruct U' as [caller [|] actuals | |]; try (intros [= <-]; exact Hg2).
  destruct (matchParameters W g2 matchers actuals) as [f | g4] eqn:H4;
    cbn [bind]; [discriminate|].
  pose proof (valid_matchParameters R matchers actuals g2 g4 Hg2 H4) as Hg4.
  destruct (returnsVoid F); [intros [= <-]; exact Hg4|].
  apply valid_matchReturn, Hg4.
Qed.
End ValidMatchers.

Lemma setUnresolved_same op b :
  getSink (setUnresolved op b) = getSink op
  /\ getSources (setUnresolved op b) = getSources op.
Proof. destruct op; split; reflexivity. Qed.

Lemma setIntersectRange_same op r :
  getSink (setIntersectRange op r) = getSink op
  /\ getSources (setIntersectRange op r) = getSources op.
Proof. destruct op; split; reflexivity. Qed.

Lemma valid_setUnresolved g ref op b :
  heap g !! ref = Some op -> pointersValid g ->
  pointersValid (set_heap g (<[ref := setUnresolved op b]> (heap g))).
Proof.
  intros Hop. destruct (setUnresolved_same op b) as [Hsk Hsr].
  apply (valid_heap_update g ref op); [exact Hop | exact Hsk|].
  intros v Hv. left. rewrite <- Hsr. exact Hv.
Qed.

Lemma valid_setIntersectRange g ref op r :
  heap g !! ref = Some op -> pointersValid g ->
  pointersValid (set_heap g (<[ref := setIntersectRange op r]> (heap g))).
Proof.
  intros Hop. destruct (setIntersectRange_same op r) as [Hsk Hsr].
  apply (valid_heap_update g ref op); [exact Hop | exact Hsk|].
  intros v Hv. left. rewrite <- Hsr. exact Hv.
Qed.

Section ValidSolver.
Variable W : positive.

Lemma keeps_valid_buildSymbolicIntersectMap g :
  pointersValid g -> keeps pointersValid (buildSymbolicIntersectMap g).
Proof.
  intros Hg g'. unfold buildSymbolicIntersectMap.
  destruct (foldM _ _ _) as [f | m] eqn:Hfold; cbn [bind ret];
    [discriminate|].
  intros [= <-].
  assert (Hm : forall V L ref,
             m !! V = Some L -> ref ∈ L -> is_Some (heap g !! ref)).
  { revert Hfold.
    apply (foldM_invariant
             (fun m : gmap Value (gset OpRef) =>
                forall V L ref,
                  m !! V = Some L -> ref ∈ L -> is_Some (heap g !! ref))).
    - intros m1 opref m2 Hm1. unfold getOp, deref.
      destruct (heap g !! opref) as [op|] eqn:Hop; cbn [bind ret fault];
        [|discriminate].
      destruct (isUnaryOp op); [|intros [= <-]; exact Hm1].
      destruct (getIntersect op) as [|rg V0 pred]; [intros [= <-]; exact Hm1|].
      destruct (m1 !! V0) as [l|] eqn:Hl; intros [= <-]; intros V L ref;
        (destruct (decide (V0 = V)) as [<- | Hne];
         [rewrite lookup_insert_eq; intros [= <-] Hin
         |rewrite lookup_insert_ne by exact Hne; apply Hm1]).
      + apply elem_of_union in Hin. destruct Hin as [Hin | Hin];
          [apply (Hm1 V0 l ref Hl Hin)|].
        apply elem_of_singleton in Hin. subst ref. eauto.
      + apply elem_of_singleton in Hin. subst ref. eauto.
    - intros V L ref HV. rewrite lookup_empty in HV. discriminate. }
  revert Hg. apply valid_extend; cbn [vars heap defMap oprs symbMap set_symbMap].
  - reflexivity.
  - intros ref op' Hop'. left. exists op'.
    split; [exact Hop'|]. split; [reflexivity|]. intros v Hv. left. exact Hv.
  - intros ref Hin. exact Hin.
  - intros v ref Hv. left. exact Hv.
  - intros ref Hin. left. exact Hin.
  - intros V L ref HV Hin. right. apply (Hm V L ref HV Hin).
Qed.

Lemma keeps_valid_addControlDependenceEdges g :
  pointersValid g -> keeps pointersValid (addControlDependenceEdges W g).
Proof.
  intros Hg. unfold addControlDependenceEdges. apply keeps_foldM; [|exact Hg].
  intros g1 [bound ops] Hg1. apply keeps_foldM; [|exact Hg1].
  intros g2 opref Hg2. unfold deref at 1.
  destruct (vars g2 !! bound) as [node|] eqn:Hbound; cbn [bind ret fault];
    [|intros ?; discriminate].
  unfold getOp, deref.
  destruct (heap g2 !! opref) as [op|] eqn:Hop; cbn [bind ret fault];
    [|intros ?; discriminate].
  unfold new. cbv beta iota zeta. apply keeps_ret.
  valid_after_alloc.
  - cbn [getSink]. destruct Hg2 as (Hn & _).
    exact (proj1 (Hn opref op Hop)).
  - cbn [getSources]. intros v Hv. apply list_elem_of_singleton in Hv.
    subst v. apply elem_of_dom. eauto.
  - exact Hg2.
Qed.

Lemma valid_visit_subscript g V :
  pointersValid g -> pointersValid (visit_subscript g V).
Proof. apply valid_frame; reflexivity. Qed.

Lemma valid_delControlDependenceEdges g :
  pointersValid g -> pointersValid (delControlDependenceEdges g).
Proof. apply valid_frame; reflexivity. Qed.

Lemma valid_generateEntryPoints g component g' entryPoints :
  pointersValid g ->
  generateEntryPoints W g component = inr (g', entryPoints) ->
  pointersValid g'.
Proof.
  intros Hg. unfold generateEntryPoints.
  apply (foldM_invariant (fun st => pointersValid (fst st))); [|exact Hg].
  intros [g1 eps] V [g2 eps'] Hg1. cbn [fst] in *.
  match goal with
  | |- bind ?m _ = _ -> _ =>
      assert (Hk : keeps pointersValid m); [|destruct m as [f | g3] eqn:Hm]
  end.
  - destruct (String.prefix _ _); [|apply keeps_ret, Hg1].
    destruct (defMap g1 !! V) as [dit|]; [|apply keeps_ret, Hg1].
    unfold getOp, deref.
    destruct (heap g1 !! dit) as [bop|] eqn:Hbop; cbn [bind ret fault];
      [|intros ?; discriminate].
    destruct bop; try (apply keeps_ret, Hg1).
    destruct unresolved; [|apply keeps_ret, Hg1].
    apply keeps_bind_val. intros r _. intros g4.
    destruct (setRange g1 _ r) as [f | g5] eqn:Hset; cbn [bind];
      [discriminate|].
    intros [= <-].
    eapply valid_heap_update.
    + rewrite (setRange_heap _ _ _ _ Hset). exact Hbop.
    + reflexivity.
    + intros v Hv. left. exact Hv.
    + revert Hset. apply keeps_valid_setRange, Hg1.
  - discriminate.
  - cbn [bind]. destruct (getVarNode g3 V); cbn [bind]; [discriminate|].
    destruct (negb _); intros [= <- _]; apply Hk; reflexivity.
Qed.

Lemma keeps_valid_fixIntersects g component :
  pointersValid g -> keeps pointersValid (fixIntersects W g component).
Proof.
  intros Hg. unfold fixIntersects. apply keeps_foldM; [|exact Hg].
  intros g1 V Hg1. destruct (symbMap g1 !! V); [|apply keeps_ret, Hg1].
  apply keeps_foldM; [|exact Hg1].
  intros g2 opref Hg2. unfold getOp at 1, deref.
  destruct (heap g2 !! opref) as [op|] eqn:Hop; cbn [bind ret fault];
    [|intros ?; discriminate].
  destruct (getIntersect op); [apply keeps_ret, Hg2|].
  apply keeps_bind_val. intros b _. apply keeps_bind_val. intros sk _.
  apply keeps_ret. apply valid_setIntersectRange; assumption.
Qed.

Lemma valid_Meet_fixed g opref changed g' :
  pointersValid g -> Meet_fixed W g opref = inr (changed, g') ->
  pointersValid g'.
Proof.
  intros Hg. unfold Meet_fixed.
  destruct (getOp g opref) as [f | op]; cbn [bind]; [discriminate|].
  destruct (getVarNode g (getSink op)); cbn [bind]; [discriminate|].
  destruct (BasicOp_eval W g op) as [f | r]; cbn [bind]; [discriminate|].
  destruct (setRange g (getSink op) r) as [f | g1] eqn:Hset; cbn [bind];
    [discriminate|].
  intros [= _ <-]. revert Hset. apply keeps_valid_setRange, Hg.
Qed.

Lemma valid_update_uses L st returned st' :
  pointersValid (uGraph st) ->
  update_uses W L st = inr (returned, st') -> pointersValid (uGraph st').
Proof.
  revert st. induction L as [|opref L IH]; intros st Hst; cbn [update_uses].
  - intros [= _ <-]. exact Hst.
  - destruct (N.eqb _ _); [intros [= _ <-]; exact Hst|].
    destruct (Meet_fixed W (uGraph st) opref) as [f | [changed g]] eqn:Hm;
      cbn [bind]; [discriminate|].
    destruct (getOp g opref); cbn [bind]; [discriminate|].
    apply IH. cbn [uGraph]. eapply valid_Meet_fixed; eauto.
Qed.

Lemma valid_update_loop fuel compUseMap st st' :
  pointersValid (uGraph st) ->
  update_loop W fuel compUseMap st = inr st' -> pointersValid (uGraph st').
Proof.
  revert st. induction fuel as [|fuel IH]; intros st Hst; cbn [update_loop].
  - discriminate.
  - destruct (actv st) as [|V rest]; [intros [= <-]; exact Hst|].
    destruct (deref compUseMap V _); cbn [bind]; [discriminate|].
    destruct (update_uses W _ _) as [f | [returned st1]] eqn:Hu; cbn [bind];
      [discriminate|].
    apply valid_update_uses in Hu; [|exact Hst].
    destruct returned; [intros [= <-]; exact Hu | apply IH, Hu].
Qed.

Lemma valid_propagate_round g opref g' :
  pointersValid g ->
  (let* op := getOp g opref in
   let* r := BasicOp_eval W g op in
   let* g := setRange g (getSink op) r in
   match op with
   | SigmaOp i _ _ _ _ =>
       if isUnknown (BasicInterval_getRange i)
       then ret (set_heap g (<[opref := setUnresolved op true]> (heap g)))
       else ret g
   | _ => ret g
   end) = inr g' ->
  pointersValid g'.
Proof.
  intros Hg. unfold getOp, deref.
  destruct (heap g !! opref) as [op|] eqn:Hop; cbn [bind ret fault];
    [|discriminate].
  destruct (BasicOp_eval W g op) as [f | r]; cbn [bind]; [discriminate|].
  destruct (setRange g (getSink op) r) as [f | g1] eqn:Hset; cbn [bind];
    [discriminate|].
  pose proof (keeps_valid_setRange g _ r Hg g1 Hset) as Hg1.
  pose proof (setRange_heap _ _ _ _ Hset) as Hheap.
  destruct op; try (intros [= <-]; exact Hg1).
  destruct (isUnknown _); intros [= <-]; [|exact Hg1].
  eapply valid_heap_update;
    [rewrite Hheap; exact Hop | reflexivity | | exact Hg1].
  intros v Hv. left. exact Hv.
Qed.

Lemma keeps_valid_propagateToNextSCC g component :
  pointersValid g -> keeps pointersValid (propagateToNextSCC W g component).
Proof.
  intros Hg. unfold propagateToNextSCC. apply keeps_foldM; [|exact Hg].
  intros g1 V Hg1. apply keeps_bind_val. intros uses _.
  apply keeps_foldM; [|exact Hg1].
  intros g2 opref Hg2 g3. apply valid_propagate_round, Hg2.
Qed.

(** One step of the analysis keeps every pointer valid. *)
Lemma valid_step g g' :
  GraphStep W g g' -> pointersValid g -> pointersValid g'.
Proof.
  intros Hstep Hg. destruct Hstep.
  - apply valid_addVarNode, Hg.
  - apply valid_buildValueBranchMap, Hg.
  - apply valid_buildValueSwitchMap, Hg.
  - eapply keeps_valid_addUnaryOp; eauto.
  - eapply keeps_valid_addBinaryOp; eauto.
  - eapply keeps_valid_addPhiOp; eauto.
  - eapply keeps_valid_addSigmaOp; eauto.
  - eapply keeps_valid_MatchParametersAndReturnValues; eauto.
  - apply valid_buildVarNodes, Hg.
  - eapply keeps_valid_buildSymbolicIntersectMap; eauto.
  - eapply keeps_valid_addControlDependenceEdges; eauto.
  - apply valid_visit_subscript, Hg.
  - apply valid_delControlDependenceEdges, Hg.
  - eapply valid_generateEntryPoints; eauto.
  - eapply keeps_valid_fixIntersects; eauto.
  - eapply valid_update_loop; [|eassumption]. exact Hg.
  - eapply keeps_valid_setRange; eauto.
  - eapply keeps_valid_propagateToNextSCC; eauto.
Qed.

Lemma valid_reachable g : Reachable W g -> pointersValid g.
Proof.
  induction 1 as [|g g' _ IH Hstep].
  - split; [|split; [|split]]; cbn [emptyGraph heap defMap oprs symbMap].
    + intros ref op H. rewrite lookup_empty in H. discriminate.
    + intros v ref H. rewrite lookup_empty in H. discriminate.
    + intros ref H. apply elem_of_empty in H. contradiction.
    + intros V L ref H. rewrite lookup_empty in H. discriminate.
  - eapply valid_step; eauto.
Qed.
End ValidSolver.

(** ** The solver finds every object it follows a pointer to *)

Section SolverRuns.
Variable W : positive.

Lemma getVarNode_found g v :
  v ∈ dom (vars g) -> exists node, getVarNode g v = inr node.
Proof.
  intros Hv. apply elem_of_dom in Hv. destruct Hv as [node Hnode].
  exists node. unfold getVarNode, deref. rewrite Hnode. reflexivity.
Qed.

Lemma getRanges_found g vs :
  (forall v, v ∈ vs -> v ∈ dom (vars g)) ->
  exists rs, getRanges g vs = inr rs.
Proof.
  induction vs as [|v vs IH]; intros Hvs; cbn [getRanges].
  - eexists. reflexivity.
  - destruct (getVarNode_found g v) as [node ->]; [apply Hvs; left|].
    destruct IH as [rs ->]; [intros x Hx; apply Hvs; right; exact Hx|].
    cbn [bind ret]. eexists. reflexivity.
Qed.

Lemma eval_found g op :
  (forall v, v ∈ getSources op -> v ∈ dom (vars g)) ->
  getSources op <> [] ->
  exists r, BasicOp_eval W g op = inr r.
Proof.
  intros Hsrc Hne.
  destruct op as [i s src oc | i s src oc un | i s s1 s2 oc | i s srcs oc
                 | i s src]; cbn [BasicOp_eval getSources] in *.
  - destruct (getVarNode_found g src) as [node ->]; [apply Hsrc; left|].
    cbn [bind ret]. eexists. reflexivity.
  - destruct (getVarNode_found g src) as [node ->]; [apply Hsrc; left|].
    cbn [bind ret]. eexists. reflexivity.
  - destruct (getVarNode_found g s1) as [node1 ->]; [apply Hsrc; left|].
    destruct (getVarNode_found g s2) as [node2 ->];
      [apply Hsrc; right; left|].
    cbn [bind ret]. eexists. reflexivity.
  - destruct (getRanges_found g srcs Hsrc) as [rs Hrs].
    rewrite Hrs. cbn [bind]. apply getRanges_length in Hrs.
    destruct srcs as [|v vs]; [contradiction|].
    destruct rs as [|r rs]; [discriminate|]. cbn [PhiOp_eval].
    eexists. reflexivity.
  - eexists. reflexivity.
Qed.

Lemma setRange_found g v r :
  v ∈ dom (vars g) -> exists g', setRange g v r = inr g'.
Proof.
  intros Hv. unfold setRange.
  destruct (getVarNode_found g v Hv) as [node ->]. cbn [bind ret].
  eexists. reflexivity.
Qed.

Lemma Meet_fixed_found g opref op :
  heap g !! opref = Some op -> pointersValid g -> getSources op <> [] ->
  exists changed g',
    Meet_fixed W g opref = inr (changed, g')
    /\ heap g' = heap g /\ dom (vars g') = dom (vars g).
Proof.
  intros Hop (Hn & _) Hne. destruct (Hn opref op Hop) as [Hsink Hsrc].
  unfold Meet_fixed, getOp, deref. rewrite Hop. cbn [bind ret].
  destruct (getVarNode_found g (getSink op) Hsink) as [node ->].
  cbn [bind].
  destruct (eval_found g op Hsrc Hne) as [r ->]. cbn [bind].
  destruct (setRange_found g (getSink op) r Hsink) as [g' Hset].
  rewrite Hset. cbn [bind ret]. exists (Range_neqb (getRange node) r), g'.
  split; [reflexivity|]. split; [apply (setRange_heap _ _ _ _ Hset)|].
  apply (setRange_keys _ _ _ _ Hset).
Qed.

Lemma actv_insert_in actv v x :
  x ∈ actv_insert actv v -> x ∈ actv \/ x = v.
Proof.
  unfold actv_insert. destruct (bool_decide (v ∈ actv)); [auto|].
  intros Hx. apply elem_of_app in Hx. destruct Hx as [Hx | Hx]; [auto|].
  apply list_elem_of_singleton in Hx. auto.
Qed.

(** The loops of the bounded [update], which leave the heap [h] and the
    set [D] of the values with a node as they are, over a component
    [C]. *)
Section Update.
Variable h : gmap OpRef BasicOp.
Variable D : gset Value.
Variable C : gset Value.

Local Abbreviation Settled st :=
  (heap (uGraph st) = h /\ dom (vars (uGraph st)) = D
   /\ pointersValid (uGraph st)
   /\ forall V : Value, V ∈ actv st -> V ∈ C).

Local Abbreviation Usable L :=
  (forall ref : OpRef, ref ∈ (L : list OpRef) ->
     exists op, h !! ref = Some op /\ getSources op <> []
                /\ getSink op ∈ C).

Lemma update_uses_found L st :
  Settled st -> Usable L ->
  exists returned st',
    update_uses W L st = inr (returned, st') /\ Settled st'.
Proof.
  revert st. induction L as [|opref L IH]; intros st Hst HL;
    cbn [update_uses].
  - eexists _, _. split; [reflexivity | exact Hst].
  - destruct Hst as (Hh & HD & Hv & Ha).
    destruct (N.eqb _ _).
    + eexists _, _. split; [reflexivity|]. cbn [uGraph actv].
      split; [exact Hh|]. split; [exact HD|]. split; [exact Hv|].
      intros V HV. apply elem_of_nil in HV. contradiction.
    + destruct (HL opref ltac:(left)) as (op & Hop & Hne & Hsink).
      destruct (Meet_fixed_found (uGraph st) opref op)
        as (changed & g' & Hrun & Hh' & HD'); try assumption;
        [rewrite Hh; exact Hop|].
      rewrite Hrun. cbn [bind].
      unfold getOp, deref. rewrite Hh', Hh, Hop. cbn [bind ret].
      apply IH.
      * cbn [uGraph actv]. split; [congruence|]. split; [congruence|].
        split; [eapply valid_Meet_fixed; eauto|].
        intros V HV. destruct changed; [|apply Ha, HV].
        apply actv_insert_in in HV. destruct HV as [HV | ->];
          [apply Ha, HV | exact Hsink].
      * intros ref Href. apply HL. right. exact Href.
Qed.

Lemma update_loop_only_fuel (compUseMap : gmap Value (gset OpRef)) fuel st :
  (forall V, V ∈ C -> is_Some (compUseMap !! V)) ->
  (forall V L, compUseMap !! V = Some L -> Usable (elements L)) ->
  Settled st ->
  forall f, update_loop W fuel compUseMap st = inl f -> f = OutOfFuel.
Proof.
  intros Hdom Hlists. revert st.
  induction fuel as [|fuel IH]; intros st Hst f; cbn [update_loop].
  - intros [= <-]. reflexivity.
  - destruct (actv st) as [|V rest] eqn:Hactv; [discriminate|].
    destruct Hst as (Hh & HD & Hv & Ha).
    destruct (Hdom V) as [L HL]; [apply Ha; rewrite ?Hactv; left|].
    unfold deref. rewrite HL. cbn [bind ret].
    destruct (update_uses_found (elements L)
                (MkUpdate (uGraph st) (nIterations st) rest (evaluations st)))
      as (returned & st' & Hrun & Hst').
    + cbn [uGraph actv].
      split; [exact Hh|]. split; [exact HD|]. split; [exact Hv|].
      intros V' HV'. apply Ha. rewrite ?Hactv. right. exact HV'.
    + apply (Hlists V L HL).
    + rewrite Hrun. cbn [bind].
      destruct returned; [discriminate | apply IH, Hst'].
Qed.
End Update.
End SolverRuns.

Section PhasesRun.
Variable W : positive.

(** The objects of [g] are objects of [g'], with their sinks and
    sources. *)
Local Abbreviation SameOps g g' :=
  (forall (ref : OpRef) op,
     heap g !! ref = Some op ->
     exists op', heap g' !! ref = Some op' /\ getSink op' = getSink op
                 /\ getSources op' = getSources op).

Lemma SameOps_refl g : SameOps g g.
Proof. intros ref op Hop. exists op. auto. Qed.

Lemma SameOps_trans g1 g2 g3 : SameOps g1 g2 -> SameOps g2 g3 -> SameOps g1 g3.
Proof.
  intros H12 H23 ref op Hop.
  destruct (H12 ref op Hop) as (op2 & Hop2 & Hs2 & Hr2).
  destruct (H23 ref op2 Hop2) as (op3 & Hop3 & Hs3 & Hr3).
  exists op3. split; [exact Hop3|]. split; congruence.
Qed.

Lemma SameOps_heap g g' : heap g' = heap g -> SameOps g g'.
Proof. intros Hh ref op Hop. exists op. rewrite Hh. auto. Qed.

Lemma SameOps_update g ref op op' :
  heap g !! ref = Some op -> getSink op' = getSink op ->
  getSources op' = getSources op ->
  SameOps g (set_heap g (<[ref := op']> (heap g))).
Proof.
  intros Hop Hsink Hsrc ref0 op0 Hop0. cbn [heap set_heap].
  destruct (decide (ref = ref0)) as [<- | Hne].
  - rewrite lookup_insert_eq. exists op'.
    assert (op0 = op) by congruence. subst op0. auto.
  - rewrite lookup_insert_ne by exact Hne. exists op0. auto.
Qed.

(** The resolution of the sigma that defines [V], the first half of a
    round of [generateEntryPoints]. *)
Lemma resolve_sigma_found g V :
  pointersValid g ->
  exists g',
    (if String.prefix sigmaString (getName V) then
       match defMap g !! V with
       | Some dit =>
           let* bop := getOp g dit in
           match bop with
           | SigmaOp _ _ _ _ true =>
               let* r := BasicOp_eval W g bop in
               let* g := setRange g (getSink bop) r in
               ret (set_heap g (<[dit := setUnresolved bop false]> (heap g)))
           | _ => ret g
           end
       | None => ret g
       end
     else ret g) = inr g'
    /\ dom (vars g') = dom (vars g) /\ pointersValid g' /\ SameOps g g'.
Proof.
  intros Hg.
  assert (Hsame : exists g', ret g = inr g' /\ dom (vars g') = dom (vars g)
                             /\ pointersValid g' /\ SameOps g g')
    by (exists g; split; [reflexivity|]; split; [reflexivity|];
        split; [exact Hg | apply SameOps_refl]).
  destruct (String.prefix _ _); [|exact Hsame].
  destruct (defMap g !! V) as [dit|] eqn:Hdit; [|exact Hsame].
  pose proof Hg as (Hn & Hd & Ho & Hs).
  destruct (Hd V dit Hdit) as [bop Hbop].
  unfold getOp, deref. rewrite Hbop. cbn [bind ret].
  destruct bop as [| i s src oc un | | |]; try exact Hsame.
  destruct un; [|exact Hsame].
  destruct (Hn dit _ Hbop) as [Hsink Hsrc].
  destruct (eval_found W g (SigmaOp i s src oc true) Hsrc) as [r ->];
    [discriminate|].
  cbn [bind].
  destruct (setRange_found g (getSink (SigmaOp i s src oc true)) r Hsink)
    as [g1 Hset].
  rewrite Hset. cbn [bind ret].
  pose proof (setRange_heap _ _ _ _ Hset) as Hheap.
  pose proof (setRange_keys _ _ _ _ Hset) as [Hdom _].
  assert (Hg1 : pointersValid g1)
    by (revert Hset; apply keeps_valid_setRange; exact Hg).
  eexists. split; [reflexivity|]. split; [exact Hdom|]. split.
  - eapply valid_heap_update; [rewrite Hheap; exact Hbop | reflexivity | |
                               exact Hg1].
    intros v Hv. left. exact Hv.
  - apply (SameOps_trans g g1); [apply SameOps_heap, Hheap|].
    apply (SameOps_update g1 dit (SigmaOp i s src oc true));
      [rewrite Hheap; exact Hbop | reflexivity | reflexivity].
Qed.

Lemma generateEntryPoints_found g (component : gset Value) :
  pointersValid g -> (forall V, V ∈ component -> V ∈ dom (vars g)) ->
  exists g' entryPoints,
    generateEntryPoints W g component = inr (g', entryPoints)
    /\ dom (vars g') = dom (vars g) /\ pointersValid g' /\ SameOps g g'
    /\ forall V, V ∈ entryPoints -> V ∈ component.
Proof.
  intros Hg Hc. unfold generateEntryPoints.
  destruct (foldM_succeeds
              (fun st : ConstraintGraph * list Value =>
                 dom (vars (fst st)) = dom (vars g)
                 /\ pointersValid (fst st) /\ SameOps g (fst st)
                 /\ forall V, V ∈ snd st -> V ∈ component)
              (fun (st : ConstraintGraph * list Value) V =>
                 let '(g, entryPoints) := st in
                 let* g :=
                   if String.prefix sigmaString (getName V) then
                     match defMap g !! V with
                     | Some dit =>
                         let* bop := getOp g dit in
                         match bop with
                         | SigmaOp _ _ _ _ true =>
                             let* r := BasicOp_eval W g bop in
                             let* g := setRange g (getSink bop) r in
                             ret (set_heap g
                                    (<[dit := setUnresolved bop false]>
                                       (heap g)))
                         | _ => ret g
                         end
                     | None => ret g
                     end
                   else ret g in
                 let* var := getVarNode g V in
                 if negb (isUnknown (getRange var))
                 then ret (g, actv_insert entryPoints V)
                 else ret (g, entryPoints))
              (elements component) (g, []))
    as ([g' eps] & Hrun & Hd & Hv & Hs & He).
  - intros [g1 eps] V HV (Hd1 & Hv1 & Hs1 & He1). cbn [fst snd] in *.
    apply elem_of_elements in HV.
    destruct (resolve_sigma_found g1 V Hv1) as (g2 & Hrun & Hd2 & Hv2 & Hs2).
    rewrite Hrun. cbn [bind].
    destruct (getVarNode_found g2 V) as [node ->];
      [rewrite Hd2, Hd1; apply Hc, HV|].
    cbn [bind].
    assert (Hd' : dom (vars g2) = dom (vars g)) by congruence.
    pose proof (SameOps_trans g g1 g2 Hs1 Hs2) as Hs'.
    destruct (negb _); eexists; (split; [reflexivity|]); cbn [fst snd];
      (split; [exact Hd'|]); (split; [exact Hv2|]); (split; [exact Hs'|]).
    + intros V' HV'. apply actv_insert_in in HV'.
      destruct HV' as [HV' | ->]; [apply He1, HV' | exact HV].
    + exact He1.
  - cbn [fst snd]. split; [reflexivity|]. split; [exact Hg|].
    split; [apply SameOps_refl|]. intros V HV. apply elem_of_nil in HV.
    contradiction.
  - exists g', eps. cbn [fst snd] in *. auto.
Qed.

Lemma buildUseMap_found g (component : gset Value) :
  useMapCoversVars g -> usesSound g ->
  (forall V, V ∈ component -> V ∈ dom (vars g)) ->
  exists compUseMap, buildUseMap g component = inr compUseMap.
Proof.
  intros Hc [Hs _] Hcomp. unfold buildUseMap.
  destruct (foldM_succeeds (fun _ : gmap Value (gset OpRef) => True)
              (fun (compUseMap : gmap Value (gset OpRef)) V =>
                 let compUseMap := useMap_subscript compUseMap V in
                 let* p := deref (useMap g) V (NoUseMapEntry V) in
                 let* list :=
                   foldM (fun (list : gset OpRef) opref =>
                            let* op := getOp g opref in
                            let sink := getSink op in
                            if bool_decide (sink ∈ component)
                            then ret (list ∪ {[opref]})
                            else ret list)
                         (elements p) (compUseMap !!! V) in
                 ret (<[V := list]> compUseMap))
              (elements component) ∅) as (m & Hrun & _);
    [| exact I | exists m; exact Hrun].
  intros m V HV _. apply elem_of_elements in HV. cbv zeta.
  destruct (covered_lookup g V Hc (Hcomp V HV)) as [p Hp].
  unfold deref at 1. rewrite Hp. cbn [bind ret].
  match goal with
  | |- context [foldM ?f (elements p) ?i] =>
      destruct (foldM_succeeds (fun _ : gset OpRef => True) f (elements p) i)
        as (l & Hl & _)
  end.
  - intros l opref Hin _. apply elem_of_elements in Hin.
    destruct (Hs V p opref Hp Hin) as (op & Hop & _).
    unfold getOp, deref. rewrite Hop. cbn [bind ret].
    destruct (bool_decide _); eexists; split; try reflexivity; exact I.
  - exact I.
  - rewrite Hl. cbn [bind ret]. eexists. split; [reflexivity | exact I].
Qed.

Lemma propagate_round_found g (opref : OpRef) op :
  heap g !! opref = Some op -> pointersValid g -> getSources op <> [] ->
  exists g',
    (let* op := getOp g opref in
     let* r := BasicOp_eval W g op in
     let* g := setRange g (getSink op) r in
     match op with
     | SigmaOp i _ _ _ _ =>
         if isUnknown (BasicInterval_getRange i)
         then ret (set_heap g (<[opref := setUnresolved op true]> (heap g)))
         else ret g
     | _ => ret g
     end) = inr g'.
Proof.
  intros Hop (Hn & _) Hne. destruct (Hn opref op Hop) as [Hsink Hsrc].
  unfold getOp, deref. rewrite Hop. cbn [bind ret].
  destruct (eval_found W g op Hsrc Hne) as [r ->]. cbn [bind].
  destruct (setRange_found g (getSink op) r Hsink) as [g1 ->]. cbn [bind].
  destruct op; try (eexists; reflexivity).
  destruct (isUnknown _); eexists; reflexivity.
Qed.

Lemma propagateToNextSCC_found g (component : gset Value) :
  useMapCoversVars g -> usesSound g -> pointersValid g ->
  (forall V, V ∈ component -> V ∈ dom (vars g)) ->
  exists g', propagateToNextSCC W g component = inr g'.
Proof.
  intros Hc Hs Hv Hcomp. unfold propagateToNextSCC.
  set (Q := fun g1 : ConstraintGraph =>
              (dom (vars g1) = dom (vars g) /\ useMap g1 = useMap g)
              /\ usesSound g1 /\ pointersValid g1).
  match goal with
  | |- exists g', foldM ?f ?l ?s = inr g' =>
      destruct (foldM_succeeds Q f l s) as (g' & Hrun & _);
        [| exact (conj (conj eq_refl eq_refl) (conj Hs Hv))
         | exists g'; exact Hrun]
  end.
  intros g1 V HV (Hk1 & Hs1 & Hv1). apply elem_of_elements in HV.
  assert (Hc1 : useMapCoversVars g1)
    by (unfold useMapCoversVars; destruct Hk1 as [-> ->]; exact Hc).
  destruct (covered_lookup g1 V Hc1) as [p Hp];
    [destruct Hk1 as [-> _]; apply Hcomp, HV|].
  unfold deref at 1. rewrite Hp. cbn [bind ret].
  match goal with
  | |- exists g', foldM ?f ?l ?s = inr g' /\ _ =>
      destruct (foldM_succeeds
                  (fun g2 => Q g2 /\ useMap g2 !! V = Some p) f l s)
        as (g' & Hrun & Hg' & _);
        [| split; [exact (conj Hk1 (conj Hs1 Hv1)) | exact Hp]
         | exists g'; split; [exact Hrun | exact Hg']]
  end.
  intros g2 opref Hin [(Hk2 & Hs2 & Hv2) Hp2].
  apply elem_of_elements in Hin.
  destruct Hs2 as [Huses Hbound].
  destruct (Huses V p opref Hp2 Hin) as (op & Hop & Hsrc).
  destruct (propagate_round_found g2 opref op Hop Hv2) as [g3 Hrun].
  { intros Hnil. rewrite Hnil in Hsrc. apply elem_of_nil in Hsrc.
    contradiction. }
  exists g3. split; [exact Hrun|].
  pose proof (propagate_round_keys W g g2 opref g3 Hk2 Hrun) as Hk3.
  unfold Q. split; [split; [exact Hk3|]; split|].
  - apply (sound_propagate_round W g2 opref g3);
      [split; assumption | exact Hrun].
  - apply (valid_propagate_round W g2 opref g3 Hv2 Hrun).
  - destruct Hk3 as [_ ->]. destruct Hk2 as [_ <-]. exact Hp2.
Qed.

Lemma fixIntersects_found g (component : gset Value) :
  pointersValid g -> (forall V, V ∈ component -> V ∈ dom (vars g)) ->
  exists g', fixIntersects W g component = inr g'.
Proof.
  intros Hv Hcomp. unfold fixIntersects.
  set (Q := fun g1 : ConstraintGraph =>
              dom (vars g1) = dom (vars g) /\ symbMap g1 = symbMap g
              /\ pointersValid g1).
  match goal with
  | |- exists g', foldM ?f ?l ?s = inr g' =>
      destruct (foldM_succeeds Q f l s) as (g' & Hrun & _);
        [| exact (conj eq_refl (conj eq_refl Hv)) | exists g'; exact Hrun]
  end.
  intros g1 V HV (Hd1 & Hs1 & Hv1). apply elem_of_elements in HV.
  destruct (symbMap g1 !! V) as [ops|] eqn:Hops;
    [|exists g1; split; [reflexivity | exact (conj Hd1 (conj Hs1 Hv1))]].
  match goal with
  | |- exists g', foldM ?f ?l ?s = inr g' /\ _ =>
      destruct (foldM_succeeds
                  (fun g2 => Q g2 /\ symbMap g2 !! V = Some ops) f l s)
        as (g' & Hrun & Hg' & _);
        [| split; [exact (conj Hd1 (conj Hs1 Hv1)) | exact Hops]
         | exists g'; split; [exact Hrun | exact Hg']]
  end.
  intros g2 opref Hin [(Hd2 & Hs2 & Hv2) Hops2].
  apply elem_of_elements in Hin.
  pose proof Hv2 as (Hn & _ & _ & Hsy).
  destruct (Hsy V ops opref Hops2 Hin) as [op Hop].
  unfold getOp, deref. rewrite Hop. cbn [bind ret].
  destruct (getIntersect op) as [|rg b pred] eqn:Hitv.
  - exists g2. split; [reflexivity|]. split; [|exact Hops2].
    exact (conj Hd2 (conj Hs2 Hv2)).
  - destruct (getVarNode_found g2 V) as [bound ->];
      [rewrite Hd2; apply Hcomp, HV|].
    destruct (getVarNode_found g2 (getSink op)) as [sink ->];
      [exact (proj1 (Hn opref op Hop))|].
    cbn [bind ret]. eexists. split; [reflexivity|]. unfold Q.
    split; [|exact Hops2]. split; [exact Hd2|]. split; [exact Hs2|].
    apply valid_setIntersectRange; assumption.
Qed.

Lemma buildSymbolicIntersectMap_found g :
  pointersValid g -> exists g', buildSymbolicIntersectMap g = inr g'.
Proof.
  intros (_ & _ & Ho & _). unfold buildSymbolicIntersectMap.
  match goal with
  | |- context [foldM ?f ?l ?s] =>
      destruct (foldM_succeeds (fun _ : gmap Value (gset OpRef) => True)
                  f l s) as (m & Hrun & _);
        [| exact I | rewrite Hrun; cbn [bind ret]; eexists; reflexivity]
  end.
  intros m opref Hin _. apply elem_of_elements in Hin.
  destruct (Ho opref Hin) as [op Hop].
  unfold getOp, deref. rewrite Hop. cbn [bind ret].
  destruct (isUnaryOp op); [|eexists; split; [reflexivity | exact I]].
  destruct (getIntersect op); [eexists; split; [reflexivity | exact I]|].
  destruct (m !! bound); eexists; split; try reflexivity; exact I.
Qed.

Lemma fixedIterations_found (c : N) g (component : gset Value) :
  useMapCoversVars g -> usesSound g -> pointersValid g ->
  (forall V, V ∈ component -> V ∈ dom (vars g)) ->
  exists st, fixedIterations W c g component = inr st.
Proof.
  intros Hc Hs Hv Hcomp. unfold fixedIterations.
  destruct (buildUseMap_found g component Hc Hs Hcomp) as [cum Hcum].
  rewrite Hcum. cbn [bind].
  destruct (generateEntryPoints_found g component Hv Hcomp)
    as (g1 & eps & Hgen & Hd1 & Hv1 & Hsame & Heps).
  rewrite Hgen. cbn [bind].
  destruct (buildUseMap_loop g component _ _ _ Hcum) as [Hdom Hlists].
  { intros V L HV. rewrite lookup_empty in HV. discriminate. }
  rewrite dom_empty_L, list_to_set_elements_L, union_empty_l_L in Hdom.
  match goal with
  | |- exists st, ?m = inr st => destruct m as [f | st] eqn:Hrun
  end; [|exists st; reflexivity].
  exfalso.
  destruct (update_spec W (N.lor (N.of_nat (size component) * 2) c) cum eps g1)
    as [Hfuel _].
  apply (Hfuel f Hrun).
  unfold update in Hrun. revert Hrun.
  apply (update_loop_only_fuel W (heap g1) (dom (vars g1)) component).
  - intros V HV. apply elem_of_dom. rewrite Hdom. exact HV.
  - intros V L HL ref Href. apply elem_of_elements in Href.
    destruct (proj1 (Hlists V L HL ref) Href)
      as (uses & op & Hu & Hin & Hop & Hsink).
    destruct Hs as [Huses _].
    destruct (Huses V uses ref Hu Hin) as (op0 & Hop0 & Hsrc).
    assert (op0 = op) by congruence. subst op0.
    destruct (Hsame ref op Hop) as (op' & Hop' & Hsk & Hsr).
    exists op'. split; [exact Hop'|]. split; [|rewrite Hsk; exact Hsink].
    rewrite Hsr. intros Hnil. rewrite Hnil in Hsrc.
    apply elem_of_nil in Hsrc. contradiction.
  - cbn [uGraph actv]. split; [reflexivity|]. split; [reflexivity|].
    split; [exact Hv1 | exact Heps].
Qed.
End PhasesRun.

Section MeetsRun.
Variable W : positive.

Lemma setRange_node g v r g' x :
  setRange g v r = inr g' -> x ∈ dom (vars g) -> x ∈ dom (vars g').
Proof.
  intros Hset Hx. destruct (setRange_keys _ _ _ _ Hset) as [-> _]. exact Hx.
Qed.

Lemma Meet_cascade_found (sets : Range -> Range -> option Range) g opref op :
  heap g !! opref = Some op -> pointersValid g -> getSources op <> [] ->
  exists r, Meet_cascade W sets g opref = inr r.
Proof.
  intros Hop (Hn & _) Hne. destruct (Hn opref op Hop) as [Hsink Hsrc].
  unfold Meet_cascade, getOp, deref. rewrite Hop. cbn [bind ret].
  destruct (getVarNode_found g (getSink op) Hsink) as [node ->].
  cbn [bind].
  destruct (eval_found W g op Hsrc Hne) as [r ->]. cbn [bind].
  destruct (sets (getRange node) r) as [r'|].
  - destruct (setRange_found g (getSink op) r' Hsink) as [g' Hset].
    rewrite Hset. cbn [bind].
    destruct (getVarNode_found g' (getSink op)) as [node' ->];
      [apply (setRange_node _ _ _ _ _ Hset), Hsink|].
    cbn [bind ret]. eexists. reflexivity.
  - cbn [bind ret].
    destruct (getVarNode_found g (getSink op) Hsink) as [node' ->].
    cbn [bind ret]. eexists. reflexivity.
Qed.

Lemma Meet_narrow_found g opref op :
  heap g !! opref = Some op -> pointersValid g -> getSources op <> [] ->
  exists r, Meet_narrow W g opref = inr r.
Proof.
  intros Hop (Hn & _) Hne. destruct (Hn opref op Hop) as [Hsink Hsrc].
  unfold Meet_narrow, getOp, deref. rewrite Hop. cbn [bind ret].
  destruct (getVarNode_found g (getSink op) Hsink) as [node ->].
  cbn [bind].
  destruct (eval_found W g op Hsrc Hne) as [r ->]. cbn [bind]. cbv zeta.
  destruct (narrow_lower _ _ _) as [l|].
  - destruct (setRange_found g (getSink op)
                (RangeR l (getUpper (getRange node))) Hsink) as [g' Hset].
    rewrite Hset. cbn [bind ret].
    destruct (narrow_upper _ _ _) as [u|]; [|eexists; reflexivity].
    pose proof (setRange_node _ _ _ _ _ Hset Hsink) as Hsink'.
    destruct (getVarNode_found g' (getSink op) Hsink') as [node' ->].
    cbn [bind].
    destruct (setRange_found g' (getSink op)
                (RangeR (getLower (getRange node')) u) Hsink') as [g'' ->].
    cbn [bind ret]. eexists. reflexivity.
  - cbn [bind ret].
    destruct (narrow_upper _ _ _) as [u|]; [|eexists; reflexivity].
    destruct (getVarNode_found g (getSink op) Hsink) as [node' ->].
    cbn [bind].
    destruct (setRange_found g (getSink op)
                (RangeR (getLower (getRange node')) u) Hsink) as [g'' ->].
    cbn [bind ret]. eexists. reflexivity.
Qed.

Lemma succeeds_found {A} (m : Result A) :
  (exists a, m = inr a) -> succeeds m = true.
Proof. intros [a ->]. reflexivity. Qed.
End MeetsRun.

(** X27.  In every graph the analysis reaches, every pointer
    points to an object: the sink and each source of an operation have a
    node in [vars], and the addresses held by [defMap], [oprs] and
    [symbMap] are addresses of operations of the heap. *)
Theorem every_pointer_is_valid (W : positive) (g : ConstraintGraph) :
  Reachable W g ->
  (forall ref op,
     heap g !! ref = Some op ->
     getSink op ∈ dom (vars g)
     /\ forall v, v ∈ getSources op -> v ∈ dom (vars g))
  /\ (forall v ref, defMap g !! v = Some ref -> is_Some (heap g !! ref))
  /\ (forall ref, ref ∈ oprs g -> is_Some (heap g !! ref))
  /\ (forall V L ref,
        symbMap g !! V = Some L -> ref ∈ L -> is_Some (heap g !! ref)).
Proof.
  intros Hreach. exact (valid_reachable W g Hreach).
Qed.

Lemma every_pointer_is_valid_witness :
  (forall ref op,
     heap Examples.addBuilt !! ref = Some op ->
     getSink op ∈ dom (vars Examples.addBuilt)
     /\ forall v, v ∈ getSources op -> v ∈ dom (vars Examples.addBuilt))
  /\ (forall v ref, defMap Examples.addBuilt !! v = Some ref ->
                    is_Some (heap Examples.addBuilt !! ref))
  /\ (forall ref, ref ∈ oprs Examples.addBuilt ->
                  is_Some (heap Examples.addBuilt !! ref))
  /\ (forall V L ref,
        symbMap Examples.addBuilt !! V = Some L -> ref ∈ L ->
        is_Some (heap Examples.addBuilt !! ref)).
Proof.
  apply (every_pointer_is_valid 8 Examples.addBuilt).
  exact addBuilt_reachable.
Defined.

(** X28.  On a graph the analysis reaches and a component
    of values that have nodes, the solver finds every object it follows a
    pointer to: [buildSymbolicIntersectMap], [buildUseMap],
    [generateEntryPoints], [fixIntersects], the iterations before widening
    and [propagateToNextSCC] all run to their end; and so does each of
    the four meet operators on an operation taken from a use list. *)
Theorem solver_runs_to_its_end (W : positive) (c : N)
    (g : ConstraintGraph) (component : gset Value) :
  Reachable W g ->
  (forall V, V ∈ component -> V ∈ dom (vars g)) ->
  succeeds (buildSymbolicIntersectMap g) = true
  /\ succeeds (buildUseMap g component) = true
  /\ succeeds (generateEntryPoints W g component) = true
  /\ succeeds (fixIntersects W g component) = true
  /\ succeeds (fixedIterations W c g component) = true
  /\ succeeds (propagateToNextSCC W g component) = true
  /\ (forall v uses ref,
        useMap g !! v = Some uses -> ref ∈ uses ->
        succeeds (Meet_fixed W g ref) = true
        /\ succeeds (Meet_widen W g ref) = true
        /\ succeeds (Meet_growth W g ref) = true
        /\ succeeds (Meet_narrow W g ref) = true).
Proof.
  intros Hreach Hcomp.
  pose proof (covers_reachable W g Hreach) as Hc.
  pose proof (sound_reachable W g Hreach) as Hs.
  pose proof (valid_reachable W g Hreach) as Hv.
  split; [apply succeeds_found, buildSymbolicIntersectMap_found, Hv|].
  split; [apply succeeds_found, buildUseMap_found; assumption|].
  split.
  { destruct (generateEntryPoints_found W g component Hv Hcomp)
      as (g' & eps & Hrun & _).
    rewrite Hrun. reflexivity. }
  split; [apply succeeds_found, fixIntersects_found; assumption|].
  split; [apply succeeds_found, fixedIterations_found; assumption|].
  split; [apply succeeds_found, propagateToNextSCC_found; assumption|].
  intros v uses ref Hu Hin. destruct Hs as [Huses _].
  destruct (Huses v uses ref Hu Hin) as (op & Hop & Hsrc).
  assert (Hne : getSources op <> []).
  { intros Hnil. rewrite Hnil in Hsrc. apply elem_of_nil in Hsrc.
    contradiction. }
  split.
  { destruct (Meet_fixed_found W g ref op Hop Hv Hne)
      as (changed & g' & Hrun & _).
    rewrite Hrun. reflexivity. }
  split; [apply succeeds_found, (Meet_cascade_found W _ g ref op); assumption|].
  split; [apply succeeds_found, (Meet_cascade_found W _ g ref op); assumption|].
  apply succeeds_found, (Meet_narrow_found W g ref op); assumption.
Qed.

Lemma solver_runs_to_its_end_witness :
  succeeds (buildSymbolicIntersectMap Examples.addBuilt) = true
  /\ succeeds (buildUseMap Examples.addBuilt {[Examples.x; Examples.y]})
     = true
  /\ succeeds (generateEntryPoints 8 Examples.addBuilt
                 {[Examples.x; Examples.y]}) = true
  /\ succeeds (fixIntersects 8 Examples.addBuilt {[Examples.x; Examples.y]})
     = true
  /\ succeeds (fixedIterations 8 20 Examples.addBuilt
                 {[Examples.x; Examples.y]}) = true
  /\ succeeds (propagateToNextSCC 8 Examples.addBuilt
                 {[Examples.x; Examples.y]}) = true
  /\ (forall v uses ref,
        useMap Examples.addBuilt !! v = Some uses -> ref ∈ uses ->
        succeeds (Meet_fixed 8 Examples.addBuilt ref) = true
        /\ succeeds (Meet_widen 8 Examples.addBuilt ref) = true
        /\ succeeds (Meet_growth 8 Examples.addBuilt ref) = true
        /\ succeeds (Meet_narrow 8 Examples.addBuilt ref) = true).
Proof.
  apply (solver_runs_to_its_end 8 20 Examples.addBuilt
           {[Examples.x; Examples.y]}).
  - exact addBuilt_reachable.
  - intros V HV. apply elem_of_union in HV.
    destruct HV as [HV | HV]; apply elem_of_singleton in HV; subst V;
      apply elem_of_dom; vm_compute; eauto.
Defined.

(** ** The symbolic intervals of a branch *)

(** [getInversePredicate] negates the comparison. *)
Lemma icmp_inverse (W : positive) (pred : Predicate) (x b : Z) :
  icmp W (getInversePredicate pred) x b = negb (icmp W pred x b).
Proof.
  destruct pred; cbn [icmp getInversePredicate];
    rewrite ?negb_involutive, ?Z.leb_antisym, ?Z.ltb_antisym,
      ?negb_involutive; reflexivity.
Qed.

Lemma map_insert_new_keeps {A} (k k' : Value) (a v : A) (m : gmap Value A) :
  m !! k = Some v -> map_insert_new k' a m !! k = Some v.
Proof.
  intros Hk. unfold map_insert_new.
  destruct (m !! k') eqn:Hk'; [exact Hk|].
  rewrite lookup_insert_ne; [exact Hk | congruence].
Qed.

Lemma map_insert_new_fresh {A} (k : Value) (a : A) (m : gmap Value A) :
  m !! k = None -> map_insert_new k a m !! k = Some a.
Proof.
  intros Hk. unfold map_insert_new. rewrite Hk. apply lookup_insert_eq.
Qed.

Lemma map_insert_new_other {A} (k k' : Value) (a : A) (m : gmap Value A) :
  k <> k' -> map_insert_new k' a m !! k = m !! k.
Proof.
  intros Hne. unfold map_insert_new.
  destruct (m !! k'); [reflexivity|].
  apply lookup_insert_ne. congruence.
Qed.

Section BranchMap.
Variable W : positive.

(** The branch map after [buildValueBranchMap] on a comparison of two
    integers whose second operand is not a constant. *)
Lemma buildValueBranchMap_symbolic g br ici :
  isConditional br = true -> getCondition br = Some ici ->
  operandsAreIntegers ici = true ->
  isConstantInt (getOperand1 ici) = false ->
  let Op0 := getOperand0 ici in
  let Op1 := getOperand1 ici in
  let pred := getPredicate ici in
  let invPred := getInversePredicate pred in
  let CR := MkRange (Min W) (Max W) Unknown in
  let VBM0 := Build_ValueBranchMap (getSuccessor0 br) (getSuccessor1 br)
                (SymbInterval CR Op1 pred) (SymbInterval CR Op1 invPred) in
  let VBM1 := Build_ValueBranchMap (getSuccessor0 br) (getSuccessor1 br)
                (SymbInterval CR Op0 invPred) (SymbInterval CR Op0 pred) in
  let m0 := map_insert_new Op0 VBM0 (valuesBranchMap g) in
  let m1 := match castOperand0 ici with
            | Some Op0_0 => map_insert_new Op0_0 VBM0 m0
            | None => m0
            end in
  let m2 := map_insert_new Op1 VBM1 m1 in
  valuesBranchMap (buildValueBranchMap W g br)
  = match castOperand1 ici with
    | Some Op0_0 => map_insert_new Op0_0 VBM0 m2
    | None => m2
    end.
Proof.
  intros Hcond Hici Hint Hconst. unfold buildValueBranchMap.
  rewrite Hcond, Hici, Hint. cbn [negb]. cbv zeta.
  destruct (addVarNode_frame W (addVarNode W g (getOperand0 ici))
              (getOperand1 ici)) as (_ & _ & _ & _ & Hb2 & _).
  destruct (addVarNode_frame W g (getOperand0 ici))
    as (_ & _ & _ & _ & Hb1 & _).
  destruct (getOperand1 ici) eqn:HOp1; [discriminate Hconst|].
  destruct (castOperand0 ici); destruct (castOperand1 ici);
    unfold insertVBM; cbn [valuesBranchMap set_valuesBranchMap];
    rewrite Hb2, Hb1; reflexivity.
Qed.
End BranchMap.

(** X29.  For a branch on a comparison of two integers
    whose second operand is not a constant, [buildValueBranchMap] enters
    for the first operand (if it has no entry yet) the comparison's
    predicate on the true successor and its inverse on the false
    successor, both bounded by the second operand.  With
    [SymbInterval::fixIntersects] this is sound on both sides: whichever
    way the comparison of a value [x] of the first operand with a value
    [b] of the second turns out, the interval computed for that side
    holds [x]. *)
Theorem branch_intervals_of_first_operand (W : positive)
    (g : ConstraintGraph) (br : BranchInst) (ici : ICmpInst) :
  isConditional br = true -> getCondition br = Some ici ->
  operandsAreIntegers ici = true ->
  isConstantInt (getOperand1 ici) = false ->
  valuesBranchMap g !! getOperand0 ici = None ->
  valuesBranchMap (buildValueBranchMap W g br) !! getOperand0 ici
  = Some (Build_ValueBranchMap (getSuccessor0 br) (getSuccessor1 br)
            (SymbInterval (MkRange (Min W) (Max W) Unknown)
               (getOperand1 ici) (getPredicate ici))
            (SymbInterval (MkRange (Min W) (Max W) Unknown)
               (getOperand1 ici)
               (getInversePredicate (getPredicate ici))))
  /\ forall (bound sink : Range) (x b : Z),
       fits W x -> fits W (getLower bound) -> fits W (getUpper bound) ->
       getLower bound <= b <= getUpper bound ->
       getLower sink <= x <= getUpper sink ->
       getLower (SymbInterval_fixIntersects W
                   (if icmp W (getPredicate ici) x b
                    then getPredicate ici
                    else getInversePredicate (getPredicate ici))
                   bound sink) <= x
       /\ x <= getUpper (SymbInterval_fixIntersects W
                           (if icmp W (getPredicate ici) x b
                            then getPredicate ici
                            else getInversePredicate (getPredicate ici))
                           bound sink).
Proof.
  intros Hcond Hici Hint Hconst Hfresh. split.
  - rewrite (buildValueBranchMap_symbolic W g br ici Hcond Hici Hint Hconst).
    cbv zeta.
    destruct (castOperand1 ici); [apply map_insert_new_keeps|];
      apply map_insert_new_keeps;
      (destruct (castOperand0 ici); [apply map_insert_new_keeps|]);
      apply map_insert_new_fresh, Hfresh.
  - intros bound sink x b Hx Hl Hu Hb Hs.
    destruct (icmp W (getPredicate ici) x b) eqn:Hcmp.
    + apply (fixIntersects_holds W _ bound sink x b); assumption.
    + apply (fixIntersects_holds W _ bound sink x b); try assumption.
      rewrite icmp_inverse, Hcmp. reflexivity.
Qed.

Lemma branch_intervals_of_first_operand_witness :
  valuesBranchMap (buildValueBranchMap 8 emptyGraph
                     {| isConditional := true;
                        getCondition := Some Branching.cmp;
                        getSuccessor0 := 2%positive;
                        getSuccessor1 := 3%positive |})
  !! getOperand0 Branching.cmp
  = Some (Build_ValueBranchMap 2%positive 3%positive
            (SymbInterval (MkRange (Min 8) (Max 8) Unknown)
               (getOperand1 Branching.cmp) (getPredicate Branching.cmp))
            (SymbInterval (MkRange (Min 8) (Max 8) Unknown)
               (getOperand1 Branching.cmp)
               (getInversePredicate (getPredicate Branching.cmp))))
  /\ forall (bound sink : Range) (x b : Z),
       fits 8 x -> fits 8 (getLower bound) -> fits 8 (getUpper bound) ->
       getLower bound <= b <= getUpper bound ->
       getLower sink <= x <= getUpper sink ->
       getLower (SymbInterval_fixIntersects 8
                   (if icmp 8 (getPredicate Branching.cmp) x b
                    then getPredicate Branching.cmp
                    else getInversePredicate (getPredicate Branching.cmp))
                   bound sink) <= x
       /\ x <= getUpper (SymbInterval_fixIntersects 8
                           (if icmp 8 (getPredicate Branching.cmp) x b
                            then getPredicate Branching.cmp
                            else getInversePredicate
                                   (getPredicate Branching.cmp))
                           bound sink).
Proof.
  apply (branch_intervals_of_first_operand 8 emptyGraph
           {| isConditional := true; getCondition := Some Branching.cmp;
              getSuccessor0 := 2%positive; getSuccessor1 := 3%positive |}
           Branching.cmp); reflexivity.
Defined.

Section SecondOperand.
Variable W : positive.

(** The predicate that [buildValueBranchMap] stores for the second
    operand on the side that the values [x] and [y] of the operands
    take: the inverse on the true side, the predicate itself on the false
    side. *)
Local Abbreviation stored pred x y :=
  (if icmp W pred x y then getInversePredicate pred else pred).

Lemma second_operand_off_diagonal pred (bound sink : Range) (x y : Z) :
  match pred with
  | ICMP_SLT | ICMP_SLE | ICMP_SGT | ICMP_SGE => True
  | _ => False
  end ->
  fits W y -> fits W (getLower bound) -> fits W (getUpper bound) ->
  getLower bound <= x <= getUpper bound ->
  getLower sink <= y <= getUpper sink ->
  x <> y ->
  getLower (SymbInterval_fixIntersects W (stored pred x y) bound sink) <= y
  /\ y <= getUpper (SymbInterval_fixIntersects W (stored pred x y) bound sink).
Proof.
  unfold fits. intros Hpred Hy Hl Hu Hx Hs Hne.
  destruct pred; try contradiction; cbn [icmp getInversePredicate];
    match goal with
    | |- context [if ?c then _ else _] => destruct c eqn:Hcmp
    end;
    cbn [SymbInterval_fixIntersects]; unfold RangeR;
    try (destruct (APInt.ne _ _) eqn:Hsent);
    cbn [getLower getUpper];
    unfold APInt.add, APInt.sub; rewrite ?wrap_small by lia; lia.
Qed.

Lemma second_operand_on_diagonal pred (v : Z) :
  match pred with
  | ICMP_SLT | ICMP_SLE | ICMP_SGT | ICMP_SGE => True
  | _ => False
  end ->
  Min W < v < Max W ->
  ~ (getLower (SymbInterval_fixIntersects W (stored pred v v)
                 (RangeR v v) (RangeR v v)) <= v
     /\ v <= getUpper (SymbInterval_fixIntersects W (stored pred v v)
                         (RangeR v v) (RangeR v v))).
Proof.
  intros Hpred Hv.
  assert (Hmin : APInt.ne v (Min W) = true) by (apply ne_spec; lia).
  assert (Hmax : APInt.ne v (Max W) = true) by (apply ne_spec; lia).
  destruct pred; try contradiction; cbn [icmp getInversePredicate];
    rewrite ?Z.ltb_irrefl, ?Z.leb_refl;
    cbn [SymbInterval_fixIntersects]; unfold RangeR;
    cbn [getLower getUpper]; rewrite ?Hmin, ?Hmax; cbn [getLower getUpper];
    unfold APInt.add, APInt.sub; rewrite ?wrap_small by lia; lia.
Qed.
End SecondOperand.

(** X30.  For the same branch, whatever the predicate,
    [buildValueBranchMap] enters for the second operand (if it has no
    entry yet and is neither the first operand nor the operand of its
    cast) the inverse predicate on the true successor and the predicate
    itself on the false successor, bounded by the first operand: the
    inverse, not the swapped predicate.  For the four signed orderings the
    interval that [fixIntersects] computes for the side taken holds the
    value [y] of the second operand whenever it differs from the value
    [x] of the first; when both are equal to a [v] other than [Min] and
    [Max], with intervals [[v, v]], the interval of the side taken does
    not hold [v]. *)
Theorem branch_intervals_of_second_operand (W : positive)
    (g : ConstraintGraph) (br : BranchInst) (ici : ICmpInst) :
  isConditional br = true -> getCondition br = Some ici ->
  operandsAreIntegers ici = true ->
  isConstantInt (getOperand1 ici) = false ->
  valuesBranchMap g !! getOperand1 ici = None ->
  getOperand1 ici <> getOperand0 ici ->
  castOperand0 ici <> Some (getOperand1 ici) ->
  valuesBranchMap (buildValueBranchMap W g br) !! getOperand1 ici
  = Some (Build_ValueBranchMap (getSuccessor0 br) (getSuccessor1 br)
            (SymbInterval (MkRange (Min W) (Max W) Unknown)
               (getOperand0 ici)
               (getInversePredicate (getPredicate ici)))
            (SymbInterval (MkRange (Min W) (Max W) Unknown)
               (getOperand0 ici) (getPredicate ici)))
  /\ (match getPredicate ici with
      | ICMP_SLT | ICMP_SLE | ICMP_SGT | ICMP_SGE => True
      | _ => False
      end ->
      (forall (bound sink : Range) (x y : Z),
         fits W y -> fits W (getLower bound) -> fits W (getUpper bound) ->
         getLower bound <= x <= getUpper bound ->
         getLower sink <= y <= getUpper sink ->
         x <> y ->
         getLower (SymbInterval_fixIntersects W
                     (if icmp W (getPredicate ici) x y
                      then getInversePredicate (getPredicate ici)
                      else getPredicate ici) bound sink) <= y
         /\ y <= getUpper (SymbInterval_fixIntersects W
                             (if icmp W (getPredicate ici) x y
                              then getInversePredicate (getPredicate ici)
                              else getPredicate ici) bound sink))
      /\ (forall v : Z,
            Min W < v < Max W ->
            ~ (getLower (SymbInterval_fixIntersects W
                           (if icmp W (getPredicate ici) v v
                            then getInversePredicate (getPredicate ici)
                            else getPredicate ici)
                           (RangeR v v) (RangeR v v))
               <= v
               /\ v <= getUpper (SymbInterval_fixIntersects W
                                   (if icmp W (getPredicate ici) v v
                                    then getInversePredicate
                                           (getPredicate ici)
                                    else getPredicate ici)
                                   (RangeR v v) (RangeR v v))))).
Proof.
  intros Hcond Hici Hint Hconst Hfresh Hne Hcast.
  split; [|intros Hpred; split].
  - rewrite (buildValueBranchMap_symbolic W g br ici Hcond Hici Hint Hconst).
    cbv zeta.
    destruct (castOperand1 ici); [apply map_insert_new_keeps|];
      apply map_insert_new_fresh;
      (destruct (castOperand0 ici) as [Op0_0|];
       [rewrite map_insert_new_other by congruence|]);
      rewrite map_insert_new_other by exact Hne; exact Hfresh.
  - intros bound sink x y. apply second_operand_off_diagonal, Hpred.
  - intros v. apply second_operand_on_diagonal, Hpred.
Qed.

(** The branch on [x < y] of [Branching.cmp], and the same branch on
    [x == y], a predicate that is not an ordering. *)
Lemma branch_intervals_of_second_operand_witness :
  (valuesBranchMap (buildValueBranchMap 8 emptyGraph
                      {| isConditional := true;
                         getCondition := Some Branching.cmp;
                         getSuccessor0 := 2%positive;
                         getSuccessor1 := 3%positive |})
   !! Examples.y
   = Some (Build_ValueBranchMap 2%positive 3%positive
             (SymbInterval (MkRange (Min 8) (Max 8) Unknown)
                Examples.x ICMP_SGE)
             (SymbInterval (MkRange (Min 8) (Max 8) Unknown)
                Examples.x ICMP_SLT))
   /\ (getLower (SymbInterval_fixIntersects 8
                   (if icmp 8 ICMP_SLT 7 9 then ICMP_SGE else ICMP_SLT)
                   (RangeR 0 10) (RangeR 5 20)) <= 9
       /\ 9 <= getUpper (SymbInterval_fixIntersects 8
                           (if icmp 8 ICMP_SLT 7 9 then ICMP_SGE
                            else ICMP_SLT)
                           (RangeR 0 10) (RangeR 5 20)))
   /\ ~ (getLower (SymbInterval_fixIntersects 8
                     (if icmp 8 ICMP_SLT 7 7 then ICMP_SGE else ICMP_SLT)
                     (RangeR 7 7) (RangeR 7 7)) <= 7
         /\ 7 <= getUpper (SymbInterval_fixIntersects 8
                             (if icmp 8 ICMP_SLT 7 7 then ICMP_SGE
                              else ICMP_SLT)
                             (RangeR 7 7) (RangeR 7 7))))
  /\ valuesBranchMap
       (buildValueBranchMap 8 emptyGraph
          {| isConditional := true;
             getCondition := Some Branching.cmpEq;
             getSuccessor0 := 2%positive;
             getSuccessor1 := 3%positive |})
     !! Examples.y
     = Some (Build_ValueBranchMap 2%positive 3%positive
               (SymbInterval (MkRange (Min 8) (Max 8) Unknown)
                  Examples.x ICMP_NE)
               (SymbInterval (MkRange (Min 8) (Max 8) Unknown)
                  Examples.x ICMP_EQ)).
Proof.
  split.
  - destruct (branch_intervals_of_second_operand 8 emptyGraph
                {| isConditional := true; getCondition := Some Branching.cmp;
                   getSuccessor0 := 2%positive;
                   getSuccessor1 := 3%positive |}
                Branching.cmp eq_refl eq_refl eq_refl eq_refl eq_refl
                ltac:(discriminate) ltac:(discriminate))
      as [Hentry Hsides].
    destruct (Hsides I) as [Hoff Hon].
    split; [exact Hentry|]. split.
    + apply (Hoff (RangeR 0 10) (RangeR 5 20) 7 9);
        try (split; vm_compute; discriminate).
      discriminate.
    + apply (Hon 7). split; reflexivity.
  - destruct (branch_intervals_of_second_operand 8 emptyGraph
                {| isConditional := true;
                   getCondition := Some Branching.cmpEq;
                   getSuccessor0 := 2%positive;
                   getSuccessor1 := 3%positive |}
                Branching.cmpEq eq_refl eq_refl eq_refl eq_refl eq_refl
                ltac:(discriminate) ltac:(discriminate))
      as [Hentry _].
    exact Hentry.
Defined.
